(** * Watchr: a shallow embedding of the event classifier, the inode index,
      the rename correlator, the timer multiplexer, the concurrency throttle
      and the stat gateway, with the properties their specification states.

    Source files embedded here:
    - [src/constants.ts]                 (event names, inode types, defaults)
    - [src/watchr-stats.ts]              (class [WatchrStats])
    - [src/set-multi-map.ts]             (class [SetMultiMap])
    - [src/file-system-state-manager.ts] (class [FileSystemStateManager])
    - [src/file-system-locker.ts]        (class [FileSystemLocker])
    - [src/lock-resolver.ts]             (class [LockResolver])
    - [src/file-rename-handler.ts]       (class [FileRenameHandler])
    - [src/retry-queue.ts]               (class [RetryQueue])
    - [src/file-system.ts], [src/decorators/timeout.ts] ([FileSystem.getStats],
      [FileSystem.isSubPath], [FileSystem.readDirectory])
    - [src/file-system-entries.ts]
    - [src/utils.ts]                     ([uniqueSortedArray], [debounce],
      [castError])
    - [src/file-system-event-manager.ts] ([deduplicateEvents], [isSubRoot],
      [onTargetEvents])
    - [src/watchr.ts]                    (the scan for nested paths of
      [watchPaths]; [addWatcherConfig], [close], [emitEvent],
      [watchersClose], [watcherClose])

    Conventions of the embedding.
    - [InodeNumber = bigint | number] is [Z]: [WatchrStats] turns every inode
      up to [Number.MAX_SAFE_INTEGER] into a number and keeps larger ones as
      bigints, so one numeric value never occurs under both JS types.
    - [Path] is [string]; JS [undefined] is [None].
    - A JS [Map] whose iteration order is never observed is a [gmap]; a JS
      [Set] or [Map] that the code iterates is a duplicate-free list in
      insertion order.
    - Closures are defunctionalised: a closure is the record of the variables
      it captures, and a closure used as a [Map] key carries a fresh number
      standing for its object identity.
    - Wall-clock time ([Date.now()]) is a [Z] of milliseconds. Calls of the
      API and ticks of the [setInterval] timers are the steps of the model;
      where a statement is about when something happens, the timers are
      taken to tick on time.
    - An awaited promise is an input: the value it resolved to, or the
      behaviour of the environment that settles it.
    - A character of a string is a code unit: [length], [startsWith] and
      the order of [sort] are those of the sequence of code units. *)

From Stdlib Require Import ZArith QArith Lia.
From stdpp Require Import base decidable option list gmap strings fin_maps sorting.

#[local] Open Scope Z_scope.

(* ===================================================================== *)
(** * [src/constants.ts] *)
(* ===================================================================== *)

(** Default rename timeout in milliseconds. *)
Definition renameTimeout : Z := 250.

(** Default file descriptor limit. *)
Definition fileDescriptorLimit : Z := 2048.

(** [InodeType = { DIR: 1, FILE: 2 }]. *)
Inductive InodeType : Type := DIR | FILE.

(** [FileSystemEvent]: the seven event names. *)
Inductive FileSystemEvent : Type :=
| ADD | ADD_DIR | CHANGE | RENAME | RENAME_DIR | UNLINK | UNLINK_DIR.

#[global] Instance InodeType_eq_dec : EqDecision InodeType.
Proof. solve_decision. Defined.

#[global] Instance FileSystemEvent_eq_dec : EqDecision FileSystemEvent.
Proof. solve_decision. Defined.

Definition FileSystemEvent_code (e : FileSystemEvent) : nat :=
  match e with
  | ADD => 0 | ADD_DIR => 1 | CHANGE => 2 | RENAME => 3
  | RENAME_DIR => 4 | UNLINK => 5 | UNLINK_DIR => 6
  end%nat.

Definition FileSystemEvent_decode (n : nat) : FileSystemEvent :=
  match n with
  | 0 => ADD | 1 => ADD_DIR | 2 => CHANGE | 3 => RENAME
  | 4 => RENAME_DIR | 5 => UNLINK | _ => UNLINK_DIR
  end%nat.

#[global] Instance FileSystemEvent_countable : Countable FileSystemEvent.
Proof.
  apply (inj_countable' FileSystemEvent_code FileSystemEvent_decode).
  intros []; reflexivity.
Defined.

(** [FileEvent] and [DirectoryEvent], merged in the type [LockEvent]:
    [DirectoryEvent] has no [change] member. *)
Record LockEvent : Type := {
  le_add : FileSystemEvent;
  le_change : option FileSystemEvent;
  le_rename : FileSystemEvent;
  le_unlink : FileSystemEvent
}.

Definition FileEvent : LockEvent :=
  {| le_add := ADD; le_change := Some CHANGE; le_rename := RENAME; le_unlink := UNLINK |}.

Definition DirectoryEvent : LockEvent :=
  {| le_add := ADD_DIR; le_change := None; le_rename := RENAME_DIR; le_unlink := UNLINK_DIR |}.

(** [Event = [FileSystemEvent, Path, Path?]]: what [emitEvent] receives. *)
Record Event : Type := {
  ev_type : FileSystemEvent;
  ev_path : string;
  ev_next : option string
}.

#[global] Instance Event_eq_dec : EqDecision Event.
Proof. solve_decision. Defined.

(* ===================================================================== *)
(** * [src/watchr-stats.ts] *)
(* ===================================================================== *)

(** [Stats = BigIntStats], as far as the program reads it. *)
Record Stats : Type := {
  ino : Z;
  size : Z;
  st_isFile : bool;
  st_isDirectory : bool;
  st_isSymbolicLink : bool
}.

Record WatchrStats : Type := {
  inodeNumber : Z;
  ws_size : Z;
  isFile : bool;
  isDirectory : bool;
  isSymbolicLink : bool
}.

#[global] Instance WatchrStats_eq_dec : EqDecision WatchrStats.
Proof. solve_decision. Defined.

(** The constructor [new WatchrStats(stats)]. The two branches of the inode
    conversion keep the numeric value; [Number(stats.size)] is exact up to
    [2^53], and no decision of the program reads the size. *)
Definition newWatchrStats (stats : Stats) : WatchrStats :=
  {| inodeNumber := ino stats;
     ws_size := size stats;
     isFile := st_isFile stats;
     isDirectory := st_isDirectory stats;
     isSymbolicLink := st_isSymbolicLink stats |}.

(** Sample metadata, as [stat] returns it. *)
Definition file_stats (i sz : Z) : Stats :=
  {| ino := i; size := sz; st_isFile := true; st_isDirectory := false;
     st_isSymbolicLink := false |}.

Definition directory_stats (i : Z) : Stats :=
  {| ino := i; size := 0; st_isFile := false; st_isDirectory := true;
     st_isSymbolicLink := false |}.

(* ===================================================================== *)
(** * JS [Set] objects *)
(* ===================================================================== *)

Section JSSet.
Context {V : Type} `{EqDecision V}.

(** A JS [Set<V>] holds its elements in insertion order, each once.
    [set_add] is [Set.prototype.add], [set_delete] is
    [Set.prototype.delete]. *)
Definition set_add (v : V) (s : list V) : list V :=
  if decide (v ∈ s) then s else s ++ [v].

Definition set_delete (v : V) (s : list V) : list V :=
  filter (λ x, x ≠ v) s.

(** [set.size]. *)
Definition set_size (s : list V) : Z := Z.of_nat (length s).

End JSSet.

(* ===================================================================== *)
(** * [src/set-multi-map.ts] *)
(* ===================================================================== *)

Module SetMultiMap.
Section SetMultiMap.
Context {K V : Type} `{Countable K} `{EqDecision V}.

(** [SetMultiMap<K, V> extends Map<K, Set<V>>]. The values of the map are
    references to [Set] objects: [set(key, aSet)] stores the caller's
    object itself, so two keys can share one [Set]. [sets] is the store of
    the [Set] objects, [entries] the map from keys to references, and
    [nextRef] the next unused reference. *)
Record t : Type := {
  entries : gmap K nat;
  sets : gmap nat (list V);
  nextRef : nat
}.

Definition empty : t := {| entries := ∅; sets := ∅; nextRef := 0 |}.

(** The [Set] object behind a reference. *)
Definition deref (m : t) (r : nat) : list V := default [] (sets m !! r).

(** [map.get(key)], dereferenced. *)
Definition get (m : t) (key : K) : option (list V) :=
  deref m <$> entries m !! key.

(** [new Set(vs)], evaluated by a caller: allocates a [Set] object. *)
Definition newSet (vs : list V) (m : t) : nat * t :=
  (nextRef m,
   {| entries := entries m;
      sets := <[nextRef m := foldl (λ s v, set_add v s) [] vs]> (sets m);
      nextRef := S (nextRef m) |}).

(** [set(key, value)]:
    [super.set(key, value instanceof Set ? value
                     : (super.get(key) ?? new Set<V>()).add(value))].
    The argument is [inl v] for a single value and [inr r] for (a
    reference to) a [Set]. *)
Definition set (key : K) (value : V + nat) (m : t) : t :=
  match value with
  | inr r =>
      {| entries := <[key := r]> (entries m); sets := sets m; nextRef := nextRef m |}
  | inl v =>
      match entries m !! key with
      | Some r =>
          {| entries := <[key := r]> (entries m);
             sets := <[r := set_add v (deref m r)]> (sets m);
             nextRef := nextRef m |}
      | None =>
          {| entries := <[key := nextRef m]> (entries m);
             sets := <[nextRef m := set_add v []]> (sets m);
             nextRef := S (nextRef m) |}
      end
  end.

(** [find(key, iterator)]: the first value of the key's set, in insertion
    order, that satisfies [iterator]. *)
Definition find (key : K) (iterator : V → bool) (m : t) : option V :=
  match get m key with
  | Some values => List.find iterator values
  | None => None
  end.

(** [deleteValue(key, value)]; returns the boolean and the new map.
    [value = None] is [undefined]: the whole key is deleted. *)
Definition deleteValue (key : K) (value : option V) (m : t) : bool * t :=
  match value with
  | None =>
      (bool_decide (is_Some (entries m !! key)),
       {| entries := delete key (entries m); sets := sets m; nextRef := nextRef m |})
  | Some v =>
      match entries m !! key with
      | Some r =>
          let values := deref m r in
          let deleted := bool_decide (v ∈ values) in
          let values' := set_delete v values in
          let sets' := <[r := values']> (sets m) in
          if decide (length values' = 0%nat) then
            (deleted,
             {| entries := delete key (entries m); sets := sets'; nextRef := nextRef m |})
          else
            (deleted,
             {| entries := entries m; sets := sets'; nextRef := nextRef m |})
      | None => (false, m)
      end
  end.

(** [map.clear()]. *)
Definition clear (m : t) : t :=
  {| entries := ∅; sets := sets m; nextRef := nextRef m |}.

(** [value ∈ map.get(key)]. *)
Definition member (m : t) (key : K) (value : V) : Prop :=
  ∃ values, get m key = Some values ∧ value ∈ values.

Definition memberb (m : t) (key : K) (value : V) : bool :=
  match get m key with
  | Some values => bool_decide (value ∈ values)
  | None => false
  end.

(** What a client can do with the map: allocate a [Set] of its own, call
    [set] with a single value ([inl]) or with a [Set] it holds ([inr]), and
    call [deleteValue]. *)
Inductive op : Type :=
| OpNewSet (values : list V)
| OpSet (key : K) (value : V + nat)
| OpDeleteValue (key : K) (value : option V).

Definition step (m : t) (o : op) : t :=
  match o with
  | OpNewSet values => snd (newSet values m)
  | OpSet key value => set key value m
  | OpDeleteValue key value => snd (deleteValue key value m)
  end.

Definition run (ops : list op) : t := foldl step empty ops.

(** The operations that never hand a [Set] object to the map. *)
Definition single_valued (o : op) : Prop :=
  match o with
  | OpSet _ (inl _) | OpDeleteValue _ _ => True
  | OpSet _ (inr _) | OpNewSet _ => False
  end.

(** Every key present in the map is associated with a non-empty set. *)
Definition nonempty_sets (m : t) : Prop :=
  ∀ key values, get m key = Some values → values ≠ [].

(** Every key refers to an allocated, non-empty [Set], and no two keys
    share a [Set] object. *)
Definition well_formed (m : t) : Prop :=
  (∀ key r, entries m !! key = Some r →
            r < nextRef m ∧ ∃ values, sets m !! r = Some values ∧ values ≠ [])%nat
  ∧ (∀ key1 key2 r, entries m !! key1 = Some r → entries m !! key2 = Some r → key1 = key2).

End SetMultiMap.
Arguments t : clear implicits.
Arguments t K V {_ _}.
Arguments op : clear implicits.
End SetMultiMap.

(* ===================================================================== *)
(** * [src/file-system-state-manager.ts] *)
(* ===================================================================== *)

Module FileSystemStateManager.

(** [targetInodes] is the per-event-type observed inode table, [_paths] the
    inode index and [_stats] the path-to-metadata cache. *)
Record t : Type := {
  targetInodes : gmap FileSystemEvent (gmap string (Z * InodeType));
  _paths : SetMultiMap.t Z string;
  _stats : gmap string WatchrStats
}.

Definition empty : t :=
  {| targetInodes := ∅; _paths := SetMultiMap.empty; _stats := ∅ |}.

(** [getInodeNumber(targetPath, event, type?)]:
    [const [inodeNumber, inodeType] = this.targetInodes[event]?.[targetPath] ?? [];
     return type && inodeType !== type ? undefined : inodeNumber]. *)
Definition getInodeNumber (targetPath : string) (event : FileSystemEvent)
    (type : option InodeType) (s : t) : option Z :=
  match targetInodes s !! event ≫= (λ eventInodes, eventInodes !! targetPath) with
  | Some (inodeNumber, inodeType) =>
      match type with
      | Some ty => if decide (inodeType ≠ ty) then None else Some inodeNumber
      | None => Some inodeNumber
      end
  | None => None
  end.

(** The 4-bit pattern of [determineEvents]:
    [(previousStats ? 8 : 0) | (nextStats ? 4 : 0) | (wasFile ? 2 : 0) | (isFile ? 1 : 0)]. *)
Definition pattern (previousStats nextStats : option WatchrStats) : Z :=
  let wasFile := default false (isFile <$> previousStats) in
  let nowFile := default false (isFile <$> nextStats) in
  Z.lor (Z.lor (Z.lor (if previousStats is Some _ then 8 else 0)
                      (if nextStats is Some _ then 4 else 0))
               (if wasFile then 2 else 0))
        (if nowFile then 1 else 0).

(** [determineEvents(previousStats, nextStats)]: the [switch] on the
    pattern. The non-null assertions [previousStats!] and [nextStats!] of
    the source are the inner patterns [Some _]; a case label reached
    without the metadata it asserts falls to the last branch (lemma
    [pattern_present] shows that this cannot happen). *)
Definition determineEvents (previousStats nextStats : option WatchrStats)
    : list (FileSystemEvent * WatchrStats) :=
  match pattern previousStats nextStats, previousStats, nextStats with
  | 4, _, Some next => [(ADD_DIR, next)]
  | 5, _, Some next => [(ADD, next)]
  | 8, Some previous, _ => [(UNLINK_DIR, previous)]
  | 10, Some previous, _ => [(UNLINK, previous)]
  | 15, _, Some next => [(CHANGE, next)]
  | 14, Some previous, Some next => [(UNLINK, previous); (ADD_DIR, next)]
  | 13, Some previous, Some next => [(UNLINK_DIR, previous); (ADD, next)]
  | 12, Some previous, Some next => [(UNLINK_DIR, previous); (ADD_DIR, next)]
  | _, _, _ => []
  end.

(** The private [getStats(targetPath)], applied to what
    [FileSystem.getStats(targetPath)] resolved to:
    [if (!stats || !(stats.isFile() || stats.isDirectory())) { return }]. *)
Definition getStats (resolved : option Stats) : option WatchrStats :=
  match resolved with
  | None => None
  | Some stats =>
      if negb (st_isFile stats || st_isDirectory stats) then None
      else Some (newWatchrStats stats)
  end.

(** [updateInode(targetPath, event, stats)]:
    [const eventInodes = this.targetInodes[event] ??= {};
     eventInodes[targetPath] = [stats.inodeNumber, stats.isFile() ? FILE : DIR]]. *)
Definition updateInode (targetPath : string) (event : FileSystemEvent)
    (stats : WatchrStats) (s : t) : t :=
  let eventInodes := default ∅ (targetInodes s !! event) in
  {| targetInodes :=
       <[event := <[targetPath := (inodeNumber stats, if isFile stats then FILE else DIR)]> eventInodes]>
         (targetInodes s);
     _paths := _paths s;
     _stats := _stats s |}.

(** [updateInodes(targetPath, events)]: the [for] loop over the events. *)
Definition updateInodes (targetPath : string)
    (events : list (FileSystemEvent * WatchrStats)) (s : t) : t :=
  foldl (λ s event, updateInode targetPath (fst event) (snd event) s) s events.

(** [updateStats(targetPath, stats)]. *)
Definition updateStats (targetPath : string) (stats : option WatchrStats) (s : t) : t :=
  match stats with
  | Some stats =>
      {| targetInodes := targetInodes s;
         _paths := SetMultiMap.set (inodeNumber stats) (inl targetPath) (_paths s);
         _stats := <[targetPath := stats]> (_stats s) |}
  | None =>
      {| targetInodes := targetInodes s;
         _paths :=
           snd (SetMultiMap.deleteValue
                  (default (-1) (inodeNumber <$> _stats s !! targetPath))
                  (Some targetPath) (_paths s));
         _stats := delete targetPath (_stats s) |}
  end.

(** [update(targetPath)]; [resolved] is the value that the awaited
    [FileSystem.getStats(targetPath)] produced. Everything after the
    [await] runs in one turn, so the cached metadata is read in the state
    in which the updates are made. *)
Definition update (targetPath : string) (resolved : option Stats) (s : t)
    : list FileSystemEvent * t :=
  let nextStats := getStats resolved in
  let events := determineEvents (_stats s !! targetPath) nextStats in
  let s := updateStats targetPath nextStats s in
  let s := updateInodes targetPath events s in
  (fst <$> events, s).

(** [reset()]. *)
Definition reset (s : t) : t :=
  {| targetInodes := ∅; _paths := SetMultiMap.clear (_paths s); _stats := ∅ |}.

(** The classification table of the specification, row by row, over
    (had-previous, has-next, previous-was-file, next-is-file). *)
Definition classification_table (previous next : option WatchrStats)
    : list FileSystemEvent :=
  match previous, next with
  | None, None => []
  | None, Some n => if isFile n then [ADD] else [ADD_DIR]
  | Some p, None => if isFile p then [UNLINK] else [UNLINK_DIR]
  | Some p, Some n =>
      match isFile p, isFile n with
      | true, true => [CHANGE]
      | true, false => [UNLINK; ADD_DIR]
      | false, true => [UNLINK_DIR; ADD]
      | false, false => [UNLINK_DIR; ADD_DIR]
      end
  end.

(** The inode index and the cache are in sync at path [p] and inode [i]. *)
Definition in_sync_at (s : t) (i : Z) (p : string) : Prop :=
  SetMultiMap.member (_paths s) i p ↔ inodeNumber <$> _stats s !! p = Some i.

(** One half of the synchronisation: every cached path is a member of
    the index set of its cached inode. *)
Definition cache_indexed (s : t) : Prop :=
  ∀ p stats, _stats s !! p = Some stats → SetMultiMap.member (_paths s) (inodeNumber stats) p.

(** The state after a sequence of [update] calls on a new manager, each
    with the path and with what [stat] observed. *)
Definition run (calls : list (string * option Stats)) : t :=
  foldl (λ s call, snd (update (fst call) (snd call) s)) empty calls.

(** ** Vocabulary for the statements about the recorded inodes *)

(** The lock namespace of an event name: [processLock] is called with
    [InodeType.DIR] for the directory events and with [InodeType.FILE] for
    the file events. *)
Definition namespace_of (event : FileSystemEvent) : InodeType :=
  match event with
  | ADD_DIR | RENAME_DIR | UNLINK_DIR => DIR
  | _ => FILE
  end.

(** The metadata that [determineEvents] attaches to an event: the cached
    one for a removal, the fetched one otherwise. *)
Definition subject (event : FileSystemEvent) (previous next : option WatchrStats)
    : option WatchrStats :=
  match event with
  | UNLINK | UNLINK_DIR => previous
  | _ => next
  end.


End FileSystemStateManager.

(* ===================================================================== *)
(** * Closures of [src/file-rename-handler.ts] *)
(* ===================================================================== *)

(** [LockConfig]: the [fileSystemLocker] member is a reference to one of
    the handler's two lockers, named here by the inode type that selects
    it ([inodeType === InodeType.FILE ? this.fileLocks : this.directoryLocks]). *)
Record LockConfig : Type := {
  lc_inodeNumber : option Z;
  lc_targetPath : string;
  lc_lockEvent : LockEvent;
  lc_fileSystemLocker : InodeType
}.

(** The variables captured by the closures that [addLock] and [unlinkLock]
    create once the inode number is known to be truthy, with [c_free] the
    identity of the [free] function created by the same call. *)
Record Closure : Type := {
  c_inodeNumber : Z;
  c_targetPath : string;
  c_lockEvent : LockEvent;
  c_fileSystemLocker : InodeType;
  c_free : nat
}.

(** A [Resolver] registered with [LockResolver]: the [free] of an
    [addLock] call or the [free] of an [unlinkLock] call. *)
Inductive Resolver : Type :=
| AddFree (c : Closure)
| UnlinkFree (c : Closure).

Definition resolver_id (fn : Resolver) : nat :=
  match fn with AddFree c | UnlinkFree c => c_free c end.

(* ===================================================================== *)
(** * [src/file-system-locker.ts] *)
(* ===================================================================== *)

Module FileSystemLocker.

(** [add] holds the [resolve] closures of [addLock], [unlink] the
    [overridden] closures of [unlinkLock], both keyed by inode number. *)
Record t : Type := {
  add : gmap Z Closure;
  unlink : gmap Z Closure
}.

Definition empty : t := {| add := ∅; unlink := ∅ |}.

Definition addLock (inodeNumber : Z) (callback : Closure) (l : t) : t :=
  {| add := <[inodeNumber := callback]> (add l); unlink := unlink l |}.

Definition addUnlink (inodeNumber : Z) (producer : Closure) (l : t) : t :=
  {| add := add l; unlink := <[inodeNumber := producer]> (unlink l) |}.

Definition removeLock (inodeNumber : Z) (l : t) : t :=
  {| add := delete inodeNumber (add l); unlink := unlink l |}.

Definition removeUnlink (inodeNumber : Z) (l : t) : t :=
  {| add := add l; unlink := delete inodeNumber (unlink l) |}.

Definition getLock (inodeNumber : Z) (l : t) : option Closure := add l !! inodeNumber.

Definition getUnlink (inodeNumber : Z) (l : t) : option Closure := unlink l !! inodeNumber.

Definition reset (l : t) : t := empty.

End FileSystemLocker.

(* ===================================================================== *)
(** * [src/lock-resolver.ts]: the static state and its accessors *)
(* ===================================================================== *)

Module LockResolver.

(** [private static readonly interval = 50]. *)
Definition interval : Z := 50.

(** [intervalId] is [Some t] while the interval timer is set, [t] being
    the time at which it calls [resolve] next. [resolvers] is the
    [Map<Resolver, number>], in insertion order, keyed by the identity of
    the function. *)
Record t : Type := {
  intervalId : option Z;
  resolvers : list (Resolver * Z)
}.

Definition empty : t := {| intervalId := None; resolvers := [] |}.

Definition has (fn : Resolver) (entries : list (Resolver * Z)) : bool :=
  existsb (λ e, bool_decide (resolver_id (fst e) = resolver_id fn)) entries.

(** [Map.prototype.set]: an existing key keeps its position. *)
Definition map_set (fn : Resolver) (timestamp : Z) (entries : list (Resolver * Z))
    : list (Resolver * Z) :=
  if has fn entries then
    (λ e, if bool_decide (resolver_id (fst e) = resolver_id fn)
          then (fst e, timestamp) else e) <$> entries
  else entries ++ [(fn, timestamp)].

Definition map_delete (fn : Resolver) (entries : list (Resolver * Z))
    : list (Resolver * Z) :=
  filter (λ e, resolver_id (fst e) ≠ resolver_id fn) entries.

(** [init()]: [setInterval(LockResolver.resolve, LockResolver.interval)]
    unless the interval is set. *)
Definition init (now : Z) (r : t) : t :=
  match intervalId r with
  | Some _ => r
  | None => {| intervalId := Some (now + interval); resolvers := resolvers r |}
  end.

(** [add(fn, timeout)], at time [now = Date.now()]. *)
Definition add (fn : Resolver) (timeout : Z) (now : Z) (r : t) : t :=
  init now {| intervalId := intervalId r;
              resolvers := map_set fn (now + timeout) (resolvers r) |}.

(** [remove(fn)]. *)
Definition remove (fn : Resolver) (r : t) : t :=
  {| intervalId := intervalId r; resolvers := map_delete fn (resolvers r) |}.

(** [reset()]: [clearInterval]. *)
Definition reset (r : t) : t :=
  {| intervalId := None; resolvers := resolvers r |}.

End LockResolver.

(* ===================================================================== *)
(** * [src/file-rename-handler.ts] *)
(* ===================================================================== *)

Module FileRenameHandler.

(** The handler with its environment: the three private members of the
    class, the static [LockResolver], the wall clock, the calls made to
    the [emitEvent] callback (each with the time of the call), and the
    counter that names the next closure. *)
Record t : Type := {
  fileLocks : FileSystemLocker.t;
  directoryLocks : FileSystemLocker.t;
  fileSystemStateManager : FileSystemStateManager.t;
  lockResolver : LockResolver.t;
  clock : Z;
  emitted : list (Z * Event);
  nextClosure : nat
}.

Definition new : t :=
  {| fileLocks := FileSystemLocker.empty;
     directoryLocks := FileSystemLocker.empty;
     fileSystemStateManager := FileSystemStateManager.empty;
     lockResolver := LockResolver.empty;
     clock := 0;
     emitted := [];
     nextClosure := 0 |}.

Definition locker (k : InodeType) (w : t) : FileSystemLocker.t :=
  match k with FILE => fileLocks w | DIR => directoryLocks w end.

Definition set_locker (k : InodeType) (l : FileSystemLocker.t) (w : t) : t :=
  {| fileLocks := (if k is FILE then l else fileLocks w);
     directoryLocks := (if k is DIR then l else directoryLocks w);
     fileSystemStateManager := fileSystemStateManager w;
     lockResolver := lockResolver w;
     clock := clock w;
     emitted := emitted w;
     nextClosure := nextClosure w |}.

Definition set_fileSystemStateManager (s : FileSystemStateManager.t) (w : t) : t :=
  {| fileLocks := fileLocks w;
     directoryLocks := directoryLocks w;
     fileSystemStateManager := s;
     lockResolver := lockResolver w;
     clock := clock w;
     emitted := emitted w;
     nextClosure := nextClosure w |}.

Definition set_lockResolver (r : LockResolver.t) (w : t) : t :=
  {| fileLocks := fileLocks w;
     directoryLocks := directoryLocks w;
     fileSystemStateManager := fileSystemStateManager w;
     lockResolver := r;
     clock := clock w;
     emitted := emitted w;
     nextClosure := nextClosure w |}.

Definition set_clock (now : Z) (w : t) : t :=
  {| fileLocks := fileLocks w;
     directoryLocks := directoryLocks w;
     fileSystemStateManager := fileSystemStateManager w;
     lockResolver := lockResolver w;
     clock := now;
     emitted := emitted w;
     nextClosure := nextClosure w |}.

(** Creating a closure: the next function object gets the next identity. *)
Definition fresh_closure (w : t) : nat * t :=
  (nextClosure w,
   {| fileLocks := fileLocks w;
      directoryLocks := directoryLocks w;
      fileSystemStateManager := fileSystemStateManager w;
      lockResolver := lockResolver w;
      clock := clock w;
      emitted := emitted w;
      nextClosure := S (nextClosure w) |}).

(** [this.emitEvent(event, targetPath, targetPathNext?)]. *)
Definition emitEvent (event : FileSystemEvent) (targetPath : string)
    (targetPathNext : option string) (w : t) : t :=
  {| fileLocks := fileLocks w;
     directoryLocks := directoryLocks w;
     fileSystemStateManager := fileSystemStateManager w;
     lockResolver := lockResolver w;
     clock := clock w;
     emitted := emitted w ++ [(clock w, {| ev_type := event; ev_path := targetPath;
                                           ev_next := targetPathNext |})];
     nextClosure := nextClosure w |}.

(** The events emitted so far, without their times. *)
Definition events (w : t) : list Event := snd <$> emitted w.

(** JS truthiness of an [InodeNumber | undefined]: [undefined] and [0]
    are falsy. *)
Definition truthy (inodeNumber : option Z) : option Z :=
  match inodeNumber with
  | Some i => if decide (i = 0) then None else Some i
  | None => None
  end.

(** [emit] of [addLock]:
    [const otherPath = paths.find(inodeNumber ?? -1, (path) => path !== targetPath);
     if (otherPath) emitEvent(lockEvent.rename, otherPath, targetPath)
     else emitEvent(lockEvent.add, targetPath)].
    The empty string is the one falsy path. *)
Definition add_emit (inodeNumber : option Z) (targetPath : string)
    (lockEvent : LockEvent) (w : t) : t :=
  let otherPath :=
    SetMultiMap.find (default (-1) inodeNumber)
      (λ path, bool_decide (path ≠ targetPath))
      (FileSystemStateManager._paths (fileSystemStateManager w)) in
  match otherPath with
  | Some otherPath =>
      if decide (otherPath = "") then emitEvent (le_add lockEvent) targetPath None w
      else emitEvent (le_rename lockEvent) otherPath (Some targetPath) w
  | None => emitEvent (le_add lockEvent) targetPath None w
  end.

(** [cleanup] of [addLock]:
    [fileSystemLocker.removeLock(inodeNumber); LockResolver.remove(free)]. *)
Definition add_cleanup (c : Closure) (w : t) : t :=
  let k := c_fileSystemLocker c in
  let w := set_locker k (FileSystemLocker.removeLock (c_inodeNumber c) (locker k w)) w in
  set_lockResolver (LockResolver.remove (AddFree c) (lockResolver w)) w.

(** [free] of [addLock]: [cleanup(); emit()]. *)
Definition add_free (c : Closure) (w : t) : t :=
  add_emit (Some (c_inodeNumber c)) (c_targetPath c) (c_lockEvent c) (add_cleanup c w).

(** [cleanup] of [unlinkLock]:
    [fileSystemLocker.removeUnlink(inodeNumber); LockResolver.remove(free)]. *)
Definition unlink_cleanup (c : Closure) (w : t) : t :=
  let k := c_fileSystemLocker c in
  let w := set_locker k (FileSystemLocker.removeUnlink (c_inodeNumber c) (locker k w)) w in
  set_lockResolver (LockResolver.remove (UnlinkFree c) (lockResolver w)) w.

(** [free] of [unlinkLock]: [cleanup(); emitEvent(lockEvent.unlink, targetPath)]. *)
Definition unlink_free (c : Closure) (w : t) : t :=
  emitEvent (le_unlink (c_lockEvent c)) (c_targetPath c) None (unlink_cleanup c w).

(** [overridden] of [unlinkLock]: [cleanup(); return targetPath]. *)
Definition overridden (c : Closure) (w : t) : string * t :=
  (c_targetPath c, unlink_cleanup c w).

(** [resolve] of [addLock]. *)
Definition resolve (c : Closure) (w : t) : t :=
  match FileSystemLocker.getUnlink (c_inodeNumber c) (locker (c_fileSystemLocker c) w) with
  | None => w
  | Some unlink =>
      let w := add_cleanup c w in
      let '(previousTargetPath, w) := overridden unlink w in
      if decide (c_targetPath c = previousTargetPath) then
        match le_change (c_lockEvent c) with
        | Some change =>
            if bool_decide (is_Some (FileSystemStateManager._stats (fileSystemStateManager w)
                                       !! c_targetPath c))
            then emitEvent change (c_targetPath c) None w
            else w
        | None => w
        end
      else emitEvent (le_rename (c_lockEvent c)) previousTargetPath (Some (c_targetPath c)) w
  end.

(** [addLock(lockConfig, timeout = renameTimeout)]. *)
Definition addLock (lc : LockConfig) (timeout : option Z) (w : t) : t :=
  let timeout := default renameTimeout timeout in
  match truthy (lc_inodeNumber lc) with
  | None => add_emit (lc_inodeNumber lc) (lc_targetPath lc) (lc_lockEvent lc) w
  | Some inodeNumber =>
      let '(free, w) := fresh_closure w in
      let c := {| c_inodeNumber := inodeNumber; c_targetPath := lc_targetPath lc;
                  c_lockEvent := lc_lockEvent lc;
                  c_fileSystemLocker := lc_fileSystemLocker lc; c_free := free |} in
      let w := set_lockResolver (LockResolver.add (AddFree c) timeout (clock w) (lockResolver w)) w in
      let k := lc_fileSystemLocker lc in
      let w := set_locker k (FileSystemLocker.addLock inodeNumber c (locker k w)) w in
      resolve c w
  end.

(** [unlinkLock(lockConfig, timeout = renameTimeout)]. *)
Definition unlinkLock (lc : LockConfig) (timeout : option Z) (w : t) : t :=
  let timeout := default renameTimeout timeout in
  match truthy (lc_inodeNumber lc) with
  | None => emitEvent (le_unlink (lc_lockEvent lc)) (lc_targetPath lc) None w
  | Some inodeNumber =>
      let '(free, w) := fresh_closure w in
      let c := {| c_inodeNumber := inodeNumber; c_targetPath := lc_targetPath lc;
                  c_lockEvent := lc_lockEvent lc;
                  c_fileSystemLocker := lc_fileSystemLocker lc; c_free := free |} in
      let w := set_lockResolver (LockResolver.add (UnlinkFree c) timeout (clock w) (lockResolver w)) w in
      let k := lc_fileSystemLocker lc in
      let w := set_locker k (FileSystemLocker.addUnlink inodeNumber c (locker k w)) w in
      match FileSystemLocker.getLock inodeNumber (locker k w) with
      | Some callback => resolve callback w
      | None => w
      end
  end.

(** The two operations of [processLock]. *)
Inductive Operation : Type := OperationAdd | OperationUnlink.

(** [processLock(targetPath, event, inodeType, operation, timeout)]. *)
Definition processLock (targetPath : string) (event : FileSystemEvent)
    (inodeType : InodeType) (operation : Operation) (timeout : option Z) (w : t) : t :=
  let inodeNumber :=
    FileSystemStateManager.getInodeNumber targetPath event (Some inodeType)
      (fileSystemStateManager w) in
  let lockConfig :=
    {| lc_inodeNumber := inodeNumber; lc_targetPath := targetPath;
       lc_lockEvent := (if inodeType is FILE then FileEvent else DirectoryEvent);
       lc_fileSystemLocker := inodeType |} in
  match operation with
  | OperationAdd => addLock lockConfig timeout w
  | OperationUnlink => unlinkLock lockConfig timeout w
  end.

(** [getLockTargetEvent(event, targetPath, timeout?)]. *)
Definition getLockTargetEvent (event : FileSystemEvent) (targetPath : string)
    (timeout : option Z) (w : t) : t :=
  match event with
  | ADD => processLock targetPath event FILE OperationAdd timeout w
  | ADD_DIR => processLock targetPath event DIR OperationAdd timeout w
  | UNLINK => processLock targetPath event FILE OperationUnlink timeout w
  | UNLINK_DIR => processLock targetPath event DIR OperationUnlink timeout w
  | _ => w
  end.

(** [reset()]. *)
Definition reset (w : t) : t :=
  let w := set_fileSystemStateManager
             (FileSystemStateManager.reset (fileSystemStateManager w)) w in
  let w := set_locker DIR (FileSystemLocker.reset (directoryLocks w)) w in
  set_locker FILE (FileSystemLocker.reset (fileLocks w)) w.

(** ** [LockResolver.resolve], the interval callback *)

(** Calling a registered resolver. *)
Definition call (fn : Resolver) (w : t) : t :=
  match fn with
  | AddFree c => add_free c w
  | UnlinkFree c => unlink_free c w
  end.

(** One iteration of [for (const [fn, timestamp] of LockResolver.resolvers)].
    The loop runs over the live map: an entry deleted before its turn is
    not visited. (No resolver registers a resolver, so no entry is added
    during the loop.) *)
Definition resolve_entry (now : Z) (w : t) (entry : Resolver * Z) : t :=
  let '(fn, timestamp) := entry in
  if LockResolver.has fn (LockResolver.resolvers (lockResolver w)) then
    if decide (timestamp > now) then w
    else call fn (set_lockResolver (LockResolver.remove fn (lockResolver w)) w)
  else w.

(** [LockResolver.resolve()], run at time [clock w]. *)
Definition LockResolver_resolve (w : t) : t :=
  let now := clock w in
  let w := foldl (resolve_entry now) w (LockResolver.resolvers (lockResolver w)) in
  if decide (length (LockResolver.resolvers (lockResolver w)) = 0%nat)
  then set_lockResolver (LockResolver.reset (lockResolver w)) w
  else w.

(** ** The event loop: calls arriving at given times and interval ticks *)

(** A call of the handler's API at time [now]. *)
Definition at_time (now : Z) (f : t → t) (w : t) : t := f (set_clock now w).

(** The interval timer fires at time [now]: [resolve] runs, and unless it
    cleared the interval the next tick is one [interval] later. *)
Definition tick (now : Z) (w : t) : t :=
  let w := LockResolver_resolve (set_clock now w) in
  match LockResolver.intervalId (lockResolver w) with
  | Some _ =>
      set_lockResolver {| LockResolver.intervalId := Some (now + LockResolver.interval);
                          LockResolver.resolvers := LockResolver.resolvers (lockResolver w) |} w
  | None => w
  end.

(** Let the interval timer run until time [until], with no other call:
    every tick that is due by then fires, in order. *)
Fixpoint run_ticks (fuel : nat) (until : Z) (w : t) : t :=
  match fuel with
  | O => w
  | S fuel =>
      match LockResolver.intervalId (lockResolver w) with
      | Some next => if decide (next ≤ until) then run_ticks fuel until (tick next w) else w
      | None => w
      end
  end.

(** Enough fuel for every tick up to [until]: ticks are [interval] apart. *)
Definition ticks_until (until : Z) (w : t) : nat :=
  match LockResolver.intervalId (lockResolver w) with
  | Some next => Z.to_nat ((until - next) / LockResolver.interval + 1)
  | None => 0
  end.

Definition advance (until : Z) (w : t) : t :=
  run_ticks (ticks_until until w) until w.

(** ** Vocabulary for the statements about the correlator *)

(** The event names of a lock namespace, as [processLock] chooses them. *)
Definition lockEvent_of (k : InodeType) : LockEvent :=
  if k is FILE then FileEvent else DirectoryEvent.

(** The lock configuration that [processLock] builds in namespace [k]. *)
Definition lock_config (k : InodeType) (i : option Z) (path : string) : LockConfig :=
  {| lc_inodeNumber := i; lc_targetPath := path; lc_lockEvent := lockEvent_of k;
     lc_fileSystemLocker := k |}.

(** The closure that [addLock] or [unlinkLock] creates in namespace [k]. *)
Definition closure_of (k : InodeType) (i : Z) (path : string) (free : nat) : Closure :=
  {| c_inodeNumber := i; c_targetPath := path; c_lockEvent := lockEvent_of k;
     c_fileSystemLocker := k; c_free := free |}.

(** The inode recorded for an (event, path) pair, as [processLock] reads it. *)
Definition recorded (k : InodeType) (event : FileSystemEvent) (path : string) (w : t)
    : option Z :=
  FileSystemStateManager.getInodeNumber path event (Some k) (fileSystemStateManager w).

(** No correlation is pending: no resolver waits for its timeout, and
    namespace [k] holds no lock for inode [i]. *)
Definition idle (k : InodeType) (i : Z) (w : t) : Prop :=
  LockResolver.resolvers (lockResolver w) = [] ∧
  FileSystemLocker.add (locker k w) !! i = None ∧
  FileSystemLocker.unlink (locker k w) !! i = None.

(** A removal of [path] with inode [i] is parked in namespace [k]: its
    [overridden] closure is the unlink lock of [i], its [free] is the only
    resolver waiting, with the given deadline, and no add lock is held. *)
Definition parked_unlink (k : InodeType) (i : Z) (path : string) (deadline : Z) (w : t)
    : Prop :=
  ∃ free,
    FileSystemLocker.unlink (locker k w) !! i = Some (closure_of k i path free) ∧
    FileSystemLocker.add (locker k w) !! i = None ∧
    LockResolver.resolvers (lockResolver w)
      = [(UnlinkFree (closure_of k i path free), deadline)] ∧
    is_Some (LockResolver.intervalId (lockResolver w)) ∧
    (free < nextClosure w)%nat.

(** A creation of [path] with inode [i] is parked in namespace [k]. *)
Definition parked_add (k : InodeType) (i : Z) (path : string) (deadline : Z) (w : t)
    : Prop :=
  ∃ free,
    FileSystemLocker.add (locker k w) !! i = Some (closure_of k i path free) ∧
    FileSystemLocker.unlink (locker k w) !! i = None ∧
    LockResolver.resolvers (lockResolver w)
      = [(AddFree (closure_of k i path free), deadline)] ∧
    is_Some (LockResolver.intervalId (lockResolver w)) ∧
    (free < nextClosure w)%nat.

(** What [resolve] emits when the removal of [previous] and the creation
    of [path] meet in namespace [k]. *)
Definition resolution (k : InodeType) (previous path : string) (w : t) : list Event :=
  if decide (path = previous) then
    match le_change (lockEvent_of k) with
    | Some change =>
        if bool_decide (is_Some (FileSystemStateManager._stats (fileSystemStateManager w)
                                   !! path))
        then [{| ev_type := change; ev_path := path; ev_next := None |}]
        else []
    | None => []
    end
  else [{| ev_type := le_rename (lockEvent_of k); ev_path := previous;
           ev_next := Some path |}].

(** The first tick at or after [deadline], when the next tick is at
    [next] and ticks are [interval] apart. *)
Definition first_tick (next deadline : Z) : Z :=
  next + LockResolver.interval
         * Z.max 0 ((deadline - next + LockResolver.interval - 1) / LockResolver.interval).

(** The time at which a resolver with the given deadline is called. *)
Definition firing_time (deadline : Z) (w : t) : Z :=
  match LockResolver.intervalId (lockResolver w) with
  | Some next => first_tick next deadline
  | None => deadline
  end.

(** A classification pass of the pipeline: [update(path)] on the handler's
    state manager, with what [stat] observed. *)
Definition observe (path : string) (resolved : option Stats) (w : t) : t :=
  set_fileSystemStateManager
    (snd (FileSystemStateManager.update path resolved (fileSystemStateManager w))) w.

(** ** Scenarios *)

(** "/a" was observed as a file with the given inode, then as gone; "/b"
    was observed as a file with the same inode: a rename, as the
    classifier sees it. *)
Definition after_rename (i : Z) : t :=
  observe "/b" (Some (file_stats i 10))
    (observe "/a" None (observe "/a" (Some (file_stats i 10)) new)).

(** "/a" was observed as a file, as gone, and as the same file again. *)
Definition after_republish : t :=
  observe "/a" (Some (file_stats 7 10))
    (observe "/a" None (observe "/a" (Some (file_stats 7 10)) new)).

(** The directory "/d" was observed twice. *)
Definition after_directory_touch : t :=
  observe "/d" (Some (directory_stats 9)) (observe "/d" (Some (directory_stats 9)) new).

(** "/a" was replaced by a file with another inode, and a new file "/c"
    got the inode that "/a" had before. *)
Definition after_replace_and_reuse : t :=
  observe "/c" (Some (file_stats 1 5))
    (observe "/a" (Some (file_stats 2 10)) (observe "/a" (Some (file_stats 1 10)) new)).

(** Two files on a file system that reports inode 0 for every entry. *)
Definition after_two_files_without_inodes : t :=
  observe "/y" (Some (file_stats 0 10)) (observe "/x" (Some (file_stats 0 10)) new).

(** The only resolver waiting is the [free] of a removal. *)
Definition lone_unlink (c : Closure) (deadline : Z) (w : t) : Prop :=
  LockResolver.resolvers (lockResolver w) = [(UnlinkFree c, deadline)] ∧
  is_Some (LockResolver.intervalId (lockResolver w)).

(** ** Other correlations pending, other traffic *)

(** ** The handler among other events *)

(** The closure of a resolver. *)
Definition resolver_closure (fn : Resolver) : Closure :=
  match fn with AddFree c | UnlinkFree c => c end.

(** What else happens to the handler: an event is given to
    [getLockTargetEvent], or the state manager polls a path. *)
Inductive Activity : Type :=
| Arrives (event : FileSystemEvent) (targetPath : string) (timeout : option Z)
| Observes (path : string) (resolved : option Stats).

Definition act (a : Activity) (w : t) : t :=
  match a with
  | Arrives event targetPath timeout => getLockTargetEvent event targetPath timeout w
  | Observes path resolved => observe path resolved w
  end.

(** An activity at its time: the ticks of the interval that are due by
    then come first. *)
Definition step (w : t) (a : Z * Activity) : t :=
  at_time (fst a) (act (snd a)) (advance (fst a) w).

Definition run (traffic : list (Z * Activity)) (w : t) : t := foldl step w traffic.

(** The closures that the handler holds: in a locker, or as the [free] of
    a registered resolver. *)
Definition held_unlink (w : t) (c : Closure) : Prop :=
  (∃ ns j, FileSystemLocker.unlink (locker ns w) !! j = Some c) ∨
  (∃ timestamp, (UnlinkFree c, timestamp) ∈ LockResolver.resolvers (lockResolver w)).

Definition held_add (w : t) (c : Closure) : Prop :=
  (∃ ns j, FileSystemLocker.add (locker ns w) !! j = Some c) ∨
  (∃ timestamp, (AddFree c, timestamp) ∈ LockResolver.resolvers (lockResolver w)).

(** What holds of the closures of every state of the handler: a lock is
    filed under the inode and in the locker of its closure, a closure has
    the event names of its locker, and it was created before the next
    closure. *)
Definition coherent (w : t) : Prop :=
  (∀ ns j c,
     FileSystemLocker.unlink (locker ns w) !! j = Some c
     ∨ FileSystemLocker.add (locker ns w) !! j = Some c →
     c_fileSystemLocker c = ns ∧ c_inodeNumber c = j) ∧
  (∀ c, held_unlink w c ∨ held_add w c →
     (c_free c < nextClosure w)%nat ∧
     c_lockEvent c = lockEvent_of (c_fileSystemLocker c)).

(** A scene: the events that a statement watches for, and the removals
    ([true]) and creations ([false]) that would disturb it, by lock
    namespace, path and recorded inode ([None] when it is unavailable). *)
Record Scene : Type := {
  watched : list Event;
  disturbs : bool → InodeType → string → option Z → Prop
}.

(** The watched events emitted so far, with their times. *)
Definition seen (S : Scene) (w : t) : list (Z * Event) :=
  filter (λ e, snd e ∈ watched S) (emitted w).

(** A scene names every removal and creation that can emit one of its
    watched events. *)
Definition sound (S : Scene) : Prop :=
  (∀ ns path inode,
     {| ev_type := le_unlink (lockEvent_of ns); ev_path := path; ev_next := None |}
       ∈ watched S → disturbs S true ns path inode) ∧
  (∀ ns path inode,
     {| ev_type := le_add (lockEvent_of ns); ev_path := path; ev_next := None |}
       ∈ watched S → disturbs S false ns path inode) ∧
  (∀ ns previous path inode,
     {| ev_type := le_rename (lockEvent_of ns); ev_path := previous; ev_next := Some path |}
       ∈ watched S → disturbs S false ns path inode) ∧
  (∀ path, {| ev_type := CHANGE; ev_path := path; ev_next := None |} ∉ watched S).

(** A closure that does not disturb the scene, and is not the closure of
    the resolver [ours], the one that the scene is about, when there is
    one. *)
Definition stranger (S : Scene) (ours : option Resolver) (removal : bool) (c : Closure)
    : Prop :=
  ¬ disturbs S removal (c_fileSystemLocker c) (c_targetPath c) (Some (c_inodeNumber c)) ∧
  ∀ fn, ours = Some fn → c_free c ≠ resolver_id fn.

(** The state is coherent, and no closure that the handler holds
    disturbs the scene, but the closure of [ours] when there is one. *)
Definition calm (S : Scene) (ours : option Resolver) (w : t) : Prop :=
  coherent w ∧
  (∀ fn, ours = Some fn → (resolver_id fn < nextClosure w)%nat) ∧
  (∀ c, held_unlink w c → ours = Some (UnlinkFree c) ∨ stranger S ours true c) ∧
  (∀ c, held_add w c → ours = Some (AddFree c) ∨ stranger S ours false c).

(** An activity that does not disturb the scene, in the state in which it
    happens. *)
Definition allowed (S : Scene) (w : t) (a : Activity) : Prop :=
  match a with
  | Arrives event targetPath _ =>
      match event with
      | UNLINK => ¬ disturbs S true FILE targetPath (truthy (recorded FILE event targetPath w))
      | UNLINK_DIR => ¬ disturbs S true DIR targetPath (truthy (recorded DIR event targetPath w))
      | ADD => ¬ disturbs S false FILE targetPath (truthy (recorded FILE event targetPath w))
      | ADD_DIR => ¬ disturbs S false DIR targetPath (truthy (recorded DIR event targetPath w))
      | _ => True
      end
  | Observes _ _ => True
  end.

(** No activity of the traffic disturbs the scene. *)
Fixpoint undisturbed (S : Scene) (traffic : list (Z * Activity)) (w : t) : Prop :=
  match traffic with
  | [] => True
  | a :: traffic =>
      allowed S (advance (fst a) w) (snd a) ∧ undisturbed S traffic (step w a)
  end.

(** The resolver [ours] is registered, with the given deadline. *)
Definition registered (ours : option Resolver) (deadline : Z) (w : t) : Prop :=
  ∀ fn, ours = Some fn →
    (fn, deadline) ∈ LockResolver.resolvers (lockResolver w) ∧
    ∀ timestamp, (fn, timestamp) ∈ LockResolver.resolvers (lockResolver w) →
                 timestamp = deadline.

(** The lock of [ours] is in its locker. *)
Definition locked (ours : option Resolver) (w : t) : Prop :=
  match ours with
  | Some (UnlinkFree c) =>
      FileSystemLocker.unlink (locker (c_fileSystemLocker c) w) !! c_inodeNumber c = Some c
  | Some (AddFree c) =>
      FileSystemLocker.add (locker (c_fileSystemLocker c) w) !! c_inodeNumber c = Some c
  | None => True
  end.

(** The scene counts as a disturbance every event of the other class
    (a creation for a removal, a removal for a creation) that is recorded
    with the inode of [ours] in its namespace. *)
Definition guard_other (S : Scene) (ours : option Resolver) : Prop :=
  match ours with
  | Some (UnlinkFree c) =>
      ∀ path, disturbs S false (c_fileSystemLocker c) path (Some (c_inodeNumber c))
  | Some (AddFree c) =>
      ∀ path, disturbs S true (c_fileSystemLocker c) path (Some (c_inodeNumber c))
  | None => True
  end.

(** The scene counts as a disturbance every event of the same class that
    is recorded with the inode of [ours] in its namespace. *)
Definition guard_same (S : Scene) (ours : option Resolver) : Prop :=
  match ours with
  | Some (UnlinkFree c) =>
      ∀ path, disturbs S true (c_fileSystemLocker c) path (Some (c_inodeNumber c))
  | Some (AddFree c) =>
      ∀ path, disturbs S false (c_fileSystemLocker c) path (Some (c_inodeNumber c))
  | None => True
  end.

(** The handler holds no more than before. *)
Definition shrinks (w w' : t) : Prop :=
  (∀ ns j c, FileSystemLocker.unlink (locker ns w') !! j = Some c →
             FileSystemLocker.unlink (locker ns w) !! j = Some c) ∧
  (∀ ns j c, FileSystemLocker.add (locker ns w') !! j = Some c →
             FileSystemLocker.add (locker ns w) !! j = Some c) ∧
  (∀ e, e ∈ LockResolver.resolvers (lockResolver w') →
        e ∈ LockResolver.resolvers (lockResolver w)) ∧
  (nextClosure w ≤ nextClosure w')%nat.

(** What a step that does not disturb the scene keeps. *)
Definition passes (S : Scene) (ours : option Resolver) (deadline : Z) (w w' : t) : Prop :=
  calm S ours w' ∧
  (registered ours deadline w → registered ours deadline w') ∧
  (guard_same S ours → locked ours w → locked ours w') ∧
  seen S w' = seen S w.

(** What the handler holds: its locks, the resolvers waiting, and the
    counter of closures. *)
Definition holdings (w : t)
    : FileSystemLocker.t * FileSystemLocker.t * list (Resolver * Z) * nat :=
  (fileLocks w, directoryLocks w, LockResolver.resolvers (lockResolver w), nextClosure w).

(** Calling [emitEvent] for each event of a list. *)
Definition emits (events : list Event) (w : t) : t :=
  foldl (λ w e, emitEvent (ev_type e) (ev_path e) (ev_next e) w) w events.

(** The closure [fn] was added to what the handler holds, and nothing else. *)
Definition grows (fn : Resolver) (w w' : t) : Prop :=
  (∀ ns j c, FileSystemLocker.unlink (locker ns w') !! j = Some c →
             FileSystemLocker.unlink (locker ns w) !! j = Some c ∨
             (fn = UnlinkFree c ∧ ns = c_fileSystemLocker c ∧ j = c_inodeNumber c)) ∧
  (∀ ns j c, FileSystemLocker.add (locker ns w') !! j = Some c →
             FileSystemLocker.add (locker ns w) !! j = Some c ∨
             (fn = AddFree c ∧ ns = c_fileSystemLocker c ∧ j = c_inodeNumber c)) ∧
  (∀ e, e ∈ LockResolver.resolvers (lockResolver w') →
        e ∈ LockResolver.resolvers (lockResolver w) ∨ fst e = fn) ∧
  (nextClosure w ≤ nextClosure w')%nat.

(** What [addLock] and [unlinkLock] do with a truthy inode number before
    they look for the other side: the closure is created, its [free] is
    registered with its timeout and its lock is filed. *)
Definition park (fn : Resolver) (timeout : Z) (w : t) : t :=
  let c := resolver_closure fn in
  let w := snd (fresh_closure w) in
  let w := set_lockResolver (LockResolver.add fn timeout (clock w) (lockResolver w)) w in
  let k := c_fileSystemLocker c in
  set_locker k
    (match fn with
     | AddFree _ => FileSystemLocker.addLock (c_inodeNumber c) c (locker k w)
     | UnlinkFree _ => FileSystemLocker.addUnlink (c_inodeNumber c) c (locker k w)
     end) w.

(** The closure that a call in state [w] creates from its lock configuration. *)
Definition closure (lc : LockConfig) (inodeNumber : Z) (w : t) : Closure :=
  {| c_inodeNumber := inodeNumber; c_targetPath := lc_targetPath lc;
     c_lockEvent := lc_lockEvent lc; c_fileSystemLocker := lc_fileSystemLocker lc;
     c_free := nextClosure w |}.

(** A step that does not disturb the scene, registers nothing and leaves
    the interval timer as it is. *)
Definition settles (S : Scene) (ours : option Resolver) (deadline : Z) (w w' : t) : Prop :=
  passes S ours deadline w w' ∧ shrinks w w' ∧
  LockResolver.intervalId (lockResolver w') = LockResolver.intervalId (lockResolver w).

(** Whether a resolver is the [free] of a removal. *)
Definition of_removal (fn : Resolver) : bool :=
  match fn with UnlinkFree _ => true | AddFree _ => false end.

(** An interval timer that is set stays as it is. *)
Definition keeps_timer (w w' : t) : Prop :=
  ∀ next, LockResolver.intervalId (lockResolver w) = Some next →
          LockResolver.intervalId (lockResolver w') = Some next.

(** The interval timer is set, and the first tick at or after the
    deadline of [ours] is at time [fired]. *)
Definition on_time (ours : option Resolver) (deadline fired : Z) (w : t) : Prop :=
  ∀ fn, ours = Some fn →
    ∃ next, LockResolver.intervalId (lockResolver w) = Some next ∧
            first_tick next deadline = fired.

(** The handler waits for [ours]: nothing else that it holds disturbs the
    scene. *)
Definition waiting (S : Scene) (ours : option Resolver) (deadline fired : Z) (w : t) : Prop :=
  calm S ours w ∧ registered ours deadline w ∧ on_time ours deadline fired w.

(** A time before [ours] is called. *)
Definition early (ours : option Resolver) (fired : Z) (time : Z) : Prop :=
  ∀ fn, ours = Some fn → time < fired.

(** The handler holds the closure of a resolver. *)
Definition holds (w : t) (fn : Resolver) : Prop :=
  match fn with
  | UnlinkFree c => held_unlink w c
  | AddFree c => held_add w c
  end.

(** The events of the correlator in namespace [k]. *)
Definition removed (k : InodeType) (path : string) : Event :=
  {| ev_type := le_unlink (lockEvent_of k); ev_path := path; ev_next := None |}.

Definition created (k : InodeType) (path : string) : Event :=
  {| ev_type := le_add (lockEvent_of k); ev_path := path; ev_next := None |}.

Definition renamed (k : InodeType) (previous path : string) : Event :=
  {| ev_type := le_rename (lockEvent_of k); ev_path := previous; ev_next := Some path |}.



(** ** The scenes of the statements *)

(** A removal of [A], recorded with inode [i] in namespace [k], waits for
    its timeout: what is watched is [removed(A)]; another removal of [A]
    and a creation recorded with inode [i] disturb. *)
Definition removal_scene (k : InodeType) (i : Z) (A : string) : Scene :=
  {| watched := [removed k A];
     disturbs removal ns path inode :=
       ns = k ∧ (if removal then path = A else inode = Some i) |}.

(** A removal of [A] and a creation of [B], both recorded with inode [i]
    in namespace [k]: what is watched is [renamed(A -> B)], [removed(A)]
    and [created(B)]; another removal of [A], another creation of [B] and
    any other event recorded with inode [i] disturb. *)
Definition rename_scene (k : InodeType) (i : Z) (A B : string) : Scene :=
  {| watched := [renamed k A B; removed k A; created k B];
     disturbs removal ns path inode :=
       ns = k ∧ (path = (if removal then A else B) ∨ inode = Some i) |}.

(** A removal and a creation of the same path in namespace [k]: what is
    watched is [removed(path)] and [created(path)]; another removal or
    creation of the path disturbs. *)
Definition republish_scene (k : InodeType) (path : string) : Scene :=
  {| watched := [removed k path; created k path];
     disturbs removal ns target inode := ns = k ∧ target = path |}.

(** The scene that watches nothing: nothing disturbs it. *)
Definition open_scene : Scene :=
  {| watched := []; disturbs removal ns path inode := False |}.

(** ** Scenarios with other correlations pending *)



(** "/a" was classified as in [after_republish], with the removal of "/x"
    waiting for its timeout. *)
Definition busy_republish_history : list (Z * Activity) :=
  [(100, Observes "/a" (Some (file_stats 7 10)));
   (200, Observes "/a" None);
   (300, Observes "/a" (Some (file_stats 7 10)));
   (900, Observes "/x" (Some (file_stats 9 10)));
   (980, Observes "/x" None);
   (990, Arrives UNLINK "/x" None)].

Definition busy_after_republish : t := run busy_republish_history new.

End FileRenameHandler.

(* ===================================================================== *)
(** * [src/retry-queue.ts] *)
(* ===================================================================== *)

Module RetryQueue.

(** A resolver is the closure [resolver] that [schedule] creates; it is
    named by a fresh number (a binary one: the queues hold thousands).
    [intervalId] tells whether the polling interval is set. [called] lists
    the resolvers that were invoked (their promise is resolved: the caller
    is admitted). [peak] is a ghost field: the largest size that
    [activeQueue] has had after any single [activeQueue.add]. *)
Record t : Type := {
  intervalId : bool;
  activeQueue : list N;
  pendingQueue : list N;
  nextResolver : N;
  called : list N;
  peak : Z
}.

Definition new : t :=
  {| intervalId := false; activeQueue := []; pendingQueue := [];
     nextResolver := 0%N; called := []; peak := 0 |}.

(** [reset()]: clears the interval if it is set. *)
Definition reset (q : t) : t :=
  {| intervalId := false; activeQueue := activeQueue q; pendingQueue := pendingQueue q;
     nextResolver := nextResolver q; called := called q; peak := peak q |}.

(** The body of the [for] loop of [processQueue] for one resolver:
    [this.pendingQueue.delete(fn); this.activeQueue.add(fn); fn()]. *)
Definition activate (fn : N) (q : t) : t :=
  let active := set_add fn (activeQueue q) in
  {| intervalId := intervalId q;
     activeQueue := active;
     pendingQueue := set_delete fn (pendingQueue q);
     nextResolver := nextResolver q;
     called := called q ++ [fn];
     peak := Z.max (peak q) (set_size active) |}.

(** [for (const fn of this.pendingQueue)], over the resolvers pending when
    the loop starts; the boolean tells whether the loop left by [return]. *)
Fixpoint processQueue_loop (pending : list N) (q : t) : t * bool :=
  match pending with
  | [] => (q, false)
  | fn :: pending =>
      if decide (fileDescriptorLimit ≤ set_size (activeQueue q)) then (q, true)
      else processQueue_loop pending (activate fn q)
  end.

(** [processQueue()]. *)
Definition processQueue (q : t) : t :=
  if decide (fileDescriptorLimit ≤ set_size (activeQueue q)) then q
  else if decide (set_size (pendingQueue q) = 0) then reset q
  else
    let '(q, returned) := processQueue_loop (pendingQueue q) q in
    if returned then q
    else if decide (set_size (pendingQueue q) = 0) then reset q else q.

(** [add(fn)]. The test [activeQueue.size < fileDescriptorLimit / 2] is a
    comparison of JS numbers ([/] is exact division), written here without
    the division. *)
Definition add (fn : N) (q : t) : t :=
  let q := {| intervalId := intervalId q; activeQueue := activeQueue q;
              pendingQueue := set_add fn (pendingQueue q);
              nextResolver := nextResolver q; called := called q; peak := peak q |} in
  if decide (2 * set_size (activeQueue q) < fileDescriptorLimit) then processQueue q
  else if intervalId q then q
  else {| intervalId := true; activeQueue := activeQueue q; pendingQueue := pendingQueue q;
          nextResolver := nextResolver q; called := called q; peak := peak q |}.

(** [schedule()]: creates the resolver and adds it; returns its name. *)
Definition schedule (q : t) : N * t :=
  let resolver := nextResolver q in
  (resolver,
   add resolver {| intervalId := intervalId q; activeQueue := activeQueue q;
                   pendingQueue := pendingQueue q; nextResolver := N.succ resolver;
                   called := called q; peak := peak q |}).

(** The function that the promise of [schedule] resolves to:
    [this.activeQueue.delete(resolver)]. *)
Definition release (resolver : N) (q : t) : t :=
  {| intervalId := intervalId q; activeQueue := set_delete resolver (activeQueue q);
     pendingQueue := pendingQueue q; nextResolver := nextResolver q;
     called := called q; peak := peak q |}.

(** The interval callback: [processQueue], while the interval is set. *)
Definition tick (q : t) : t := if intervalId q then processQueue q else q.

(** What happens to a queue: a [schedule()] call, a call of a release
    function, a tick of the polling interval. *)
Inductive op : Type := Schedule | Release (resolver : N) | Tick.

Definition step (q : t) (o : op) : t :=
  match o with
  | Schedule => snd (schedule q)
  | Release resolver => release resolver q
  | Tick => tick q
  end.

Definition run (ops : list op) : t := foldl step new ops.

(** The caller of a [schedule()] is admitted at once: its resolver has
    been called and is in the active set when [schedule] returns. *)
Definition served_immediately (q : t) : Prop :=
  let '(resolver, q') := schedule q in
  resolver ∈ called q' ∧ resolver ∈ activeQueue q'.

(** The active set is within the hard limit, and so is its ghost peak. *)
Definition bounded (q : t) : Prop :=
  set_size (activeQueue q) ≤ peak q ∧ peak q ≤ fileDescriptorLimit.

#[global] Instance served_immediately_dec q : Decision (served_immediately q).
Proof.
  unfold served_immediately. destruct (schedule q). apply _.
Defined.

(** A queue whose sets were filled by hand, as the unit tests do: [active]
    resolvers in the active set, then [pending] in the pending set. *)
Definition preloaded (active pending : nat) : t :=
  {| intervalId := false;
     activeQueue := N.of_nat <$> seq 0 active;
     pendingQueue := N.of_nat <$> seq active pending;
     nextResolver := N.of_nat (active + pending);
     called := [];
     peak := Z.of_nat active |}.

(** A burst that exceeds the limit: 1024 callers are served at once, 1025
    more have to wait, then the first caller releases its slot. *)
Definition burst : list op :=
  replicate (Z.to_nat 1024) Schedule
  ++ replicate (Z.to_nat 1025) Schedule
  ++ [Release 0%N].

(** ** Vocabulary for the statements about the order of service *)

(** The resolvers created so far, in the order of their [schedule()] calls. *)
Definition created (q : t) : list N := N.of_nat <$> seq 0 (N.to_nat (nextResolver q)).

(** The callers served so far, followed by the callers that wait, are the
    callers in the order of their arrival; and the polling interval is set
    exactly while a caller waits. *)
Definition fifo (q : t) : Prop :=
  called q ++ pendingQueue q = created q ∧
  (intervalId q = true ↔ pendingQueue q ≠ []).

(** Every resolver of the active set was called, and is in the set once. *)
Definition admitted (q : t) : Prop :=
  NoDup (activeQueue q) ∧ ∀ fn, fn ∈ activeQueue q → fn ∈ called q.

(** The room left in the active set. *)
Definition room (q : t) : nat := Z.to_nat (fileDescriptorLimit - set_size (activeQueue q)).

End RetryQueue.

(* ===================================================================== *)
(** * [src/file-system-entries.ts] *)
(* ===================================================================== *)

Module FileSystemEntries.

Record t : Type := {
  _directories : list string;
  _files : list string
}.

(** [new FileSystemEntries()]. *)
Definition new : t := {| _directories := []; _files := [] |}.

(** [addDirectory(directory)] and [addFile(file)]. *)
Definition addDirectory (directory : string) (e : t) : t :=
  {| _directories := _directories e ++ [directory]; _files := _files e |}.

Definition addFile (file : string) (e : t) : t :=
  {| _directories := _directories e; _files := _files e ++ [file] |}.

(** The getters [directories] and [files]. *)
Definition directories (e : t) : list string := _directories e.
Definition files (e : t) : list string := _files e.

(** [reset()]. *)
Definition reset (e : t) : t := {| _directories := []; _files := [] |}.

End FileSystemEntries.


(* ===================================================================== *)
(** * [src/file-system.ts] and [src/decorators/timeout.ts] *)
(* ===================================================================== *)

Module FileSystem.

(** [retryErrorCodes]. *)
Definition retryErrorCodes : list string :=
  ["ENOENT"; "EMFILE"; "ENFILE"; "EAGAIN"; "EBUSY"; "EACCESS"; "EACCES"; "EACCS"; "EPERM"].

(** A thrown value: an [Error] instance with its [code] member (which can
    be missing), or a value that is not an [Error]. *)
Inductive Thrown : Type :=
| NodeError (code : option string)
| NotAnError.

(** How a promise settles. *)
Inductive Settled (A : Type) : Type :=
| Fulfilled (value : A)
| Rejected (error : Thrown).
Arguments Fulfilled {A} value.
Arguments Rejected {A} error.

(** [isNodeError(error)]: [error instanceof Error]. *)
Definition isNodeError (error : Thrown) : bool :=
  match error with NodeError _ => true | NotAnError => false end.

(** [retryErrorCodes.has(error.code)]. *)
Definition has_retry_code (error : Thrown) : bool :=
  match error with
  | NodeError (Some code) => bool_decide (code ∈ retryErrorCodes)
  | NodeError None | NotAnError => false
  end.

(** [ToInt32], and [~~x] on a non-integer: truncation, then wrap-around. *)
Definition toInt32 (z : Z) : Z :=
  let m := z mod 2 ^ 32 in if decide (m < 2 ^ 31) then m else m - 2 ^ 32.

Definition double_tilde (x : Q) : Z := toInt32 (Z.quot (Qnum x) (Z.pos (Qden x))).

(** Rounding to the nearest integer, ties to even, of [n / d] for [0 < d]. *)
Definition round_half_even (n d : Z) : Z :=
  let q := n / d in
  let r := n mod d in
  if decide (2 * r < d) then q
  else if decide (d < 2 * r) then q + 1
  else if Z.even q then q else q + 1.

(** The exponent [k] with [2 ^ k <= a / b < 2 ^ (k + 1)]. *)
Definition binade (a b : positive) : Z :=
  let d := Z.log2 (Z.pos a) - Z.log2 (Z.pos b) in
  if decide (Z.pos a * 2 ^ Z.max 0 (- d) < Z.pos b * 2 ^ Z.max 0 d) then d - 1 else d.

(** The IEEE 754 double nearest to the positive rational [a / b]: 53
    significant bits, least exponent -1074, round to nearest, ties to
    even. (The values here are far below the overflow threshold.) *)
Definition nearest_double (a b : positive) : Q :=
  let e := Z.max (binade a b - 52) (-1074) in
  let m := round_half_even (Z.pos a * 2 ^ Z.max 0 (- e)) (Z.pos b * 2 ^ Z.max 0 e) in
  if decide (0 ≤ e) then inject_Z (m * 2 ^ e) else m # Z.to_pos (2 ^ (- e)).

(** The double that an arithmetic operation returns for the exact result [x]. *)
Definition to_double (x : Q) : Q :=
  match Qnum x with
  | Z0 => 0%Q
  | Z.pos a => nearest_double a (Qden x)
  | Z.neg a => (- nearest_double a (Qden x))%Q
  end.

(** [~~(Math.random() * 100)]: the double that [Math.random()] returns is
    taken as a rational; the product is a double, the nearest one to the
    exact product, and [~~] truncates it. *)
Definition jitter (random : Q) : Z := double_tilde (to_double (random * 100)%Q).

(** One call of [stat(targetPath, { bigint: true })], as the environment
    answers it: how long the call takes, how its promise settles, and the
    value that [Math.random()] returns if the call is retried. *)
Record Attempt : Type := {
  duration : Z;
  result : Settled Stats;
  random : Q
}.

(** What the function does to its environment. *)
Inductive Effect : Type :=
| CallStat
| ClearQueue
| Sleep (ms : Z).

(** The promise of an [async] function, observed over the answers the
    environment gave: [settled] is [Some (t, r)] when it settles at time
    [t] (counted from the call of [getStats]) with [r], and [None] while it
    is still pending after the last answer. *)
Record Promise : Type := {
  settled : option (Z * Settled (option Stats));
  effects : list Effect
}.

Definition pending : Promise := {| settled := None; effects := [] |}.

Definition after (es : list Effect) (p : Promise) : Promise :=
  {| settled := settled p; effects := es ++ effects p |}.

(** [handleRejection(error)], at time [now]; [retry] is the recursive call
    [getStatsWithTimeout(targetPath)]. *)
Definition handleRejection (retry : Z → Promise) (random : Q) (error : Thrown) (now : Z)
    : Promise :=
  after [ClearQueue]
    (if negb (isNodeError error) || negb (has_retry_code error) then
       {| settled := Some (now, Fulfilled None); effects := [] |}
     else
       after [Sleep (jitter random)] (retry (now + jitter random))).

(** [getStatsWithTimeout(targetPath)], called at time [now]:
    [try { return clearQueue(await stat(...)) } catch (error) { return handleRejection(error) }]. *)
Fixpoint getStatsWithTimeout (attempts : list Attempt) (now : Z) : Promise :=
  match attempts with
  | [] => after [CallStat] pending
  | attempt :: attempts =>
      after [CallStat]
        match result attempt with
        | Fulfilled stats =>
            {| settled := Some (now + duration attempt, Fulfilled (Some stats));
               effects := [ClearQueue] |}
        | Rejected error =>
            handleRejection (getStatsWithTimeout attempts) (random attempt) error
              (now + duration attempt)
        end
  end.

(** The undecorated [getStats(targetPath)]: [admission] is the time at
    which the promise of [retryQueue.schedule()] resolves, if it does. *)
Definition getStats_method (admission : option Z) (attempts : list Attempt) : Promise :=
  match admission with
  | Some start => getStatsWithTimeout attempts start
  | None => pending
  end.

(** The [@timeout(delay)] decorator:
    [await Promise.race([methodPromise, timeoutPromise])] returns what the
    method settles to when it settles before [delay], rethrowing a
    rejection, and [undefined] otherwise. *)
Definition timeout (delay : Z) (method : Promise) : Settled (option Stats) :=
  match settled method with
  | Some (t, r) => if decide (t < delay) then r else Fulfilled None
  | None => Fulfilled None
  end.

(** [FileSystem.getStats(targetPath)], decorated with [@timeout()]. *)
Definition getStats (admission : option Z) (attempts : list Attempt)
    : Settled (option Stats) :=
  timeout 250 (getStats_method admission attempts).

(** The five kinds of transient failure that the specification names. *)
Inductive RetryClass : Type :=
| NotFound | TooManyOpenFiles | ResourceBusy | PermissionDenied | WouldBlock.

(** The kind of an error code; the set holds the two codes for file
    descriptor exhaustion and four spellings of the permission codes. *)
Definition retry_class (code : string) : option RetryClass :=
  if decide (code = "ENOENT") then Some NotFound
  else if decide (code = "EMFILE") then Some TooManyOpenFiles
  else if decide (code = "ENFILE") then Some TooManyOpenFiles
  else if decide (code = "EBUSY") then Some ResourceBusy
  else if decide (code = "EACCES") then Some PermissionDenied
  else if decide (code = "EACCESS") then Some PermissionDenied
  else if decide (code = "EACCS") then Some PermissionDenied
  else if decide (code = "EPERM") then Some PermissionDenied
  else if decide (code = "EAGAIN") then Some WouldBlock
  else None.

(** [stat] fails with [ENOENT] after 3ms, is retried after the jitter
    (67ms for the draw 3017411750338232 / 2^52), and answers after 2ms. *)
Definition enoent_then_found : list Attempt :=
  [ {| duration := 3; result := Rejected (NodeError (Some "ENOENT"));
       random := 3017411750338232 # 4503599627370496 |};
    {| duration := 2; result := Fulfilled (file_stats 7 10); random := 0 |} ].

(** [stat] fails with [ENOENT] after 3ms, is retried after the jitter
    (37ms for the draw 3/8), and fails with [EINVAL]. *)
Definition enoent_then_einval : list Attempt :=
  [ {| duration := 3; result := Rejected (NodeError (Some "ENOENT")); random := 3 # 8 |};
    {| duration := 2; result := Rejected (NodeError (Some "EINVAL")); random := 0 |} ].

(** ** Vocabulary for the statements about retries *)

(** Whether the caller holds its slot of the retry queue at each call of
    [stat], in the order of the calls: [clearQueue] gives the slot back
    ([this.activeQueue.delete(resolver)]), and nothing takes it again. *)
Fixpoint slot_held (held : bool) (effects : list Effect) : list bool :=
  match effects with
  | [] => []
  | CallStat :: effects => held :: slot_held held effects
  | ClearQueue :: effects => slot_held false effects
  | Sleep _ :: effects => slot_held held effects
  end.

(** The number of attempts that [handleRejection] retries: the leading
    ones that fail with an [Error] whose code is in [retryErrorCodes]. *)
Fixpoint retried (attempts : list Attempt) : nat :=
  match attempts with
  | [] => 0
  | attempt :: attempts =>
      match result attempt with
      | Rejected error =>
          if negb (isNodeError error) || negb (has_retry_code error) then 0%nat
          else S (retried attempts)
      | Fulfilled _ => 0%nat
      end
  end.

(** An attempt that fails with a code of [retryErrorCodes]. *)
Definition transient (attempt : Attempt) : Prop :=
  ∃ code, result attempt = Rejected (NodeError (Some code)) ∧ code ∈ retryErrorCodes.

(** ** [FileSystem.isSubPath] *)

(** [sep] of [node:path], on POSIX. *)
Definition sep : string := "/".

(** [s.startsWith(searchString)] and [s.endsWith(searchString)]. *)
Definition startsWith (s searchString : string) : bool := String.prefix searchString s.

Fixpoint endsWith (s searchString : string) : bool :=
  bool_decide (s = searchString)
  || match s with
     | "" => false
     | String _ s' => endsWith s' searchString
     end.

Section IsSubPath.

(** [normalize] of [node:path] is a parameter: no property below depends
    on what it computes. *)
Variable normalize : string → string.

(** [isSubPath(targetPath, subPath)]. The comparison of the two [length]s
    is made once [startsWith] holds, where it tells whether anything
    follows the prefix, in whatever unit the lengths are counted. *)
Definition isSubPath (targetPath subPath : string) : bool :=
  let targetPath := normalize targetPath in
  let subPath := normalize subPath in
  let normalizedTargetPath :=
    if endsWith targetPath sep then targetPath else targetPath +:+ sep in
  startsWith subPath normalizedTargetPath
  && bool_decide (String.length normalizedTargetPath < String.length subPath)%nat.

End IsSubPath.

(** ** [FileSystem.readDirectory] *)

(** A [Dirent] that [readdir(path, { withFileTypes: true })] returns, with
    what [readdir] answers for the path of the entry when the entry is a
    directory: its entries, or [None] when the call is rejected. The
    file system is the same during the whole scan. *)
#[local] Unset Elimination Schemes.
Inductive Dirent : Type :=
| DirentFile (name : string)
| DirentDirectory (name : string) (entries : option (list Dirent))
| DirentOther (name : string).

#[local] Set Elimination Schemes.

Definition name (directoryEntry : Dirent) : string :=
  match directoryEntry with
  | DirentFile name | DirentDirectory name _ | DirentOther name => name
  end.

(** No [readdir] call on the directory or beneath it is rejected. *)
Fixpoint readable (directoryEntry : Dirent) : bool :=
  match directoryEntry with
  | DirentDirectory _ (Some entries) => forallb readable entries
  | DirentDirectory _ None => false
  | _ => true
  end.

Section ReadDirectory.
Variable normalize : string → string.

(** The option [ignore], and the option [signal]: [None] when no signal
    is given or the signal is never aborted, [Some n] when the signal is
    aborted from the [n]-th time on that the scan reads [signal.aborted]
    (counting from 0). *)
Variable ignore : string → bool.
Variable signal : option nat.

(** The variables that the closure [populateResultFromPath] captures, and
    the number of times [signal.aborted] was read. *)
Record Scan : Type := {
  visited : list string;
  fileSystemEntries : FileSystemEntries.t;
  reads : nat
}.

(** [signal?.aborted]. *)
Definition aborted (s : Scan) : bool * Scan :=
  (match signal with
   | Some n => bool_decide (n ≤ reads s)%nat
   | None => false
   end,
   {| visited := visited s; fileSystemEntries := fileSystemEntries s;
      reads := S (reads s) |}).

Definition visit (subPath : string) (s : Scan) : Scan :=
  {| visited := set_add subPath (visited s); fileSystemEntries := fileSystemEntries s;
     reads := reads s |}.

Definition set_fileSystemEntries (e : FileSystemEntries.t) (s : Scan) : Scan :=
  {| visited := visited s; fileSystemEntries := e; reads := reads s |}.

(** [`${rootPath}${rootPath === sep ? '' : sep}`]. *)
Definition subPathPrefix (rootPath : string) : string :=
  rootPath +:+ (if decide (rootPath = sep) then "" else sep).

(** The body of the loop of [populateResultFromPath(rootPath)] over the
    entries of [rootPath]; for a directory it holds the call
    [populateResultFromPath(subPath)]. [None] is a rejection. *)
Fixpoint populateEntry (rootPath : string) (s : Scan) (directoryEntry : Dirent)
    : option Scan :=
  let subPath := subPathPrefix rootPath +:+ name directoryEntry in
  if ignore subPath || bool_decide (subPath ∈ visited s) then Some s
  else
    let s := visit subPath s in
    match directoryEntry with
    | DirentDirectory _ entries =>
        let s := set_fileSystemEntries
                   (FileSystemEntries.addDirectory subPath (fileSystemEntries s)) s in
        let '(stop, s) := aborted s in
        if stop then Some s
        else
          match entries with
          | Some entries =>
              foldl (λ s directoryEntry,
                       match s with
                       | Some s => populateEntry subPath s directoryEntry
                       | None => None
                       end) (Some s) entries
          | None => None
          end
    | DirentFile _ =>
        Some (set_fileSystemEntries
                (FileSystemEntries.addFile subPath (fileSystemEntries s)) s)
    | DirentOther _ => Some s
    end.

(** [populateResultFromPath(rootPath)], with the answer of
    [readdir(rootPath)]. *)
Definition populateResultFromPath (rootPath : string) (entries : option (list Dirent))
    (s : Scan) : option Scan :=
  let '(stop, s) := aborted s in
  if stop then Some s
  else
    entries ← entries;
    foldl (λ s directoryEntry, s ← s; populateEntry rootPath s directoryEntry)
          (Some s) entries.

(** [readDirectory(rootPath, { ignore, signal })], with the answer of
    [readdir] for the root. *)
Definition readDirectory (rootPath : string) (entries : option (list Dirent))
    : option FileSystemEntries.t :=
  let s := {| visited := []; fileSystemEntries := FileSystemEntries.new; reads := 0 |} in
  let rootPath := normalize rootPath in
  let s := visit rootPath s in
  s ← populateResultFromPath rootPath entries s;
  let '(stop, s) := aborted s in
  Some (if stop then FileSystemEntries.reset (fileSystemEntries s)
        else fileSystemEntries s).

(** The paths listed so far. *)
Definition listed (s : Scan) : list string :=
  FileSystemEntries.directories (fileSystemEntries s)
  ++ FileSystemEntries.files (fileSystemEntries s).

(** A path at or under the root of the scan. *)
Definition under (rootPath path : string) : Prop :=
  path = rootPath ∨ startsWith path (subPathPrefix rootPath) = true.

(** What the scan keeps: the root is visited and not listed; a listed
    path is visited, not ignored, and strictly under the root; no path is
    listed twice. *)
Definition scanning (rootPath : string) (s : Scan) : Prop :=
  rootPath ∈ visited s ∧
  NoDup (FileSystemEntries.directories (fileSystemEntries s)) ∧
  NoDup (FileSystemEntries.files (fileSystemEntries s)) ∧
  (∀ path, path ∈ FileSystemEntries.directories (fileSystemEntries s) →
           path ∉ FileSystemEntries.files (fileSystemEntries s)) ∧
  (∀ path, path ∈ listed s →
     path ∈ visited s ∧ ignore path = false ∧ path ≠ rootPath ∧
     startsWith path (subPathPrefix rootPath) = true).

End ReadDirectory.


End FileSystem.


(* ===================================================================== *)
(** * [src/utils.ts] *)
(* ===================================================================== *)

Module Utils.

(** [uniqueSortedArray(array)]: [Array.from(new Set(array.sort()))], on an
    array of strings. [array.sort()] sorts the argument in place, by the
    code units of the strings: the first component is the argument array
    after the call, the second is the array returned. (A sort that is
    stable for a total order in which only equal strings compare equal has
    one result, which [merge_sort] computes.) *)
Definition uniqueSortedArray (array : list string) : list string * list string :=
  let sorted := merge_sort String.le array in
  (sorted, foldl (λ s v, set_add v s) [] sorted).

(** The strict order of the strings. *)
Definition string_lt (a b : string) : Prop := String.le a b ∧ a ≠ b.

(** A value thrown by a function: an [Error] (with its message), a string,
    or any other value. *)
Inductive Exception : Type :=
| ErrorInstance (message : string)
| StringValue (value : string)
| OtherValue.

(** [castError(exception)]; an [Error] is represented by its message. *)
Definition castError (exception : Exception) : string :=
  match exception with
  | ErrorInstance message => message
  | StringValue value => value
  | OtherValue => "Unknown error"
  end.

(** How the promise of a debounced call is settled: [resolve(value)], with
    [None] for [undefined], or [reject(error)]. *)
Inductive Outcome (R : Type) : Type :=
| Resolved (value : option R)
| RejectedWith (error : string).
Arguments Resolved {R} value.
Arguments RejectedWith {R} error.

Section Debounce.
Context {A R : Type}.

(** [debounce(func, wait)]: [func] applied to its arguments returns a
    value or throws. *)
Variable func : A → R + Exception.
Variable wait : Z.

(** The timer set by a call: the time at which it is due, and what its
    callback captures: the arguments of the call and the
    [resolve]/[reject] pair of the promise of the call. *)
Record Timer : Type := {
  deadline : Z;
  args : A;
  promise : nat
}.

(** The two variables of the closure, [timeoutId] and [pendingResolve]
    (a [resolve] function is named by its promise), the number of promises
    created, and two logs: the calls of [resolve] and [reject], and the
    calls of [func], each with its time. *)
Record t : Type := {
  timeoutId : option Timer;
  pendingResolve : option nat;
  nextPromise : nat;
  settlements : list (Z * nat * Outcome R);
  invocations : list (Z * A)
}.

Definition new : t :=
  {| timeoutId := None; pendingResolve := None; nextPromise := 0;
     settlements := []; invocations := [] |}.

(** A call of the debounced function at time [now]: the executor of the
    new promise clears the timer, resolves the pending promise with
    [undefined], and sets a new timer. Returns the new promise. *)
Definition call (now : Z) (a : A) (d : t) : nat * t :=
  let p := nextPromise d in
  (p, {| timeoutId := Some {| deadline := now + wait; args := a; promise := p |};
         pendingResolve := Some p;
         nextPromise := S p;
         settlements :=
           match pendingResolve d with
           | Some previous => settlements d ++ [(now, previous, Resolved None)]
           | None => settlements d
           end;
         invocations := invocations d |}).

(** What the timer callback settles its promise with:
    [try { resolve(func.apply(this, args)) } catch (error) { reject(castError(error)) }]. *)
Definition outcome (a : A) : Outcome R :=
  match func a with
  | inl value => Resolved (Some value)
  | inr error => RejectedWith (castError error)
  end.

(** The timer callback, run at time [now]. *)
Definition fire (now : Z) (timer : Timer) (d : t) : t :=
  {| timeoutId := None;
     pendingResolve := None;
     nextPromise := nextPromise d;
     settlements := settlements d ++ [(now, promise timer, outcome (args timer))];
     invocations := invocations d ++ [(now, args timer)] |}.

(** Time passes until [until]: the timer, if it is due by then, fires at
    its deadline. *)
Definition advance (until : Z) (d : t) : t :=
  match timeoutId d with
  | Some timer => if decide (deadline timer ≤ until) then fire (deadline timer) timer d else d
  | None => d
  end.

(** Calls at given times, in whole milliseconds. A timer that was due
    before the millisecond of a call has fired; a timer that is due in the
    millisecond of the call has not, and the call clears it (as a call in
    the same turn of the event loop does: [debounce(func, 0)] called twice
    in a row runs [func] once). *)
Definition run_from (d : t) (calls : list (Z * A)) : t :=
  foldl (λ d c, snd (call (fst c) (snd c) (advance (fst c - 1) d))) d calls.

(** Calls at given times, of a new debounced function. *)
Definition run (calls : list (Z * A)) : t := run_from new calls.

(** Each call comes no earlier than the one before it, and before the
    timer of that one is due. *)
Fixpoint rapid (previous : Z) (calls : list (Z * A)) : Prop :=
  match calls with
  | [] => True
  | (now, _) :: calls => previous ≤ now < previous + wait ∧ rapid now calls
  end.

(** The state between two calls of a burst: the timer of the last call is
    set, and its promise is the pending one. *)
Definition armed (now : Z) (a : A) (p : nat) (d : t) : Prop :=
  timeoutId d = Some {| deadline := now + wait; args := a; promise := p |} ∧
  pendingResolve d = Some p ∧ nextPromise d = S p.

(** The promises settled so far are the ones created before the pending
    one, in the order of their creation. *)
Definition settled_in_order (d : t) : Prop :=
  let settled := (λ s, snd (fst s)) <$> settlements d in
  match timeoutId d with
  | Some timer =>
      pendingResolve d = Some (promise timer) ∧ nextPromise d = S (promise timer) ∧
      settled = seq 0 (promise timer)
  | None => pendingResolve d = None ∧ settled = seq 0 (nextPromise d)
  end.

End Debounce.
Arguments Timer : clear implicits.
Arguments t : clear implicits.

End Utils.

(* ===================================================================== *)
(** * [src/watchr.ts]: the table of watchers, [close], [emitEvent] *)
(* ===================================================================== *)

Module Watchr.

Section WatchPaths.
Variable normalize : string → string.

(** The nested loop of [watchPaths] over the sorted paths:
    [hasSubPaths] becomes [true] when [isSubPath(targetPaths[i], targetPaths[j])]
    holds for some [i < j]. *)
Fixpoint hasSubPaths (targetPaths : list string) : bool :=
  match targetPaths with
  | [] => false
  | targetPath :: rest =>
      existsb (FileSystem.isSubPath normalize targetPath) rest || hasSubPaths rest
  end.

End WatchPaths.

(** A JS object used as a map from paths, whose keys are iterated: the
    own properties in insertion order. (A key that is an array index,
    a string of digits, would come first; the paths under which the class
    files its watchers are absolute, see [path_key] below.) The object is
    a plain one, [{}]: for a key that is no own property, [r[key]] is the
    member that the object inherits under that name, if there is one
    ([constructor], [toString], [__proto__], ...), where [record_get]
    finds nothing. The two agree on the keys that are absolute paths, see
    [absolute] below. *)
Section PathRecord.
Context {A : Type}.

Definition record_get (key : string) (r : list (string * A)) : option A :=
  snd <$> List.find (λ e, bool_decide (fst e = key)) r.

(** [r[key] = value]: an existing key keeps its position. *)
Definition record_set (key : string) (value : A) (r : list (string * A)) : list (string * A) :=
  if record_get key r is Some _ then
    (λ e, if bool_decide (fst e = key) then (key, value) else e) <$> r
  else r ++ [(key, value)].

(** [delete r[key]]. *)
Definition record_delete (key : string) (r : list (string * A)) : list (string * A) :=
  filter (λ e, fst e ≠ key) r.

End PathRecord.

(** [WatchrConfig], as far as the class reads it. [wc_id] stands for the
    identity of the config object, which is that of its [FSWatcher]:
    [watchDirectory] creates the two together. *)
Record WatchrConfig : Type := {
  folderPath : string;
  filePath : option string;
  wc_id : nat
}.

(** A call of [this.emit]. *)
Inductive Emission : Type :=
| EmitReady
| EmitClose
| EmitAll (event : FileSystemEvent) (targetStats : option WatchrStats)
    (targetPath : string) (targetPathNext : option string)
| EmitEvent (event : FileSystemEvent) (targetStats : option WatchrStats)
    (targetPath : string) (targetPathNext : option string).

(** The members of the class that the modelled methods use, the calls of
    [emit] (listeners are taken to be passive: [emit] runs them
    synchronously, and they do not call the watcher while they are
    notified; [emitEvent_to] below is [emitEvent] without this), and the
    watchers on which [close()] was called. [aborted] is the state of the
    abort signal, which the [close] listener of the constructor sets. *)
Record t : Type := {
  closed : bool;
  ready : bool;
  aborted : bool;
  roots : list string;
  watchers : list (string * list WatchrConfig);
  watchersRestorable : list (string * WatchrConfig);
  watchersRestoreTimeout : bool;
  _renameHandler : FileRenameHandler.t;
  emissions : list Emission;
  closedWatchers : list nat
}.

(** The state that the constructor sets up, before [watch] runs. *)
Definition new : t :=
  {| closed := false; ready := false; aborted := false; roots := [];
     watchers := []; watchersRestorable := []; watchersRestoreTimeout := false;
     _renameHandler := FileRenameHandler.new; emissions := []; closedWatchers := [] |}.

Definition set_watchers (ws : list (string * list WatchrConfig)) (w : t) : t :=
  {| closed := closed w; ready := ready w; aborted := aborted w; roots := roots w;
     watchers := ws; watchersRestorable := watchersRestorable w;
     watchersRestoreTimeout := watchersRestoreTimeout w;
     _renameHandler := _renameHandler w; emissions := emissions w;
     closedWatchers := closedWatchers w |}.

Definition set_renameHandler (h : FileRenameHandler.t) (w : t) : t :=
  {| closed := closed w; ready := ready w; aborted := aborted w; roots := roots w;
     watchers := watchers w; watchersRestorable := watchersRestorable w;
     watchersRestoreTimeout := watchersRestoreTimeout w;
     _renameHandler := h; emissions := emissions w;
     closedWatchers := closedWatchers w |}.

(** [this.emit(...)]. *)
Definition emit (e : Emission) (w : t) : t :=
  {| closed := closed w; ready := ready w; aborted := aborted w; roots := roots w;
     watchers := watchers w; watchersRestorable := watchersRestorable w;
     watchersRestoreTimeout := watchersRestoreTimeout w;
     _renameHandler := _renameHandler w; emissions := emissions w ++ [e];
     closedWatchers := closedWatchers w |}.

(** JS truthiness of a [Path | undefined]: [undefined] and the empty
    string are falsy. *)
Definition truthy_path (path : option string) : option string :=
  match path with
  | Some p => if decide (p = "") then None else Some p
  | None => None
  end.

(** [addWatcherConfig(config)]. *)
Definition addWatcherConfig (config : WatchrConfig) (w : t) : t :=
  set_watchers
    (record_set (folderPath config)
       (default [] (record_get (folderPath config) (watchers w)) ++ [config])
       (watchers w)) w.

(** [isClosed()] and [isReady()]. *)
Definition isClosed (w : t) : bool := closed w.
Definition isReady (w : t) : bool := ready w.

(** [setReady()], as [watch] calls it once the paths are watched. *)
Definition setReady (w : t) : t :=
  if isClosed w || isReady w then w
  else
    emit EmitReady
      {| closed := closed w; ready := true; aborted := aborted w; roots := roots w;
         watchers := watchers w; watchersRestorable := watchersRestorable w;
         watchersRestoreTimeout := watchersRestoreTimeout w;
         _renameHandler := _renameHandler w; emissions := emissions w;
         closedWatchers := closedWatchers w |}.

(** [emitEvent(event, targetPath, targetPathNext)]. *)
Definition emitEvent (event : FileSystemEvent) (targetPath : string)
    (targetPathNext : option string) (w : t) : t :=
  if isClosed w then w
  else
    let targetStats :=
      FileSystemStateManager._stats
        (FileRenameHandler.fileSystemStateManager (_renameHandler w)) !! targetPath in
    emit (EmitEvent event targetStats targetPath targetPathNext)
      (emit (EmitAll event targetStats targetPath targetPathNext) w).

(** [configs.indexOf(config)] and [configs.splice(index, 1)]: the index
    [-1] of a config that is not found makes [splice] remove the last
    element. *)
Definition indexOf (config : WatchrConfig) (configs : list WatchrConfig) : option nat :=
  fst <$> list_find (λ c, wc_id c = wc_id config) configs.

Definition splice1 (index : option nat) (configs : list WatchrConfig) : list WatchrConfig :=
  match index with
  | Some i => delete i configs
  | None => removelast configs
  end.

(** [watcherClose(config)]. *)
Definition watcherClose (config : WatchrConfig) (w : t) : t :=
  let w :=
    {| closed := closed w; ready := ready w; aborted := aborted w; roots := roots w;
       watchers := watchers w; watchersRestorable := watchersRestorable w;
       watchersRestoreTimeout := watchersRestoreTimeout w;
       _renameHandler := _renameHandler w; emissions := emissions w;
       closedWatchers := closedWatchers w ++ [wc_id config] |} in
  let w :=
    match record_get (folderPath config) (watchers w) with
    | Some configs =>
        let configs := splice1 (indexOf config configs) configs in
        if decide (length configs = 0%nat)
        then set_watchers (record_delete (folderPath config) (watchers w)) w
        else set_watchers (record_set (folderPath config) configs (watchers w)) w
    | None => w
    end in
  let rootPath := default (folderPath config) (truthy_path (filePath config)) in
  if decide (rootPath ∈ roots w) then
    {| closed := closed w; ready := ready w; aborted := aborted w; roots := roots w;
       watchers := watchers w;
       watchersRestorable := record_set rootPath config (watchersRestorable w);
       watchersRestoreTimeout := true;
       _renameHandler := _renameHandler w; emissions := emissions w;
       closedWatchers := closedWatchers w |}
  else w.

(** The [else] branch of [watchersClose(folderPath, filePath)], for a
    truthy [folderPath]: the loop over a copy of the configs of the
    folder. *)
Definition watchersClose_step (filePath : option string) (w : t)
    (watcherConfig : WatchrConfig) : t :=
  if bool_decide (truthy_path filePath = None)
     || bool_decide (Watchr.filePath watcherConfig = filePath)
  then watcherClose watcherConfig w else w.

Definition watchersClose_folder (folderPath : string) (filePath : option string) (w : t) : t :=
  foldl (watchersClose_step filePath) w (default [] (record_get folderPath (watchers w))).

(** [watchersClose(folderPath?, filePath?)]. Without a truthy
    [folderPath] the method calls itself for every key of [watchers]; for
    the key [""] that call is made without a truthy [folderPath] again,
    and the recursion does not end: the result is [None]. *)
Definition watchersClose (folderPath filePath : option string) (w : t) : option t :=
  match truthy_path folderPath with
  | Some folderPath => Some (watchersClose_folder folderPath filePath w)
  | None =>
      foldl (λ w folderPath,
               w ← w;
               if decide (folderPath = "") then None
               else Some (watchersClose_folder folderPath filePath w))
            (Some w) (fst <$> watchers w)
  end.

(** [close()]. *)
Definition close (w : t) : option t :=
  let w := set_renameHandler (FileRenameHandler.reset (_renameHandler w)) w in
  let w :=
    {| closed := closed w; ready := ready w; aborted := aborted w; roots := [];
       watchers := watchers w; watchersRestorable := watchersRestorable w;
       watchersRestoreTimeout := watchersRestoreTimeout w;
       _renameHandler := _renameHandler w; emissions := emissions w;
       closedWatchers := closedWatchers w |} in
  w ← watchersClose None None w;
  if isClosed w then Some w
  else
    Some (emit EmitClose
            {| closed := true; ready := ready w; aborted := true; roots := roots w;
               watchers := watchers w; watchersRestorable := watchersRestorable w;
               watchersRestoreTimeout := watchersRestoreTimeout w;
               _renameHandler := _renameHandler w; emissions := emissions w;
               closedWatchers := closedWatchers w |}).

(** The watchers are filed under their folder: no key is empty, no folder
    is without a config, and every config is under the key of its
    [folderPath]. *)
(** The rename handler was constructed with [this.emitEvent.bind(this)]:
    a call that the handler makes to its [emitEvent] is a call of
    [Watchr.emitEvent]. [renameWatchr f] runs the operation [f] of the
    handler and makes the calls that [f] logged. (An operation of the
    handler other than [reset] does not write to the state manager, and
    none writes to [closed]: the calls read the state that they read
    when they are made while [f] runs.) *)
Definition renameWatchr (f : FileRenameHandler.t → FileRenameHandler.t) (w : t) : t :=
  let h := f (_renameHandler w) in
  foldl (λ w e, emitEvent (ev_type e) (ev_path e) (ev_next e) w)
        (set_renameHandler h w)
        (drop (length (FileRenameHandler.emitted (_renameHandler w)))
              (FileRenameHandler.events h)).

(** A key that is a path: not empty, and not starting with a digit, so
    that it is no array index. *)
Definition path_key (key : string) : bool :=
  match key with
  | String c _ => negb ((48 <=? Ascii.nat_of_ascii c)%nat && (Ascii.nat_of_ascii c <=? 57)%nat)
  | EmptyString => false
  end.

Definition well_filed (e : string * list WatchrConfig) : Prop :=
  path_key (fst e) = true ∧ snd e ≠ [] ∧ Forall (λ c, folderPath c = fst e) (snd e).

Definition well_keyed (w : t) : Prop :=
  NoDup (fst <$> watchers w) ∧ Forall well_filed (watchers w).

(** All the watchers registered. *)
Definition registered (w : t) : list nat :=
  wc_id <$> concat (snd <$> watchers w).

(** Calls of the methods that change the table of watchers or emit:
    the methods that the event managers call, [close()], [setReady()],
    and an operation of the rename handler, whose emissions come back
    through [emitEvent]. *)
Inductive Call : Type :=
| AddWatcherConfig (config : WatchrConfig)
| WatchersClose (folderPath filePath : option string)
| Close
| SetReady
| CallEmitEvent (event : FileSystemEvent) (targetPath : string)
    (targetPathNext : option string)
| RenameWatchr (f : FileRenameHandler.t → FileRenameHandler.t).

Definition call (w : t) (c : Call) : option t :=
  match c with
  | AddWatcherConfig config => Some (addWatcherConfig config w)
  | WatchersClose folderPath filePath => watchersClose folderPath filePath w
  | Close => close w
  | SetReady => Some (setReady w)
  | CallEmitEvent event targetPath targetPathNext =>
      Some (emitEvent event targetPath targetPathNext w)
  | RenameWatchr f => Some (renameWatchr f w)
  end.

Definition calls (cs : list Call) (w : t) : option t :=
  foldl (λ w c, w ← w; call w c) (Some w) cs.

(** An absolute path, as [path.resolve] returns it: it starts with the
    separator, so that it is not the name of a member that a plain
    object inherits. *)
Definition absolute (path : string) : bool :=
  match path with
  | String c _ => (Ascii.nat_of_ascii c =? 47)%nat
  | EmptyString => false
  end.

(** The folders of the table are absolute paths. *)
Definition under_absolute_paths (w : t) : Prop :=
  Forall (λ e, absolute (fst e) = true) (watchers w).

(** The calls name folders by absolute paths: the [folderPath] of a
    config that is added, and a truthy [folderPath] given to
    [watchersClose]. *)
Definition on_absolute_paths (cs : list Call) : Prop :=
  Forall (λ c, match c with
               | AddWatcherConfig config => absolute (folderPath config) = true
               | WatchersClose folderPath _ =>
                   ∀ path, truthy_path folderPath = Some path → absolute path = true
               | _ => True
               end) cs.

(** [emitEvent] with listeners that act. [this.emit] calls the listeners
    synchronously, so that a listener can call the watcher while the
    method that notifies it is running: [react] is what the listeners of
    [all] do to the watcher when they are notified. *)
Definition emitEvent_to (react : t → option t) (event : FileSystemEvent)
    (targetPath : string) (targetPathNext : option string) (w : t) : option t :=
  if isClosed w then Some w
  else
    let targetStats :=
      FileSystemStateManager._stats
        (FileRenameHandler.fileSystemStateManager (_renameHandler w)) !! targetPath in
    w ← react (emit (EmitAll event targetStats targetPath targetPathNext) w);
    Some (emit (EmitEvent event targetStats targetPath targetPathNext) w).

(** What closing watchers leaves alone. *)
Definition same_delivery (w w' : t) : Prop :=
  closed w' = closed w ∧ _renameHandler w' = _renameHandler w ∧
  emissions w' = emissions w ∧ ready w' = ready w.

(** The watchers of a file among the configs of a folder, and the others. *)
Definition watchers_of (file : string) (configs : list WatchrConfig) : list WatchrConfig :=
  filter (λ c, filePath c = Some file) configs.

Definition watchers_beside (file : string) (configs : list WatchrConfig)
    : list WatchrConfig :=
  filter (λ c, filePath c ≠ Some file) configs.

(** A lookup that finds a non-empty array, or nothing. *)
Definition filed (configs : list WatchrConfig) : option (list WatchrConfig) :=
  if configs is [] then None else Some configs.

(** The state of the loop of [watchersClose(folder, file)] when the
    configs [processed] of the snapshot are behind it and [todo] remain. *)
Definition closing (folder file : string) (w : t) (processed todo : list WatchrConfig)
    (w' : t) : Prop :=
  record_get folder (watchers w') = filed (watchers_beside file processed ++ todo) ∧
  (∀ other, other ≠ folder →
     record_get other (watchers w') = record_get other (watchers w)) ∧
  closedWatchers w' = closedWatchers w ++ (wc_id <$> watchers_of file processed) ∧
  closed w' = closed w ∧ emissions w' = emissions w ∧
  roots w' = roots w ∧
  (file ∈ roots w → ∀ c, last (watchers_of file processed) = Some c →
     record_get file (watchersRestorable w') = Some c ∧ watchersRestoreTimeout w' = true) ∧
  (file ∉ roots w →
     watchersRestorable w' = watchersRestorable w ∧
     watchersRestoreTimeout w' = watchersRestoreTimeout w).

(** The order that the emissions of a watcher keep: [ready] at most
    once, [close] at most once, and nothing after [close]. *)
Definition is_ready (e : Emission) : bool := if e is EmitReady then true else false.
Definition is_close (e : Emission) : bool := if e is EmitClose then true else false.

Definition protocol (es : list Emission) : Prop :=
  (length (List.filter is_ready es) ≤ 1)%nat ∧
  (length (List.filter is_close es) ≤ 1)%nat ∧
  ∀ pre post, es = pre ++ EmitClose :: post → post = [].

(** The flags agree with what was emitted. *)
Definition flags_agree (w : t) : Prop :=
  (closed w = false → List.filter is_close (emissions w) = []) ∧
  (closed w = true → ∃ pre, emissions w = pre ++ [EmitClose]) ∧
  (ready w = false → List.filter is_ready (emissions w) = []) ∧
  protocol (emissions w).


End Watchr.

(* ===================================================================== *)
(** * [src/file-system-event-manager.ts]: [deduplicateEvents], [onTargetEvents] *)
(* ===================================================================== *)

Module FileSystemEventManager.

(** The callback of [events.reduce] in [deduplicateEvents], on the pair of
    the map [previousEventTargets] and the accumulator [uniqueEvents]. *)
Definition deduplicate (acc : gmap string FileSystemEvent * list Event) (event : Event)
    : gmap string FileSystemEvent * list Event :=
  let '(previousEventTargets, uniqueEvents) := acc in
  let targetEvent := ev_type event in
  let targetPath := ev_path event in
  let previousEventTarget := previousEventTargets !! targetPath in
  if decide (Some targetEvent = previousEventTarget) then acc
  else if decide (targetEvent = CHANGE ∧ previousEventTarget = Some ADD) then acc
  else (<[targetPath := targetEvent]> previousEventTargets, uniqueEvents ++ [event]).

(** [deduplicateEvents(events)]. *)
Definition deduplicateEvents (events : list Event) : list Event :=
  if decide (length events < 2)%nat then events
  else snd (foldl deduplicate (∅, []) events).

(** An event that repeats the event kept before it for the same path, or
    that is a [change] after a kept [add]. *)
Definition redundant (previous event : FileSystemEvent) : Prop :=
  event = previous ∨ (event = CHANGE ∧ previous = ADD).

(** The events of a batch that are about one path. *)
Definition on_path (targetPath : string) (events : list Event) : list Event :=
  filter (λ event, ev_path event = targetPath) events.

(** [previousEventTargets] holds, for each path, the name of the last
    event kept for it. *)
Definition last_kept (acc : gmap string FileSystemEvent * list Event) : Prop :=
  ∀ targetPath, fst acc !! targetPath = ev_type <$> last (on_path targetPath (snd acc)).

(** No event follows, among the events of its path, an event that makes
    it redundant. *)
Definition no_redundant_neighbours (events : list Event) : Prop :=
  ∀ targetPath l1 e1 e2 l2,
    on_path targetPath events = l1 ++ e1 :: e2 :: l2 →
    ¬ redundant (ev_type e1) (ev_type e2).

Section OnTargetEvents.
Variable normalize dirname : string → string.

(** The members of the class that [onTargetEvents] reads. *)
Record t : Type := {
  folderPath : string;
  filePath : option string;
  options_renameTimeout : option Z
}.




End OnTargetEvents.


End FileSystemEventManager.

(* ===================================================================== *)
(** * Properties of [SetMultiMap] *)
(* ===================================================================== *)

Section SetMultiMapProperties.
Context {K V : Type} `{Countable K} `{EqDecision V}.
Import SetMultiMap.

Lemma set_add_nonempty (v : V) (s : list V) : set_add v s ≠ [].
Proof.
  unfold set_add. destruct (decide (v ∈ s)) as [Hin|_].
  - intros ->. by apply not_elem_of_nil in Hin.
  - by destruct s.
Qed.

Lemma set_add_elem (v x : V) (s : list V) : x ∈ set_add v s ↔ x = v ∨ x ∈ s.
Proof.
  unfold set_add. destruct (decide (v ∈ s)) as [Hin|_].
  - split; [by right|]. by intros [->|].
  - rewrite elem_of_app, list_elem_of_singleton. tauto.
Qed.

Lemma well_formed_empty : well_formed (empty : t K V).
Proof. split; intros *; cbn; by rewrite lookup_empty. Qed.

Lemma well_formed_set (key : K) (v : V) (m : t K V) :
  well_formed m → well_formed (set key (inl v) m).
Proof.
  intros [Hsets Hinj]. unfold set.
  destruct (entries m !! key) as [r|] eqn:Hkey.
  - rewrite (insert_id _ _ _ Hkey). split; cbn; [|exact Hinj].
    intros key' r' Hkey'. destruct (Hsets _ _ Hkey') as [Hlt [values [Hv Hne]]].
    split; [done|].
    destruct (decide (r' = r)) as [->|Hr].
    + rewrite lookup_insert_eq. eexists; split; [done|]. apply set_add_nonempty.
    + rewrite lookup_insert_ne by done. eauto.
  - split; cbn.
    + intros key' r'. rewrite lookup_insert. case_decide as Hk.
      * intros [= <-]. split; [lia|]. rewrite lookup_insert_eq.
        eexists; split; [done|]. apply set_add_nonempty.
      * intros Hkey'. destruct (Hsets _ _ Hkey') as [Hlt [values [Hv Hne]]].
        split; [lia|]. rewrite lookup_insert_ne by lia. eauto.
    + intros key1 key2 r. rewrite !lookup_insert.
      repeat case_decide; subst; try done.
      * intros [= <-] Hk2. destruct (Hsets _ _ Hk2); lia.
      * intros Hk1 [= <-]. destruct (Hsets _ _ Hk1); lia.
      * apply Hinj.
Qed.

Lemma well_formed_deleteValue (key : K) (value : option V) (m : t K V) :
  well_formed m → well_formed (snd (deleteValue key value m)).
Proof.
  intros [Hsets Hinj]. unfold deleteValue. destruct value as [v|]; cbn.
  - destruct (entries m !! key) as [r|] eqn:Hkey; [|by split].
    case_decide as Hlen; split; cbn.
    + intros key' r'. rewrite lookup_delete. case_decide as Hk; [done|].
      intros Hkey'. destruct (Hsets _ _ Hkey') as [Hlt Hv]. split; [done|].
      rewrite lookup_insert_ne; [done|]. intros ->. apply Hk. eauto.
    + intros key1 key2 r'. rewrite !lookup_delete.
      repeat case_decide; try done. apply Hinj.
    + intros key' r' Hkey'. destruct (Hsets _ _ Hkey') as [Hlt Hv]. split; [done|].
      destruct (decide (r' = r)) as [->|Hr].
      * rewrite lookup_insert_eq. eexists; split; [done|].
        intros Hnil. apply Hlen. by rewrite Hnil.
      * by rewrite lookup_insert_ne.
    + exact Hinj.
  - split; cbn.
    + intros key' r'. rewrite lookup_delete. case_decide; [done|]. apply Hsets.
    + intros key1 key2 r'. rewrite !lookup_delete.
      repeat case_decide; try done. apply Hinj.
Qed.

Lemma well_formed_nonempty_sets (m : t K V) : well_formed m → nonempty_sets m.
Proof.
  intros [Hsets _] key values. unfold get, deref.
  destruct (entries m !! key) as [r|] eqn:Hkey; [|done].
  destruct (Hsets _ _ Hkey) as [_ [values' [Hv Hne]]]. cbn. rewrite Hv. cbn.
  by intros [= <-].
Qed.

Lemma well_formed_run_from (ops : list (op K V)) (m : t K V) :
  Forall single_valued ops → well_formed m → well_formed (foldl step m ops).
Proof.
  intros Hops. revert m. induction Hops as [|o ops Ho _ IH]; intros m Hm; [done|].
  cbn. apply IH. destruct o as [|key [v|r]|key value]; try done.
  - by apply well_formed_set.
  - by apply well_formed_deleteValue.
Qed.

(** What the two operations do, as the claim describes them. *)
Lemma set_adds_value (key : K) (v : V) (m : t K V) :
  well_formed m → member (set key (inl v) m) key v.
Proof.
  intros [Hsets _]. unfold member, get, set, deref.
  destruct (entries m !! key) as [r|] eqn:Hkey; cbn;
    rewrite lookup_insert_eq; cbn; rewrite lookup_insert_eq; cbn;
    eexists; (split; [done|]); apply set_add_elem; by left.
Qed.

Lemma deleteValue_last_removes_key (key : K) (v : V) (values : list V) (m : t K V) :
  get m key = Some values → set_delete v values = [] →
  get (snd (deleteValue key (Some v) m)) key = None.
Proof.
  unfold get, deleteValue. destruct (entries m !! key) as [r|] eqn:Hkey; [|done].
  cbn. intros [= Hd] Hempty. rewrite Hd, Hempty.
  cbn. rewrite decide_True by done. cbn. by rewrite lookup_delete_eq.
Qed.

(** C9, amended. Across every sequence of single-value [set(key, value)]
    and [deleteValue] operations on a new map, each key present in the map
    is associated with a non-empty value set: [set(key, value)] adds the
    value to the key's set, and [deleteValue(key, value)] removes the key
    when deleting the value empties its set. *)
Theorem single_value_operations_keep_sets_nonempty (ops : list (op K V)) :
  Forall single_valued ops →
  let m := run ops in
  nonempty_sets m
  ∧ (∀ key v, member (set key (inl v) m) key v)
  ∧ (∀ key v values,
       get m key = Some values → set_delete v values = [] →
       get (snd (deleteValue key (Some v) m)) key = None).
Proof.
  intros Hops m.
  assert (Hwf : well_formed m)
    by (apply well_formed_run_from; [done|apply well_formed_empty]).
  split; [by apply well_formed_nonempty_sets|]. split.
  - intros key v. by apply set_adds_value.
  - intros key v values. apply deleteValue_last_removes_key.
Qed.

(** [set] with a single value only adds members. *)
Lemma member_set_mono (key key' : K) (v v' : V) (m : t K V) :
  well_formed m → member m key v → member (set key' (inl v') m) key v.
Proof.
  intros [Hsets Hinj] (values & Hget & Hin). unfold member, get in *.
  destruct (entries m !! key) as [r|] eqn:Hkey; [|done].
  cbn in Hget. injection Hget as Hderef.
  destruct (Hsets _ _ Hkey) as [Hlt [values' [Hv _]]].
  unfold set. destruct (entries m !! key') as [r'|] eqn:Hkey'; cbn.
  - rewrite (insert_id _ _ _ Hkey'), Hkey. cbn. unfold deref at 1. cbn.
    destruct (decide (r = r')) as [->|Hr].
    + rewrite lookup_insert_eq. cbn. eexists; split; [done|].
      apply set_add_elem. right. by rewrite Hderef.
    + rewrite lookup_insert_ne by done. eexists; split; [done|].
      unfold deref in Hderef. by rewrite Hderef.
  - assert (key ≠ key') by congruence.
    rewrite lookup_insert_ne by done. rewrite Hkey. cbn. unfold deref at 1. cbn.
    rewrite lookup_insert_ne by lia. eexists; split; [done|].
    unfold deref in Hderef. by rewrite Hderef.
Qed.

(** [deleteValue] removes no other value. *)
Lemma member_deleteValue_other (key key' : K) (v v' : V) (m : t K V) :
  well_formed m → member m key v → v ≠ v' →
  member (snd (deleteValue key' (Some v') m)) key v.
Proof.
  intros [Hsets Hinj] (values & Hget & Hin) Hne. unfold member, get in *.
  destruct (entries m !! key) as [r|] eqn:Hkey; [|done].
  cbn in Hget. injection Hget as Hderef.
  unfold deleteValue. destruct (entries m !! key') as [r'|] eqn:Hkey'; cbn;
    [|rewrite Hkey; cbn; eexists; split; [by rewrite Hderef|done]].
  assert (Hkeep : v ∈ set_delete v' (deref m r) ) by
    (unfold set_delete; apply list_elem_of_filter; by rewrite Hderef).
  destruct (decide (key = key')) as [->|Hk].
  - assert (r' = r) as -> by congruence.
    rewrite decide_False; cbn.
    + rewrite Hkey. cbn. unfold deref at 1. cbn. rewrite lookup_insert_eq. cbn. eauto.
    + intros Hlen. apply nil_length_inv in Hlen. rewrite Hlen in Hkeep.
      by apply not_elem_of_nil in Hkeep.
  - assert (r ≠ r') by (intros ->; apply Hk; eauto).
    case_decide; cbn.
    + rewrite lookup_delete_ne by done. rewrite Hkey. cbn. unfold deref at 1. cbn.
      rewrite lookup_insert_ne by done. eexists; split; [done|].
      unfold deref in Hderef. by rewrite Hderef.
    + rewrite Hkey. cbn. unfold deref at 1. cbn.
      rewrite lookup_insert_ne by done. eexists; split; [done|].
      unfold deref in Hderef. by rewrite Hderef.
Qed.

End SetMultiMapProperties.

(** C9, as stated, fails: [set] also accepts a [Set], and an empty one
    leaves its key mapped to an empty set. *)
Lemma set_with_empty_set_breaks_nonempty :
  let m : SetMultiMap.t string Z :=
    SetMultiMap.run [SetMultiMap.OpNewSet []; SetMultiMap.OpSet "k" (inr 0%nat)] in
  SetMultiMap.get m "k" = Some [] ∧ ¬ SetMultiMap.nonempty_sets m.
Proof.
  assert (Hget : SetMultiMap.get
            (SetMultiMap.run [SetMultiMap.OpNewSet ([] : list Z);
                              SetMultiMap.OpSet "k" (inr 0%nat)]) "k" = Some [])
    by (vm_compute; reflexivity).
  cbn zeta. split; [exact Hget|].
  intros Hne. by apply (Hne "k" [] Hget).
Qed.

(** A [Set] shared by two keys is emptied through one of them. *)
Example shared_set_emptied_through_other_key :
  let m : SetMultiMap.t string Z :=
    SetMultiMap.run [SetMultiMap.OpNewSet [10]; SetMultiMap.OpSet "a" (inr 0%nat);
                     SetMultiMap.OpSet "b" (inr 0%nat);
                     SetMultiMap.OpDeleteValue "a" (Some 10)] in
  SetMultiMap.get m "a" = None ∧ SetMultiMap.get m "b" = Some [].
Proof. vm_compute. done. Qed.

Lemma single_value_operations_keep_sets_nonempty_witness :
  let m : SetMultiMap.t string Z :=
    SetMultiMap.run [SetMultiMap.OpSet "a" (inl 1); SetMultiMap.OpSet "a" (inl 2);
                     SetMultiMap.OpDeleteValue "a" (Some 1);
                     SetMultiMap.OpDeleteValue "b" None] in
  SetMultiMap.nonempty_sets m ∧
  SetMultiMap.get (snd (SetMultiMap.deleteValue "a" (Some 2) m)) "a" = None.
Proof.
  cbn zeta.
  destruct (single_value_operations_keep_sets_nonempty
              [SetMultiMap.OpSet "a" (inl 1); SetMultiMap.OpSet "a" (inl 2);
               SetMultiMap.OpDeleteValue "a" (Some 1);
               SetMultiMap.OpDeleteValue "b" None])
    as (Hnonempty & _ & Hdelete).
  - repeat constructor.
  - split; [exact Hnonempty|].
    apply (Hdelete "a" 2 [2]); vm_compute; reflexivity.
Defined.

(* ===================================================================== *)
(** * Lookup after [set] and [deleteValue], and [find] *)
(* ===================================================================== *)

Section SetMultiMapLaws.
Context {K V : Type} `{Countable K} `{EqDecision V}.
Import SetMultiMap.

Lemma set_delete_elem (v x : V) (s : list V) : x ∈ set_delete v s ↔ x ∈ s ∧ x ≠ v.
Proof. unfold set_delete. rewrite list_elem_of_filter. tauto. Qed.

Lemma get_set_well_formed (key key' : K) (v : V) (m : t K V) :
  well_formed m →
  get (set key (inl v) m) key'
  = if decide (key' = key) then Some (set_add v (default [] (get m key)))
    else get m key'.
Proof.
  intros [Hsets Hinj]. unfold get, set, deref.
  destruct (entries m !! key) as [r|] eqn:Hkey; cbn.
  - rewrite (insert_id _ _ _ Hkey). case_decide as Hk.
    + subst key'. rewrite Hkey. cbn. by rewrite lookup_insert_eq.
    + destruct (entries m !! key') as [r'|] eqn:Hkey'; [|done]. cbn.
      rewrite lookup_insert_ne; [done|]. intros ->. apply Hk. eauto.
  - case_decide as Hk.
    + subst key'. rewrite lookup_insert_eq. cbn. by rewrite lookup_insert_eq.
    + rewrite lookup_insert_ne by done.
      destruct (entries m !! key') as [r'|] eqn:Hkey'; [|done]. cbn.
      destruct (Hsets _ _ Hkey') as [Hlt _]. rewrite lookup_insert_ne by lia. done.
Qed.

Lemma get_deleteValue_well_formed (key key' : K) (v : V) (m : t K V) :
  well_formed m →
  get (snd (deleteValue key (Some v) m)) key'
  = if decide (key' = key) then
      match get m key with
      | Some values =>
          if decide (set_delete v values = []) then None else Some (set_delete v values)
      | None => None
      end
    else get m key'.
Proof.
  intros [Hsets Hinj]. unfold get, deleteValue, deref.
  destruct (entries m !! key) as [r|] eqn:Hkey; cbn [fmap option_fmap option_map snd].
  - destruct (decide (set_delete v (default [] (sets m !! r)) = [])) as [Hnil|Hnil].
    + rewrite (decide_True (P := length _ = 0%nat)) by (by rewrite Hnil).
      cbn [snd entries sets]. case_decide as Hk.
      * subst key'. by rewrite lookup_delete_eq.
      * rewrite lookup_delete_ne by done.
        destruct (entries m !! key') as [r'|] eqn:Hkey'; [|done]. cbn.
        rewrite lookup_insert_ne; [done|]. intros ->. apply Hk. eauto.
    + rewrite (decide_False (P := length _ = 0%nat))
        by (by intros Hlen%nil_length_inv).
      cbn [snd entries sets]. case_decide as Hk.
      * subst key'. rewrite Hkey. cbn. by rewrite lookup_insert_eq.
      * destruct (entries m !! key') as [r'|] eqn:Hkey'; [|done]. cbn.
        rewrite lookup_insert_ne; [done|]. intros ->. apply Hk. eauto.
  - case_decide as Hk; [by subst; rewrite Hkey|done].
Qed.

(** X1. In a map built by single-value [set] and [deleteValue] calls,
    [set(key, value)] changes the lookup of [key] only: its set gets the
    value appended, unless the set holds it already (a missing key starts
    from the empty set), and every other key keeps its set. *)
Theorem set_then_get (ops : list (op K V)) (key key' : K) (v : V) :
  Forall single_valued ops →
  let m := run ops in
  get (set key (inl v) m) key'
  = if decide (key' = key) then Some (set_add v (default [] (get m key)))
    else get m key'.
Proof.
  intros Hops m. apply get_set_well_formed, well_formed_run_from; [done|].
  apply well_formed_empty.
Qed.

(** X2. In a map built by single-value [set] and [deleteValue] calls,
    [deleteValue(key, value)] returns whether the value was in the set of
    the key, and changes the lookup of [key] only: the value is gone from
    its set, the key is gone when its set becomes empty, and every other
    key keeps its set. *)
Theorem deleteValue_then_get (ops : list (op K V)) (key key' : K) (v : V) :
  Forall single_valued ops →
  let m := run ops in
  fst (deleteValue key (Some v) m) = memberb m key v ∧
  get (snd (deleteValue key (Some v) m)) key'
  = if decide (key' = key) then
      match get m key with
      | Some values =>
          if decide (set_delete v values = []) then None else Some (set_delete v values)
      | None => None
      end
    else get m key'.
Proof.
  intros Hops m. split.
  - unfold deleteValue, memberb, get.
    destruct (entries m !! key) as [r|]; [|done]. cbn. by case_decide.
  - apply get_deleteValue_well_formed, well_formed_run_from; [done|].
    apply well_formed_empty.
Qed.

(** X3. [find(key, iterator)] returns the first value, in the insertion
    order of the set of the key, that satisfies [iterator]; it returns
    [undefined] exactly when the key is missing or no value of its set
    satisfies [iterator]. *)
Theorem find_returns_first_match (key : K) (iterator : V → bool) (m : t K V) :
  (∀ v, find key iterator m = Some v ↔
        ∃ before after, get m key = Some (before ++ v :: after) ∧ iterator v = true ∧
                        Forall (λ x, iterator x = false) before) ∧
  (find key iterator m = None ↔
   ∀ values, get m key = Some values → Forall (λ x, iterator x = false) values).
Proof.
  unfold find. destruct (get m key) as [values|]; [|split; [|done]].
  2: { intros v. split; [done|]. by intros (? & ? & ? & _). }
  assert (Hfirst : ∀ v, List.find iterator values = Some v ↔
            ∃ before after, values = before ++ v :: after ∧ iterator v = true ∧
                            Forall (λ x, iterator x = false) before).
  { intros v. induction values as [|x values IH]; cbn.
    - split; [done|]. intros (before & after & Hnil & _). by destruct before.
    - destruct (iterator x) eqn:Hx.
      + split.
        * intros [= <-]. exists [], values. by repeat split.
        * intros (before & after & Hsplit & Hv & Hbefore).
          destruct before as [|y before]; [by injection Hsplit as <- _|].
          injection Hsplit as <- _. apply Forall_cons in Hbefore as [Hy _]. congruence.
      + rewrite IH. split.
        * intros (before & after & -> & Hv & Hbefore).
          exists (x :: before), after. repeat split; [done|]. by constructor.
        * intros (before & after & Hsplit & Hv & Hbefore).
          destruct before as [|y before]; [injection Hsplit as <- _; congruence|].
          injection Hsplit as <- ->. apply Forall_cons in Hbefore as [_ Hbefore].
          by exists before, after. }
  split.
  - intros v. rewrite Hfirst. split; intros (before & after & Hsplit & Hrest).
    + exists before, after. by rewrite Hsplit.
    + injection Hsplit as ->. by exists before, after.
  - split.
    + intros Hnone values' [= <-]. apply Forall_forall. intros x Hx.
      apply list_elem_of_In in Hx. by apply (find_none _ _ Hnone).
    + intros Hall. specialize (Hall values eq_refl).
      case_eq (List.find iterator values); [intros v Hfind|done].
      apply Hfirst in Hfind as (before & after & -> & Hv & _).
      apply Forall_app in Hall as [_ Hall]. apply Forall_cons in Hall as [Hv' _]. congruence.
Qed.

End SetMultiMapLaws.

Lemma set_then_get_witness :
  let m : SetMultiMap.t string Z :=
    SetMultiMap.run [SetMultiMap.OpSet "a" (inl 1); SetMultiMap.OpSet "b" (inl 2)] in
  SetMultiMap.get (SetMultiMap.set "a" (inl 3) m) "a" = Some [1; 3] ∧
  SetMultiMap.get (SetMultiMap.set "a" (inl 3) m) "b" = Some [2].
Proof.
  cbn zeta. split.
  - refine (eq_trans (set_then_get
                        [SetMultiMap.OpSet "a" (inl 1); SetMultiMap.OpSet "b" (inl 2)]
                        "a" "a" 3 _) _); [repeat constructor|vm_compute; reflexivity].
  - refine (eq_trans (set_then_get
                        [SetMultiMap.OpSet "a" (inl 1); SetMultiMap.OpSet "b" (inl 2)]
                        "a" "b" 3 _) _); [repeat constructor|vm_compute; reflexivity].
Defined.

Lemma deleteValue_then_get_witness :
  let m : SetMultiMap.t string Z :=
    SetMultiMap.run [SetMultiMap.OpSet "a" (inl 1); SetMultiMap.OpSet "a" (inl 2)] in
  fst (SetMultiMap.deleteValue "a" (Some 1) m) = true ∧
  SetMultiMap.get (snd (SetMultiMap.deleteValue "a" (Some 1) m)) "a" = Some [2].
Proof.
  cbn zeta.
  destruct (deleteValue_then_get
              [SetMultiMap.OpSet "a" (inl 1); SetMultiMap.OpSet "a" (inl 2)] "a" "a" 1)
    as [Hdeleted Hget]; [repeat constructor|].
  split.
  - refine (eq_trans Hdeleted _). vm_compute. reflexivity.
  - refine (eq_trans Hget _). vm_compute. reflexivity.
Defined.


(* ===================================================================== *)
(** * Properties of the classifier and of the state cache *)
(* ===================================================================== *)

Section StateManagerProperties.
Import FileSystemStateManager.

(** Bit 3 of the pattern tells whether there was metadata before, bit 2
    whether there is metadata now: a case label of [determineEvents] is
    reached only with the metadata that it reads. *)
Lemma pattern_present previous next :
  Z.testbit (pattern previous next) 3 = bool_decide (is_Some previous) ∧
  Z.testbit (pattern previous next) 2 = bool_decide (is_Some next).
Proof.
  destruct previous as [[? ? [] ? ?]|], next as [[? ? [] ? ?]|]; split; reflexivity.
Qed.

Lemma determineEvents_table previous next :
  fst <$> determineEvents previous next = classification_table previous next.
Proof.
  destruct previous as [[? ? [] ? ?]|], next as [[? ? [] ? ?]|]; reflexivity.
Qed.

(** [updateInodes] and [updateStats] touch disjoint members. *)
Lemma updateInodes_stats path events s :
  _stats (updateInodes path events s) = _stats s ∧
  _paths (updateInodes path events s) = _paths s.
Proof.
  revert s. induction events as [|e events IH]; intros s; [done|].
  change (updateInodes path (e :: events) s)
    with (updateInodes path events (updateInode path (fst e) (snd e) s)).
  destruct (IH (updateInode path (fst e) (snd e) s)) as [H1 H2].
  rewrite H1, H2. done.
Qed.

Lemma update_stats_map path resolved s :
  _stats (snd (update path resolved s))
  = match getStats resolved with
    | Some next => <[path := next]> (_stats s)
    | None => delete path (_stats s)
    end.
Proof.
  unfold update. cbn [snd]. rewrite (proj1 (updateInodes_stats _ _ _)).
  unfold updateStats. destruct (getStats resolved); reflexivity.
Qed.

Lemma update_stats path resolved s :
  _stats (snd (update path resolved s)) !! path = getStats resolved.
Proof.
  rewrite update_stats_map. destruct (getStats resolved).
  - apply lookup_insert_eq.
  - apply lookup_delete_eq.
Qed.

(** C1. Every call [update(path)] returns exactly the event list that the
    nine-row classification table gives for the metadata cached for the
    path before the call and the freshly fetched metadata (absent when the
    path is not a regular file or a directory), in the order of the row. *)
Theorem update_returns_classification_table path resolved s :
  fst (update path resolved s)
  = classification_table (_stats s !! path) (getStats resolved).
Proof.
  unfold update. cbn. apply determineEvents_table.
Qed.

(** The nine rows, on fabricated metadata. *)
Example classification_rows :
  let f := newWatchrStats (file_stats 7 10) in
  let d := newWatchrStats (directory_stats 8) in
  fst <$> determineEvents None None = [] ∧
  fst <$> determineEvents None (Some d) = [ADD_DIR] ∧
  fst <$> determineEvents None (Some f) = [ADD] ∧
  fst <$> determineEvents (Some d) None = [UNLINK_DIR] ∧
  fst <$> determineEvents (Some f) None = [UNLINK] ∧
  fst <$> determineEvents (Some f) (Some f) = [CHANGE] ∧
  fst <$> determineEvents (Some f) (Some d) = [UNLINK; ADD_DIR] ∧
  fst <$> determineEvents (Some d) (Some f) = [UNLINK_DIR; ADD] ∧
  fst <$> determineEvents (Some d) (Some d) = [UNLINK_DIR; ADD_DIR].
Proof. repeat split. Qed.

(** The cases of the unit tests of [getInodeNumber], [updateInode] and
    [updateStats]. *)
Example state_manager_unit_tests :
  let f := newWatchrStats (file_stats 123 100) in
  let s := updateInode "/file.txt" ADD f empty in
  getInodeNumber "/non-existent" ADD None empty = None ∧
  getInodeNumber "/file.txt" ADD None s = Some 123 ∧
  getInodeNumber "/file.txt" ADD (Some FILE) s = Some 123 ∧
  getInodeNumber "/file.txt" ADD (Some DIR) s = None ∧
  _stats (updateStats "/file.txt" (Some f) empty) !! "/file.txt" = Some f ∧
  SetMultiMap.get (_paths (updateStats "/file.txt" (Some f) empty)) 123 = Some ["/file.txt"] ∧
  _stats (updateStats "/file.txt" None (updateStats "/file.txt" (Some f) empty))
    !! "/file.txt" = None ∧
  SetMultiMap.get (_paths (updateStats "/file.txt" None
                             (updateStats "/file.txt" (Some f) empty))) 123 = None.
Proof. vm_compute. repeat split. Qed.

(** C4, as stated, fails: a file observed twice with the same metadata
    makes the second [update] return [change], not the empty list. *)
Lemma update_unchanged_file_reports_change :
  let s1 := snd (update "/a" (Some (file_stats 7 10)) empty) in
  _stats s1 !! "/a" = getStats (Some (file_stats 7 10)) ∧
  fst (update "/a" (Some (file_stats 7 10)) s1) = [CHANGE] ∧
  fst (update "/a" (Some (file_stats 7 10)) s1) ≠ [].
Proof. vm_compute. repeat split; congruence. Qed.

(** C4, amended. When the second of two consecutive [update(path)] calls
    observes what the first one observed, it leaves the path-to-metadata
    cache unchanged; it returns no event when both observe no metadata,
    [change] when both observe the same file, and [unlinkDir, addDir] when
    both observe the same directory. *)
Theorem update_twice path resolved s :
  let s1 := snd (update path resolved s) in
  let r2 := update path resolved s1 in
  fst r2 = match getStats resolved with
           | None => []
           | Some next => if isFile next then [CHANGE] else [UNLINK_DIR; ADD_DIR]
           end
  ∧ _stats (snd r2) = _stats s1.
Proof.
  intros s1 r2. split.
  - unfold r2, update. cbn [fst]. rewrite determineEvents_table.
    unfold s1. rewrite update_stats.
    destruct (getStats resolved) as [[? ? [] ? ?]|]; reflexivity.
  - unfold r2, s1. rewrite !update_stats_map.
    destruct (getStats resolved).
    + apply insert_insert_eq.
    + apply delete_delete_eq.
Qed.

(** C5 at a failing input: [update("/a")] observes a file with inode 1,
    then a file with inode 2 (the file was replaced). Afterwards "/a" is
    still a member of the index set of inode 1, while the cache maps "/a"
    to inode 2: index and cache are out of sync. *)
Theorem inode_index_keeps_replaced_inode :
  let s1 := snd (update "/a" (Some (file_stats 1 10)) empty) in
  let s2 := snd (update "/a" (Some (file_stats 2 10)) s1) in
  SetMultiMap.memberb (_paths s2) 1 "/a" = true ∧
  inodeNumber <$> _stats s2 !! "/a" = Some 2 ∧
  ¬ in_sync_at s2 1 "/a".
Proof.
  cbn zeta.
  assert (Hm : SetMultiMap.get
                 (_paths (snd (update "/a" (Some (file_stats 2 10))
                            (snd (update "/a" (Some (file_stats 1 10)) empty))))) 1
               = Some ["/a"]) by (vm_compute; reflexivity).
  assert (Hs : inodeNumber <$> _stats (snd (update "/a" (Some (file_stats 2 10))
                            (snd (update "/a" (Some (file_stats 1 10)) empty)))) !! "/a"
               = Some 2) by (vm_compute; reflexivity).
  split; [|split].
  - unfold SetMultiMap.memberb. rewrite Hm. vm_compute. reflexivity.
  - exact Hs.
  - unfold in_sync_at. rewrite Hs. intros [Hiff _].
    assert (Some 2 = Some 1) as Heq; [|congruence].
    apply Hiff. exists ["/a"]. split; [exact Hm|]. apply list_elem_of_here.
Qed.

(** What does hold of C5 after every sequence of [update] calls: every
    cached path is a member of the index set of its cached inode, and the
    index keeps no empty set. (The converse fails, as shown above.) *)
Lemma update_keeps_cache_indexed path resolved s :
  SetMultiMap.well_formed (_paths s) → cache_indexed s →
  let s' := snd (update path resolved s) in
  SetMultiMap.well_formed (_paths s') ∧ cache_indexed s'.
Proof.
  intros Hwf Hidx s'. unfold s', cache_indexed, update. cbn [snd].
  destruct (updateInodes_stats path
              (determineEvents (_stats s !! path) (getStats resolved))
              (updateStats path (getStats resolved) s)) as [-> ->].
  unfold updateStats. destruct (getStats resolved) as [next|]; cbn [_paths _stats].
  - split; [by apply well_formed_set|].
    intros p stats. rewrite lookup_insert. case_decide as Hp.
    + intros [= <-]. subst p. by apply set_adds_value.
    + intros Hcached. by apply member_set_mono, Hidx.
  - split; [by apply well_formed_deleteValue|].
    intros p stats. rewrite lookup_delete. case_decide as Hp; [done|].
    intros Hcached. apply member_deleteValue_other; [done|by apply Hidx|congruence].
Qed.

Lemma cache_indexed_after_updates calls : cache_indexed (run calls).
Proof.
  assert (Hboth : SetMultiMap.well_formed (_paths (run calls)) ∧ cache_indexed (run calls));
    [|by destruct Hboth].
  unfold run.
  assert (Hempty : SetMultiMap.well_formed (_paths empty) ∧ cache_indexed empty).
  { split; [apply well_formed_empty|]. intros p stats. cbn. by rewrite lookup_empty. }
  revert Hempty. generalize empty.
  induction calls as [|call calls IH]; intros s Hs; cbn [foldl]; [done|].
  apply IH. destruct Hs. by apply update_keeps_cache_indexed.
Qed.

End StateManagerProperties.


(* ===================================================================== *)
(** * The inode index, the recorded inodes and the other paths *)
(* ===================================================================== *)

Section StateManagerInvariants.
Import FileSystemStateManager.

Lemma index_well_formed_after_updates calls : SetMultiMap.well_formed (_paths (run calls)).
Proof.
  assert (Hboth : SetMultiMap.well_formed (_paths (run calls)) ∧ cache_indexed (run calls));
    [|by destruct Hboth].
  unfold run.
  assert (Hempty : SetMultiMap.well_formed (_paths empty) ∧ cache_indexed empty).
  { split; [apply well_formed_empty|]. intros p stats. cbn. by rewrite lookup_empty. }
  revert Hempty. generalize empty.
  induction calls as [|call calls IH]; intros s Hs; cbn [foldl]; [done|].
  apply IH. destruct Hs. by apply update_keeps_cache_indexed.
Qed.

(** X4. After every sequence of [update] calls on a new manager, each
    path that the cache holds is in the inode index, in the set of the
    inode that its cached metadata carries. *)
Theorem cached_paths_are_indexed calls path stats :
  _stats (run calls) !! path = Some stats →
  ∃ paths, SetMultiMap.get (_paths (run calls)) (inodeNumber stats) = Some paths ∧
           path ∈ paths.
Proof. apply cache_indexed_after_updates. Qed.

Lemma updateInodes_targetInodes path events s :
  targetInodes (updateInodes path events s)
  = foldl (λ inodes event,
             <[fst event := <[path := (inodeNumber (snd event),
                                       if isFile (snd event) then FILE else DIR)]>
                              (default ∅ (inodes !! fst event))]> inodes)
          (targetInodes s) events.
Proof.
  revert s. induction events as [|e events IH]; intros s; [done|].
  change (updateInodes path (e :: events) s)
    with (updateInodes path events (updateInode path (fst e) (snd e) s)).
  by rewrite IH.
Qed.

Lemma getInodeNumber_lookup path event type s :
  getInodeNumber path event type s
  = match targetInodes s !! event ≫= (λ eventInodes, eventInodes !! path) with
    | Some (i, k) =>
        match type with
        | Some ty => if decide (k ≠ ty) then None else Some i
        | None => Some i
        end
    | None => None
    end.
Proof. done. Qed.

(** X5. For every event that [update(path)] returns, the inode table
    holds afterwards, under that event name and the path, the inode of the
    metadata the event is about (the cached metadata for a removal, the
    fetched metadata otherwise), with the inode type of the namespace of
    the event: the typed lookup that [processLock] makes for the event
    finds this inode. *)
Theorem update_records_inode_of_each_event path resolved s event :
  event ∈ fst (update path resolved s) →
  ∃ stats,
    subject event (_stats s !! path) (getStats resolved) = Some stats ∧
    (isFile stats = true ↔ namespace_of event = FILE) ∧
    getInodeNumber path event (Some (namespace_of event)) (snd (update path resolved s))
    = Some (inodeNumber stats).
Proof.
  unfold update. cbn [fst snd]. intros Hin.
  rewrite getInodeNumber_lookup, updateInodes_targetInodes.
  cbn [targetInodes updateStats].
  assert (Htable : targetInodes (updateStats path (getStats resolved) s) = targetInodes s)
    by (unfold updateStats; by destruct (getStats resolved)).
  rewrite Htable. clear Htable.
  destruct (_stats s !! path) as [[pi ps [] pd pl]|], (getStats resolved) as [[ni ns [] nd nl]|].
  all: match goal with |- context [determineEvents ?p ?n] =>
         let r := eval vm_compute in (determineEvents p n) in
         change (determineEvents p n) with r in *
       end.
  all: cbn [fmap list_fmap fst] in Hin; rewrite ?elem_of_cons, ?elem_of_nil in Hin.
  all: repeat (destruct Hin as [->|Hin]); try done.
  all: cbn [subject foldl fst snd isFile inodeNumber namespace_of].
  all: (eexists; split; [reflexivity|]; split; [done|]).
  all: cbn [isFile inodeNumber].
  all: rewrite ?lookup_insert_eq.
  all: try (rewrite lookup_insert_ne by done; rewrite ?lookup_insert_eq).
  all: cbn [mbind option_bind]; rewrite lookup_insert_eq; by rewrite decide_False by naive_solver.
Qed.

Lemma updateInodes_other (path other : string) (events : list (FileSystemEvent * WatchrStats)) :
  ∀ (inodes : gmap FileSystemEvent (gmap string (Z * InodeType))) (event : FileSystemEvent),
  other ≠ path →
  foldl (λ inodes event,
           <[fst event := <[path := (inodeNumber (snd event),
                                     if isFile (snd event) then FILE else DIR)]>
                            (default ∅ (inodes !! fst event))]> inodes)
        inodes events !! event ≫= (λ eventInodes, eventInodes !! other)
  = inodes !! event ≫= (λ eventInodes : gmap string (Z * InodeType), eventInodes !! other).
Proof.
  induction events as [|e events IH]; intros inodes event Hother; [done|].
  cbn [foldl]. rewrite IH by done.
  destruct (decide (event = fst e)) as [->|Hne].
  - rewrite lookup_insert_eq. cbn. rewrite lookup_insert_ne by done.
    destruct (inodes !! fst e); cbn; [done|]. by rewrite lookup_empty.
  - by rewrite lookup_insert_ne.
Qed.

(** X6. After every sequence of [update] calls, a further [update(path)]
    leaves every other path as it was: its cached metadata, the inodes
    recorded for it under every event name, and its membership in every
    set of the inode index. *)
Theorem update_leaves_other_paths_alone calls path resolved other :
  other ≠ path →
  let s := run calls in
  let s' := snd (update path resolved s) in
  _stats s' !! other = _stats s !! other ∧
  (∀ event type, getInodeNumber other event type s' = getInodeNumber other event type s) ∧
  (∀ i, SetMultiMap.member (_paths s') i other ↔ SetMultiMap.member (_paths s) i other).
Proof.
  intros Hother s s'. split; [|split].
  - unfold s'. rewrite update_stats_map.
    destruct (getStats resolved); [by rewrite lookup_insert_ne|by rewrite lookup_delete_ne].
  - intros event type. rewrite !getInodeNumber_lookup. unfold s', update. cbn [snd].
    rewrite updateInodes_targetInodes, updateInodes_other by done.
    unfold updateStats. by destruct (getStats resolved).
  - intros i. pose proof (index_well_formed_after_updates calls) as Hwf. fold s in Hwf.
    unfold s', update. cbn [snd].
    rewrite (proj2 (updateInodes_stats _ _ _)). unfold SetMultiMap.member, updateStats.
    destruct (getStats resolved) as [next|]; cbn [_paths].
    + rewrite get_set_well_formed by done. case_decide as Hi.
      * subst i. split.
        -- intros (values & [= <-] & Hin). apply set_add_elem in Hin as [?|Hin]; [done|].
           destruct (SetMultiMap.get (_paths s) (inodeNumber next)) as [values|]; [eauto|].
           by apply not_elem_of_nil in Hin.
        -- intros (values & -> & Hin). eexists; split; [done|].
           apply set_add_elem. by right.
      * done.
    + rewrite get_deleteValue_well_formed by done. case_decide as Hi; [|done].
      subst i. split.
      * intros (values & Hget & Hin).
        destruct (SetMultiMap.get (_paths s) _) as [values'|]; [|done].
        case_decide; [done|]. injection Hget as <-.
        apply set_delete_elem in Hin as [Hin _]. eauto.
      * intros (values & -> & Hin).
        assert (Hkeep : other ∈ set_delete path values) by (by apply set_delete_elem).
        rewrite decide_False by (intros Hnil; rewrite Hnil in Hkeep;
                                 by apply not_elem_of_nil in Hkeep).
        eauto.
Qed.

End StateManagerInvariants.

Lemma cached_paths_are_indexed_witness :
  let calls := [("/a", Some (file_stats 1 10)); ("/a", Some (file_stats 2 10))] in
  ∃ paths,
    SetMultiMap.get (FileSystemStateManager._paths (FileSystemStateManager.run calls)) 2
    = Some paths ∧ "/a" ∈ paths.
Proof.
  cbn zeta.
  apply (cached_paths_are_indexed
           [("/a", Some (file_stats 1 10)); ("/a", Some (file_stats 2 10))]
           "/a" (newWatchrStats (file_stats 2 10))).
  vm_compute. reflexivity.
Defined.

Lemma update_records_inode_of_each_event_witness :
  let s := snd (FileSystemStateManager.update "/a" (Some (file_stats 7 10))
                  FileSystemStateManager.empty) in
  ∃ stats,
    FileSystemStateManager.subject UNLINK (FileSystemStateManager._stats s !! "/a")
      (FileSystemStateManager.getStats None) = Some stats ∧
    (isFile stats = true ↔ FileSystemStateManager.namespace_of UNLINK = FILE) ∧
    FileSystemStateManager.getInodeNumber "/a" UNLINK (Some FILE)
      (snd (FileSystemStateManager.update "/a" None s))
    = Some (inodeNumber stats).
Proof.
  cbn zeta.
  apply (update_records_inode_of_each_event "/a" None
           (snd (FileSystemStateManager.update "/a" (Some (file_stats 7 10))
                   FileSystemStateManager.empty)) UNLINK).
  vm_compute. apply list_elem_of_here.
Defined.

Lemma update_leaves_other_paths_alone_witness :
  let s := FileSystemStateManager.run [("/a", Some (file_stats 1 10))] in
  let s' := snd (FileSystemStateManager.update "/b" (Some (file_stats 2 5)) s) in
  FileSystemStateManager._stats s' !! "/a" = FileSystemStateManager._stats s !! "/a".
Proof.
  cbn zeta.
  apply (update_leaves_other_paths_alone [("/a", Some (file_stats 1 10))]
           "/b" (Some (file_stats 2 5)) "/a").
  vm_compute. congruence.
Defined.

(* ===================================================================== *)
(** * Properties of [RetryQueue] *)
(* ===================================================================== *)

Section RetryQueueProperties.
Import RetryQueue.

Lemma set_size_add_le (fn : N) (s : list N) : set_size (set_add fn s) ≤ set_size s + 1.
Proof.
  unfold set_size, set_add. destruct (decide (fn ∈ s)); [lia|].
  rewrite length_app. cbn. lia.
Qed.

Lemma set_size_delete_le (fn : N) (s : list N) : set_size (set_delete fn s) ≤ set_size s.
Proof.
  unfold set_size, set_delete. pose proof (length_filter (λ x, x ≠ fn) s). lia.
Qed.

Lemma set_add_elem_N (fn x : N) (s : list N) : x ∈ set_add fn s ↔ x = fn ∨ x ∈ s.
Proof. apply set_add_elem. Qed.

Lemma bounded_new : bounded new.
Proof. split; cbn; [done|]. unfold fileDescriptorLimit. lia. Qed.

Lemma bounded_reset q : bounded q → bounded (reset q).
Proof. done. Qed.

Lemma bounded_activate fn q :
  ¬ fileDescriptorLimit ≤ set_size (activeQueue q) → bounded q → bounded (activate fn q).
Proof.
  intros Hroom [Hsize Hpeak]. pose proof (set_size_add_le fn (activeQueue q)).
  split; cbn; lia.
Qed.

Lemma bounded_processQueue_loop pending q :
  bounded q → bounded (fst (processQueue_loop pending q)).
Proof.
  revert q. induction pending as [|fn pending IH]; intros q Hq; cbn; [done|].
  case_decide as Hfull; [done|]. by apply IH, bounded_activate.
Qed.

Lemma bounded_processQueue q : bounded q → bounded (processQueue q).
Proof.
  intros Hq. unfold processQueue. case_decide; [done|].
  case_decide; [done|].
  pose proof (bounded_processQueue_loop (pendingQueue q) q Hq) as Hloop.
  destruct (processQueue_loop (pendingQueue q) q) as [q' returned]. cbn in Hloop.
  destruct returned; [done|]. by case_decide.
Qed.

Lemma bounded_add fn q : bounded q → bounded (add fn q).
Proof.
  intros Hq. unfold add. cbn. case_decide.
  - by apply bounded_processQueue.
  - by destruct (intervalId q).
Qed.

Lemma bounded_step q o : bounded q → bounded (step q o).
Proof.
  intros Hq. destruct o as [|resolver|]; cbn.
  - by apply bounded_add.
  - destruct Hq as [Hsize Hpeak]. split; cbn; [|done].
    pose proof (set_size_delete_le resolver (activeQueue q)). lia.
  - unfold tick. destruct (intervalId q); [|done]. by apply bounded_processQueue.
Qed.

Lemma bounded_run ops : bounded (run ops).
Proof.
  unfold run. generalize bounded_new. generalize new.
  induction ops as [|o ops IH]; intros q Hq; cbn; [done|].
  by apply IH, bounded_step.
Qed.

(** While there is room for all of them, the loop of [processQueue] calls
    every pending resolver and moves it to the active set. *)
Lemma processQueue_loop_serves pending q :
  set_size (activeQueue q) + Z.of_nat (length pending) ≤ fileDescriptorLimit →
  let r := processQueue_loop pending q in
  snd r = false ∧
  (∀ fn, fn ∈ pending ∨ fn ∈ called q → fn ∈ called (fst r)) ∧
  (∀ fn, fn ∈ pending ∨ fn ∈ activeQueue q → fn ∈ activeQueue (fst r)).
Proof.
  revert q. induction pending as [|fn pending IH]; intros q Hroom; cbn.
  - repeat split; intros fn [Hin|Hin]; try done; by apply not_elem_of_nil in Hin.
  - rewrite length_cons in Hroom. case_decide as Hfull; [exfalso; lia|].
    pose proof (set_size_add_le fn (activeQueue q)) as Hadd.
    destruct (IH (activate fn q)) as (Hret & Hcalled & Hactive);
      [unfold activate; cbn [activeQueue]; lia|].
    split; [done|]. split.
    + intros fn' [Hin|Hin]; apply Hcalled.
      * apply elem_of_cons in Hin as [->|Hin]; [right|by left].
        cbn. apply elem_of_app. right. apply list_elem_of_here.
      * right. cbn. apply elem_of_app. by left.
    + intros fn' [Hin|Hin]; apply Hactive.
      * apply elem_of_cons in Hin as [->|Hin]; [right|by left].
        cbn. apply set_add_elem_N. by left.
      * right. cbn. apply set_add_elem_N. by right.
Qed.

(** A [schedule()] made below half the limit is served at once when the
    callers already pending fit below the hard limit together with it. *)
Lemma schedule_served q :
  2 * set_size (activeQueue q) < fileDescriptorLimit →
  set_size (activeQueue q) + set_size (pendingQueue q) + 1 ≤ fileDescriptorLimit →
  served_immediately q.
Proof.
  intros Hhalf Hfit. unfold served_immediately, schedule, add. cbn.
  rewrite decide_True by done. unfold processQueue. cbn.
  pose proof (set_size_add_le (nextResolver q) (pendingQueue q)) as Hpend.
  unfold set_size in *.
  rewrite decide_False by lia.
  assert (Hne : Z.of_nat (length (set_add (nextResolver q) (pendingQueue q))) ≠ 0).
  { pose proof (set_add_nonempty (nextResolver q) (pendingQueue q)) as Hnil.
    destruct (set_add (nextResolver q) (pendingQueue q)); [done|].
    rewrite length_cons. lia. }
  rewrite decide_False by done.
  match goal with |- context [processQueue_loop ?p ?q0] =>
    destruct (processQueue_loop_serves p q0) as (Hret & Hcalled & Hactive);
      [unfold set_size; cbn [activeQueue]; lia|];
    destruct (processQueue_loop p q0) as [q' returned] eqn:Hloop
  end.
  cbn in Hret, Hcalled, Hactive. subst returned.
  assert (Hin : nextResolver q ∈ set_add (nextResolver q) (pendingQueue q))
    by (apply set_add_elem_N; by left).
  case_decide; cbn; split; auto.
Qed.

End RetryQueueProperties.

(** The cases of the unit tests of [RetryQueue]. *)
Example retry_queue_unit_tests :
  let limit := Z.to_nat fileDescriptorLimit in
  (* schedule resolves immediately when the active set is not under pressure *)
  (let '(resolver, q) := RetryQueue.schedule RetryQueue.new in
   RetryQueue.activeQueue q = [resolver] ∧ RetryQueue.pendingQueue q = [] ∧
   RetryQueue.activeQueue (RetryQueue.release resolver q) = []) ∧
  (* under pressure the resolver is queued and the interval is set *)
  (let q := snd (RetryQueue.schedule (RetryQueue.preloaded (limit / 2) 0)) in
   set_size (RetryQueue.pendingQueue q) = 1 ∧ RetryQueue.intervalId q = true) ∧
  (* processQueue stops when the active set is full *)
  (let q := RetryQueue.processQueue (RetryQueue.preloaded limit 1) in
   set_size (RetryQueue.pendingQueue q) = 1 ∧
   set_size (RetryQueue.activeQueue q) = fileDescriptorLimit) ∧
  (* processQueue stops mid-way: only the first of two resolvers is called *)
  (let q := RetryQueue.processQueue (RetryQueue.preloaded (limit - 1) 2) in
   set_size (RetryQueue.activeQueue q) = fileDescriptorLimit ∧
   set_size (RetryQueue.pendingQueue q) = 1 ∧
   RetryQueue.called q = [N.of_nat (limit - 1)]) ∧
  (* processQueue with nothing pending clears the interval *)
  RetryQueue.intervalId (RetryQueue.processQueue RetryQueue.new) = false.
Proof. vm_compute. repeat split. Qed.

(* ===================================================================== *)
(** * The order of service of [RetryQueue] and its polling interval *)
(* ===================================================================== *)

Section RetryQueueOrder.
Import RetryQueue.

Lemma created_NoDup q : NoDup (created q).
Proof.
  unfold created. apply NoDup_fmap_2; [|apply NoDup_seq].
  intros x y. apply Nat2N.inj.
Qed.

Lemma created_fresh q : nextResolver q ∉ created q.
Proof.
  unfold created. intros (n & Hn & Hin)%list_elem_of_fmap.
  apply elem_of_seq in Hin. lia.
Qed.

Lemma set_delete_head (fn : N) (pending : list N) :
  fn ∉ pending → set_delete fn (fn :: pending) = pending.
Proof.
  intros Hnotin. unfold set_delete. rewrite filter_cons, decide_False by naive_solver.
  induction pending as [|x pending IH]; [done|].
  apply not_elem_of_cons in Hnotin as [Hx Hnotin].
  rewrite filter_cons, decide_True by done. by rewrite IH.
Qed.

(** The loop of [processQueue] serves a prefix of the pending callers, in
    their order, and leaves the rest pending. *)
Lemma processQueue_loop_order pending : ∀ q,
  pendingQueue q = pending → NoDup pending →
  let r := processQueue_loop pending q in
  ∃ served rest,
    pending = served ++ rest ∧
    called (fst r) = called q ++ served ∧
    pendingQueue (fst r) = rest ∧
    (if snd r then rest ≠ [] else rest = []) ∧
    (set_size (activeQueue q) < fileDescriptorLimit → pending ≠ [] → served ≠ []) ∧
    intervalId (fst r) = intervalId q ∧ nextResolver (fst r) = nextResolver q.
Proof.
  induction pending as [|fn pending IH]; intros q Hq Hnd; cbn.
  - exists [], []. rewrite !app_nil_r. repeat split; done.
  - apply NoDup_cons in Hnd as [Hnotin Hnd]. case_decide as Hfull.
    + exists [], (fn :: pending). cbn. rewrite !app_nil_r. repeat split; try done. lia.
    + destruct (IH (activate fn q))
        as (served & rest & Hsplit & Hcalled & Hrest & Hret & _ & Hi & Hn);
        [cbn; rewrite Hq; by apply set_delete_head|done|].
      exists (fn :: served), rest. cbn in Hcalled.
      rewrite Hsplit at 1. rewrite Hcalled, <- app_assoc. repeat split; done.
Qed.

Lemma processQueue_order q :
  NoDup (pendingQueue q) →
  let q' := processQueue q in
  ∃ served rest,
    pendingQueue q = served ++ rest ∧ called q' = called q ++ served ∧
    pendingQueue q' = rest ∧ nextResolver q' = nextResolver q ∧
    (set_size (activeQueue q) < fileDescriptorLimit → pendingQueue q ≠ [] → served ≠ []) ∧
    intervalId q'
    = if decide (fileDescriptorLimit ≤ set_size (activeQueue q)) then intervalId q
      else if decide (rest = []) then false else intervalId q.
Proof.
  intros Hnd. unfold processQueue. case_decide as Hfull.
  { exists [], (pendingQueue q). rewrite app_nil_r. repeat split; try done. lia. }
  case_decide as Hempty.
  { assert (Hnil : pendingQueue q = [])
      by (apply nil_length_inv; unfold set_size in Hempty; lia).
    exists [], []. rewrite !app_nil_r, Hnil. repeat split; done. }
  destruct (processQueue_loop_order (pendingQueue q) q eq_refl Hnd)
    as (served & rest & Hsplit & Hcalled & Hrest & Hret & Hserved & Hi & Hn).
  destruct (processQueue_loop (pendingQueue q) q) as [q' returned]. cbn [fst snd] in *.
  exists served, rest. destruct returned.
  - rewrite (decide_False (P := rest = [])) by done. repeat split; done.
  - rewrite Hret in *. rewrite Hrest. cbn. rewrite decide_True by done. cbn.
    repeat split; try done.
Qed.

Lemma fifo_NoDup_pending q : called q ++ pendingQueue q = created q → NoDup (pendingQueue q).
Proof.
  intros Hq. pose proof (created_NoDup q) as Hnd. rewrite <- Hq in Hnd.
  by apply NoDup_app in Hnd as (_ & _ & ?).
Qed.

Lemma fifo_new : fifo new.
Proof. split; [reflexivity|]. cbn. split; [done|]. intros Hne. exfalso. by apply Hne. Qed.

Lemma fifo_tick q : fifo q → fifo (tick q).
Proof.
  intros Hq. pose proof Hq as [Horder Hinterval]. unfold tick.
  destruct (intervalId q) eqn:Hset; [|exact Hq].
  destruct (processQueue_order q (fifo_NoDup_pending q Horder))
    as (served & rest & Hsplit & Hcalled & Hrest & Hnext & Hserved & Hi).
  split.
  - unfold created. rewrite Hcalled, Hrest, Hnext, <- app_assoc, <- Hsplit. exact Horder.
  - rewrite Hi, Hrest, Hset. case_decide as Hfull.
    + assert (processQueue q = q) as Hsame by (unfold processQueue; by rewrite decide_True).
      rewrite Hsame in Hrest. rewrite <- Hrest. split; [intros _|done]. by apply Hinterval.
    + destruct (decide (rest = [])) as [Hnil|Hnil];
        [split; [done|intros Hne; exfalso; by apply Hne]|done].
Qed.

Lemma fifo_schedule q : fifo q → fifo (snd (schedule q)).
Proof.
  intros [Horder Hinterval]. unfold schedule. cbn [snd].
  set (resolver := nextResolver q).
  assert (Hfresh : resolver ∉ pendingQueue q).
  { intros Hin. apply (created_fresh q). rewrite <- Horder. apply elem_of_app. by right. }
  assert (Hadd : set_add resolver (pendingQueue q) = pendingQueue q ++ [resolver])
    by (unfold set_add; by rewrite decide_False).
  assert (Hcreated : ∀ q', nextResolver q' = N.succ resolver →
            created q' = created q ++ [resolver]).
  { intros q' Hq'. unfold created. rewrite Hq', N2Nat.inj_succ, seq_S, fmap_app. cbn.
    unfold resolver. by rewrite N2Nat.id. }
  unfold add. cbn [activeQueue pendingQueue intervalId nextResolver called peak].
  rewrite Hadd. case_decide as Hhalf.
  - match goal with |- fifo (processQueue ?q0) => set (q1 := q0) end.
    assert (Hnd : NoDup (pendingQueue q1)).
    { cbn. apply NoDup_app. split; [by apply fifo_NoDup_pending|].
      split; [|apply NoDup_singleton]. by intros x Hx ->%list_elem_of_singleton. }
    destruct (processQueue_order q1 Hnd)
      as (served & rest & Hsplit & Hcalled & Hrest & Hnext & Hserved & Hi).
    cbn [pendingQueue called intervalId nextResolver activeQueue q1] in *.
    split.
    + rewrite Hcalled, Hrest, <- app_assoc, <- Hsplit, app_assoc, Horder.
      symmetry. by apply Hcreated.
    + rewrite Hi, Hrest. rewrite decide_False by (unfold fileDescriptorLimit in *; lia).
      destruct (decide (rest = [])) as [Hnil|Hnil];
        [split; [done|intros Hne; exfalso; by apply Hne]|].
      split; [done|]. intros _.
      apply Hinterval. intros Hempty. rewrite Hempty in Hsplit. cbn in Hsplit.
      destruct served as [|x served].
      * apply Hserved; [unfold fileDescriptorLimit in *; lia|by destruct (pendingQueue q)|done].
      * injection Hsplit as _ Hs. symmetry in Hs. apply app_eq_nil in Hs as [_ ?]. done.
  - split.
    + destruct (intervalId q); cbn; rewrite app_assoc, Horder; symmetry; by apply Hcreated.
    + destruct (intervalId q); cbn; (split; [intros _; by destruct (pendingQueue q)|done]).
Qed.

Lemma fifo_step q o : fifo q → fifo (step q o).
Proof.
  destruct o as [|resolver|]; cbn.
  - apply fifo_schedule.
  - done.
  - apply fifo_tick.
Qed.

Lemma fifo_run ops : fifo (run ops).
Proof.
  unfold run. generalize fifo_new. generalize new.
  induction ops as [|o ops IH]; intros q Hq; cbn; [done|].
  by apply IH, fifo_step.
Qed.

(** X7. For every sequence of [schedule()] calls, release invocations and
    polling ticks, the callers served so far followed by the callers that
    still wait are the callers in the order of their [schedule()] calls:
    callers are served first come, first served, each once, and none is
    dropped from the queue. *)
Theorem callers_are_served_in_arrival_order ops :
  let q := run ops in
  called q ++ pendingQueue q = N.of_nat <$> seq 0 (N.to_nat (nextResolver q)).
Proof. apply fifo_run. Qed.

(** X8. For every sequence of [schedule()] calls, release invocations and
    polling ticks, the polling interval of the queue is set exactly while
    a caller waits in the pending set: it is never left running on an
    empty queue, and no caller waits without it. *)
Theorem polling_interval_set_while_callers_wait ops :
  let q := run ops in
  intervalId q = true ↔ pendingQueue q ≠ [].
Proof. apply fifo_run. Qed.

End RetryQueueOrder.

(** ** The drain of a [schedule()] *)

Section RetryQueueDrain.
Import RetryQueue.

Lemma admitted_new : admitted new.
Proof. split; [constructor|]. by intros fn Hin%elem_of_nil. Qed.

Lemma set_add_new (fn : N) (s : list N) : fn ∉ s → set_add fn s = s ++ [fn].
Proof. intros Hfn. unfold set_add. by rewrite decide_False. Qed.

Lemma set_delete_NoDup (fn : N) (s : list N) : NoDup s → NoDup (set_delete fn s).
Proof. apply NoDup_filter. Qed.

Lemma set_delete_subset (fn x : N) (s : list N) : x ∈ set_delete fn s → x ∈ s.
Proof. unfold set_delete. rewrite list_elem_of_filter. tauto. Qed.

(** The loop of [processQueue] serves the resolvers that wait, in order,
    as far as there is room in the active set. *)
Lemma processQueue_loop_drains pending : ∀ q,
  pendingQueue q = pending → NoDup pending → NoDup (activeQueue q) →
  (∀ fn, fn ∈ pending → fn ∉ activeQueue q) →
  let r := processQueue_loop pending q in
  called (fst r) = called q ++ take (room q) pending ∧
  pendingQueue (fst r) = drop (room q) pending ∧
  activeQueue (fst r) = activeQueue q ++ take (room q) pending ∧
  snd r = bool_decide (room q < length pending)%nat.
Proof.
  induction pending as [|fn pending IH]; intros q Hq Hnd Hact Hdisj; cbn [processQueue_loop].
  - cbn. rewrite take_nil, drop_nil, !app_nil_r. repeat split; try done.
    all: rewrite bool_decide_eq_false_2; [done|lia].
  - apply NoDup_cons in Hnd as [Hnotin Hnd]. case_decide as Hfull.
    + assert (room q = 0%nat) as -> by (unfold room; lia).
      cbn. rewrite !app_nil_r. repeat split; try done.
      all: rewrite bool_decide_eq_true_2; [done|lia].
    + assert (fn ∉ activeQueue q) as Hfn by (apply Hdisj; by left).
      assert (room q = Datatypes.S (room (activate fn q))) as Hroom.
      { unfold room, activate. cbn [activeQueue]. rewrite set_add_new by done.
        unfold set_size in *. rewrite length_app. cbn. lia. }
      destruct (IH (activate fn q)) as (Hcalled & Hrest & Hactive & Hret).
      * cbn. rewrite Hq. by apply set_delete_head.
      * done.
      * cbn. rewrite set_add_new by done. apply NoDup_app. split; [done|].
        split; [|apply NoDup_singleton]. by intros x Hx ->%list_elem_of_singleton.
      * intros x Hx. cbn. rewrite set_add_new by done.
        intros [Hin| ->%list_elem_of_singleton]%elem_of_app; [|done].
        apply (Hdisj x); [by right|done].
      * rewrite Hroom. cbn [take drop length]. rewrite Hcalled, Hrest, Hactive, Hret.
        cbn [called activeQueue activate]. rewrite set_add_new by done.
        rewrite <- !app_assoc. repeat split; try done.
        apply bool_decide_ext. lia.
Qed.

Lemma processQueue_drains q :
  NoDup (pendingQueue q) → NoDup (activeQueue q) →
  (∀ fn, fn ∈ pendingQueue q → fn ∉ activeQueue q) →
  let q' := processQueue q in
  called q' = called q ++ take (room q) (pendingQueue q) ∧
  pendingQueue q' = drop (room q) (pendingQueue q) ∧
  activeQueue q' = activeQueue q ++ take (room q) (pendingQueue q).
Proof.
  intros Hnd Hact Hdisj. unfold processQueue. case_decide as Hfull.
  { assert (room q = 0%nat) as -> by (unfold room; lia). cbn. by rewrite !app_nil_r. }
  case_decide as Hempty.
  { assert (Hnil : pendingQueue q = [])
      by (apply nil_length_inv; unfold set_size in Hempty; lia).
    cbn. rewrite Hnil, take_nil, drop_nil, !app_nil_r. done. }
  destruct (processQueue_loop_drains (pendingQueue q) q eq_refl Hnd Hact Hdisj)
    as (Hcalled & Hrest & Hactive & _).
  destruct (processQueue_loop (pendingQueue q) q) as [q' returned]. cbn [fst snd] in *.
  destruct returned; [done|]. by case_decide.
Qed.

Lemma admitted_activate fn q : admitted q → admitted (activate fn q).
Proof.
  intros [Hnd Hsub]. split; cbn.
  - unfold set_add. case_decide; [done|]. apply NoDup_app. split; [done|].
    split; [|apply NoDup_singleton]. by intros x Hx ->%list_elem_of_singleton.
  - intros x [->|Hx]%set_add_elem_N; apply elem_of_app; [right; by left|left; auto].
Qed.

Lemma admitted_processQueue_loop pending : ∀ q,
  admitted q → admitted (fst (processQueue_loop pending q)).
Proof.
  induction pending as [|fn pending IH]; intros q Hq; cbn; [done|].
  case_decide; [done|]. by apply IH, admitted_activate.
Qed.

Lemma admitted_processQueue q : admitted q → admitted (processQueue q).
Proof.
  intros Hq. unfold processQueue. case_decide; [done|]. case_decide; [done|].
  pose proof (admitted_processQueue_loop (pendingQueue q) q Hq) as Hloop.
  destruct (processQueue_loop (pendingQueue q) q) as [q' returned]. cbn in Hloop.
  destruct returned; [done|]. by case_decide.
Qed.

Lemma admitted_step q o : admitted q → admitted (step q o).
Proof.
  intros Hq. destruct o as [|resolver|]; cbn [step].
  - unfold schedule, add. cbn [snd activeQueue intervalId]. case_decide.
    + by apply admitted_processQueue.
    + by destruct (intervalId q).
  - destruct Hq as [Hnd Hsub]. split; cbn.
    + by apply set_delete_NoDup.
    + intros x Hx%set_delete_subset. auto.
  - unfold tick. destruct (intervalId q); [by apply admitted_processQueue|done].
Qed.

Lemma admitted_run ops : admitted (run ops).
Proof.
  unfold run. induction ops as [|o ops IH] using rev_ind; [apply admitted_new|].
  rewrite foldl_app. cbn. by apply admitted_step.
Qed.

(** What a [schedule()] below half the limit does to a queue that was
    reached by calls: the callers that wait, the new one last, are served
    in order as far as there is room. *)
Lemma schedule_drains q :
  fifo q → admitted q → 2 * set_size (activeQueue q) < fileDescriptorLimit →
  let waiting := pendingQueue q ++ [nextResolver q] in
  let q' := snd (schedule q) in
  called q' = called q ++ take (room q) waiting ∧
  pendingQueue q' = drop (room q) waiting ∧
  activeQueue q' = activeQueue q ++ take (room q) waiting.
Proof.
  intros [Horder _] [Hnd Hsub] Hhalf waiting q'. subst q' waiting.
  unfold schedule. cbn [snd]. set (resolver := nextResolver q).
  assert (Hfresh : resolver ∉ created q) by apply created_fresh.
  assert (Hpending : resolver ∉ pendingQueue q).
  { intros Hin. apply Hfresh. rewrite <- Horder. apply elem_of_app. by right. }
  unfold add. cbn [activeQueue pendingQueue intervalId nextResolver called peak].
  rewrite set_add_new by done. rewrite decide_True by done.
  match goal with |- context [processQueue ?q0] => set (q1 := q0) end.
  apply (processQueue_drains q1).
  - cbn. apply NoDup_app. split; [by apply fifo_NoDup_pending|].
    split; [|apply NoDup_singleton]. by intros x Hx ->%list_elem_of_singleton.
  - done.
  - cbn. intros x [Hx| ->%list_elem_of_singleton]%elem_of_app Hact.
    + pose proof (created_NoDup q) as Hcr. rewrite <- Horder in Hcr.
      apply NoDup_app in Hcr as (_ & Hdisj & _). apply (Hdisj x); [by apply Hsub|done].
    + apply Hfresh. rewrite <- Horder. apply elem_of_app. left. by apply Hsub.
Qed.

End RetryQueueDrain.

Section RetryQueueThrottle.
Import RetryQueue.

(** C6, amended. For every sequence of [schedule()] calls, release
    invocations and polling ticks, the active set never holds more than
    [fileDescriptorLimit] resolvers, not even between two steps of a drain
    (the peak is taken after every single [activeQueue.add]). A
    [schedule()] made while the active set is below half the limit
    triggers a drain at once, which serves the callers that wait, the new
    one last, in the order of their arrival as far as there is room under
    the hard limit: the new caller is admitted immediately when the
    callers already pending fit under the limit together with it, and
    otherwise it keeps waiting, with the active set filled up to the
    limit. *)
Theorem throttle_bounded_and_served (ops : list op) :
  let q := run ops in
  let waiting := pendingQueue q ++ [nextResolver q] in
  let q' := snd (schedule q) in
  peak q ≤ fileDescriptorLimit ∧
  set_size (activeQueue q) ≤ fileDescriptorLimit ∧
  (2 * set_size (activeQueue q) < fileDescriptorLimit →
   (set_size (activeQueue q) + set_size (pendingQueue q) + 1 ≤ fileDescriptorLimit →
    served_immediately q) ∧
   called q' = called q ++ take (room q) waiting ∧
   pendingQueue q' = drop (room q) waiting ∧
   (fileDescriptorLimit < set_size (activeQueue q) + set_size (pendingQueue q) + 1 →
    nextResolver q ∈ pendingQueue q' ∧ (nextResolver q ∉ called q') ∧
    set_size (activeQueue q') = fileDescriptorLimit)).
Proof.
  intros q waiting q'. destruct (bounded_run ops) as [Hsize Hpeak]. fold q in Hsize, Hpeak.
  split; [done|]. split; [lia|]. intros Hhalf.
  split; [by apply schedule_served|].
  pose proof (fifo_run ops) as Hfifo. fold q in Hfifo.
  destruct (schedule_drains q Hfifo (admitted_run ops) Hhalf) as (Hcalled & Hrest & Hactive).
  fold waiting q' in Hcalled, Hrest, Hactive.
  split; [done|]. split; [done|]. intros Hfull.
  assert (room q ≤ length (pendingQueue q))%nat as Hroom
    by (unfold room, set_size in *; lia).
  destruct Hfifo as [Horder _].
  assert (Hfresh : nextResolver q ∉ called q ++ pendingQueue q)
    by (rewrite Horder; apply created_fresh).
  split_and!.
  - rewrite Hrest. unfold waiting. rewrite drop_app_le by done.
    apply elem_of_app. right. by left.
  - rewrite Hcalled. unfold waiting. rewrite take_app_le by done.
    intros [Hin|Hin]%elem_of_app; apply Hfresh, elem_of_app; [by left|right].
    rewrite <- (take_drop (room q) (pendingQueue q)). apply elem_of_app. by left.
  - rewrite Hactive. unfold waiting. rewrite take_app_le by done.
    unfold set_size in *. rewrite length_app, length_take.
    unfold room, set_size, fileDescriptorLimit in *. lia.
Qed.

End RetryQueueThrottle.

(** C6, as stated, fails: after the burst the active set (1023) is below
    half the limit, yet the next [schedule()] is not served at once: the
    1025 callers that wait before it fill the active set up to the limit. *)
Lemma schedule_below_half_not_served :
  let q := RetryQueue.run RetryQueue.burst in
  2 * set_size (RetryQueue.activeQueue q) < fileDescriptorLimit ∧
  set_size (RetryQueue.activeQueue (snd (RetryQueue.schedule q))) = fileDescriptorLimit ∧
  ¬ RetryQueue.served_immediately q.
Proof.
  cbn zeta.
  assert (H1 : bool_decide (2 * set_size (RetryQueue.activeQueue (RetryQueue.run RetryQueue.burst))
                            < fileDescriptorLimit) = true) by (vm_compute; reflexivity).
  assert (H2 : set_size (RetryQueue.activeQueue
                 (snd (RetryQueue.schedule (RetryQueue.run RetryQueue.burst)))) = fileDescriptorLimit)
    by (vm_compute; reflexivity).
  assert (H3 : bool_decide (RetryQueue.served_immediately (RetryQueue.run RetryQueue.burst)) = false)
    by (vm_compute; reflexivity).
  split; [by apply bool_decide_eq_true in H1|]. split; [exact H2|].
  by apply bool_decide_eq_false in H3.
Qed.

Lemma throttle_bounded_and_served_witness :
  (let q := RetryQueue.run [RetryQueue.Schedule; RetryQueue.Schedule; RetryQueue.Release 0%N] in
   RetryQueue.peak q ≤ fileDescriptorLimit ∧
   set_size (RetryQueue.activeQueue q) ≤ fileDescriptorLimit ∧
   RetryQueue.served_immediately q)
  ∧
  (let q := RetryQueue.run RetryQueue.burst in
   let q' := snd (RetryQueue.schedule q) in
   RetryQueue.nextResolver q = 2049%N ∧
   2049%N ∈ RetryQueue.pendingQueue q' ∧ (2049%N ∉ RetryQueue.called q') ∧
   set_size (RetryQueue.activeQueue q') = fileDescriptorLimit).
Proof.
  split.
  - pose proof (throttle_bounded_and_served
                  [RetryQueue.Schedule; RetryQueue.Schedule; RetryQueue.Release 0%N])
      as (Hpeak & Hsize & Hserved).
    split; [exact Hpeak|]. split; [exact Hsize|].
    destruct Hserved as [Hserved _]; [vm_compute; congruence|].
    apply Hserved. vm_compute. congruence.
  - pose proof (throttle_bounded_and_served RetryQueue.burst) as (_ & _ & Hdrain).
    assert (RetryQueue.nextResolver (RetryQueue.run RetryQueue.burst) = 2049%N) as Hnext
      by (vm_compute; reflexivity).
    destruct Hdrain as (_ & _ & _ & Hwaits).
    + refine (bool_decide_unpack _ _). vm_compute. exact I.
    + cbv zeta. rewrite <- Hnext. split; [done|]. apply Hwaits.
      refine (bool_decide_unpack _ _). vm_compute. exact I.
Defined.


(* ===================================================================== *)
(** * Properties of the timer multiplexer and of the rename correlator *)
(* ===================================================================== *)

Section LockResolverLemmas.
Import LockResolver.

Lemma has_fresh fn entries :
  Forall (λ e, resolver_id (fst e) ≠ resolver_id fn) entries → has fn entries = false.
Proof.
  induction 1 as [|e entries He _ IH]; [done|].
  unfold has. cbn. rewrite bool_decide_eq_false_2 by done. exact IH.
Qed.

Lemma map_set_fresh fn timestamp entries :
  Forall (λ e, resolver_id (fst e) ≠ resolver_id fn) entries →
  map_set fn timestamp entries = entries ++ [(fn, timestamp)].
Proof. intros Hfresh. unfold map_set. by rewrite has_fresh. Qed.

Lemma map_delete_fresh fn entries :
  Forall (λ e, resolver_id (fst e) ≠ resolver_id fn) entries →
  map_delete fn entries = entries.
Proof.
  induction 1 as [|e entries He _ IH]; [done|].
  unfold map_delete in *. rewrite filter_cons, decide_True by done. by rewrite IH.
Qed.

Lemma map_delete_app fn entries1 entries2 :
  map_delete fn (entries1 ++ entries2) = map_delete fn entries1 ++ map_delete fn entries2.
Proof. apply filter_app. Qed.

Lemma map_delete_here fn fn' timestamp :
  resolver_id fn' = resolver_id fn → map_delete fn [(fn', timestamp)] = [].
Proof.
  intros Hid. unfold map_delete. rewrite filter_cons, decide_False; [done|].
  cbn. intros Hne. by apply Hne.
Qed.

Lemma resolvers_add fn timeout now r :
  resolvers (add fn timeout now r) = map_set fn (now + timeout) (resolvers r).
Proof. unfold add, init. cbn. by destruct (intervalId r). Qed.

Lemma intervalId_add fn timeout now r :
  intervalId (add fn timeout now r) = Some (default (now + interval) (intervalId r)).
Proof. unfold add, init. cbn. by destruct (intervalId r). Qed.

Lemma resolvers_remove_add fn timeout now r :
  Forall (λ e, resolver_id (fst e) ≠ resolver_id fn) (resolvers r) →
  resolvers (remove fn (add fn timeout now r)) = resolvers r.
Proof.
  intros Hfresh. cbn [remove resolvers]. rewrite resolvers_add, map_set_fresh by done.
  rewrite map_delete_app, (map_delete_fresh fn (resolvers r)) by done.
  rewrite (map_delete_here fn fn) by done. apply app_nil_r.
Qed.

Lemma map_delete_add_fresh fn timeout now r :
  Forall (λ e, resolver_id (fst e) ≠ resolver_id fn) (resolvers r) →
  map_delete fn (resolvers (add fn timeout now r)) = resolvers r.
Proof. apply resolvers_remove_add. Qed.

Lemma resolvers_remove fn r : resolvers (remove fn r) = map_delete fn (resolvers r).
Proof. done. Qed.

End LockResolverLemmas.

Section CorrelatorProperties.
Import FileRenameHandler.

Ltac handler_cbn1 :=
  cbn [fileLocks directoryLocks fileSystemStateManager lockResolver clock emitted nextClosure
       set_locker set_lockResolver set_clock set_fileSystemStateManager fresh_closure emitEvent locker
       add_cleanup unlink_cleanup closure_of lock_config lockEvent_of at_time
       lc_inodeNumber lc_targetPath lc_lockEvent lc_fileSystemLocker
       c_inodeNumber c_targetPath c_lockEvent c_fileSystemLocker c_free resolver_id
       le_add le_change le_rename le_unlink FileEvent DirectoryEvent
       LockResolver.intervalId LockResolver.resolvers LockResolver.remove LockResolver.reset
       FileSystemLocker.add FileSystemLocker.unlink
       truthy fst snd] in *.

Ltac handler_cbn :=
  handler_cbn1;
  unfold FileSystemLocker.getUnlink, FileSystemLocker.getLock, FileSystemLocker.addLock,
    FileSystemLocker.addUnlink, FileSystemLocker.removeLock, FileSystemLocker.removeUnlink in *;
  handler_cbn1.

Lemma unlinkLock_parks k i path timeout w :
  i ≠ 0 → idle k i w →
  let w' := unlinkLock (lock_config k (Some i) path) timeout w in
  parked_unlink k i path (clock w + default renameTimeout timeout) w' ∧
  emitted w' = emitted w ∧ clock w' = clock w ∧
  fileSystemStateManager w' = fileSystemStateManager w ∧
  LockResolver.intervalId (lockResolver w')
  = Some (default (clock w + LockResolver.interval)
                  (LockResolver.intervalId (lockResolver w))).
Proof.
  intros Hi (Hrs & Hadd & Hunl). unfold unlinkLock, parked_unlink.
  destruct k; handler_cbn; rewrite decide_False by done; handler_cbn.
  all: rewrite Hadd; handler_cbn.
  all: (split; [|by rewrite intervalId_add]); exists (nextClosure w).
  all: rewrite lookup_insert_eq, resolvers_add, intervalId_add, Hrs.
  all: repeat split; try done; try lia; eauto.
Qed.

Lemma addLock_parks k i path timeout w :
  i ≠ 0 → idle k i w →
  let w' := addLock (lock_config k (Some i) path) timeout w in
  parked_add k i path (clock w + default renameTimeout timeout) w' ∧
  emitted w' = emitted w ∧ clock w' = clock w ∧
  fileSystemStateManager w' = fileSystemStateManager w ∧
  LockResolver.intervalId (lockResolver w')
  = Some (default (clock w + LockResolver.interval)
                  (LockResolver.intervalId (lockResolver w))).
Proof.
  intros Hi (Hrs & Hadd & Hunl). unfold addLock, resolve, parked_add.
  destruct k; handler_cbn; rewrite decide_False by done; handler_cbn.
  all: rewrite Hunl; handler_cbn.
  all: (split; [|by rewrite intervalId_add]); exists (nextClosure w).
  all: rewrite lookup_insert_eq, resolvers_add, intervalId_add, Hrs.
  all: repeat split; try done; try lia; eauto.
Qed.

Lemma addLock_resolves k i previous path deadline timeout w :
  i ≠ 0 → parked_unlink k i previous deadline w →
  let w' := addLock (lock_config k (Some i) path) timeout w in
  emitted w' = emitted w ++ ((λ e, (clock w, e)) <$> resolution k previous path w) ∧
  idle k i w' ∧ clock w' = clock w ∧
  fileSystemStateManager w' = fileSystemStateManager w.
Proof.
  intros Hi (free & Hunl & Hadd & Hrs & Hiid & Hfree).
  unfold addLock, resolve, overridden, idle, resolution.
  destruct k; handler_cbn; rewrite decide_False by done; handler_cbn.
  all: rewrite Hunl; handler_cbn.
  all: destruct (decide (path = previous)) as [->|Hne]; handler_cbn.
  all: try (destruct (bool_decide _); handler_cbn).
  all: rewrite ?app_nil_r, ?lookup_delete_eq.
  all: repeat split; try done.
  all: rewrite map_delete_add_fresh by (rewrite Hrs; constructor; [cbn; lia|constructor]).
  all: rewrite Hrs; by apply map_delete_here.
Qed.

Lemma unlinkLock_resolves k i next path deadline timeout w :
  i ≠ 0 → parked_add k i next deadline w →
  let w' := unlinkLock (lock_config k (Some i) path) timeout w in
  emitted w' = emitted w ++ ((λ e, (clock w, e)) <$> resolution k path next w) ∧
  idle k i w' ∧ clock w' = clock w ∧
  fileSystemStateManager w' = fileSystemStateManager w.
Proof.
  intros Hi (free & Hadd & Hunl & Hrs & Hiid & Hfree).
  unfold unlinkLock, idle, resolution.
  destruct k; handler_cbn; rewrite decide_False by done; handler_cbn.
  all: rewrite Hadd; unfold resolve, overridden; handler_cbn.
  all: rewrite lookup_insert_eq; handler_cbn.
  all: destruct (decide (next = path)) as [->|Hne]; handler_cbn.
  all: try (destruct (bool_decide _); handler_cbn).
  all: rewrite ?app_nil_r, ?lookup_delete_eq.
  all: repeat split; try done.
  all: rewrite resolvers_add, Hrs.
  all: rewrite map_set_fresh by (constructor; [cbn; lia|constructor]).
  all: rewrite map_delete_app, (map_delete_here (AddFree _) (AddFree _)) by done.
  all: rewrite (map_delete_fresh (AddFree _)) by (constructor; [cbn; lia|constructor]).
  all: by apply map_delete_here.
Qed.

Lemma has_here fn timestamp : LockResolver.has fn [(fn, timestamp)] = true.
Proof. unfold LockResolver.has. cbn. by rewrite bool_decide_eq_true_2. Qed.

(** A tick before the deadline of the only resolver changes nothing but
    the clock and the time of the next tick. *)
Lemma tick_waiting fn deadline now w :
  LockResolver.resolvers (lockResolver w) = [(fn, deadline)] →
  is_Some (LockResolver.intervalId (lockResolver w)) →
  now < deadline →
  tick now w
  = set_lockResolver {| LockResolver.intervalId := Some (now + LockResolver.interval);
                        LockResolver.resolvers := [(fn, deadline)] |} (set_clock now w).
Proof.
  intros Hrs [n Hn] Hnow. unfold tick, LockResolver_resolve.
  cbn [lockResolver set_clock clock]. rewrite Hrs. cbn [foldl].
  unfold resolve_entry. cbn [lockResolver set_clock]. rewrite Hrs, has_here.
  rewrite (decide_True (P := deadline > now)) by lia.
  cbn [lockResolver set_clock]. rewrite Hrs.
  cbn [length]. rewrite decide_False by done.
  cbn [lockResolver set_clock]. rewrite Hn, Hrs. reflexivity.
Qed.

Lemma tick_fires_unlink k i path deadline now w :
  parked_unlink k i path deadline w → deadline ≤ now →
  let w' := tick now w in
  emitted w' = emitted w ++ [(now, {| ev_type := le_unlink (lockEvent_of k);
                                       ev_path := path; ev_next := None |})] ∧
  idle k i w' ∧
  LockResolver.intervalId (lockResolver w') = None ∧
  fileSystemStateManager w' = fileSystemStateManager w.
Proof.
  intros (free & Hunl & Hadd & Hrs & Hiid & Hfree) Hnow.
  unfold tick, LockResolver_resolve, idle.
  cbn [lockResolver set_clock clock]. rewrite Hrs. cbn [foldl].
  unfold resolve_entry. cbn [lockResolver set_clock]. rewrite Hrs, has_here.
  rewrite (decide_False (P := deadline > now)) by lia. unfold call, unlink_free.
  destruct k; handler_cbn.
  all: rewrite Hrs, !(map_delete_here (UnlinkFree _) (UnlinkFree _)) by done.
  all: cbn [length LockResolver.map_delete filter list_filter]; rewrite decide_True by done.
  all: handler_cbn.
  all: rewrite ?lookup_delete_eq; repeat split; try done.
  all: by rewrite Hrs, (map_delete_here (UnlinkFree _) (UnlinkFree _)) by done.
Qed.

Lemma tick_idle now w :
  LockResolver.resolvers (lockResolver w) = [] →
  let w' := tick now w in
  emitted w' = emitted w ∧
  LockResolver.resolvers (lockResolver w') = [] ∧
  LockResolver.intervalId (lockResolver w') = None ∧
  fileLocks w' = fileLocks w ∧ directoryLocks w' = directoryLocks w ∧
  fileSystemStateManager w' = fileSystemStateManager w.
Proof.
  intros Hrs. unfold tick, LockResolver_resolve.
  cbn [lockResolver set_clock clock]. rewrite Hrs. cbn [foldl].
  cbn [lockResolver set_clock]. rewrite Hrs. cbn [length].
  rewrite decide_True by done. handler_cbn. done.
Qed.

(** ** Arithmetic of the tick grid *)

Lemma first_tick_bounds next deadline :
  deadline ≤ first_tick next deadline ∧ next ≤ first_tick next deadline ∧
  (first_tick next deadline < deadline + LockResolver.interval
   ∨ first_tick next deadline = next).
Proof.
  unfold first_tick, LockResolver.interval.
  pose proof (Z.div_mod (deadline - next + 50 - 1) 50 ltac:(lia)) as Hdiv.
  pose proof (Z.mod_pos_bound (deadline - next + 50 - 1) 50 ltac:(lia)) as Hmod.
  lia.
Qed.

Lemma first_tick_due next deadline : deadline ≤ next → first_tick next deadline = next.
Proof.
  intros Hdue. unfold first_tick, LockResolver.interval.
  pose proof (Z.div_mod (deadline - next + 50 - 1) 50 ltac:(lia)) as Hdiv.
  pose proof (Z.mod_pos_bound (deadline - next + 50 - 1) 50 ltac:(lia)) as Hmod.
  lia.
Qed.

Lemma first_tick_step next deadline :
  next < deadline →
  first_tick (next + LockResolver.interval) deadline = first_tick next deadline.
Proof.
  intros Hwait. unfold first_tick, LockResolver.interval.
  replace (deadline - next + 50 - 1) with ((deadline - (next + 50) + 50 - 1) + 1 * 50) by lia.
  rewrite Z.div_add by lia.
  pose proof (Z.div_mod (deadline - (next + 50) + 50 - 1) 50 ltac:(lia)) as Hdiv.
  pose proof (Z.mod_pos_bound (deadline - (next + 50) + 50 - 1) 50 ltac:(lia)) as Hmod.
  lia.
Qed.

(** ** Letting the interval run *)

Lemma run_ticks_no_interval fuel until w :
  LockResolver.intervalId (lockResolver w) = None → run_ticks fuel until w = w.
Proof. intros Hnone. destruct fuel; cbn; [done|]. by rewrite Hnone. Qed.

Lemma run_ticks_idle fuel until w :
  LockResolver.resolvers (lockResolver w) = [] →
  let w' := run_ticks fuel until w in
  emitted w' = emitted w ∧ LockResolver.resolvers (lockResolver w') = [] ∧
  fileLocks w' = fileLocks w ∧ directoryLocks w' = directoryLocks w ∧
  fileSystemStateManager w' = fileSystemStateManager w.
Proof.
  intros Hrs. destruct fuel as [|fuel]; cbn; [done|].
  destruct (LockResolver.intervalId (lockResolver w)) as [next|]; [|done].
  case_decide; [|done].
  destruct (tick_idle next w Hrs) as (Hem & Hrs' & Hnone & Hfl & Hdl & Hfsm).
  by rewrite run_ticks_no_interval.
Qed.

(** With a removal parked, the interval either has not reached the first
    tick at or after the deadline, and the removal is still parked, or it
    has, and [unlink] was emitted at that tick. *)
Lemma run_ticks_parked_unlink k i path deadline until fuel : ∀ w next,
  parked_unlink k i path deadline w →
  LockResolver.intervalId (lockResolver w) = Some next →
  until - next < LockResolver.interval * Z.of_nat fuel →
  let w' := run_ticks fuel until w in
  fileSystemStateManager w' = fileSystemStateManager w ∧
  if decide (first_tick next deadline ≤ until) then
    emitted w' = emitted w ++ [(first_tick next deadline,
                                {| ev_type := le_unlink (lockEvent_of k);
                                   ev_path := path; ev_next := None |})] ∧
    idle k i w'
  else emitted w' = emitted w ∧ parked_unlink k i path deadline w'.
Proof.
  induction fuel as [|fuel IH]; intros w next Hparked Hnext Hfuel.
  - cbn. pose proof (first_tick_bounds next deadline). unfold LockResolver.interval in *.
    rewrite decide_False by lia. done.
  - cbn [run_ticks]. rewrite Hnext.
    pose proof (first_tick_bounds next deadline) as Hbounds.
    destruct (decide (next ≤ until)) as [Hdue|Hlater];
      [|rewrite decide_False by lia; done].
    destruct (decide (deadline ≤ next)) as [Hfire|Hwait].
    + destruct (tick_fires_unlink k i path deadline next w Hparked Hfire)
        as (Hem & Hidle & Hnone & Hfsm).
      rewrite run_ticks_no_interval by done.
      rewrite first_tick_due by done. rewrite decide_True by done. done.
    + destruct Hparked as (free & Hunl & Hadd & Hrs & Hiid & Hfree).
      rewrite (tick_waiting _ deadline next w Hrs Hiid) by lia.
      rewrite <- (first_tick_step next deadline) by lia.
      match goal with |- context [run_ticks fuel until ?w2] =>
        assert (Hparked : parked_unlink k i path deadline w2)
          by (exists free; destruct k; handler_cbn; eauto 10);
        assert (Hfuel' : until - (next + LockResolver.interval)
                         < LockResolver.interval * Z.of_nat fuel)
          by (unfold LockResolver.interval in *; lia);
        exact (IH w2 (next + LockResolver.interval) Hparked eq_refl Hfuel')
      end.
Qed.

(** Before the first tick at or after its deadline, a parked creation
    stays parked. *)
Lemma run_ticks_parked_add k i path deadline until fuel : ∀ w next,
  parked_add k i path deadline w →
  LockResolver.intervalId (lockResolver w) = Some next →
  until < first_tick next deadline →
  let w' := run_ticks fuel until w in
  fileSystemStateManager w' = fileSystemStateManager w ∧
  emitted w' = emitted w ∧ parked_add k i path deadline w'.
Proof.
  induction fuel as [|fuel IH]; intros w next Hparked Hnext Huntil; [done|].
  cbn [run_ticks]. rewrite Hnext.
  destruct (decide (next ≤ until)) as [Hdue|Hlater]; [|done].
  destruct (decide (deadline ≤ next)) as [Hfire|Hwait].
  { rewrite first_tick_due in Huntil by done. lia. }
  destruct Hparked as (free & Hadd & Hunl & Hrs & Hiid & Hfree).
  rewrite (tick_waiting _ deadline next w Hrs Hiid) by lia.
  rewrite <- (first_tick_step next deadline) in Huntil by lia.
  match goal with |- context [run_ticks fuel until ?w2] =>
    assert (Hparked : parked_add k i path deadline w2)
      by (exists free; destruct k; handler_cbn; eauto 10);
    exact (IH w2 (next + LockResolver.interval) Hparked eq_refl Huntil)
  end.
Qed.

Lemma ticks_until_enough until w next :
  LockResolver.intervalId (lockResolver w) = Some next →
  until - next < LockResolver.interval * Z.of_nat (ticks_until until w).
Proof.
  intros Hnext. unfold ticks_until, LockResolver.interval. rewrite Hnext.
  pose proof (Z.div_mod (until - next) 50 ltac:(lia)) as Hdiv.
  pose proof (Z.mod_pos_bound (until - next) 50 ltac:(lia)) as Hmod.
  lia.
Qed.

Lemma advance_idle until w :
  LockResolver.resolvers (lockResolver w) = [] → emitted (advance until w) = emitted w.
Proof. intros Hrs. by destruct (run_ticks_idle (ticks_until until w) until w Hrs). Qed.

(** ** The entry point *)

Lemma getLockTargetEvent_unlink k path timeout w :
  getLockTargetEvent (le_unlink (lockEvent_of k)) path timeout w
  = unlinkLock (lock_config k (recorded k (le_unlink (lockEvent_of k)) path w) path) timeout w.
Proof. by destruct k. Qed.

Lemma getLockTargetEvent_add k path timeout w :
  getLockTargetEvent (le_add (lockEvent_of k)) path timeout w
  = addLock (lock_config k (recorded k (le_add (lockEvent_of k)) path w) path) timeout w.
Proof. by destruct k. Qed.

Lemma idle_set_clock k i now w : idle k i w → idle k i (set_clock now w).
Proof. by destruct k. Qed.

Lemma parked_unlink_set_clock k i path deadline now w :
  parked_unlink k i path deadline w → parked_unlink k i path deadline (set_clock now w).
Proof. by destruct k. Qed.

Lemma parked_add_set_clock k i path deadline now w :
  parked_add k i path deadline w → parked_add k i path deadline (set_clock now w).
Proof. by destruct k. Qed.

(** A removal that finds no lock to resolve parks itself. *)
Lemma removal_parks k i path timeout now w :
  i ≠ 0 → idle k i w → recorded k (le_unlink (lockEvent_of k)) path w = Some i →
  let w' := at_time now (getLockTargetEvent (le_unlink (lockEvent_of k)) path timeout) w in
  parked_unlink k i path (now + default renameTimeout timeout) w' ∧
  emitted w' = emitted w ∧
  fileSystemStateManager w' = fileSystemStateManager w ∧
  LockResolver.intervalId (lockResolver w')
  = Some (default (now + LockResolver.interval) (LockResolver.intervalId (lockResolver w))).
Proof.
  intros Hi Hidle Hrec. unfold at_time. rewrite getLockTargetEvent_unlink.
  change (recorded k (le_unlink (lockEvent_of k)) path (set_clock now w))
    with (recorded k (le_unlink (lockEvent_of k)) path w). rewrite Hrec.
  destruct (unlinkLock_parks k i path timeout (set_clock now w) Hi
              (idle_set_clock _ _ _ _ Hidle)) as (Hparked & Hem & _ & Hfsm & Hiid).
  done.
Qed.

(** A creation that finds no lock to resolve parks itself. *)
Lemma creation_parks k i path timeout now w :
  i ≠ 0 → idle k i w → recorded k (le_add (lockEvent_of k)) path w = Some i →
  let w' := at_time now (getLockTargetEvent (le_add (lockEvent_of k)) path timeout) w in
  parked_add k i path (now + default renameTimeout timeout) w' ∧
  emitted w' = emitted w ∧
  fileSystemStateManager w' = fileSystemStateManager w ∧
  LockResolver.intervalId (lockResolver w')
  = Some (default (now + LockResolver.interval) (LockResolver.intervalId (lockResolver w))).
Proof.
  intros Hi Hidle Hrec. unfold at_time. rewrite getLockTargetEvent_add.
  change (recorded k (le_add (lockEvent_of k)) path (set_clock now w))
    with (recorded k (le_add (lockEvent_of k)) path w). rewrite Hrec.
  destruct (addLock_parks k i path timeout (set_clock now w) Hi
              (idle_set_clock _ _ _ _ Hidle)) as (Hparked & Hem & _ & Hfsm & Hiid).
  done.
Qed.

(** Both orders of arrival end in [resolve], with the same emission. *)
Lemma creation_meets_removal k i previous path deadline timeout now w :
  i ≠ 0 → parked_unlink k i previous deadline w →
  recorded k (le_add (lockEvent_of k)) path w = Some i →
  let w' := at_time now (getLockTargetEvent (le_add (lockEvent_of k)) path timeout) w in
  emitted w' = emitted w ++ ((λ e, (now, e)) <$> resolution k previous path w) ∧
  idle k i w'.
Proof.
  intros Hi Hparked Hrec. unfold at_time. rewrite getLockTargetEvent_add.
  change (recorded k (le_add (lockEvent_of k)) path (set_clock now w))
    with (recorded k (le_add (lockEvent_of k)) path w). rewrite Hrec.
  destruct (addLock_resolves k i previous path deadline timeout (set_clock now w) Hi
              (parked_unlink_set_clock _ _ _ _ _ _ Hparked)) as (Hem & Hidle & _).
  done.
Qed.

Lemma removal_meets_creation k i next path deadline timeout now w :
  i ≠ 0 → parked_add k i next deadline w →
  recorded k (le_unlink (lockEvent_of k)) path w = Some i →
  let w' := at_time now (getLockTargetEvent (le_unlink (lockEvent_of k)) path timeout) w in
  emitted w' = emitted w ++ ((λ e, (now, e)) <$> resolution k path next w) ∧
  idle k i w'.
Proof.
  intros Hi Hparked Hrec. unfold at_time. rewrite getLockTargetEvent_unlink.
  change (recorded k (le_unlink (lockEvent_of k)) path (set_clock now w))
    with (recorded k (le_unlink (lockEvent_of k)) path w). rewrite Hrec.
  destruct (unlinkLock_resolves k i next path deadline timeout (set_clock now w) Hi
              (parked_add_set_clock _ _ _ _ _ _ Hparked)) as (Hem & Hidle & _).
  done.
Qed.

Lemma resolution_rename k previous path w :
  path ≠ previous →
  resolution k previous path w
  = [{| ev_type := le_rename (lockEvent_of k); ev_path := previous; ev_next := Some path |}].
Proof. intros Hne. unfold resolution. by rewrite decide_False. Qed.

Lemma advance_parked_unlink k i path deadline until w :
  parked_unlink k i path deadline w →
  let w' := advance until w in
  fileSystemStateManager w' = fileSystemStateManager w ∧
  if decide (firing_time deadline w ≤ until) then
    emitted w' = emitted w ++ [(firing_time deadline w,
                                {| ev_type := le_unlink (lockEvent_of k);
                                   ev_path := path; ev_next := None |})] ∧
    idle k i w'
  else emitted w' = emitted w ∧ parked_unlink k i path deadline w'.
Proof.
  intros Hparked. pose proof Hparked as (free & _ & _ & _ & [next Hnext] & _).
  unfold advance, firing_time. rewrite Hnext.
  apply (run_ticks_parked_unlink k i path deadline until _ w next); [done|done|].
  by apply ticks_until_enough.
Qed.

Lemma advance_parked_add k i path deadline until w :
  parked_add k i path deadline w → until < firing_time deadline w →
  let w' := advance until w in
  fileSystemStateManager w' = fileSystemStateManager w ∧
  emitted w' = emitted w ∧ parked_add k i path deadline w'.
Proof.
  intros Hparked. pose proof Hparked as (free & _ & _ & _ & [next Hnext] & _).
  unfold advance, firing_time. rewrite Hnext. intros Huntil.
  by apply (run_ticks_parked_add k i path deadline until _ w next).
Qed.

(** ** Rename correlation *)

(** With nothing pending and nothing but the ticks of the interval between
    the two events, the log holds the one [renamed] and nothing else. *)
Lemma rename_correlation_idle k i A B timeoutA timeoutB t1 t2 w :
  i ≠ 0 → A ≠ B → idle k i w →
  recorded k (le_unlink (lockEvent_of k)) A w = Some i →
  recorded k (le_add (lockEvent_of k)) B w = Some i →
  let removal := getLockTargetEvent (le_unlink (lockEvent_of k)) A timeoutA in
  let creation := getLockTargetEvent (le_add (lockEvent_of k)) B timeoutB in
  let renamed := {| ev_type := le_rename (lockEvent_of k); ev_path := A;
                    ev_next := Some B |} in
  (let w1 := at_time t1 removal w in
   t2 < firing_time (t1 + default renameTimeout timeoutA) w1 →
   let w2 := at_time t2 creation (advance t2 w1) in
   emitted w2 = emitted w ++ [(t2, renamed)] ∧
   ∀ until, emitted (advance until w2) = emitted w2)
  ∧
  (let w1 := at_time t1 creation w in
   t2 < firing_time (t1 + default renameTimeout timeoutB) w1 →
   let w2 := at_time t2 removal (advance t2 w1) in
   emitted w2 = emitted w ++ [(t2, renamed)] ∧
   ∀ until, emitted (advance until w2) = emitted w2).
Proof.
  intros Hi HAB Hidle HrecA HrecB removal creation renamed. split.
  - intros w1 Hbefore.
    destruct (removal_parks k i A timeoutA t1 w Hi Hidle HrecA)
      as (Hparked & Hem1 & Hfsm1 & _). fold removal w1 in Hparked, Hem1, Hfsm1.
    destruct (advance_parked_unlink k i A _ t2 w1 Hparked) as (Hfsm2 & Hadv).
    rewrite decide_False in Hadv by lia. destruct Hadv as (Hem2 & Hparked2).
    assert (HrecB' : recorded k (le_add (lockEvent_of k)) B (advance t2 w1) = Some i)
      by (unfold recorded in *; by rewrite Hfsm2, Hfsm1).
    destruct (creation_meets_removal k i A B _ timeoutB t2 _ Hi Hparked2 HrecB')
      as (Hem3 & Hidle3).
    rewrite resolution_rename in Hem3 by done.
    intros w2. fold creation w2 in Hem3, Hidle3. split.
    + rewrite Hem3, Hem2, Hem1. done.
    + intros ?. apply advance_idle, Hidle3.
  - intros w1 Hbefore.
    destruct (creation_parks k i B timeoutB t1 w Hi Hidle HrecB)
      as (Hparked & Hem1 & Hfsm1 & _). fold creation w1 in Hparked, Hem1, Hfsm1.
    destruct (advance_parked_add k i B _ t2 w1 Hparked Hbefore) as (Hfsm2 & Hem2 & Hparked2).
    assert (HrecA' : recorded k (le_unlink (lockEvent_of k)) A (advance t2 w1) = Some i)
      by (unfold recorded in *; by rewrite Hfsm2, Hfsm1).
    destruct (removal_meets_creation k i B A _ timeoutA t2 _ Hi Hparked2 HrecA')
      as (Hem3 & Hidle3).
    rewrite resolution_rename in Hem3 by done.
    intros w2. fold removal w2 in Hem3, Hidle3. split.
    + rewrite Hem3, Hem2, Hem1. done.
    + intros ?. apply advance_idle, Hidle3.
Qed.

(** ** Same-path republish *)

(** With the parked removal the only thing pending, the handler is idle
    after the creation has met it. *)
Lemma same_path_republish_idle k i path deadline timeout now w :
  i ≠ 0 → parked_unlink k i path deadline w →
  recorded k (le_add (lockEvent_of k)) path w = Some i →
  let w' := at_time now (getLockTargetEvent (le_add (lockEvent_of k)) path timeout) w in
  emitted w'
  = emitted w ++
    (if bool_decide (k = FILE ∧
                     is_Some (FileSystemStateManager._stats (fileSystemStateManager w) !! path))
     then [(now, {| ev_type := CHANGE; ev_path := path; ev_next := None |})]
     else [])
  ∧ idle k i w'
  ∧ ∀ until, emitted (advance until w') = emitted w'.
Proof.
  intros Hi Hparked Hrec w'.
  destruct (creation_meets_removal k i path path deadline timeout now w Hi Hparked Hrec)
    as (Hem & Hidle). fold w' in Hem, Hidle.
  split; [|split; [done|intros ?; apply advance_idle, Hidle]].
  rewrite Hem. f_equal. unfold resolution. rewrite decide_True by done.
  destruct k; cbn [lockEvent_of le_change FileEvent DirectoryEvent].
  - rewrite bool_decide_eq_false_2; [done|]. by intros [? _].
  - destruct (bool_decide (is_Some _)) eqn:Hhas.
    + apply bool_decide_eq_true in Hhas. by rewrite bool_decide_eq_true_2.
    + apply bool_decide_eq_false in Hhas. rewrite bool_decide_eq_false_2; [done|].
      by intros [_ ?].
Qed.

(** ** Timeout fallback *)

(** With nothing else pending and nothing but the ticks of the interval
    after the removal, the log holds the one [removed] and nothing else. *)
Lemma removal_timeout_idle k i A timeout now w :
  i ≠ 0 → idle k i w →
  recorded k (le_unlink (lockEvent_of k)) A w = Some i →
  0 ≤ default renameTimeout timeout →
  (∀ next, LockResolver.intervalId (lockResolver w) = Some next →
           next ≤ now + LockResolver.interval) →
  let w1 := at_time now (getLockTargetEvent (le_unlink (lockEvent_of k)) A timeout) w in
  let deadline := now + default renameTimeout timeout in
  let fired := firing_time deadline w1 in
  deadline ≤ fired ≤ deadline + LockResolver.interval ∧
  ∀ until,
    emitted (advance until w1)
    = emitted w ++
      (if decide (fired ≤ until)
       then [(fired, {| ev_type := le_unlink (lockEvent_of k); ev_path := A;
                        ev_next := None |})]
       else []).
Proof.
  intros Hi Hidle Hrec Htimeout Hinterval w1 deadline fired.
  destruct (removal_parks k i A timeout now w Hi Hidle Hrec)
    as (Hparked & Hem1 & Hfsm1 & Hiid). fold w1 deadline in Hparked, Hem1, Hiid.
  split.
  - unfold fired, firing_time. rewrite Hiid.
    match goal with |- context [first_tick ?n _] =>
      pose proof (first_tick_bounds n deadline) as (Hlow & _ & Hhigh);
      assert (Hn : n ≤ now + LockResolver.interval)
    end.
    { destruct (LockResolver.intervalId (lockResolver w)) as [next|] eqn:Hnext;
        cbn [default]; [by apply Hinterval|lia]. }
    unfold deadline in *. lia.
  - intros horizon.
    destruct (advance_parked_unlink k i A deadline horizon w1 Hparked) as (_ & Hadv).
    fold fired in Hadv. destruct (decide (fired ≤ horizon)).
    + destruct Hadv as (-> & _). by rewrite Hem1.
    + destruct Hadv as (-> & _). by rewrite Hem1, app_nil_r.
Qed.

(** ** An unavailable inode *)

Lemma getInodeNumber_no_record path event type s :
  FileSystemStateManager.targetInodes s !! event ≫= (λ eventInodes, eventInodes !! path) = None →
  FileSystemStateManager.getInodeNumber path event type s = None.
Proof. intros Hnone. unfold FileSystemStateManager.getInodeNumber. by rewrite Hnone. Qed.

Lemma getInodeNumber_type_mismatch path event k i k' s :
  FileSystemStateManager.targetInodes s !! event ≫= (λ eventInodes, eventInodes !! path)
  = Some (i, k') →
  k' ≠ k →
  FileSystemStateManager.getInodeNumber path event (Some k) s = None.
Proof.
  intros Hsome Hne. unfold FileSystemStateManager.getInodeNumber.
  rewrite Hsome. by rewrite decide_True.
Qed.

Lemma truthy_zero : truthy (Some 0) = None.
Proof. done. Qed.

(** With no inode available for the (event, path) pair, no lock and no
    timer is set up and one event is emitted at once: [unlink] for a
    removal; for a creation, the result of the inode-index lookup of
    [emit], which is [add] unless the index holds another path under the
    looked-up key. *)
Lemma unavailable_inode_bypasses_locks k path timeout w :
  (truthy (recorded k (le_unlink (lockEvent_of k)) path w) = None →
   getLockTargetEvent (le_unlink (lockEvent_of k)) path timeout w
   = emitEvent (le_unlink (lockEvent_of k)) path None w)
  ∧
  (truthy (recorded k (le_add (lockEvent_of k)) path w) = None →
   getLockTargetEvent (le_add (lockEvent_of k)) path timeout w
   = add_emit (recorded k (le_add (lockEvent_of k)) path w) path (lockEvent_of k) w)
  ∧
  (SetMultiMap.find (default (-1) (recorded k (le_add (lockEvent_of k)) path w))
     (λ other, bool_decide (other ≠ path))
     (FileSystemStateManager._paths (fileSystemStateManager w)) = None →
   add_emit (recorded k (le_add (lockEvent_of k)) path w) path (lockEvent_of k) w
   = emitEvent (le_add (lockEvent_of k)) path None w).
Proof.
  split; [|split].
  - intros Hnone. rewrite getLockTargetEvent_unlink. unfold unlinkLock.
    cbn [lock_config lc_inodeNumber lc_targetPath lc_lockEvent]. by rewrite Hnone.
  - intros Hnone. rewrite getLockTargetEvent_add. unfold addLock.
    cbn [lock_config lc_inodeNumber lc_targetPath lc_lockEvent]. by rewrite Hnone.
  - intros Hfind. unfold add_emit. by rewrite Hfind.
Qed.

(** ** [reset] and the pending timers *)

(** [reset] empties the lockers and the state manager; the resolvers
    registered with the static [LockResolver] stay where they are. *)
Lemma tick_fires_lone_unlink c deadline now w :
  lone_unlink c deadline w → deadline ≤ now →
  let w' := tick now w in
  emitted w' = emitted w ++ [(now, {| ev_type := le_unlink (c_lockEvent c);
                                       ev_path := c_targetPath c; ev_next := None |})] ∧
  LockResolver.resolvers (lockResolver w') = [] ∧
  LockResolver.intervalId (lockResolver w') = None.
Proof.
  intros (Hrs & Hiid) Hnow.
  unfold tick, LockResolver_resolve.
  cbn [lockResolver set_clock clock]. rewrite Hrs. cbn [foldl].
  unfold resolve_entry. cbn [lockResolver set_clock]. rewrite Hrs, has_here.
  rewrite (decide_False (P := deadline > now)) by lia. unfold call, unlink_free.
  destruct (c_fileSystemLocker c) eqn:Hk; handler_cbn; rewrite ?Hk; handler_cbn.
  all: rewrite Hrs, !(map_delete_here (UnlinkFree _) (UnlinkFree _)) by done.
  all: cbn [length LockResolver.map_delete filter list_filter]; rewrite decide_True by done.
  all: handler_cbn.
  all: repeat split; try done.
  all: by rewrite Hrs, (map_delete_here (UnlinkFree _) (UnlinkFree _)) by done.
Qed.

Lemma run_ticks_lone_unlink c deadline until fuel : ∀ w next,
  lone_unlink c deadline w →
  LockResolver.intervalId (lockResolver w) = Some next →
  until - next < LockResolver.interval * Z.of_nat fuel →
  emitted (run_ticks fuel until w)
  = emitted w ++
    if decide (first_tick next deadline ≤ until) then
      [(first_tick next deadline,
        {| ev_type := le_unlink (c_lockEvent c); ev_path := c_targetPath c;
           ev_next := None |})]
    else [].
Proof.
  induction fuel as [|fuel IH]; intros w next Hlone Hnext Hfuel.
  - cbn. pose proof (first_tick_bounds next deadline). unfold LockResolver.interval in *.
    rewrite decide_False by lia. by rewrite app_nil_r.
  - cbn [run_ticks]. rewrite Hnext.
    pose proof (first_tick_bounds next deadline) as Hbounds.
    destruct (decide (next ≤ until)) as [Hdue|Hlater];
      [|rewrite decide_False by lia; by rewrite app_nil_r].
    destruct (decide (deadline ≤ next)) as [Hfire|Hwait].
    + destruct (tick_fires_lone_unlink c deadline next w Hlone Hfire)
        as (Hem & Hrs & Hnone).
      rewrite run_ticks_no_interval by done.
      rewrite first_tick_due by done. rewrite decide_True by done. done.
    + destruct Hlone as (Hrs & Hiid).
      rewrite (tick_waiting _ deadline next w Hrs Hiid) by lia.
      rewrite <- (first_tick_step next deadline) by lia.
      match goal with |- context [run_ticks fuel until ?w2] =>
        assert (Hlone : lone_unlink c deadline w2) by (split; [done|by eexists]);
        assert (Hfuel' : until - (next + LockResolver.interval)
                         < LockResolver.interval * Z.of_nat fuel)
          by (unfold LockResolver.interval in *; lia);
        exact (IH w2 (next + LockResolver.interval) Hlone eq_refl Hfuel')
      end.
Qed.

(** X9. [reset()] does not cancel a pending removal. When a removal-class
    event for path [A] with a recorded non-zero inode has been given to
    the correlator and [reset()] is called before its timeout, the lockers
    and the state manager are emptied, but the resolver of the removal
    stays registered with [LockResolver]: [removed(A)] is still emitted, at
    the tick at which it would have been emitted without the [reset()]. *)
Theorem reset_does_not_cancel_pending_removal k i A timeout now until w :
  i ≠ 0 → idle k i w →
  recorded k (le_unlink (lockEvent_of k)) A w = Some i →
  let w1 := at_time now (getLockTargetEvent (le_unlink (lockEvent_of k)) A timeout) w in
  let fired := firing_time (now + default renameTimeout timeout) w1 in
  let w2 := reset w1 in
  FileSystemLocker.getUnlink i (locker k w2) = None ∧
  fileSystemStateManager w2 = FileSystemStateManager.reset (fileSystemStateManager w1) ∧
  emitted (advance until w2)
  = emitted w ++
    if decide (fired ≤ until) then
      [(fired, {| ev_type := le_unlink (lockEvent_of k); ev_path := A; ev_next := None |})]
    else [].
Proof.
  intros Hi Hidle Hrec w1 fired w2.
  destruct (removal_parks k i A timeout now w Hi Hidle Hrec)
    as ((free & Hunl & Hadd & Hrs & [next Hnext] & Hfree) & Hem & _). fold w1 in Hunl, Hadd, Hrs, Hnext, Hem.
  split; [by destruct k|]. split; [done|].
  assert (Hlone : lone_unlink (closure_of k i A free)
                    (now + default renameTimeout timeout) w2)
    by (split; [exact Hrs|by exists next]).
  assert (Hnext' : LockResolver.intervalId (lockResolver w2) = Some next) by exact Hnext.
  unfold advance, fired, firing_time. rewrite Hnext.
  rewrite (run_ticks_lone_unlink _ _ until _ w2 next Hlone Hnext').
  - change (emitted w2) with (emitted w1). rewrite Hem. by destruct k.
  - by apply ticks_until_enough.
Qed.


End CorrelatorProperties.

(* ===================================================================== *)
(** * The correlator with other correlations pending *)
(* ===================================================================== *)

Section BusyHandler.
Import FileRenameHandler.

Ltac busy_cbn :=
  cbn [fileLocks directoryLocks fileSystemStateManager lockResolver clock emitted nextClosure
       set_locker set_lockResolver set_clock set_fileSystemStateManager fresh_closure emitEvent
       locker add_cleanup unlink_cleanup
       c_inodeNumber c_targetPath c_lockEvent c_fileSystemLocker c_free resolver_id
       LockResolver.intervalId LockResolver.resolvers LockResolver.remove LockResolver.reset
       FileSystemLocker.add FileSystemLocker.unlink
       FileSystemLocker.getUnlink FileSystemLocker.getLock FileSystemLocker.addLock
       FileSystemLocker.addUnlink FileSystemLocker.removeLock FileSystemLocker.removeUnlink
       fst snd] in *.

(** *** What the elementary steps change *)

Lemma locker_set_locker ns k l w :
  locker ns (set_locker k l w) = if decide (ns = k) then l else locker ns w.
Proof. by destruct ns, k. Qed.

Lemma unlink_add_cleanup ns c w :
  FileSystemLocker.unlink (locker ns (add_cleanup c w)) = FileSystemLocker.unlink (locker ns w).
Proof. unfold add_cleanup. by destruct ns, (c_fileSystemLocker c). Qed.

Lemma add_add_cleanup ns c w :
  FileSystemLocker.add (locker ns (add_cleanup c w))
  = if decide (ns = c_fileSystemLocker c)
    then delete (c_inodeNumber c) (FileSystemLocker.add (locker ns w))
    else FileSystemLocker.add (locker ns w).
Proof. unfold add_cleanup. by destruct ns, (c_fileSystemLocker c). Qed.

Lemma add_unlink_cleanup ns c w :
  FileSystemLocker.add (locker ns (unlink_cleanup c w)) = FileSystemLocker.add (locker ns w).
Proof. unfold unlink_cleanup. by destruct ns, (c_fileSystemLocker c). Qed.

Lemma unlink_unlink_cleanup ns c w :
  FileSystemLocker.unlink (locker ns (unlink_cleanup c w))
  = if decide (ns = c_fileSystemLocker c)
    then delete (c_inodeNumber c) (FileSystemLocker.unlink (locker ns w))
    else FileSystemLocker.unlink (locker ns w).
Proof. unfold unlink_cleanup. by destruct ns, (c_fileSystemLocker c). Qed.

Lemma resolvers_add_cleanup c w :
  LockResolver.resolvers (lockResolver (add_cleanup c w))
  = LockResolver.map_delete (AddFree c) (LockResolver.resolvers (lockResolver w)).
Proof. unfold add_cleanup. by destruct (c_fileSystemLocker c). Qed.

Lemma resolvers_unlink_cleanup c w :
  LockResolver.resolvers (lockResolver (unlink_cleanup c w))
  = LockResolver.map_delete (UnlinkFree c) (LockResolver.resolvers (lockResolver w)).
Proof. unfold unlink_cleanup. by destruct (c_fileSystemLocker c). Qed.

Lemma rest_add_cleanup c w :
  LockResolver.intervalId (lockResolver (add_cleanup c w))
  = LockResolver.intervalId (lockResolver w) ∧
  emitted (add_cleanup c w) = emitted w ∧ nextClosure (add_cleanup c w) = nextClosure w ∧
  clock (add_cleanup c w) = clock w ∧
  fileSystemStateManager (add_cleanup c w) = fileSystemStateManager w.
Proof. unfold add_cleanup. by destruct (c_fileSystemLocker c). Qed.

Lemma rest_unlink_cleanup c w :
  LockResolver.intervalId (lockResolver (unlink_cleanup c w))
  = LockResolver.intervalId (lockResolver w) ∧
  emitted (unlink_cleanup c w) = emitted w ∧
  nextClosure (unlink_cleanup c w) = nextClosure w ∧
  clock (unlink_cleanup c w) = clock w ∧
  fileSystemStateManager (unlink_cleanup c w) = fileSystemStateManager w.
Proof. unfold unlink_cleanup. by destruct (c_fileSystemLocker c). Qed.

Lemma elem_of_map_delete fn e entries :
  e ∈ LockResolver.map_delete fn entries
  ↔ e ∈ entries ∧ resolver_id (fst e) ≠ resolver_id fn.
Proof. unfold LockResolver.map_delete. rewrite list_elem_of_filter. tauto. Qed.

(** *** Holding less *)

Lemma shrinks_refl w : shrinks w w.
Proof. repeat split; auto. Qed.

Lemma shrinks_trans w1 w2 w3 : shrinks w1 w2 → shrinks w2 w3 → shrinks w1 w3.
Proof.
  intros (Hu1 & Ha1 & Hr1 & Hn1) (Hu2 & Ha2 & Hr2 & Hn2).
  repeat split; [naive_solver..|lia].
Qed.

Lemma shrinks_held_unlink w w' c : shrinks w w' → held_unlink w' c → held_unlink w c.
Proof.
  intros (Hu & _ & Hr & _) [(ns & j & Hc)|(ts & Hc)]; [left|right]; eauto.
Qed.

Lemma shrinks_held_add w w' c : shrinks w w' → held_add w' c → held_add w c.
Proof.
  intros (_ & Ha & Hr & _) [(ns & j & Hc)|(ts & Hc)]; [left|right]; eauto.
Qed.

Lemma coherent_shrinks w w' : coherent w → shrinks w w' → coherent w'.
Proof.
  intros [Hkey Hids] Hs. pose proof Hs as (Hu & Ha & Hr & Hn). split.
  - intros ns j c [Hc|Hc]; apply (Hkey ns j c); [left|right]; eauto.
  - intros c Hc.
    assert (held_unlink w c ∨ held_add w c) as Hheld
      by (destruct Hc; [left; by eapply shrinks_held_unlink|right; by eapply shrinks_held_add]).
    destruct (Hids c Hheld). split; [lia|done].
Qed.

Lemma calm_shrinks S ours w w' : calm S ours w → shrinks w w' → calm S ours w'.
Proof.
  intros (Hco & Hid & Hu & Ha) Hs. pose proof Hs as (_ & _ & _ & Hn). split_and!.
  - by eapply coherent_shrinks.
  - intros fn Hfn. specialize (Hid fn Hfn). lia.
  - intros c Hc. apply Hu. by eapply shrinks_held_unlink.
  - intros c Hc. apply Ha. by eapply shrinks_held_add.
Qed.

Lemma shrinks_add_cleanup c w : shrinks w (add_cleanup c w).
Proof.
  destruct (rest_add_cleanup c w) as (_ & _ & Hn & _). split_and!.
  - intros ns j c'. by rewrite unlink_add_cleanup.
  - intros ns j c'. rewrite add_add_cleanup. case_decide; [|done].
    by intros [_ ?]%lookup_delete_Some.
  - intros e. rewrite resolvers_add_cleanup, elem_of_map_delete. by intros [? _].
  - by rewrite Hn.
Qed.

Lemma shrinks_unlink_cleanup c w : shrinks w (unlink_cleanup c w).
Proof.
  destruct (rest_unlink_cleanup c w) as (_ & _ & Hn & _). split_and!.
  - intros ns j c'. rewrite unlink_unlink_cleanup. case_decide; [|done].
    by intros [_ ?]%lookup_delete_Some.
  - intros ns j c'. by rewrite add_unlink_cleanup.
  - intros e. rewrite resolvers_unlink_cleanup, elem_of_map_delete. by intros [? _].
  - by rewrite Hn.
Qed.

Lemma shrinks_emitEvent event path next w : shrinks w (emitEvent event path next w).
Proof. repeat split; try done; intros [] ? ?; done. Qed.

(** *** What depends on the holdings only *)

Lemma holdings_locker ns w w' : holdings w' = holdings w → locker ns w' = locker ns w.
Proof. unfold holdings. intros [= ? ? ? ?]. by destruct ns. Qed.

Lemma holdings_resolvers w w' :
  holdings w' = holdings w →
  LockResolver.resolvers (lockResolver w') = LockResolver.resolvers (lockResolver w).
Proof. unfold holdings. by intros [= ? ? ? ?]. Qed.

Lemma holdings_nextClosure w w' : holdings w' = holdings w → nextClosure w' = nextClosure w.
Proof. unfold holdings. by intros [= ? ? ? ?]. Qed.

Lemma shrinks_holdings w w' : holdings w' = holdings w → shrinks w w'.
Proof.
  intros Hh. unfold shrinks.
  rewrite (holdings_resolvers _ _ Hh), (holdings_nextClosure _ _ Hh).
  repeat split; try done; intros ns ? ?; by rewrite (holdings_locker ns _ _ Hh).
Qed.

Lemma holdings_emits es w : holdings (emits es w) = holdings w.
Proof.
  revert w. induction es as [|e es IH]; intros w; [done|].
  change (emits (e :: es) w) with (emits es (emitEvent (ev_type e) (ev_path e) (ev_next e) w)).
  by rewrite IH.
Qed.

Lemma emitted_emits es w : emitted (emits es w) = emitted w ++ ((λ e, (clock w, e)) <$> es).
Proof.
  revert w. induction es as [|e es IH]; intros w; [by rewrite app_nil_r|].
  change (emits (e :: es) w) with (emits es (emitEvent (ev_type e) (ev_path e) (ev_next e) w)).
  rewrite IH. destruct e. cbn. by rewrite <- app_assoc.
Qed.

Lemma rest_emits es w :
  clock (emits es w) = clock w ∧ lockResolver (emits es w) = lockResolver w ∧
  fileSystemStateManager (emits es w) = fileSystemStateManager w.
Proof.
  revert w. induction es as [|e es IH]; intros w; [done|].
  change (emits (e :: es) w) with (emits es (emitEvent (ev_type e) (ev_path e) (ev_next e) w)).
  destruct (IH (emitEvent (ev_type e) (ev_path e) (ev_next e) w)) as (-> & -> & ->). done.
Qed.

Lemma registered_shrinks ours deadline w w' :
  shrinks w w' →
  (∀ fn timestamp, ours = Some fn →
     (fn, timestamp) ∈ LockResolver.resolvers (lockResolver w) →
     (fn, timestamp) ∈ LockResolver.resolvers (lockResolver w')) →
  registered ours deadline w → registered ours deadline w'.
Proof.
  intros (_ & _ & Hr & _) Hkept Hreg fn Hfn. destruct (Hreg fn Hfn) as [Hin Huniq].
  split; [by eapply Hkept|]. intros ts Hts. apply Huniq, Hr, Hts.
Qed.

Lemma locked_holdings ours w w' : holdings w' = holdings w → locked ours w → locked ours w'.
Proof.
  intros Hh. unfold locked. destruct ours as [[c|c]|]; [| |done].
  all: by rewrite (holdings_locker _ _ _ Hh).
Qed.

Lemma filter_none {A} (P : A → Prop) `{∀ x, Decision (P x)} (l : list A) :
  Forall (λ x, ¬ P x) l → filter P l = [].
Proof.
  induction 1 as [|x l Hx _ IH]; [done|]. by rewrite filter_cons, decide_False.
Qed.

Lemma seen_emitted (S : Scene) w w' es :
  emitted w' = emitted w ++ es → seen S w' = seen S w ++ filter (λ e, snd e ∈ watched S) es.
Proof. intros He. unfold seen. by rewrite He, filter_app. Qed.

Lemma passes_holdings (S : Scene) ours deadline w w' :
  holdings w' = holdings w → seen S w' = seen S w → calm S ours w →
  passes S ours deadline w w'.
Proof.
  intros Hh Hseen Hcalm. pose proof (shrinks_holdings _ _ Hh) as Hs. split_and!.
  - by eapply calm_shrinks.
  - apply registered_shrinks; [done|]. intros fn ts _. by rewrite (holdings_resolvers _ _ Hh).
  - intros _. by apply locked_holdings.
  - done.
Qed.

Lemma passes_trans (S : Scene) ours deadline w1 w2 w3 :
  passes S ours deadline w1 w2 → passes S ours deadline w2 w3 →
  passes S ours deadline w1 w3.
Proof.
  intros (_ & Hr1 & Hl1 & Hs1) (Hc2 & Hr2 & Hl2 & Hs2). split_and!; [done|auto|auto|congruence].
Qed.

(** *** What a closure that does not disturb the scene leaves alone *)

Context (S : Scene) (Hsound : sound S).
Context (ours : option Resolver) (deadline : Z).

Lemma passes_refl w : calm S ours w → passes S ours deadline w w.
Proof. intros. by apply passes_holdings. Qed.

Lemma settles_refl w : calm S ours w → settles S ours deadline w w.
Proof. intros. split_and!; [by apply passes_refl|apply shrinks_refl|done]. Qed.

Lemma settles_trans w1 w2 w3 :
  settles S ours deadline w1 w2 → settles S ours deadline w2 w3 →
  settles S ours deadline w1 w3.
Proof.
  intros (Hp1 & Hs1 & Hi1) (Hp2 & Hs2 & Hi2). split_and!.
  - by eapply passes_trans.
  - by eapply shrinks_trans.
  - congruence.
Qed.

Lemma settles_calm w w' : settles S ours deadline w w' → calm S ours w'.
Proof. by intros ((? & _) & _). Qed.

Lemma settles_emits es w :
  Forall (λ e, e ∉ watched S) es → calm S ours w → settles S ours deadline w (emits es w).
Proof.
  intros Hes Hcalm. pose proof (holdings_emits es w) as Hh. split_and!.
  - apply passes_holdings; [done| |done].
    rewrite (seen_emitted S w _ _ (emitted_emits es w)).
    rewrite filter_none; [apply app_nil_r|].
    apply Forall_fmap. eapply Forall_impl; [exact Hes|]. by intros e He.
  - by apply shrinks_holdings.
  - by destruct (rest_emits es w) as (_ & -> & _).
Qed.

Lemma registered_map_delete g w w' :
  LockResolver.resolvers (lockResolver w')
  = LockResolver.map_delete g (LockResolver.resolvers (lockResolver w)) →
  (∀ fn, ours = Some fn → resolver_id fn ≠ resolver_id g) →
  registered ours deadline w → registered ours deadline w'.
Proof.
  intros Hrs Hid Hreg fn Hfn. destruct (Hreg fn Hfn) as [Hin Huniq]. rewrite Hrs. split.
  - apply elem_of_map_delete. split; [done|]. by apply Hid.
  - intros ts [Hts _]%elem_of_map_delete. by apply Huniq.
Qed.

Lemma stranger_id removal c fn :
  stranger S ours removal c → ours = Some fn → resolver_id fn ≠ c_free c.
Proof. intros [_ Hid] Hfn. specialize (Hid fn Hfn). congruence. Qed.

Lemma settles_add_cleanup c w :
  calm S ours w → stranger S ours false c → settles S ours deadline w (add_cleanup c w).
Proof.
  intros Hcalm Hc. destruct (rest_add_cleanup c w) as (Hiid & Hem & _).
  split_and!; [split_and!|apply shrinks_add_cleanup|done].
  - eapply calm_shrinks; [done|apply shrinks_add_cleanup].
  - apply (registered_map_delete (AddFree c)); [apply resolvers_add_cleanup|].
    intros fn Hfn. by apply (stranger_id false).
  - intros Hguard. unfold locked. destruct ours as [[o|o]|]; [| |done].
    + rewrite add_add_cleanup. case_decide as Hns; [|done].
      intros Ho. rewrite lookup_delete_ne; [done|]. intros Hi.
      destruct Hc as [Hc _]. apply Hc. rewrite <- Hns, Hi. apply Hguard.
    + by rewrite unlink_add_cleanup.
  - unfold seen. by rewrite Hem.
Qed.

Lemma settles_unlink_cleanup c w :
  calm S ours w → stranger S ours true c → settles S ours deadline w (unlink_cleanup c w).
Proof.
  intros Hcalm Hc. destruct (rest_unlink_cleanup c w) as (Hiid & Hem & _).
  split_and!; [split_and!|apply shrinks_unlink_cleanup|done].
  - eapply calm_shrinks; [done|apply shrinks_unlink_cleanup].
  - apply (registered_map_delete (UnlinkFree c)); [apply resolvers_unlink_cleanup|].
    intros fn Hfn. by apply (stranger_id true).
  - intros Hguard. unfold locked. destruct ours as [[o|o]|]; [| |done].
    + by rewrite add_unlink_cleanup.
    + rewrite unlink_unlink_cleanup. case_decide as Hns; [|done].
      intros Ho. rewrite lookup_delete_ne; [done|]. intros Hi.
      destruct Hc as [Hc _]. apply Hc. rewrite <- Hns, Hi. apply Hguard.
  - unfold seen. by rewrite Hem.
Qed.

(** *** The events of a closure that does not disturb the scene *)

Lemma unwatched_unlink c :
  stranger S ours true c → c_lockEvent c = lockEvent_of (c_fileSystemLocker c) →
  {| ev_type := le_unlink (c_lockEvent c); ev_path := c_targetPath c; ev_next := None |}
    ∉ watched S.
Proof.
  intros [Hc _] -> Hin. destruct Hsound as (Hu & _). by eapply Hc, Hu.
Qed.

Lemma unwatched_add c :
  stranger S ours false c → c_lockEvent c = lockEvent_of (c_fileSystemLocker c) →
  {| ev_type := le_add (c_lockEvent c); ev_path := c_targetPath c; ev_next := None |}
    ∉ watched S.
Proof.
  intros [Hc _] -> Hin. destruct Hsound as (_ & Ha & _). by eapply Hc, Ha.
Qed.

Lemma unwatched_rename c previous :
  stranger S ours false c → c_lockEvent c = lockEvent_of (c_fileSystemLocker c) →
  {| ev_type := le_rename (c_lockEvent c); ev_path := previous;
     ev_next := Some (c_targetPath c) |} ∉ watched S.
Proof.
  intros [Hc _] -> Hin. destruct Hsound as (_ & _ & Hr & _). by eapply Hc, Hr.
Qed.

Lemma unwatched_resolution c previous w :
  stranger S ours false c →
  Forall (λ e, e ∉ watched S)
    (resolution (c_fileSystemLocker c) previous (c_targetPath c) w).
Proof.
  intros Hc. unfold resolution. case_decide.
  - destruct (c_fileSystemLocker c); cbn; [constructor|].
    destruct (bool_decide _); constructor; [|constructor].
    destruct Hsound as (_ & _ & _ & Hch). apply Hch.
  - constructor; [|constructor].
    pose proof (unwatched_rename {| c_inodeNumber := c_inodeNumber c;
      c_targetPath := c_targetPath c; c_lockEvent := lockEvent_of (c_fileSystemLocker c);
      c_fileSystemLocker := c_fileSystemLocker c; c_free := c_free c |} previous) as Hr.
    apply Hr; [|done]. destruct Hc as [Hd Hid]. split; [done|]. done.
Qed.

(** *** The equations of the closures *)

Lemma unlink_free_emits c w :
  unlink_free c w
  = emits [{| ev_type := le_unlink (c_lockEvent c); ev_path := c_targetPath c;
              ev_next := None |}] (unlink_cleanup c w).
Proof. done. Qed.

Lemma add_emit_emits inodeNumber targetPath lockEvent w :
  ∃ ev, add_emit inodeNumber targetPath lockEvent w = emits [ev] w ∧
        (ev = {| ev_type := le_add lockEvent; ev_path := targetPath; ev_next := None |} ∨
         ∃ otherPath, ev = {| ev_type := le_rename lockEvent; ev_path := otherPath;
                              ev_next := Some targetPath |}).
Proof.
  unfold add_emit. destruct (SetMultiMap.find _ _ _) as [otherPath|].
  - case_decide.
    + exists {| ev_type := le_add lockEvent; ev_path := targetPath; ev_next := None |}.
      by split; [|left].
    + exists {| ev_type := le_rename lockEvent; ev_path := otherPath;
                ev_next := Some targetPath |}.
      split; [done|right; by exists otherPath].
  - exists {| ev_type := le_add lockEvent; ev_path := targetPath; ev_next := None |}.
    by split; [|left].
Qed.

Lemma resolve_meets c u w :
  FileSystemLocker.unlink (locker (c_fileSystemLocker c) w) !! c_inodeNumber c = Some u →
  c_lockEvent c = lockEvent_of (c_fileSystemLocker c) →
  resolve c w
  = emits (resolution (c_fileSystemLocker c) (c_targetPath u) (c_targetPath c) w)
      (unlink_cleanup u (add_cleanup c w)).
Proof.
  intros Hu Hle. unfold resolve, overridden, FileSystemLocker.getUnlink, resolution.
  rewrite Hu, Hle.
  destruct (rest_unlink_cleanup u (add_cleanup c w)) as (_ & _ & _ & _ & ->).
  destruct (rest_add_cleanup c w) as (_ & _ & _ & _ & ->).
  case_decide; [|done]. destruct (le_change _); [|done]. by destruct (bool_decide _).
Qed.

Lemma resolve_misses c w :
  FileSystemLocker.unlink (locker (c_fileSystemLocker c) w) !! c_inodeNumber c = None →
  resolve c w = w.
Proof. intros Hu. unfold resolve, FileSystemLocker.getUnlink. by rewrite Hu. Qed.

(** *** Calls of closures that do not disturb the scene *)

Lemma settles_unlink_free c w :
  calm S ours w → stranger S ours true c →
  c_lockEvent c = lockEvent_of (c_fileSystemLocker c) →
  settles S ours deadline w (unlink_free c w).
Proof.
  intros Hcalm Hc Hle. rewrite unlink_free_emits.
  pose proof (settles_unlink_cleanup c w Hcalm Hc) as H1.
  eapply settles_trans; [exact H1|]. apply settles_emits; [|by eapply settles_calm].
  constructor; [|constructor]. by apply unwatched_unlink.
Qed.

Lemma settles_add_free c w :
  calm S ours w → stranger S ours false c →
  c_lockEvent c = lockEvent_of (c_fileSystemLocker c) →
  settles S ours deadline w (add_free c w).
Proof.
  intros Hcalm Hc Hle. unfold add_free.
  pose proof (settles_add_cleanup c w Hcalm Hc) as H1.
  destruct (add_emit_emits (Some (c_inodeNumber c)) (c_targetPath c) (c_lockEvent c)
              (add_cleanup c w)) as (ev & -> & Hev).
  eapply settles_trans; [exact H1|]. apply settles_emits; [|by eapply settles_calm].
  constructor; [|constructor]. destruct Hev as [->|[other ->]].
  - by apply unwatched_add.
  - by apply unwatched_rename.
Qed.

Lemma settles_resolve c w :
  calm S ours w → guard_other S ours → stranger S ours false c →
  c_lockEvent c = lockEvent_of (c_fileSystemLocker c) →
  settles S ours deadline w (resolve c w).
Proof.
  intros Hcalm Hguard Hc Hle.
  destruct (FileSystemLocker.unlink (locker (c_fileSystemLocker c) w) !! c_inodeNumber c)
    as [u|] eqn:Hu; [|rewrite resolve_misses by done; by apply settles_refl].
  rewrite (resolve_meets c u w Hu Hle).
  pose proof Hcalm as ([Hkey _] & _ & Hunl & _).
  destruct (Hkey _ _ u (or_introl Hu)) as [Hns Hi].
  assert (stranger S ours true u) as Hstr.
  { destruct (Hunl u) as [Hours|Hstr]; [left; eauto| |done].
    exfalso. destruct Hc as [Hc _]. apply Hc. rewrite Hours in Hguard. cbn in Hguard.
    rewrite <- Hns, <- Hi. apply Hguard. }
  pose proof (settles_add_cleanup c w Hcalm Hc) as H1.
  pose proof (settles_unlink_cleanup u _ (settles_calm _ _ H1) Hstr) as H2.
  eapply settles_trans; [exact H1|]. eapply settles_trans; [exact H2|].
  apply settles_emits; [|by eapply settles_calm].
  destruct (rest_unlink_cleanup u (add_cleanup c w)) as (_ & _ & _ & _ & Hf2).
  destruct (rest_add_cleanup c w) as (_ & _ & _ & _ & Hf1).
  by apply unwatched_resolution.
Qed.

Lemma settles_remove g w :
  calm S ours w → (∀ fn, ours = Some fn → resolver_id fn ≠ resolver_id g) →
  settles S ours deadline w (set_lockResolver (LockResolver.remove g (lockResolver w)) w).
Proof.
  intros Hcalm Hid.
  assert (shrinks w (set_lockResolver (LockResolver.remove g (lockResolver w)) w)) as Hs.
  { split_and!; try done; try (by intros [] ? ?).
    intros e. cbn. rewrite elem_of_map_delete. by intros [? _]. }
  split_and!; [split_and!|done|done].
  - by eapply calm_shrinks.
  - by apply (registered_map_delete g).
  - intros _. unfold locked. by destruct ours as [[[? ? ? [] ?]|[? ? ? [] ?]]|].
  - done.
Qed.

Lemma calm_resolver g timestamp w :
  calm S ours w → (g, timestamp) ∈ LockResolver.resolvers (lockResolver w) →
  (ours = Some g ∨ stranger S ours (of_removal g) (resolver_closure g)) ∧
  c_lockEvent (resolver_closure g) = lockEvent_of (c_fileSystemLocker (resolver_closure g)).
Proof.
  intros ([_ Hids] & _ & Hunl & Hadd) Hin. destruct g as [c|c]; cbn.
  - assert (held_add w c) as Hc by (right; eauto). split; [|by apply Hids; right].
    destruct (Hadd c Hc) as [->|?]; eauto.
  - assert (held_unlink w c) as Hc by (right; eauto). split; [|by apply Hids; left].
    destruct (Hunl c Hc) as [->|?]; eauto.
Qed.

Lemma settles_call g w :
  calm S ours w → stranger S ours (of_removal g) (resolver_closure g) →
  c_lockEvent (resolver_closure g) = lockEvent_of (c_fileSystemLocker (resolver_closure g)) →
  settles S ours deadline w (call g w).
Proof.
  destruct g as [c|c]; cbn; intros.
  - by apply settles_add_free.
  - by apply settles_unlink_free.
Qed.

(** *** Parking *)

Lemma addLock_park lc timeout inodeNumber w :
  truthy (lc_inodeNumber lc) = Some inodeNumber →
  addLock lc timeout w
  = resolve (closure lc inodeNumber w)
      (park (AddFree (closure lc inodeNumber w)) (default renameTimeout timeout) w).
Proof. intros Hi. unfold addLock. by rewrite Hi. Qed.

Lemma unlinkLock_park lc timeout inodeNumber w :
  truthy (lc_inodeNumber lc) = Some inodeNumber →
  unlinkLock lc timeout w
  = let w' := park (UnlinkFree (closure lc inodeNumber w)) (default renameTimeout timeout) w in
    match FileSystemLocker.add (locker (lc_fileSystemLocker lc) w') !! inodeNumber with
    | Some callback => resolve callback w'
    | None => w'
    end.
Proof. intros Hi. unfold unlinkLock. by rewrite Hi. Qed.

Lemma park_rest fn timeout w :
  lockResolver (park fn timeout w) = LockResolver.add fn timeout (clock w) (lockResolver w) ∧
  emitted (park fn timeout w) = emitted w ∧ clock (park fn timeout w) = clock w ∧
  nextClosure (park fn timeout w) = Datatypes.S (nextClosure w) ∧
  fileSystemStateManager (park fn timeout w) = fileSystemStateManager w.
Proof. unfold park. by destruct (c_fileSystemLocker (resolver_closure fn)). Qed.

Lemma unlink_park ns fn timeout w :
  FileSystemLocker.unlink (locker ns (park fn timeout w))
  = match fn with
    | UnlinkFree c =>
        if decide (ns = c_fileSystemLocker c)
        then <[c_inodeNumber c := c]> (FileSystemLocker.unlink (locker ns w))
        else FileSystemLocker.unlink (locker ns w)
    | AddFree _ => FileSystemLocker.unlink (locker ns w)
    end.
Proof.
  unfold park. destruct fn as [c|c]; cbn [resolver_closure].
  all: by destruct ns, (c_fileSystemLocker c).
Qed.

Lemma add_park ns fn timeout w :
  FileSystemLocker.add (locker ns (park fn timeout w))
  = match fn with
    | AddFree c =>
        if decide (ns = c_fileSystemLocker c)
        then <[c_inodeNumber c := c]> (FileSystemLocker.add (locker ns w))
        else FileSystemLocker.add (locker ns w)
    | UnlinkFree _ => FileSystemLocker.add (locker ns w)
    end.
Proof.
  unfold park. destruct fn as [c|c]; cbn [resolver_closure].
  all: by destruct ns, (c_fileSystemLocker c).
Qed.

Lemma resolvers_park fn timeout w :
  coherent w → resolver_id fn = nextClosure w →
  LockResolver.resolvers (lockResolver (park fn timeout w))
  = LockResolver.resolvers (lockResolver w) ++ [(fn, clock w + timeout)].
Proof.
  intros [_ Hids] Hid. destruct (park_rest fn timeout w) as (-> & _).
  rewrite resolvers_add. apply map_set_fresh.
  apply Forall_forall. intros [g ts] Hin. cbn. rewrite Hid.
  assert (c_free (resolver_closure g) < nextClosure w)%nat as Hlt.
  { apply Hids. destruct g; cbn; [right|left]; right; eauto. }
  destruct g; cbn in *; lia.
Qed.

Lemma intervalId_park fn timeout w :
  LockResolver.intervalId (lockResolver (park fn timeout w))
  = Some (default (clock w + LockResolver.interval)
                  (LockResolver.intervalId (lockResolver w))).
Proof. destruct (park_rest fn timeout w) as (-> & _). apply intervalId_add. Qed.

Lemma grows_park fn timeout w :
  coherent w → resolver_id fn = nextClosure w → grows fn w (park fn timeout w).
Proof.
  intros Hco Hid. split_and!.
  - intros ns j c. rewrite unlink_park. destruct fn as [c'|c']; [by left|].
    case_decide as Hns; [|by left].
    destruct (decide (j = c_inodeNumber c')) as [->|Hj].
    + rewrite lookup_insert_eq. intros [= ->]. by right.
    + rewrite lookup_insert_ne by done. by left.
  - intros ns j c. rewrite add_park. destruct fn as [c'|c']; [|by left].
    case_decide as Hns; [|by left].
    destruct (decide (j = c_inodeNumber c')) as [->|Hj].
    + rewrite lookup_insert_eq. intros [= ->]. by right.
    + rewrite lookup_insert_ne by done. by left.
  - intros e. rewrite resolvers_park by done. rewrite elem_of_app, list_elem_of_singleton.
    intros [?| ->]; [by left|by right].
  - destruct (park_rest fn timeout w) as (_ & _ & _ & -> & _). lia.
Qed.


Lemma grows_held_unlink fn w w' c :
  grows fn w w' → held_unlink w' c → held_unlink w c ∨ fn = UnlinkFree c.
Proof.
  intros (Hu & _ & Hr & _) [(ns & j & Hc)|(ts & Hc)].
  - destruct (Hu _ _ _ Hc) as [?|(? & _)]; [left; left; eauto|by right].
  - destruct (Hr _ Hc) as [?|?]; [left; right; eauto|by right].
Qed.

Lemma grows_held_add fn w w' c :
  grows fn w w' → held_add w' c → held_add w c ∨ fn = AddFree c.
Proof.
  intros (_ & Ha & Hr & _) [(ns & j & Hc)|(ts & Hc)].
  - destruct (Ha _ _ _ Hc) as [?|(? & _)]; [left; left; eauto|by right].
  - destruct (Hr _ Hc) as [?|?]; [left; right; eauto|by right].
Qed.

Lemma coherent_grows fn w w' :
  coherent w → grows fn w w' →
  c_lockEvent (resolver_closure fn) = lockEvent_of (c_fileSystemLocker (resolver_closure fn)) →
  (resolver_id fn < nextClosure w')%nat → coherent w'.
Proof.
  intros [Hkey Hids] Hg Hle Hid. pose proof Hg as (Hu & Ha & Hr & Hn). split.
  - intros ns j c [Hc|Hc].
    + destruct (Hu _ _ _ Hc) as [?|(_ & -> & ->)]; [|done]. apply Hkey. by left.
    + destruct (Ha _ _ _ Hc) as [?|(_ & -> & ->)]; [|done]. apply Hkey. by right.
  - intros c [Hc|Hc].
    + destruct (grows_held_unlink _ _ _ _ Hg Hc) as [Hold| ->].
      * destruct (Hids c (or_introl Hold)). split; [lia|done].
      * done.
    + destruct (grows_held_add _ _ _ _ Hg Hc) as [Hold| ->].
      * destruct (Hids c (or_intror Hold)). split; [lia|done].
      * done.
Qed.

Lemma calm_grows fn w w' :
  calm S ours w → grows fn w w' →
  stranger S ours (of_removal fn) (resolver_closure fn) →
  c_lockEvent (resolver_closure fn) = lockEvent_of (c_fileSystemLocker (resolver_closure fn)) →
  (resolver_id fn < nextClosure w')%nat → calm S ours w'.
Proof.
  intros (Hco & Hid & Hunl & Hadd) Hg Hstr Hle Hlt. pose proof Hg as (_ & _ & _ & Hn).
  split_and!.
  - by eapply coherent_grows.
  - intros g Hg'. specialize (Hid g Hg'). lia.
  - intros c Hc. destruct (grows_held_unlink _ _ _ _ Hg Hc) as [Hold| ->]; [by apply Hunl|].
    by right.
  - intros c Hc. destruct (grows_held_add _ _ _ _ Hg Hc) as [Hold| ->]; [by apply Hadd|].
    by right.
Qed.

Lemma passes_park fn timeout w :
  calm S ours w → resolver_id fn = nextClosure w →
  stranger S ours (of_removal fn) (resolver_closure fn) →
  c_lockEvent (resolver_closure fn) = lockEvent_of (c_fileSystemLocker (resolver_closure fn)) →
  passes S ours deadline w (park fn timeout w).
Proof.
  intros Hcalm Hid Hstr Hle. pose proof Hcalm as (Hco & Hours & _).
  destruct (park_rest fn timeout w) as (_ & Hem & _ & Hn & _). split_and!.
  - eapply calm_grows; [done|by apply grows_park|done|done|]. rewrite Hn, Hid. lia.
  - intros Hreg g Hg. destruct (Hreg g Hg) as [Hin Huniq].
    rewrite resolvers_park by done. split.
    + apply elem_of_app. by left.
    + intros ts [Hts|Hts%list_elem_of_singleton]%elem_of_app; [by apply Huniq|].
      injection Hts as -> ->. specialize (Hours _ Hg). lia.
  - intros Hguard. unfold locked. destruct ours as [[o|o]|]; [| |done].
    + rewrite add_park. destruct fn as [c|c]; [|done]. case_decide as Hns; [|done].
      intros Ho. rewrite lookup_insert_ne; [done|]. intros Hi.
      destruct Hstr as [Hc _]. apply Hc. cbn. rewrite <- Hns, Hi. apply Hguard.
    + rewrite unlink_park. destruct fn as [c|c]; [done|]. case_decide as Hns; [|done].
      intros Ho. rewrite lookup_insert_ne; [done|]. intros Hi.
      destruct Hstr as [Hc _]. apply Hc. cbn. rewrite <- Hns, Hi. apply Hguard.
  - unfold seen. by rewrite Hem.
Qed.

(** *** Arrivals that do not disturb the scene *)

Context (Hother : guard_other S ours).

Lemma settles_passes w w' : settles S ours deadline w w' → passes S ours deadline w w'.
Proof. by intros (? & _). Qed.

Lemma settles_keeps_timer w w' : settles S ours deadline w w' → keeps_timer w w'.
Proof. intros (_ & _ & Hi) next. by rewrite Hi. Qed.

Lemma keeps_timer_trans w1 w2 w3 : keeps_timer w1 w2 → keeps_timer w2 w3 → keeps_timer w1 w3.
Proof. intros H1 H2 next Hn. eauto. Qed.

Lemma passes_calm w w' : passes S ours deadline w w' → calm S ours w'.
Proof. by intros (? & _). Qed.

Lemma stranger_closure removal lc inodeNumber w :
  calm S ours w →
  ¬ disturbs S removal (lc_fileSystemLocker lc) (lc_targetPath lc) (Some inodeNumber) →
  stranger S ours removal (closure lc inodeNumber w).
Proof.
  intros (_ & Hid & _) Hd. split; [done|].
  intros fn Hfn. specialize (Hid fn Hfn). cbn. lia.
Qed.

Lemma addLock_passes lc timeout w :
  calm S ours w → lc_lockEvent lc = lockEvent_of (lc_fileSystemLocker lc) →
  ¬ disturbs S false (lc_fileSystemLocker lc) (lc_targetPath lc) (truthy (lc_inodeNumber lc)) →
  passes S ours deadline w (addLock lc timeout w) ∧ keeps_timer w (addLock lc timeout w).
Proof.
  intros Hcalm Hle Hd. destruct (truthy (lc_inodeNumber lc)) as [i|] eqn:Hi.
  - rewrite (addLock_park lc timeout i w Hi).
    pose proof (stranger_closure false lc i w Hcalm Hd) as Hstr.
    pose proof (passes_park (AddFree (closure lc i w)) (default renameTimeout timeout) w
                  Hcalm eq_refl Hstr Hle) as H1.
    pose proof (settles_resolve (closure lc i w) _ (passes_calm _ _ H1) Hother Hstr Hle) as H2.
    split; [eapply passes_trans; [exact H1|by apply settles_passes]|].
    eapply keeps_timer_trans; [|by eapply settles_keeps_timer].
    intros next Hn. by rewrite intervalId_park, Hn.
  - unfold addLock. rewrite Hi.
    destruct (add_emit_emits (lc_inodeNumber lc) (lc_targetPath lc) (lc_lockEvent lc) w)
      as (ev & -> & Hev).
    assert (settles S ours deadline w (emits [ev] w)) as H1.
    { apply settles_emits; [|done]. constructor; [|constructor]. intros Hin. apply Hd.
      destruct Hsound as (_ & Ha & Hr & _). rewrite Hle in Hev.
      destruct Hev as [->|[other ->]]; [by eapply Ha|by eapply Hr]. }
    split; [by apply settles_passes|by eapply settles_keeps_timer].
Qed.

Lemma unlinkLock_passes lc timeout w :
  calm S ours w → lc_lockEvent lc = lockEvent_of (lc_fileSystemLocker lc) →
  ¬ disturbs S true (lc_fileSystemLocker lc) (lc_targetPath lc) (truthy (lc_inodeNumber lc)) →
  passes S ours deadline w (unlinkLock lc timeout w) ∧ keeps_timer w (unlinkLock lc timeout w).
Proof.
  intros Hcalm Hle Hd. destruct (truthy (lc_inodeNumber lc)) as [i|] eqn:Hi.
  - rewrite (unlinkLock_park lc timeout i w Hi). cbv zeta.
    pose proof (stranger_closure true lc i w Hcalm Hd) as Hstr.
    pose proof (passes_park (UnlinkFree (closure lc i w)) (default renameTimeout timeout) w
                  Hcalm eq_refl Hstr Hle) as H1.
    assert (keeps_timer w (park (UnlinkFree (closure lc i w))
                             (default renameTimeout timeout) w)) as Ht
      by (intros next Hn; by rewrite intervalId_park, Hn).
    destruct (FileSystemLocker.add (locker _ _) !! i) as [callback|] eqn:Hcb; [|done].
    pose proof (passes_calm _ _ H1) as Hcalm1.
    pose proof Hcalm1 as ([Hkey Hids] & _ & _ & Hadd).
    destruct (Hkey _ _ _ (or_intror Hcb)) as [Hns Hin].
    assert (held_add (park (UnlinkFree (closure lc i w)) (default renameTimeout timeout) w)
              callback) as Hheld by (left; eauto).
    assert (stranger S ours false callback) as Hstr'.
    { destruct (Hadd _ Hheld) as [Hours|?]; [|done]. exfalso. apply Hd.
      pose proof Hother as Hg. rewrite Hours in Hg. cbn in Hg.
      rewrite <- Hns, <- Hin. apply Hg. }
    destruct (Hids callback (or_intror Hheld)) as [_ Hle'].
    pose proof (settles_resolve callback _ Hcalm1 Hother Hstr' Hle') as H2.
    split; [eapply passes_trans; [exact H1|by apply settles_passes]|].
    eapply keeps_timer_trans; [exact Ht|by eapply settles_keeps_timer].
  - unfold unlinkLock. rewrite Hi.
    assert (settles S ours deadline w
              (emits [{| ev_type := le_unlink (lc_lockEvent lc); ev_path := lc_targetPath lc;
                         ev_next := None |}] w)) as H1.
    { apply settles_emits; [|done]. constructor; [|constructor]. intros Hin. apply Hd.
      destruct Hsound as (Hu & _). rewrite Hle in Hin. by eapply Hu. }
    split; [by apply settles_passes|by eapply settles_keeps_timer].
Qed.

Lemma holdings_observe path resolved w : holdings (observe path resolved w) = holdings w.
Proof. done. Qed.

Lemma holdings_set_clock now w : holdings (set_clock now w) = holdings w.
Proof. done. Qed.

Lemma act_passes now a w :
  calm S ours w → allowed S w a →
  passes S ours deadline w (at_time now (act a) w) ∧ keeps_timer w (at_time now (act a) w).
Proof.
  intros Hcalm Ha. unfold at_time.
  assert (passes S ours deadline w (set_clock now w)) as H0
    by (by apply passes_holdings).
  pose proof (passes_calm _ _ H0) as Hcalm0.
  destruct a as [event path timeout|path resolved]; cbn [act].
  - destruct event; cbn [getLockTargetEvent]; try (split; [done|by intros ?]).
    all: unfold processLock.
    all: match goal with
         | |- context [addLock ?lc ?timeout0 ?w0] =>
             destruct (addLock_passes lc timeout0 w0 Hcalm0 eq_refl Ha) as [H1 H2]
         | |- context [unlinkLock ?lc ?timeout0 ?w0] =>
             destruct (unlinkLock_passes lc timeout0 w0 Hcalm0 eq_refl Ha) as [H1 H2]
         end.
    all: split; [exact (passes_trans S ours deadline _ _ _ H0 H1)|exact H2].
  - split; [|by intros ?]. eapply passes_trans; [exact H0|].
    by apply passes_holdings.
Qed.

(** *** Ticks before [ours] is due *)

Lemma clock_call g w : clock (call g w) = clock w.
Proof.
  destruct g as [c|c]; cbn [call].
  - unfold add_free.
    destruct (add_emit_emits (Some (c_inodeNumber c)) (c_targetPath c) (c_lockEvent c)
                (add_cleanup c w)) as (ev & -> & _).
    destruct (rest_emits [ev] (add_cleanup c w)) as (-> & _).
    by destruct (rest_add_cleanup c w) as (_ & _ & _ & -> & _).
  - rewrite unlink_free_emits.
    destruct (rest_emits [{| ev_type := le_unlink (c_lockEvent c);
                             ev_path := c_targetPath c; ev_next := None |}]
                (unlink_cleanup c w)) as (-> & _).
    by destruct (rest_unlink_cleanup c w) as (_ & _ & _ & -> & _).
Qed.

Lemma clock_resolve_entry now w e : clock (resolve_entry now w e) = clock w.
Proof.
  destruct e as [g ts]. unfold resolve_entry.
  destruct (LockResolver.has _ _); [|done]. case_decide; [done|]. by rewrite clock_call.
Qed.

Lemma clock_fold now entries : ∀ w, clock (foldl (resolve_entry now) w entries) = clock w.
Proof.
  induction entries as [|e entries IH]; intros w; [done|].
  cbn [foldl]. by rewrite IH, clock_resolve_entry.
Qed.

Lemma settles_resolve_entry now w g timestamp :
  calm S ours w →
  (ours = Some g ∧ now < timestamp) ∨
  (stranger S ours (of_removal g) (resolver_closure g) ∧
   c_lockEvent (resolver_closure g) = lockEvent_of (c_fileSystemLocker (resolver_closure g))) →
  settles S ours deadline w (resolve_entry now w (g, timestamp)).
Proof.
  intros Hcalm Hg. unfold resolve_entry.
  destruct (LockResolver.has _ _); [|by apply settles_refl].
  case_decide as Hts; [by apply settles_refl|].
  destruct Hg as [[_ Hlate]|[Hstr Hle]]; [lia|].
  assert (settles S ours deadline w
            (set_lockResolver (LockResolver.remove g (lockResolver w)) w)) as H1.
  { apply settles_remove; [done|]. intros fn Hfn.
    pose proof (stranger_id _ _ _ Hstr Hfn). by destruct g. }
  eapply settles_trans; [exact H1|]. apply settles_call; [by eapply settles_calm|done..].
Qed.

Lemma settles_fold now entries : ∀ w,
  calm S ours w →
  Forall (λ e, (ours = Some (fst e) ∧ now < snd e) ∨
               (stranger S ours (of_removal (fst e)) (resolver_closure (fst e)) ∧
                c_lockEvent (resolver_closure (fst e))
                = lockEvent_of (c_fileSystemLocker (resolver_closure (fst e))))) entries →
  settles S ours deadline w (foldl (resolve_entry now) w entries).
Proof.
  induction entries as [|[g ts] entries IH]; intros w Hcalm Hes; [by apply settles_refl|].
  apply Forall_cons in Hes as [He Hes]. cbn [foldl].
  pose proof (settles_resolve_entry now w g ts Hcalm He) as H1.
  eapply settles_trans; [exact H1|]. apply IH; [by eapply settles_calm|done].
Qed.

Lemma entries_waiting now w :
  calm S ours w → registered ours deadline w → early ours deadline now →
  Forall (λ e, (ours = Some (fst e) ∧ now < snd e) ∨
               (stranger S ours (of_removal (fst e)) (resolver_closure (fst e)) ∧
                c_lockEvent (resolver_closure (fst e))
                = lockEvent_of (c_fileSystemLocker (resolver_closure (fst e)))))
    (LockResolver.resolvers (lockResolver w)).
Proof.
  intros Hcalm Hreg Hearly. apply Forall_forall. intros [g ts] Hin.
  destruct (calm_resolver g ts w Hcalm Hin) as [[Hours|Hstr] Hle]; [left|by right].
  destruct (Hreg g Hours) as [_ Huniq]. rewrite (Huniq ts Hin). split; [done|].
  by eapply Hearly.
Qed.

Lemma tick_tail now w :
  let w' := match LockResolver.intervalId (lockResolver w) with
            | Some _ =>
                set_lockResolver
                  {| LockResolver.intervalId := Some (now + LockResolver.interval);
                     LockResolver.resolvers := LockResolver.resolvers (lockResolver w) |} w
            | None => w
            end in
  holdings w' = holdings w ∧ emitted w' = emitted w.
Proof. cbv zeta. by destruct (LockResolver.intervalId (lockResolver w)). Qed.

Lemma resolve_tail w :
  let w' := if decide (length (LockResolver.resolvers (lockResolver w)) = 0%nat)
            then set_lockResolver (LockResolver.reset (lockResolver w)) w else w in
  holdings w' = holdings w ∧ emitted w' = emitted w.
Proof. cbv zeta. by case_decide. Qed.

Lemma tick_passes now w :
  calm S ours w → registered ours deadline w → early ours deadline now →
  passes S ours deadline w (tick now w) ∧
  (∀ fn, ours = Some fn → is_Some (LockResolver.intervalId (lockResolver w)) →
         LockResolver.intervalId (lockResolver (tick now w))
         = Some (now + LockResolver.interval)).
Proof.
  intros Hcalm Hreg Hearly.
  assert (passes S ours deadline w (set_clock now w)) as H0 by (by apply passes_holdings).
  pose proof (settles_fold now (LockResolver.resolvers (lockResolver w)) (set_clock now w)
                (passes_calm _ _ H0) (entries_waiting now w Hcalm Hreg Hearly)) as H1.
  unfold tick, LockResolver_resolve.
  change (clock (set_clock now w)) with now.
  change (LockResolver.resolvers (lockResolver (set_clock now w)))
    with (LockResolver.resolvers (lockResolver w)).
  set (w1 := foldl (resolve_entry now) (set_clock now w) _) in *.
  pose proof (passes_trans S ours deadline _ _ _ H0 (settles_passes _ _ H1)) as H01.
  destruct (resolve_tail w1) as [Hh2 He2]. cbv zeta in Hh2, He2.
  set (w2 := if decide _ then _ else w1) in *.
  destruct (tick_tail now w2) as [Hh3 He3]. cbv zeta in Hh3, He3.
  set (w3 := match LockResolver.intervalId (lockResolver w2) with Some _ => _ | None => w2 end)
    in *.
  assert (passes S ours deadline w1 w2) as H12.
  { apply passes_holdings; [done|unfold seen; by rewrite He2|by eapply passes_calm]. }
  assert (passes S ours deadline w2 w3) as H23.
  { apply passes_holdings; [done|unfold seen; by rewrite He3|by eapply passes_calm]. }
  split; [eapply passes_trans; [exact H01|]; by eapply passes_trans|].
  intros fn Hfn [next Hnext].
  destruct H01 as (_ & Hreg1 & _). destruct (Hreg1 Hreg fn Hfn) as [Hin _].
  assert (w2 = w1) as Hw2.
  { subst w2. rewrite decide_False; [done|].
    destruct (LockResolver.resolvers (lockResolver w1)); [by apply elem_of_nil in Hin|done]. }
  destruct H1 as (_ & _ & Hi1). cbn in Hi1. fold w1 in Hi1.
  subst w3. rewrite Hw2, Hi1, Hnext. done.
Qed.

Lemma first_tick_waits next deadline' fired :
  first_tick next deadline' = fired → next < fired → next < deadline'.
Proof.
  intros Hf Hlt. destruct (decide (deadline' ≤ next)) as [Hdue|]; [|lia].
  rewrite first_tick_due in Hf by done. lia.
Qed.

Lemma run_ticks_passes fired until fuel : ∀ w,
  waiting S ours deadline fired w → early ours fired until →
  passes S ours deadline w (run_ticks fuel until w) ∧
  on_time ours deadline fired (run_ticks fuel until w).
Proof.
  induction fuel as [|fuel IH]; intros w (Hcalm & Hreg & Hon) Hearly;
    [split; [by apply passes_refl|done]|].
  cbn [run_ticks].
  destruct (LockResolver.intervalId (lockResolver w)) as [next|] eqn:Hnext;
    [|split; [by apply passes_refl|done]].
  case_decide as Hdue; [|split; [by apply passes_refl|done]].
  assert (early ours deadline next) as Hearly'.
  { intros fn Hfn. destruct (Hon fn Hfn) as (next' & Hn' & Hf).
    assert (next' = next) as -> by congruence.
    specialize (Hearly fn Hfn). eapply first_tick_waits; [done|lia]. }
  destruct (tick_passes next w Hcalm Hreg Hearly') as [H1 Hi1].
  assert (waiting S ours deadline fired (tick next w)) as Hw1.
  { destruct H1 as (Hc1 & Hr1 & _). split_and!; [done|auto|].
    intros fn Hfn. exists (next + LockResolver.interval). split; [by eapply Hi1|].
    destruct (Hon fn Hfn) as (next' & Hn' & Hf).
    assert (next' = next) as -> by congruence.
    rewrite first_tick_step; [done|]. by eapply Hearly'. }
  destruct (IH (tick next w) Hw1 Hearly) as [H2 Hon2].
  split; [by eapply passes_trans|done].
Qed.

Lemma advance_passes fired until w :
  waiting S ours deadline fired w → early ours fired until →
  passes S ours deadline w (advance until w) ∧
  waiting S ours deadline fired (advance until w).
Proof.
  intros Hw Hearly. destruct (run_ticks_passes fired until (ticks_until until w) w Hw Hearly)
    as [H1 Hon]. split; [done|]. destruct Hw as (_ & Hreg & _).
  destruct H1 as (Hc & Hr & _). split_and!; auto.
Qed.

Lemma step_passes fired w a :
  waiting S ours deadline fired w → early ours fired (fst a) →
  allowed S (advance (fst a) w) (snd a) →
  passes S ours deadline w (step w a) ∧ waiting S ours deadline fired (step w a).
Proof.
  intros Hw Hearly Ha. destruct (advance_passes fired (fst a) w Hw Hearly) as [H1 Hw1].
  pose proof Hw1 as (Hc1 & Hr1 & Hon1).
  destruct (act_passes (fst a) (snd a) _ Hc1 Ha) as [H2 Ht2]. unfold step.
  split; [by eapply passes_trans|].
  destruct H2 as (Hc2 & Hr2 & _). split_and!; [done|auto|].
  intros fn Hfn. destruct (Hon1 fn Hfn) as (next & Hn & Hf). exists next. split; [|done].
  by apply Ht2.
Qed.

Lemma run_passes fired traffic : ∀ w,
  waiting S ours deadline fired w → Forall (λ a, early ours fired (fst a)) traffic →
  undisturbed S traffic w →
  passes S ours deadline w (run traffic w) ∧ waiting S ours deadline fired (run traffic w).
Proof.
  induction traffic as [|a traffic IH]; intros w Hw Hearly Hu.
  - split; [apply passes_refl|done]. by destruct Hw.
  - apply Forall_cons in Hearly as [Ha Hearly]. destruct Hu as [Hallowed Hu].
    destruct (step_passes fired w a Hw Ha Hallowed) as [H1 Hw1].
    destruct (IH (step w a) Hw1 Hearly Hu) as [H2 Hw2].
    split; [by eapply passes_trans|done].
Qed.

End BusyHandler.

Section Correlations.
Import FileRenameHandler.

Context (S : Scene) (Hsound : sound S).

(** *** A resolver that the handler lets go *)

Lemma stranger_weaken fn removal c : stranger S (Some fn) removal c → stranger S None removal c.
Proof. intros [Hd _]. by split. Qed.

Lemma calm_release fn w w' :
  calm S (Some fn) w → shrinks w w' → ¬ holds w' fn → calm S None w'.
Proof.
  intros (Hco & _ & Hunl & Hadd) Hs Hgone. split_and!.
  - by eapply coherent_shrinks.
  - done.
  - intros c Hc. right.
    destruct (Hunl c (shrinks_held_unlink _ _ _ Hs Hc)) as [[= ->]|Hstr];
      [done|by eapply stranger_weaken].
  - intros c Hc. right.
    destruct (Hadd c (shrinks_held_add _ _ _ Hs Hc)) as [[= ->]|Hstr];
      [done|by eapply stranger_weaken].
Qed.

Lemma unheld_shrinks fn w w' : shrinks w w' → ¬ holds w fn → ¬ holds w' fn.
Proof.
  intros Hs Hgone Hheld. apply Hgone. destruct fn as [c|c]; cbn in *.
  - by eapply shrinks_held_add.
  - by eapply shrinks_held_unlink.
Qed.

Lemma unheld_unlink_cleanup c w :
  (∀ ns j, FileSystemLocker.unlink (locker ns w) !! j = Some c →
           ns = c_fileSystemLocker c ∧ j = c_inodeNumber c) →
  ¬ holds (unlink_cleanup c w) (UnlinkFree c).
Proof.
  intros Hkey [(ns & j & Hc)|(ts & Hc)].
  - rewrite unlink_unlink_cleanup in Hc. case_decide as Hns.
    + apply lookup_delete_Some in Hc as [Hj Hc]. by destruct (Hkey _ _ Hc).
    + by destruct (Hkey _ _ Hc).
  - rewrite resolvers_unlink_cleanup in Hc. by apply elem_of_map_delete in Hc as [_ ?].
Qed.


Lemma grows_add_cleanup c w w' : grows (AddFree c) w w' → shrinks w (add_cleanup c w').
Proof.
  intros (Hu & Ha & Hr & Hn). destruct (rest_add_cleanup c w') as (_ & _ & Hn' & _).
  split_and!.
  - intros ns j c'. rewrite unlink_add_cleanup. intros Hc.
    by destruct (Hu _ _ _ Hc) as [?|(? & _)].
  - intros ns j c'. rewrite add_add_cleanup. case_decide as Hns.
    + intros [Hj Hc]%lookup_delete_Some.
      by destruct (Ha _ _ _ Hc) as [?|([= ->] & _ & ?)].
    + intros Hc. by destruct (Ha _ _ _ Hc) as [?|([= ->] & ? & _)].
  - intros e. rewrite resolvers_add_cleanup. intros [He Hid]%elem_of_map_delete.
    destruct (Hr _ He) as [?|Hfn]; [done|]. by rewrite Hfn in Hid.
  - lia.
Qed.


(** *** Parking the resolver that the scene is about *)

Lemma park_ours fn timeout w :
  calm S None w → resolver_id fn = nextClosure w →
  c_lockEvent (resolver_closure fn) = lockEvent_of (c_fileSystemLocker (resolver_closure fn)) →
  let w' := park fn timeout w in
  calm S (Some fn) w' ∧ registered (Some fn) (clock w + timeout) w' ∧ locked (Some fn) w' ∧
  emitted w' = emitted w.
Proof.
  intros Hcalm Hid Hle. pose proof Hcalm as (Hco & _ & Hunl & Hadd).
  pose proof (grows_park fn timeout w Hco Hid) as Hg.
  destruct (park_rest fn timeout w) as (_ & Hem & _ & Hn & _).
  assert (∀ removal c, (c_free c < nextClosure w)%nat → stranger S None removal c →
                       stranger S (Some fn) removal c) as Hstr.
  { intros removal c Hlt [Hd _]. split; [done|]. intros g [= <-]. lia. }
  pose proof Hco as [_ Hids].
  cbv zeta. split_and!; [split_and!| | |done].
  - eapply coherent_grows; [done..|]. rewrite Hn, Hid. lia.
  - intros g [= <-]. rewrite Hn, Hid. lia.
  - intros c Hc. destruct (grows_held_unlink _ _ _ _ Hg Hc) as [Hold| ->]; [|by left].
    right. destruct (Hids c (or_introl Hold)) as [Hlt _].
    destruct (Hunl c Hold) as [|?]; [done|]. by apply Hstr.
  - intros c Hc. destruct (grows_held_add _ _ _ _ Hg Hc) as [Hold| ->]; [|by left].
    right. destruct (Hids c (or_intror Hold)) as [Hlt _].
    destruct (Hadd c Hold) as [|?]; [done|]. by apply Hstr.
  - intros g [= <-]. rewrite resolvers_park by done. split.
    + apply elem_of_app. right. by apply list_elem_of_singleton.
    + intros ts [Hts|Hts%list_elem_of_singleton]%elem_of_app; [|by injection Hts].
      exfalso. assert (c_free (resolver_closure fn) < nextClosure w)%nat as Hlt.
      { apply Hids. destruct fn; cbn; [right|left]; right; eauto. }
      destruct fn; cbn in *; lia.
  - unfold locked. destruct fn as [c|c]; cbn [resolver_closure].
    + rewrite add_park, decide_True by done. apply lookup_insert_eq.
    + rewrite unlink_park, decide_True by done. apply lookup_insert_eq.
Qed.

(** *** The two sides meet *)

Lemma resolution_fsm k previous path w w' :
  fileSystemStateManager w' = fileSystemStateManager w →
  resolution k previous path w' = resolution k previous path w.
Proof. intros Hf. unfold resolution. by rewrite Hf. Qed.

Lemma addLock_meets cA lc timeout w :
  calm S (Some (UnlinkFree cA)) w → locked (Some (UnlinkFree cA)) w →
  truthy (lc_inodeNumber lc) = Some (c_inodeNumber cA) →
  lc_fileSystemLocker lc = c_fileSystemLocker cA →
  lc_lockEvent lc = lockEvent_of (lc_fileSystemLocker lc) →
  let w' := addLock lc timeout w in
  calm S None w' ∧
  emitted w' = emitted w ++ ((λ e, (clock w, e)) <$>
                 resolution (c_fileSystemLocker cA) (c_targetPath cA) (lc_targetPath lc) w) ∧
  FileSystemLocker.add (locker (c_fileSystemLocker cA) w') !! c_inodeNumber cA = None ∧
  FileSystemLocker.unlink (locker (c_fileSystemLocker cA) w') !! c_inodeNumber cA = None ∧
  (∀ e, e ∈ LockResolver.resolvers (lockResolver w') →
        resolver_id (fst e) ≠ c_free cA ∧ resolver_id (fst e) ≠ nextClosure w).
Proof.
  intros Hcalm Hlocked Hi Hns Hle. cbv zeta.
  rewrite (addLock_park lc timeout _ w Hi).
  set (cB := closure lc (c_inodeNumber cA) w).
  set (wp := park (AddFree cB) (default renameTimeout timeout) w).
  pose proof Hcalm as (Hco & _). pose proof Hco as [Hkey _].
  pose proof (grows_park (AddFree cB) (default renameTimeout timeout) w Hco eq_refl) as Hg.
  fold wp in Hg.
  destruct (park_rest (AddFree cB) (default renameTimeout timeout) w)
    as (_ & Hem & Hclock & _ & Hfsm). fold wp in Hem, Hclock, Hfsm.
  assert (FileSystemLocker.unlink (locker (c_fileSystemLocker cB) wp) !! c_inodeNumber cB
          = Some cA) as Hu.
  { subst wp. rewrite unlink_park. cbn. by rewrite Hns. }
  rewrite (resolve_meets cB cA wp Hu Hle).
  change (c_fileSystemLocker cB) with (lc_fileSystemLocker lc).
  change (c_targetPath cB) with (lc_targetPath lc). rewrite Hns.
  rewrite (resolution_fsm _ _ _ w wp Hfsm).
  set (es := resolution _ _ _ w).
  pose proof (grows_add_cleanup cB w wp Hg) as Hs1.
  pose proof (shrinks_unlink_cleanup cA (add_cleanup cB wp)) as Hs2.
  pose proof (shrinks_holdings _ _ (holdings_emits es (unlink_cleanup cA (add_cleanup cB wp))))
    as Hs3.
  pose proof (shrinks_trans _ _ _ Hs1 (shrinks_trans _ _ _ Hs2 Hs3)) as Hs.
  destruct (rest_unlink_cleanup cA (add_cleanup cB wp)) as (_ & Hem2 & _ & Hclock2 & _).
  destruct (rest_add_cleanup cB wp) as (_ & Hem1 & _ & Hclock1 & _).
  split_and!.
  - eapply calm_release; [exact Hcalm|exact Hs|].
    eapply unheld_shrinks; [exact Hs3|]. apply unheld_unlink_cleanup.
    intros ns j Hc. destruct Hs1 as (Hu1 & _).
    destruct (Hkey ns j cA) as [<- <-]; [left; by apply Hu1|done].
  - rewrite emitted_emits, Hem2, Hem1, Hem, Hclock2, Hclock1, Hclock. done.
  - rewrite (holdings_locker _ _ _ (holdings_emits es _)), add_unlink_cleanup, add_add_cleanup.
    change (c_fileSystemLocker cB) with (lc_fileSystemLocker lc).
    rewrite decide_True by done. apply lookup_delete_eq.
  - rewrite (holdings_locker _ _ _ (holdings_emits es _)), unlink_unlink_cleanup.
    rewrite decide_True by done. apply lookup_delete_eq.
  - intros e. rewrite (holdings_resolvers _ _ (holdings_emits es _)).
    rewrite resolvers_unlink_cleanup, resolvers_add_cleanup.
    intros [[_ H1]%elem_of_map_delete H2]%elem_of_map_delete. done.
Qed.


(** *** The resolver of a removal is called *)






(** *** Letting the interval run, with other traffic *)

Lemma waiting_quiet deadline fired w : calm S None w → waiting S None deadline fired w.
Proof. intros Hcalm. split_and!; [done|by intros ? [=]|by intros ? [=]]. Qed.

Lemma early_quiet fired time : early None fired time.
Proof. by intros ? [=]. Qed.

Lemma advance_quiet until w :
  calm S None w → calm S None (advance until w) ∧ seen S (advance until w) = seen S w.
Proof.
  intros Hcalm.
  destruct (advance_passes S Hsound None 0 0 until w (waiting_quiet 0 0 w Hcalm)
              (early_quiet 0 until)) as [(Hc & _ & _ & Hseen) _]. done.
Qed.


Lemma run_quiet traffic w :
  calm S None w → undisturbed S traffic w →
  calm S None (run traffic w) ∧ seen S (run traffic w) = seen S w.
Proof.
  intros Hcalm Hu.
  destruct (run_passes S Hsound None 0 I 0 traffic w (waiting_quiet 0 0 w Hcalm)
              ltac:(apply Forall_forall; intros; apply early_quiet) Hu)
    as [(Hc & _ & _ & Hseen) _]. done.
Qed.

Context (c : Closure) (deadline fired : Z) (base : list (Z * Event)).
Context (Hguard : guard_other S (Some (UnlinkFree c))).






End Correlations.
Section Scenes.
Import FileRenameHandler.

Ltac scene_cbn :=
  unfold sound, removal_scene, rename_scene, republish_scene, removed, created, renamed;
  cbn [watched disturbs].

Ltac scene_solve :=
  intros; try (match goal with |- _ ∉ _ => intros ? end);
  repeat match goal with
         | H : _ ∈ _ :: _ |- _ => apply elem_of_cons in H as [H|H]
         | H : _ ∈ [] |- _ => by apply elem_of_nil in H
         end;
  try match goal with
      | H : {| ev_type := _ |} = {| ev_type := _ |} |- _ =>
          injection H as Htype; intros; subst
      end;
  repeat match goal with k : InodeType |- _ => destruct k end;
  try done; cbn in *; try discriminate; eauto.



Lemma sound_republish_scene k path : sound (republish_scene k path).
Proof. scene_cbn. split_and!; scene_solve. Qed.

End Scenes.

Section BusyCorrelator.
Import FileRenameHandler.

Context (S : Scene) (Hsound : sound S).

Lemma calm_set_clock ours now w : calm S ours w → calm S ours (set_clock now w).
Proof. intros Hcalm. eapply calm_shrinks; [exact Hcalm|by apply shrinks_holdings]. Qed.

Lemma truthy_Some i : i ≠ 0 → truthy (Some i) = Some i.
Proof. intros Hi. cbn. by rewrite decide_False. Qed.



(** A removal that meets no creation is parked. *)
Lemma removal_parked k i A timeout now w :
  let c := closure_of k i A (nextClosure w) in
  let w1 := at_time now (getLockTargetEvent (le_unlink (lockEvent_of k)) A timeout) w in
  i ≠ 0 → calm S None w → FileSystemLocker.add (locker k w) !! i = None →
  recorded k (le_unlink (lockEvent_of k)) A w = Some i →
  calm S (Some (UnlinkFree c)) w1 ∧
  registered (Some (UnlinkFree c)) (now + default renameTimeout timeout) w1 ∧
  locked (Some (UnlinkFree c)) w1 ∧ emitted w1 = emitted w ∧
  LockResolver.intervalId (lockResolver w1)
  = Some (default (now + LockResolver.interval) (LockResolver.intervalId (lockResolver w))).
Proof.
  intros c w1 Hi Hcalm Hcb Hrec. subst w1. unfold at_time.
  rewrite getLockTargetEvent_unlink.
  change (recorded k (le_unlink (lockEvent_of k)) A (set_clock now w))
    with (recorded k (le_unlink (lockEvent_of k)) A w). rewrite Hrec.
  rewrite (unlinkLock_park _ timeout i) by (by apply truthy_Some). cbv zeta.
  change (closure (lock_config k (Some i) A) i (set_clock now w)) with c.
  change (lc_fileSystemLocker (lock_config k (Some i) A)) with k.
  rewrite add_park.
  change (locker k (set_clock now w)) with (locker k w). rewrite Hcb.
  destruct (park_ours S (UnlinkFree c) (default renameTimeout timeout) (set_clock now w)
              (calm_set_clock _ now w Hcalm) eq_refl eq_refl) as (H1 & H2 & H3 & H4).
  split_and!; [done..|]. exact (intervalId_park _ _ (set_clock now w)).
Qed.


(** A creation meets the removal that is parked for its inode. *)
Lemma creation_meets k i cA B timeout now w :
  let w' := at_time now (getLockTargetEvent (le_add (lockEvent_of k)) B timeout) w in
  i ≠ 0 → calm S (Some (UnlinkFree cA)) w →
  FileSystemLocker.unlink (locker k w) !! i = Some cA →
  recorded k (le_add (lockEvent_of k)) B w = Some i →
  calm S None w' ∧
  emitted w' = emitted w ++ ((λ e, (now, e)) <$> resolution k (c_targetPath cA) B w) ∧
  FileSystemLocker.add (locker k w') !! i = None ∧
  FileSystemLocker.unlink (locker k w') !! i = None ∧
  (∀ e, e ∈ LockResolver.resolvers (lockResolver w') →
        resolver_id (fst e) ≠ c_free cA ∧ resolver_id (fst e) ≠ nextClosure w).
Proof.
  intros w' Hi Hcalm Hlock Hrec. subst w'. unfold at_time.
  rewrite getLockTargetEvent_add.
  change (recorded k (le_add (lockEvent_of k)) B (set_clock now w))
    with (recorded k (le_add (lockEvent_of k)) B w). rewrite Hrec.
  pose proof Hcalm as ([Hkey _] & _).
  destruct (Hkey _ _ _ (or_introl Hlock)) as [Hns Hin].
  destruct (addLock_meets S cA (lock_config k (Some i) B) timeout (set_clock now w))
    as (H1 & H2 & H3 & H4 & H5).
  - by apply calm_set_clock.
  - cbn. by rewrite Hns, Hin.
  - rewrite Hin. by apply truthy_Some.
  - done.
  - done.
  - rewrite Hns, Hin in *. done.
Qed.



End BusyCorrelator.

Section ClaimsOfTheCorrelator.
Import FileRenameHandler.

(** ** Timeout of a removal *)


(** ** Rename correlation *)


(** ** Same-path republish *)

(** C3, amended. A removal of [path] is parked for the non-zero inode [i]
    in namespace [k], and nothing else that the correlator holds is a
    removal or a creation of [path] in that namespace. When a
    creation-class event for the same path, recorded with inode [i],
    arrives, the correlator emits, in the file namespace, [modified] for
    the path if the path is present in the state cache and nothing
    otherwise; in the directory namespace it emits nothing in either case.
    In both namespaces the two locks and the two timers are removed, and
    no [removed] and no [created] for the path follows, whatever traffic
    follows that holds no other removal or creation of the path. (A
    removal that arrives in a calm state is parked in this way:
    [removal_parked].) *)
Theorem same_path_republish k i path timeout now c traffic until w :
  let S := republish_scene k path in
  let w' := at_time now (getLockTargetEvent (le_add (lockEvent_of k)) path timeout) w in
  i ≠ 0 → calm S (Some (UnlinkFree c)) w →
  FileSystemLocker.unlink (locker k w) !! i = Some c → c_targetPath c = path →
  recorded k (le_add (lockEvent_of k)) path w = Some i →
  undisturbed S traffic w' →
  emitted w'
  = emitted w ++
    (if bool_decide (k = FILE ∧
                     is_Some (FileSystemStateManager._stats (fileSystemStateManager w) !! path))
     then [(now, {| ev_type := CHANGE; ev_path := path; ev_next := None |})] else []) ∧
  FileSystemLocker.add (locker k w') !! i = None ∧
  FileSystemLocker.unlink (locker k w') !! i = None ∧
  (∀ e, e ∈ LockResolver.resolvers (lockResolver w') →
        resolver_id (fst e) ≠ c_free c ∧ resolver_id (fst e) ≠ nextClosure w) ∧
  seen S (advance until (run traffic w')) = seen S w.
Proof.
  intros S w' Hi Hcalm Hlock Hpath Hrec Hu.
  pose proof (sound_republish_scene k path) as Hsound. fold S in Hsound.
  destruct (creation_meets S k i c path timeout now w Hi Hcalm Hlock Hrec)
    as (Hc1 & Hem1 & Hadd1 & Hunl1 & Hrs1). fold w' in Hc1, Hem1, Hadd1, Hunl1, Hrs1.
  assert (emitted w'
          = emitted w ++
            (if bool_decide (k = FILE ∧
                  is_Some (FileSystemStateManager._stats (fileSystemStateManager w) !! path))
             then [(now, {| ev_type := CHANGE; ev_path := path; ev_next := None |})]
             else [])) as Hem.
  { rewrite Hem1, Hpath. f_equal. unfold resolution. rewrite decide_True by done.
    destruct k; cbn.
    - rewrite bool_decide_eq_false_2; [done|]. by intros [? _].
    - destruct (FileSystemStateManager._stats (fileSystemStateManager w) !! path) eqn:Hs.
      + rewrite !bool_decide_eq_true_2; [done|by split|done].
      + rewrite !bool_decide_eq_false_2; [done|by intros [_ [? ?]]|by intros [? ?]]. }
  split_and!; [done..|].
  destruct (run_quiet S Hsound traffic w' Hc1 Hu) as [Hc2 Hs2].
  destruct (advance_quiet S Hsound until _ Hc2) as [_ Hs3].
  rewrite Hs3, Hs2. rewrite (seen_emitted S w w' _ Hem). rewrite filter_none; [apply app_nil_r|].
  destruct (bool_decide _); constructor; [|constructor].
  cbn. intros Hin. destruct Hsound as (_ & _ & _ & Hch). by apply (Hch path).
Qed.

End ClaimsOfTheCorrelator.

Section BusyScenarios.
Import FileRenameHandler.

Lemma calm_new S : calm S None new.
Proof.
  assert (∀ ns j c, FileSystemLocker.unlink (locker ns new) !! j ≠ Some c) as Hu
    by (intros [] j c; cbn; by rewrite lookup_empty).
  assert (∀ ns j c, FileSystemLocker.add (locker ns new) !! j ≠ Some c) as Ha
    by (intros [] j c; cbn; by rewrite lookup_empty).
  assert (∀ c, ¬ held_unlink new c) as Hhu.
  { intros c [(ns & j & Hc)|(ts & Hc)]; [by eapply Hu|by apply elem_of_nil in Hc]. }
  assert (∀ c, ¬ held_add new c) as Hha.
  { intros c [(ns & j & Hc)|(ts & Hc)]; [by eapply Ha|by apply elem_of_nil in Hc]. }
  split_and!; [split| | |].
  - intros ns j c [Hc|Hc]; [by destruct (Hu ns j c)|by destruct (Ha ns j c)].
  - intros c [Hc|Hc]; [by destruct (Hhu c)|by destruct (Hha c)].
  - by intros ? [=].
  - intros c Hc. by destruct (Hhu c).
  - intros c Hc. by destruct (Hha c).
Qed.

(** Every state that the handler reaches from its initial state by
    traffic that does not disturb a scene is calm for the scene. *)
Lemma calm_reachable S history :
  sound S → undisturbed S history new → calm S None (run history new).
Proof.
  intros Hsound Hu. by destruct (run_quiet S Hsound history new (calm_new S) Hu).
Qed.

Lemma undisturbed_open_scene traffic : ∀ w, undisturbed open_scene traffic w.
Proof.
  induction traffic as [|[time a] traffic IH]; intros w; [done|].
  split; [|apply IH]. destruct a as [event path timeout|path resolved]; [|done].
  destruct event; cbn; tauto.
Qed.

(** Every state that the handler reaches from its initial state is
    coherent. *)
Lemma coherent_reachable history : coherent (run history new).
Proof.
  assert (sound open_scene) as Hsound.
  { split_and!; cbn; try (by intros; exfalso; eapply elem_of_nil).
    intros path. apply not_elem_of_nil. }
  by destruct (calm_reachable open_scene history Hsound (undisturbed_open_scene history new)).
Qed.

Ltac undisturbed_solve :=
  vm_compute; repeat split;
  let H := fresh in intros H; decompose [and or] H; discriminate.



Lemma same_path_republish_witness :
  let w := at_time 1000 (getLockTargetEvent UNLINK "/a" None) busy_after_republish in
  let w' := at_time 1001 (getLockTargetEvent ADD "/a" None) w in
  let traffic := [(1400, Arrives ADD "/y" None)] in
  emitted w' = [(1001, {| ev_type := CHANGE; ev_path := "/a"; ev_next := None |})] ∧
  seen (republish_scene FILE "/a") (advance 2000 (run traffic w')) = [] ∧
  emitted (advance 2000 (run traffic w'))
  = [(1001, {| ev_type := CHANGE; ev_path := "/a"; ev_next := None |});
     (1240, removed FILE "/x"); (1400, created FILE "/y")].
Proof.
  intros w w' traffic.
  destruct (removal_parked (republish_scene FILE "/a") FILE 7 "/a" None 1000
              busy_after_republish) as (Hcalm & _).
  - lia.
  - apply calm_reachable; [apply sound_republish_scene|]. undisturbed_solve.
  - vm_compute; reflexivity.
  - vm_compute; reflexivity.
  - destruct (same_path_republish FILE 7 "/a" None 1001
                (closure_of FILE 7 "/a" (nextClosure busy_after_republish)) traffic 2000 w)
      as (Hemitted & _ & _ & _ & Hseen).
    + lia.
    + exact Hcalm.
    + vm_compute; reflexivity.
    + reflexivity.
    + vm_compute; reflexivity.
    + undisturbed_solve.
    + split; [|split; [|vm_compute; reflexivity]].
      * refine (eq_trans Hemitted _). vm_compute. reflexivity.
      * refine (eq_trans Hseen _). vm_compute. reflexivity.
Defined.

End BusyScenarios.

(* ===================================================================== *)
(** * Properties of the stat gateway *)
(* ===================================================================== *)

Section StatGatewayProperties.
Import FileSystem.

Lemma retryErrorCodes_classes code :
  code ∈ retryErrorCodes ↔ is_Some (retry_class code).
Proof.
  unfold retryErrorCodes. split.
  - intros Hin. rewrite !elem_of_cons, elem_of_nil in Hin.
    repeat (destruct Hin as [->|Hin]; [by eexists|]). done.
  - intros [class Hclass]. unfold retry_class in Hclass.
    rewrite !elem_of_cons. repeat (case_decide; [tauto|]). done.
Qed.

Lemma toInt32_small z : 0 ≤ z < 2 ^ 31 → toInt32 z = z.
Proof.
  intros Hz. unfold toInt32. rewrite Z.mod_small by lia. by rewrite decide_True by lia.
Qed.

Lemma round_half_even_bounds n d :
  0 < d → n / d ≤ round_half_even n d ≤ n / d + 1.
Proof.
  intros Hd. unfold round_half_even. cbv zeta.
  destruct (decide _); [lia|]. destruct (decide _); [lia|]. destruct (Z.even _); lia.
Qed.

Lemma binade_le (a b : positive) k :
  0 ≤ k → Z.pos a < 2 ^ k * Z.pos b → binade a b ≤ k.
Proof.
  intros Hk Hlt. unfold binade.
  assert (Z.log2 (Z.pos a) ≤ k + Z.log2 (Z.pos b)) as Hlog.
  { rewrite <- Z.log2_mul_pow2 by lia. apply Z.log2_le_mono. lia. }
  case_decide; lia.
Qed.

(** The double nearest to a rational from 0 to 100 is in the same range. *)
Lemma nearest_double_below (a b : positive) :
  Z.pos a < 100 * Z.pos b →
  let x := nearest_double a b in
  0 ≤ Z.quot (Qnum x) (Z.pos (Qden x)) ≤ 100.
Proof.
  intros Hlt. unfold nearest_double.
  assert (binade a b ≤ 7) as Hbinade
    by (apply binade_le; [lia|change (2 ^ 7) with 128; lia]).
  set (e := Z.max (binade a b - 52) (-1074)).
  assert (-1074 ≤ e ≤ -45) as He by (unfold e; lia).
  rewrite decide_False by lia.
  rewrite (Z.max_l 0 e), (Z.max_r 0 (- e)), Z.pow_0_r, Z.mul_1_r by lia.
  assert (0 < 2 ^ (- e)) as Hpow by (apply Z.pow_pos_nonneg; lia).
  pose proof (round_half_even_bounds (Z.pos a * 2 ^ (- e)) (Z.pos b) ltac:(lia)) as Hround.
  set (m := round_half_even _ _) in *. cbn [Qnum Qden].
  rewrite Z2Pos.id by done.
  assert (0 ≤ Z.pos a * 2 ^ (- e) / Z.pos b) as Hq by (apply Z.div_pos; lia).
  assert (Z.pos a * 2 ^ (- e) / Z.pos b < 100 * 2 ^ (- e)) as Hq'.
  { apply Z.div_lt_upper_bound; [lia|]. nia. }
  rewrite Z.quot_div_nonneg by lia. split.
  - apply Z.div_pos; lia.
  - apply Z.div_le_upper_bound; lia.
Qed.

(** The jitter is a whole number of milliseconds from 0 to 100. *)
Lemma jitter_bounds (r : Q) : (0 <= r)%Q → (r < 1)%Q → 0 ≤ jitter r ≤ 100.
Proof.
  destruct r as [a b]. unfold Qle, Qlt, jitter, double_tilde, to_double. cbn [Qnum Qden Qmult].
  intros Ha Hb. cbn in Ha, Hb. rewrite Z.mul_1_r in Ha. rewrite Z.mul_1_r in Hb.
  destruct a as [|a|a]; [done| |lia].
  change (Z.pos a * 100) with (Z.pos (a * 100)).
  pose proof (nearest_double_below (a * 100) (b * 1) ltac:(lia)) as Hbelow. cbv zeta in Hbelow.
  rewrite toInt32_small by lia. exact Hbelow.
Qed.

(** The promise of [getStatsWithTimeout] is never rejected. *)
Lemma getStatsWithTimeout_settles_fulfilled attempts : ∀ now t r,
  settled (getStatsWithTimeout attempts now) = Some (t, r) → ∃ value, r = Fulfilled value.
Proof.
  induction attempts as [|attempt attempts IH]; intros now t r; cbn; [done|].
  destruct (result attempt) as [stats|error]; cbn.
  - intros [= _ <-]. eauto.
  - unfold handleRejection.
    destruct (negb (isNodeError error) || negb (has_retry_code error)); cbn.
    + intros [= _ <-]. eauto.
    + apply IH.
Qed.

Lemma timeout_fulfilled delay method :
  (∀ t r, settled method = Some (t, r) → ∃ value, r = Fulfilled value) →
  ∃ value, timeout delay method = Fulfilled value.
Proof.
  intros Hmethod. unfold timeout. destruct (settled method) as [[t r]|]; [|eauto].
  case_decide; [|eauto]. by apply (Hmethod t).
Qed.

(** What the rounding of the product changes: for the draw
    3017411750338232 / 2^52 the exact product is below 67 and the double
    product is 67; the largest draw gives 99; the double nearest to 1/10
    is the familiar one, and a tie goes to the even neighbour. *)
Example jitter_of_doubles :
  jitter (3017411750338232 # 4503599627370496) = 67 ∧
  Z.quot (3017411750338232 * 100) 4503599627370496 = 66 ∧
  jitter (9007199254740991 # 9007199254740992) = 99 ∧
  jitter (3 # 8) = 37 ∧
  to_double (1 # 10) = (7205759403792794 # 72057594037927936)%Q ∧
  to_double (9007199254740993 # 1) = inject_Z 9007199254740992 ∧
  to_double (9007199254740995 # 1) = inject_Z 9007199254740996.
Proof. vm_compute. done. Qed.

(** C8. [FileSystem.getStats(path)] never throws to its caller, whatever
    [stat] does and whenever the throttle admits the call. When [stat]
    answers within the 250 ms of the decorator, its answer is the result.
    When [stat] fails with an error whose code is in the retryable set
    (not found, too many open files, resource busy, permission denied,
    would block), the slot is released, a jitter of 0 to 100 ms is waited
    for, and [stat] is called again: the result of the call is the result
    of the retry. On any other error the result is [undefined]; and when
    the call gives up - there is no bound on the retries but the 250 ms
    of the decorator, within which the method has not settled - the
    result is [undefined]. *)
Theorem getStats_never_throws_retries_or_returns_undefined :
  (∀ admission attempts, ∃ value, getStats admission attempts = Fulfilled value)
  ∧ (∀ attempt attempts start stats,
       result attempt = Fulfilled stats → start + duration attempt < 250 →
       getStats (Some start) (attempt :: attempts) = Fulfilled (Some stats))
  ∧ (∀ attempt attempts start code,
       result attempt = Rejected (NodeError (Some code)) →
       code ∈ retryErrorCodes →
       let wait := jitter (random attempt) in
       let retried := start + duration attempt + wait in
       is_Some (retry_class code) ∧
       getStatsWithTimeout (attempt :: attempts) start
       = after [CallStat; ClearQueue; Sleep wait] (getStatsWithTimeout attempts retried) ∧
       effects (getStats_method (Some start) (attempt :: attempts))
       = [CallStat; ClearQueue; Sleep wait]
         ++ effects (getStats_method (Some retried) attempts) ∧
       getStats (Some start) (attempt :: attempts) = getStats (Some retried) attempts ∧
       ((0 <= random attempt)%Q → (random attempt < 1)%Q → 0 ≤ wait ≤ 100))
  ∧ (∀ attempt attempts start error,
       result attempt = Rejected error →
       has_retry_code error = false →
       settled (getStatsWithTimeout (attempt :: attempts) start)
       = Some (start + duration attempt, Fulfilled None)
       ∧ getStats (Some start) (attempt :: attempts) = Fulfilled None)
  ∧ (∀ admission attempts,
       match settled (getStats_method admission attempts) with
       | Some (t, _) => 250 ≤ t
       | None => True
       end →
       getStats admission attempts = Fulfilled None).
Proof.
  split; [|split; [|split; [|split]]].
  - intros admission attempts. unfold getStats. apply timeout_fulfilled.
    destruct admission as [start|]; cbn; [|done].
    apply getStatsWithTimeout_settles_fulfilled.
  - intros attempt attempts start stats Hresult Hintime.
    unfold getStats, timeout. cbn. rewrite Hresult. cbn. by rewrite decide_True.
  - intros attempt attempts start code Hresult Hcode wait retried.
    assert (Hstep : getStatsWithTimeout (attempt :: attempts) start
                    = after [CallStat; ClearQueue; Sleep wait]
                        (getStatsWithTimeout attempts retried)).
    { cbn. rewrite Hresult. unfold handleRejection. cbn.
      by rewrite bool_decide_eq_true_2. }
    split_and!.
    + by apply retryErrorCodes_classes.
    + exact Hstep.
    + cbn [getStats_method]. by rewrite Hstep.
    + unfold getStats. cbn [getStats_method]. by rewrite Hstep.
    + apply jitter_bounds.
  - intros attempt attempts start error Hresult Hretry.
    assert (Hsettled : settled (getStatsWithTimeout (attempt :: attempts) start)
                       = Some (start + duration attempt, Fulfilled None)).
    { cbn. rewrite Hresult. unfold handleRejection. rewrite Hretry.
      by rewrite orb_true_r. }
    split; [done|]. unfold getStats, timeout. cbn [getStats_method].
    rewrite Hsettled. by case_decide.
  - intros admission attempts Hlate. unfold getStats, timeout.
    destruct (settled (getStats_method admission attempts)) as [[t r]|]; [|done].
    by rewrite decide_False by lia.
Qed.

End StatGatewayProperties.

(* ===================================================================== *)
(** * Scenarios *)
(* ===================================================================== *)

Section Scenarios.
Import FileRenameHandler.


(** C3, as stated, fails in the directory namespace: the creation of "/d"
    resolves against the parked removal of "/d" (same inode, same path),
    "/d" is present in the state cache, and nothing is emitted. And a
    [removed] does follow when another removal of the path is pending:
    "/a" was removed, came back with another inode and was removed again;
    the creation meets the second removal, and the first one times out. *)
Lemma directory_republish_emits_nothing :
  (let w := at_time 1000 (getLockTargetEvent UNLINK_DIR "/d" None) after_directory_touch in
   FileSystemLocker.unlink (directoryLocks w) !! 9 = Some (closure_of DIR 9 "/d" 0) ∧
   recorded DIR ADD_DIR "/d" w = Some 9 ∧
   is_Some (FileSystemStateManager._stats (fileSystemStateManager w) !! "/d") ∧
   emitted (at_time 1001 (getLockTargetEvent ADD_DIR "/d" None) w) = [])
  ∧
  (let w := run [(100, Observes "/a" (Some (file_stats 8 10)));
                 (200, Observes "/a" None);
                 (900, Arrives UNLINK "/a" None);
                 (950, Observes "/a" (Some (file_stats 7 10)));
                 (960, Observes "/a" None);
                 (1000, Arrives UNLINK "/a" None);
                 (1001, Observes "/a" (Some (file_stats 7 10)))] new in
   FileSystemLocker.unlink (fileLocks w) !! 7 = Some (closure_of FILE 7 "/a" 1) ∧
   recorded FILE ADD "/a" w = Some 7 ∧
   emitted (advance 2000 (at_time 1001 (getLockTargetEvent ADD "/a" None) w))
   = [(1001, {| ev_type := CHANGE; ev_path := "/a"; ev_next := None |});
      (1150, removed FILE "/a")]).
Proof. vm_compute. repeat split; eauto. Qed.


(** What the stale index entry of C5 leads to: the creation of "/c" times
    out, the lookup of [emit] finds "/a" under the inode that "/a" no
    longer has, and a rename of "/a", which still exists, is reported. *)
Example stale_index_entry_reports_rename :
  let w := after_replace_and_reuse in
  is_Some (FileSystemStateManager._stats (fileSystemStateManager w) !! "/a") ∧
  emitted (advance 2000 (at_time 1000 (getLockTargetEvent ADD "/c" None) w))
  = [(1250, {| ev_type := RENAME; ev_path := "/a"; ev_next := Some "/c" |})].
Proof. vm_compute. split; eauto. Qed.

(** C10 at a failing input: "/x" and "/y" are both recorded with inode 0.
    The creation of "/y" has no inode available (0 is falsy) and is emitted
    at once - but as [rename("/x" -> "/y")], not as the plain [add]: the
    lookup [paths.find(inodeNumber ?? -1, ...)] of [emit] is made under
    the key 0 and finds "/x". *)
Theorem creation_with_inode_zero_emits_rename :
  let w := after_two_files_without_inodes in
  recorded FILE ADD "/y" w = Some 0 ∧
  truthy (recorded FILE ADD "/y" w) = None ∧
  emitted (at_time 1000 (getLockTargetEvent ADD "/y" None) w)
  = [(1000, {| ev_type := RENAME; ev_path := "/x"; ev_next := Some "/y" |})] ∧
  LockResolver.resolvers (lockResolver (at_time 1000 (getLockTargetEvent ADD "/y" None) w))
  = [].
Proof. vm_compute. done. Qed.

(** The other cases of an unavailable inode do emit the plain event. *)
Example unavailable_inode_plain_events :
  let w := after_two_files_without_inodes in
  (* no record for the pair *)
  events (getLockTargetEvent ADD "/z" None w)
  = [{| ev_type := ADD; ev_path := "/z"; ev_next := None |}] ∧
  events (getLockTargetEvent UNLINK "/z" None w)
  = [{| ev_type := UNLINK; ev_path := "/z"; ev_next := None |}] ∧
  (* the record has the other inode type *)
  recorded DIR ADD_DIR "/d" (observe "/d" (Some (file_stats 5 1)) new) = None ∧
  (* inode 0, removal *)
  events (getLockTargetEvent UNLINK "/a" None (after_rename 0))
  = [{| ev_type := UNLINK; ev_path := "/a"; ev_next := None |}].
Proof. vm_compute. done. Qed.

Lemma reset_does_not_cancel_pending_removal_witness :
  let w1 := at_time 1000 (getLockTargetEvent UNLINK "/a" None) (after_rename 7) in
  FileSystemStateManager._stats (fileSystemStateManager (reset w1)) = ∅ ∧
  emitted (advance 2000 (reset w1))
  = [(1250, {| ev_type := UNLINK; ev_path := "/a"; ev_next := None |})].
Proof.
  cbn zeta.
  destruct (reset_does_not_cancel_pending_removal FILE 7 "/a" None 1000 2000 (after_rename 7))
    as (_ & Hfsm & Hemitted).
  - lia.
  - repeat split; vm_compute; reflexivity.
  - vm_compute; reflexivity.
  - split.
    + refine (eq_trans (f_equal FileSystemStateManager._stats Hfsm) _). reflexivity.
    + refine (eq_trans Hemitted _). vm_compute. reflexivity.
Defined.

End Scenarios.

Section StatGatewayScenarios.
Import FileSystem.

Lemma getStats_never_throws_retries_or_returns_undefined_witness :
  effects (getStats_method (Some 0) enoent_then_found)
  = [CallStat; ClearQueue; Sleep 67; CallStat; ClearQueue] ∧
  getStats (Some 0) enoent_then_found = Fulfilled (Some (file_stats 7 10)) ∧
  getStats (Some 0) enoent_then_einval = Fulfilled None.
Proof.
  destruct getStats_never_throws_retries_or_returns_undefined
    as (Hnever & Hfound & Hretry & Hother & Hlate).
  destruct (Hretry {| duration := 3; result := Rejected (NodeError (Some "ENOENT"));
                      random := 3017411750338232 # 4503599627370496 |}
              [ {| duration := 2; result := Fulfilled (file_stats 7 10); random := 0 |} ]
              0 "ENOENT") as (_ & _ & Heffects & Hresult & _).
  - reflexivity.
  - vm_compute. apply list_elem_of_here.
  - split; [|split].
    + unfold enoent_then_found. rewrite Heffects. vm_compute. reflexivity.
    + unfold enoent_then_found. rewrite Hresult. apply Hfound; [reflexivity|].
      vm_compute. reflexivity.
    + destruct (Hnever (Some 0) enoent_then_einval) as [value Hvalue].
      vm_compute. reflexivity.
Defined.

End StatGatewayScenarios.

(* ===================================================================== *)
(** * The retries of the stat gateway *)
(* ===================================================================== *)

Section StatGatewayRetries.
Import FileSystem.

Lemma slot_held_getStatsWithTimeout attempts : ∀ now held,
  slot_held held (effects (getStatsWithTimeout attempts now))
  = held :: replicate (retried attempts) false.
Proof.
  induction attempts as [|attempt attempts IH]; intros now held; [done|].
  cbn [getStatsWithTimeout retried]. destruct (result attempt) as [stats|error]; [done|].
  unfold handleRejection.
  destruct (negb (isNodeError error) || negb (has_retry_code error)); [done|].
  cbn [after effects app slot_held]. by rewrite IH.
Qed.

(** X10. A call of [getStats] that the throttle has admitted holds its
    slot of the retry queue during the first call of [stat] only: the
    first failure gives the slot back, and every retry calls [stat]
    without a slot, whatever the number of retries. *)
Theorem stat_retries_run_without_a_slot admission attempts :
  slot_held true (effects (getStats_method (Some admission) attempts))
  = true :: replicate (retried attempts) false.
Proof. apply slot_held_getStatsWithTimeout. Qed.

Lemma transient_retried attempt :
  transient attempt →
  ∃ error, result attempt = Rejected error ∧
           negb (isNodeError error) || negb (has_retry_code error) = false.
Proof.
  intros (code & Hresult & Hcode). eexists. split; [done|].
  cbn. by rewrite bool_decide_eq_true_2.
Qed.

(** X11. The retry has no bound. While every answer of [stat] is a
    failure with a code of the retryable set, the method does not settle
    and calls [stat] once more after each failure: after [n] such answers
    it has made [n + 1] calls, [n] of them retries. (Its caller gets
    [undefined] from the timeout decorator; the retries go on.) *)
Theorem persistent_failure_is_retried_without_bound admission attempts :
  Forall transient attempts →
  let method := getStats_method (Some admission) attempts in
  settled method = None ∧
  retried attempts = length attempts ∧
  length (slot_held true (effects method)) = S (length attempts).
Proof.
  intros Hall method.
  assert (Hretried : retried attempts = length attempts).
  { induction Hall as [|attempt attempts Ha _ IH]; [done|].
    destruct (transient_retried attempt Ha) as (error & Hresult & Hretry).
    cbn [retried length]. by rewrite Hresult, Hretry, IH. }
  split; [|split; [done|]].
  - unfold method. cbn [getStats_method]. generalize admission. clear Hretried method.
    induction Hall as [|attempt attempts Ha _ IH]; intros now; [done|].
    destruct (transient_retried attempt Ha) as (error & Hresult & Hretry).
    cbn [getStatsWithTimeout]. rewrite Hresult. unfold handleRejection. rewrite Hretry.
    cbn [after settled]. apply IH.
  - unfold method. cbn [getStats_method].
    rewrite slot_held_getStatsWithTimeout. cbn [length].
    by rewrite length_replicate, Hretried.
Qed.

End StatGatewayRetries.

Lemma persistent_failure_is_retried_without_bound_witness :
  let attempts :=
    replicate 3 {| FileSystem.duration := 1;
                   FileSystem.result := FileSystem.Rejected (FileSystem.NodeError (Some "ENOENT"));
                   FileSystem.random := 1 # 2 |} in
  FileSystem.settled (FileSystem.getStats_method (Some 0) attempts) = None ∧
  FileSystem.slot_held true (FileSystem.effects (FileSystem.getStats_method (Some 0) attempts))
  = [true; false; false; false].
Proof.
  cbn zeta.
  destruct (persistent_failure_is_retried_without_bound 0
              (replicate 3 {| FileSystem.duration := 1;
                              FileSystem.result :=
                                FileSystem.Rejected (FileSystem.NodeError (Some "ENOENT"));
                              FileSystem.random := 1 # 2 |}))
    as (Hsettled & _ & _).
  - repeat constructor; exists "ENOENT"; (split; [reflexivity|apply list_elem_of_here]).
  - split; [exact Hsettled|]. vm_compute. reflexivity.
Defined.

(* ===================================================================== *)
(** * Properties of [isSubPath], of [uniqueSortedArray] and of the scan
      for nested paths *)
(* ===================================================================== *)

Section StringLemmas.

Lemma string_app_cons a s t : String a s +:+ t = String a (s +:+ t).
Proof. reflexivity. Qed.

Lemma string_app_nil_l s : "" +:+ s = s.
Proof. reflexivity. Qed.

Lemma string_length_app s1 s2 :
  String.length (s1 +:+ s2) = (String.length s1 + String.length s2)%nat.
Proof. induction s1; [done|]. rewrite string_app_cons. cbn. by f_equal. Qed.

Lemma string_app_assoc s1 s2 s3 : (s1 +:+ s2) +:+ s3 = s1 +:+ (s2 +:+ s3).
Proof. induction s1; [done|]. rewrite !string_app_cons. by f_equal. Qed.

Lemma string_app_nil_r s : s +:+ "" = s.
Proof. induction s; [done|]. rewrite string_app_cons. by f_equal. Qed.

Lemma string_le_app s rest : String.le s (s +:+ rest).
Proof.
  unfold String.le, String.leb. induction s as [|a s IH].
  - rewrite string_app_nil_l. by destruct rest.
  - rewrite string_app_cons. cbn. unfold Ascii.compare. by rewrite N.compare_refl.
Qed.

Lemma startsWith_spec s p : FileSystem.startsWith s p = true ↔ ∃ rest, s = p +:+ rest.
Proof.
  unfold FileSystem.startsWith. revert s. induction p as [|a p IH]; intros s; cbn.
  - split; [by exists s|by destruct s].
  - destruct s as [|b s]; cbn.
    + split; [done|]. intros [rest Hrest]. by rewrite string_app_cons in Hrest.
    + destruct (Ascii.ascii_dec a b) as [->|Hne].
      * rewrite IH. split; intros [rest Hrest]; exists rest.
        -- by rewrite string_app_cons, Hrest.
        -- rewrite string_app_cons in Hrest. by injection Hrest.
      * split; [done|]. intros [rest Hrest].
        rewrite string_app_cons in Hrest. by injection Hrest as -> _.
Qed.

End StringLemmas.

Section IsSubPathProperties.
Variable normalize : string → string.
Import FileSystem.

(** [isSubPath] holds when the normalized sub path is the normalized
    target path, a separator unless the target path ends with one, and a
    non-empty rest. *)
Lemma isSubPath_spec targetPath subPath :
  isSubPath normalize targetPath subPath = true ↔
  ∃ tail rest,
    normalize subPath = (normalize targetPath +:+ tail) +:+ rest ∧ rest ≠ "" ∧
    tail = (if endsWith (normalize targetPath) sep then "" else sep).
Proof.
  unfold isSubPath. cbn zeta.
  rewrite andb_true_iff, bool_decide_eq_true, startsWith_spec. split.
  - intros [[rest Hrest] Hlen].
    exists (if endsWith (normalize targetPath) sep then "" else sep), rest.
    split; [|split; [|done]].
    + rewrite Hrest. by destruct (endsWith _ _); rewrite ?string_app_nil_r.
    + intros ->. rewrite Hrest, string_app_nil_r in Hlen. lia.
  - intros (tail & rest & Hsub & Hrest & ->).
    assert ((if endsWith (normalize targetPath) sep
             then normalize targetPath else normalize targetPath +:+ sep)
            = normalize targetPath +:+
              (if endsWith (normalize targetPath) sep then "" else sep)) as ->
      by (by destruct (endsWith _ _); rewrite ?string_app_nil_r).
    split; [eauto|]. rewrite Hsub, !string_length_app.
    destruct rest as [|c rest]; [done|].
    change (String.length (String c rest)) with (S (String.length rest)). lia.
Qed.

Lemma isSubPath_longer a b :
  isSubPath normalize a b = true →
  (String.length (normalize a) < String.length (normalize b))%nat.
Proof.
  intros (tail & rest & Hsub & Hrest & _)%isSubPath_spec.
  rewrite Hsub, !string_length_app. destruct rest as [|c rest]; [done|].
  change (String.length (String c rest)) with (S (String.length rest)). lia.
Qed.

(** X12. Whatever [normalize] computes, [isSubPath] is a strict order on
    paths: no path is a sub path of itself, two paths are never sub paths
    of each other, and a sub path of a sub path is a sub path. *)
Theorem isSubPath_strict_order :
  (∀ targetPath, isSubPath normalize targetPath targetPath = false) ∧
  (∀ a b, isSubPath normalize a b = true → isSubPath normalize b a = false) ∧
  (∀ a b c, isSubPath normalize a b = true → isSubPath normalize b c = true →
            isSubPath normalize a c = true).
Proof.
  split; [|split].
  - intros p. apply not_true_is_false. intros Hp%isSubPath_longer. lia.
  - intros a b Hab%isSubPath_longer. apply not_true_is_false.
    intros Hba%isSubPath_longer. lia.
  - intros a b c (tail & rest & Hsub & Hrest & Htail)%isSubPath_spec
                 (tail' & rest' & Hsub' & Hrest' & _)%isSubPath_spec.
    apply isSubPath_spec. exists tail, (rest +:+ tail' +:+ rest'). split; [|split; [|done]].
    + rewrite Hsub', Hsub. by rewrite !string_app_assoc.
    + destruct rest; done.
Qed.

(** X13. [isSubPath] matches whole path segments only: when it holds, the
    normalized sub path is the normalized target path followed by a
    non-empty rest, and either the target path ends with the separator or
    the rest starts with the separator and goes on after it. *)
Theorem isSubPath_whole_segments targetPath subPath :
  isSubPath normalize targetPath subPath = true →
  ∃ rest, normalize subPath = normalize targetPath +:+ rest ∧ rest ≠ "" ∧
          (endsWith (normalize targetPath) sep = true
           ∨ ∃ below, rest = sep +:+ below ∧ below ≠ "").
Proof.
  intros (tail & rest & Hsub & Hrest & Htail)%isSubPath_spec.
  exists (tail +:+ rest). split; [by rewrite <- string_app_assoc|].
  destruct (endsWith (normalize targetPath) sep); subst tail.
  - split; [done|by left].
  - split; [done|]. right. by exists rest.
Qed.

End IsSubPathProperties.

Lemma isSubPath_strict_order_witness :
  FileSystem.isSubPath id "/a" "/a/b/c" = true ∧ FileSystem.isSubPath id "/a/b" "/a" = false.
Proof.
  destruct (isSubPath_strict_order id) as (_ & Hasym & Htrans). split.
  - apply (Htrans "/a" "/a/b" "/a/b/c"); vm_compute; reflexivity.
  - apply Hasym. vm_compute. reflexivity.
Defined.

Lemma isSubPath_whole_segments_witness :
  ∃ rest, "/foo/bar" = "/foo" +:+ rest ∧ rest ≠ "" ∧
          (FileSystem.endsWith "/foo" FileSystem.sep = true
           ∨ ∃ below, rest = FileSystem.sep +:+ below ∧ below ≠ "").
Proof.
  apply (isSubPath_whole_segments id "/foo" "/foo/bar"). vm_compute. reflexivity.
Defined.

Section UniqueSortedArrayProperties.
Import Utils.

Lemma set_from_elem (vs acc : list string) x :
  x ∈ foldl (λ s v, set_add v s) acc vs ↔ x ∈ acc ∨ x ∈ vs.
Proof.
  revert acc. induction vs as [|v vs IH]; intros acc; cbn [foldl].
  - rewrite elem_of_nil. tauto.
  - rewrite IH, set_add_elem, elem_of_cons. tauto.
Qed.

Lemma set_from_sorted (R : relation string) (vs : list string) : ∀ acc,
  StronglySorted R (acc ++ vs) → StronglySorted R (foldl (λ s v, set_add v s) acc vs).
Proof.
  induction vs as [|v vs IH]; intros acc Hsorted; cbn [foldl].
  - by rewrite app_nil_r in Hsorted.
  - apply IH. unfold set_add. case_decide.
    + apply StronglySorted_app in Hsorted as (Hcross & Hacc & Hvs).
      apply StronglySorted_app. split; [|split; [done|by inversion Hvs]].
      intros x1 x2 H1 H2. apply Hcross; [done|by right].
    + by rewrite <- app_assoc.
Qed.

Lemma set_from_NoDup (vs : list string) : ∀ acc,
  NoDup acc → NoDup (foldl (λ s v, set_add v s) acc vs).
Proof.
  induction vs as [|v vs IH]; intros acc Hacc; cbn [foldl]; [done|].
  apply IH. unfold set_add. case_decide; [done|].
  apply NoDup_app. split; [done|]. split; [|apply NoDup_singleton].
  intros x Hx ->%list_elem_of_singleton. done.
Qed.

Lemma sorted_NoDup_strict (l : list string) :
  StronglySorted String.le l → NoDup l → StronglySorted string_lt l.
Proof.
  induction 1 as [|x l Hl IH Hx]; intros Hnd; [constructor|].
  apply NoDup_cons in Hnd as [Hnotin Hnd]. constructor; [by apply IH|].
  apply Forall_forall. intros y Hy. split.
  - by apply (proj1 (Forall_forall _ _) Hx).
  - by intros ->.
Qed.

Lemma uniqueSortedArray_spec array :
  fst (uniqueSortedArray array) ≡ₚ array ∧
  StronglySorted String.le (fst (uniqueSortedArray array)) ∧
  StronglySorted string_lt (snd (uniqueSortedArray array)) ∧
  ∀ x, x ∈ snd (uniqueSortedArray array) ↔ x ∈ array.
Proof.
  unfold uniqueSortedArray. cbn [fst snd].
  pose proof (StronglySorted_merge_sort String.le array) as Hsorted.
  split; [apply merge_sort_Permutation|]. split; [apply Hsorted; apply _|].
  split.
  - apply sorted_NoDup_strict.
    + apply set_from_sorted. cbn. apply Hsorted; apply _.
    + apply set_from_NoDup. constructor.
  - intros x. rewrite set_from_elem, elem_of_nil, merge_sort_Permutation. tauto.
Qed.

(** X14. [uniqueSortedArray(array)] returns the strings of the array in
    strictly ascending order, each once, and no other string; and it
    leaves its argument sorted: [array.sort()] reorders the caller's array
    in place. *)
Theorem uniqueSortedArray_sorts_and_deduplicates array :
  let sorted := fst (uniqueSortedArray array) in
  let result := snd (uniqueSortedArray array) in
  sorted ≡ₚ array ∧ StronglySorted String.le sorted ∧
  StronglySorted string_lt result ∧ ∀ x, x ∈ result ↔ x ∈ array.
Proof. apply uniqueSortedArray_spec. Qed.

End UniqueSortedArrayProperties.

Section HasSubPathsProperties.
Variable normalize : string → string.
Import Utils FileSystem Watchr.

Lemma hasSubPaths_spec targetPaths :
  hasSubPaths normalize targetPaths = true ↔
  ∃ l1 a l2 b l3, targetPaths = l1 ++ a :: l2 ++ b :: l3 ∧ isSubPath normalize a b = true.
Proof.
  induction targetPaths as [|p rest IH]; cbn.
  - split; [done|]. intros (l1 & a & l2 & b & l3 & Hl & _). by destruct l1.
  - rewrite orb_true_iff, existsb_exists, IH. split.
    + intros [(b & Hb & Hsub)|(l1 & a & l2 & b & l3 & -> & Hsub)].
      * apply list_elem_of_In, list_elem_of_split in Hb as (l2 & l3 & ->).
        by exists [], p, l2, b, l3.
      * by exists (p :: l1), a, l2, b, l3.
    + intros (l1 & a & l2 & b & l3 & Hl & Hsub). destruct l1 as [|x l1].
      * injection Hl as -> ->. left. exists b. split; [|done].
        apply list_elem_of_In, elem_of_app. right. apply list_elem_of_here.
      * injection Hl as -> ->. right. by exists l1, a, l2, b, l3.
Qed.

(** X15. On paths that [normalize] leaves as they are, the scan of
    [watchPaths] over the sorted, deduplicated array finds a nested pair
    exactly when one of the given paths is a sub path of another: looking
    only at the pairs in sorted order misses none, because a path sorts
    before its sub paths. *)
Theorem watchPaths_detects_nested_paths targetPaths :
  (∀ p, p ∈ targetPaths → normalize p = p) →
  hasSubPaths normalize (snd (uniqueSortedArray targetPaths)) = true
  ↔ ∃ a b, a ∈ targetPaths ∧ b ∈ targetPaths ∧ isSubPath normalize a b = true.
Proof.
  intros Hnormal.
  destruct (uniqueSortedArray_spec targetPaths) as (_ & _ & Hsorted & Helem).
  rewrite hasSubPaths_spec. split.
  - intros (l1 & a & l2 & b & l3 & Hl & Hsub). exists a, b.
    split; [|split; [|done]]; apply Helem; rewrite Hl.
    + apply elem_of_app. right. apply list_elem_of_here.
    + apply elem_of_app. right. apply elem_of_cons. right.
      apply elem_of_app. right. apply list_elem_of_here.
  - intros (a & b & Ha & Hb & Hsub).
    assert (Hle : String.le a b).
    { apply isSubPath_spec in Hsub as (tail & rest & Hrest & _).
      rewrite (Hnormal a Ha), (Hnormal b Hb), string_app_assoc in Hrest.
      rewrite Hrest. apply string_le_app. }
    assert (Hne : a ≠ b).
    { intros ->. apply isSubPath_longer in Hsub. lia. }
    apply Helem in Ha, Hb.
    apply list_elem_of_split in Ha as (l1 & l2 & Hl). rewrite Hl in Hb, Hsorted.
    apply elem_of_app in Hb as [Hb|Hb].
    + exfalso. apply Hne.
      destruct (StronglySorted_app_1_elem_of _ _ _ b a Hsorted Hb) as [Hba _];
        [apply list_elem_of_here|].
      by apply (anti_symm String.le).
    + apply elem_of_cons in Hb as [->|Hb]; [done|].
      apply list_elem_of_split in Hb as (l2' & l3 & ->).
      rewrite Hl. by exists l1, a, l2', b, l3.
Qed.

End HasSubPathsProperties.

Lemma watchPaths_detects_nested_paths_witness :
  Watchr.hasSubPaths id (snd (Utils.uniqueSortedArray ["/b/c"; "/a"; "/b"])) = true.
Proof.
  apply (watchPaths_detects_nested_paths id ["/b/c"; "/a"; "/b"]).
  - intros p _. reflexivity.
  - exists "/b", "/b/c". split; [|split].
    + apply elem_of_cons. right. apply elem_of_cons. right. apply list_elem_of_here.
    + apply list_elem_of_here.
    + vm_compute. reflexivity.
Defined.

(* ===================================================================== *)
(** * Properties of [debounce] *)
(* ===================================================================== *)

Section DebounceProperties.
Import Utils.
Context {A R : Type}.
Variable func : A → R + Exception.
Variable wait : Z.

#[local] Abbreviation call := (@Utils.call A R wait).
#[local] Abbreviation advance := (@Utils.advance A R func).
#[local] Abbreviation run_from := (@Utils.run_from A R func wait).
#[local] Abbreviation run := (@Utils.run A R func wait).
#[local] Abbreviation outcome := (@Utils.outcome A R func).
#[local] Abbreviation armed := (@Utils.armed A R wait).

(** During a burst no timer fires: each call resolves the promise of the
    call before it with [undefined] and sets the timer again. *)
Lemma run_from_rapid calls : ∀ now a p (d : t A R),
  armed now a p d → rapid wait now calls →
  let d' := run_from d calls in
  ∃ now' a', last ((now, a) :: calls) = Some (now', a') ∧
    armed now' a' (p + length calls) d' ∧
    invocations d' = invocations d ∧
    settlements d'
    = settlements d ++ imap (λ i c, (fst c, (p + i)%nat, Resolved None)) calls.
Proof.
  induction calls as [|[now1 a1] calls IH]; intros now a p d Harmed Hrapid.
  - exists now, a. cbn. rewrite Nat.add_0_r, app_nil_r. done.
  - destruct Hrapid as [Hnow Hrapid]. destruct Harmed as (Htimer & Hpending & Hnext).
    cbn [Utils.run_from foldl fst snd].
    assert (Hadv : advance (now1 - 1) d = d).
    { unfold Utils.advance. rewrite Htimer. cbn. by rewrite decide_False by lia. }
    rewrite Hadv.
    set (d1 := snd (call now1 a1 d)).
    destruct (IH now1 a1 (S p) d1) as (now' & a' & Hlast & Harmed' & Hinv & Hset);
      [by unfold d1, Utils.call, Utils.armed; cbn; rewrite Hnext|done|].
    exists now', a'. split; [done|].
    replace (p + length ((now1, a1) :: calls))%nat with (S p + length calls)%nat
      by (cbn; lia).
    split; [done|]. split; [done|].
    fold (Utils.run_from func wait d1 calls). rewrite Hset.
    unfold d1, Utils.call. cbn [snd settlements]. rewrite Hpending.
    rewrite <- app_assoc. f_equal. cbn. rewrite Nat.add_0_r. f_equal.
    apply imap_ext. intros i c _. cbn. by rewrite Nat.add_succ_r.
Qed.

(** X16. A burst of calls of a debounced function, each made before the
    timer of the call before it is due, runs the function once: [wait]
    milliseconds after the last call, with the arguments of the last call.
    The promise of every earlier call is resolved with [undefined] at the
    time of the call that follows it, and the promise of the last call is
    settled with what the function returns or throws. Until then the
    function has not run. *)
Theorem debounce_burst_runs_last_call_once now a calls until :
  rapid wait now calls →
  let final := default (now, a) (last calls) in
  let cancelled := imap (λ i c, (fst c, i, Resolved None)) calls in
  let d := advance until (run ((now, a) :: calls)) in
  (fst final + wait ≤ until →
   invocations d = [(fst final + wait, snd final)] ∧
   settlements d = cancelled ++ [(fst final + wait, length calls, outcome (snd final))]) ∧
  (until < fst final + wait → invocations d = [] ∧ settlements d = cancelled).
Proof.
  intros Hrapid final cancelled d.
  set (d1 := snd (call now a (new : t A R))).
  assert (Harmed : armed now a 0 d1) by done.
  destruct (run_from_rapid calls now a 0%nat d1 Harmed Hrapid)
    as (now' & a' & Hlast & (Htimer & Hpending & Hnext) & Hinv & Hset).
  assert (Hfinal : final = (now', a')).
  { unfold final. rewrite last_cons in Hlast. destruct (last calls); by simplify_eq/=. }
  rewrite Hfinal. cbn [fst snd].
  change (run ((now, a) :: calls)) with (run_from d1 calls) in d.
  unfold d, Utils.advance. rewrite Htimer. cbn [deadline]. split; intros Huntil.
  - rewrite decide_True by done. unfold fire. cbn [invocations settlements args promise].
    rewrite Hinv, Hset. done.
  - rewrite decide_False by lia. by rewrite Hinv, Hset.
Qed.

Lemma settled_in_order_advance until (d : t A R) :
  settled_in_order d →
  timeoutId (advance until d) = None ∧ settled_in_order (advance until d)
  ∨ advance until d = d.
Proof.
  unfold settled_in_order, Utils.advance.
  destruct (timeoutId d) as [timer|] eqn:Htimer; [|by right].
  case_decide; [|by right]. intros (Hpending & Hnext & Hsettled). left.
  cbn. split; [done|]. split; [done|].
  rewrite fmap_app, Hsettled, Hnext. by rewrite seq_S.
Qed.

Lemma settled_in_order_call now a (d : t A R) :
  settled_in_order d →
  settled_in_order (snd (call now a d)) ∧
  nextPromise (snd (call now a d)) = S (nextPromise d).
Proof.
  unfold settled_in_order, Utils.call. cbn.
  destruct (timeoutId d) as [timer|].
  - intros (-> & -> & Hsettled). rewrite fmap_app, Hsettled. by rewrite seq_S.
  - by intros (-> & ->).
Qed.

Lemma settled_in_order_run calls : ∀ d : t A R,
  settled_in_order d →
  settled_in_order (run_from d calls) ∧
  nextPromise (run_from d calls) = (nextPromise d + length calls)%nat.
Proof.
  induction calls as [|[now a] calls IH]; intros d Hd; cbn [Utils.run_from foldl].
  - by rewrite Nat.add_0_r.
  - cbn [fst snd].
    assert (Hadv : settled_in_order (advance (now - 1) d) ∧
                   nextPromise (advance (now - 1) d) = nextPromise d).
    { destruct (settled_in_order_advance (now - 1) d Hd) as [[_ Hfired]| ->]; [|done].
      split; [done|]. unfold Utils.advance. destruct (timeoutId d); [|done].
      by case_decide. }
    destruct Hadv as [Hadv Hnext].
    destruct (settled_in_order_call now a _ Hadv) as [Hcall Hnext'].
    destruct (IH _ Hcall) as [Hrun Hlen]. split; [done|].
    fold (Utils.run_from func wait (snd (call now a (advance (now - 1) d))) calls).
    rewrite Hlen, Hnext', Hnext. cbn. lia.
Qed.

Lemma run_from_timer calls : ∀ (d : t A R) timer,
  timeoutId (run_from d calls) = Some timer →
  match last calls with
  | Some c => deadline timer = fst c + wait
  | None => timeoutId d = Some timer
  end.
Proof.
  induction calls as [|[now a] calls IH] using rev_ind; intros d timer; [done|].
  unfold Utils.run_from. rewrite foldl_app, last_snoc. cbn.
  by intros [= <-].
Qed.

(** X17. Every promise that a debounced function returns is settled, once,
    and in the order of the calls: for every sequence of calls, once
    [wait] milliseconds have passed since the last call, the promises
    settled are the promises of all the calls, in the order of the calls,
    no timer is set and no promise is pending. *)
Theorem debounce_settles_every_promise_once calls until :
  (∀ c, last calls = Some c → fst c + wait ≤ until) →
  let d := advance until (run calls) in
  (λ s, snd (fst s)) <$> settlements d = seq 0 (length calls) ∧
  timeoutId d = None ∧ pendingResolve d = None.
Proof.
  intros Hlast d.
  destruct (settled_in_order_run calls new) as [Hrun Hnext]; [done|].
  cbn [nextPromise new Nat.add] in Hnext. fold (run calls) in Hrun, Hnext.
  assert (Hidle : timeoutId d = None ∧ settled_in_order d ∧ nextPromise d = length calls).
  { unfold d, Utils.advance.
    destruct (timeoutId (run calls)) as [timer|] eqn:Htimer.
    - pose proof (run_from_timer calls new timer Htimer) as Hdeadline.
      destruct (last calls) as [c|]; [|done].
      rewrite decide_True by (rewrite Hdeadline; by apply Hlast).
      unfold settled_in_order in Hrun. rewrite Htimer in Hrun.
      destruct Hrun as (Hp & Hn & Hs). unfold settled_in_order, fire. cbn.
      split; [done|]. rewrite fmap_app, Hs, Hn. rewrite seq_S.
      split; [done|]. by rewrite <- Hnext, Hn.
    - done. }
  destruct Hidle as (Hnone & Hsettled & Hnext').
  unfold settled_in_order in Hsettled. rewrite Hnone in Hsettled.
  destruct Hsettled as [Hp Hs]. by rewrite Hs, Hnext'.
Qed.

End DebounceProperties.

Lemma debounce_burst_runs_last_call_once_witness :
  let func (a : string) : Z + Utils.Exception := inl 1 in
  let d := Utils.advance func 1000 (Utils.run func 100 [(0, "a"); (50, "b"); (120, "c")]) in
  Utils.invocations d = [(220, "c")] ∧
  Utils.settlements d
  = [(50, 0%nat, Utils.Resolved None); (120, 1%nat, Utils.Resolved None);
     (220, 2%nat, Utils.Resolved (Some 1))].
Proof.
  cbn zeta.
  destruct (debounce_burst_runs_last_call_once (λ _ : string, inl 1 : Z + Utils.Exception)
              100 0 "a" [(50, "b"); (120, "c")] 1000) as [Hdue _].
  - cbn. lia.
  - apply Hdue. cbn. lia.
Defined.

Lemma debounce_settles_every_promise_once_witness :
  let func (a : string) : Z + Utils.Exception := inr (Utils.StringValue "failed") in
  let d := Utils.advance func 1000 (Utils.run func 100 [(0, "a"); (50, "b"); (500, "c")]) in
  (λ s, snd (fst s)) <$> Utils.settlements d = [0; 1; 2]%nat ∧
  Utils.timeoutId d = None ∧ Utils.pendingResolve d = None.
Proof.
  cbn zeta.
  apply (debounce_settles_every_promise_once
           (λ _ : string, inr (Utils.StringValue "failed") : Z + Utils.Exception)
           100 [(0, "a"); (50, "b"); (500, "c")] 1000).
  intros c [= <-]. cbn. lia.
Defined.

(** [debounce(func, 0)] called twice in the same millisecond runs [func]
    once, with the arguments of the second call; called in two
    milliseconds it runs [func] twice. *)
Example debounce_without_wait :
  let func (a : string) : Z + Utils.Exception := inl 1 in
  Utils.invocations (Utils.advance func 10 (Utils.run func 0 [(5, "a"); (5, "b")]))
  = [(5, "b")] ∧
  Utils.invocations (Utils.advance func 10 (Utils.run func 0 [(5, "a"); (6, "b")]))
  = [(5, "a"); (6, "b")].
Proof. vm_compute. done. Qed.

(* ===================================================================== *)
(** * Properties of [deduplicateEvents] *)
(* ===================================================================== *)

Section DeduplicateEventsProperties.
Import FileSystemEventManager.

Lemma on_path_snoc p events event :
  on_path p (events ++ [event])
  = on_path p events ++ (if decide (ev_path event = p) then [event] else []).
Proof. unfold on_path. by rewrite filter_app. Qed.

(** The two ways of a reduce step: the event is dropped, being redundant
    after the event kept last for its path, or it is kept. *)
Lemma deduplicate_cases acc event :
  (deduplicate acc event = acc ∧
   ∃ previous, fst acc !! ev_path event = Some previous ∧ redundant previous (ev_type event))
  ∨ (deduplicate acc event
       = (<[ev_path event := ev_type event]> (fst acc), snd acc ++ [event]) ∧
     ∀ previous, fst acc !! ev_path event = Some previous →
                 ¬ redundant previous (ev_type event)).
Proof.
  destruct acc as [m u]. unfold deduplicate. cbn [fst snd].
  destruct (decide (Some (ev_type event) = m !! ev_path event)) as [Heq|Hne].
  { left. split; [done|]. exists (ev_type event). split; [done|by left]. }
  destruct (decide (ev_type event = CHANGE ∧ m !! ev_path event = Some ADD)) as [[Hc Ha]|Hn].
  { left. split; [done|]. exists ADD. split; [done|by right]. }
  right. split; [done|]. intros previous Hprev [Heq|[Hc Ha]].
  - apply Hne. by rewrite Hprev, Heq.
  - apply Hn. by rewrite Hprev, Ha.
Qed.

Lemma last_kept_step acc event : last_kept acc → last_kept (deduplicate acc event).
Proof.
  intros Hinv. destruct (deduplicate_cases acc event) as [[-> _]|[-> _]]; [done|].
  intros p. cbn [fst snd]. rewrite on_path_snoc.
  destruct (decide (ev_path event = p)) as [<-|Hp].
  - rewrite lookup_insert_eq, last_snoc. done.
  - rewrite lookup_insert_ne, app_nil_r by done. apply Hinv.
Qed.

Lemma last_kept_empty : last_kept (∅, []).
Proof. intros p. cbn. by rewrite lookup_empty. Qed.

Lemma deduplicate_order acc event pre :
  last_kept acc →
  sublist (snd acc) pre ∧ (∀ p, head (on_path p (snd acc)) = head (on_path p pre)) →
  sublist (snd (deduplicate acc event)) (pre ++ [event]) ∧
  (∀ p, head (on_path p (snd (deduplicate acc event))) = head (on_path p (pre ++ [event]))).
Proof.
  intros Hinv [Hsub Hhead].
  destruct (deduplicate_cases acc event) as [[-> (previous & Hprev & _)]|[-> _]].
  - split; [by apply sublist_inserts_r|].
    intros p. rewrite on_path_snoc. case_decide as Hp; [|by rewrite app_nil_r].
    subst p. rewrite Hinv in Hprev. specialize (Hhead (ev_path event)).
    destruct (on_path (ev_path event) (snd acc)) as [|e0 l0]; [done|].
    destruct (on_path (ev_path event) pre); [done|]. done.
  - cbn [snd]. split; [by apply sublist_app|].
    intros p. rewrite !on_path_snoc. specialize (Hhead p).
    destruct (on_path p (snd acc)), (on_path p pre); done.
Qed.

Lemma deduplicate_order_foldl events : ∀ acc pre,
  last_kept acc →
  sublist (snd acc) pre ∧ (∀ p, head (on_path p (snd acc)) = head (on_path p pre)) →
  let acc' := foldl deduplicate acc events in
  sublist (snd acc') (pre ++ events) ∧
  (∀ p, head (on_path p (snd acc')) = head (on_path p (pre ++ events))).
Proof.
  induction events as [|event events IH]; intros acc pre Hinv Hacc; cbn [foldl].
  - by rewrite app_nil_r.
  - replace (pre ++ event :: events) with ((pre ++ [event]) ++ events)
      by (by rewrite <- app_assoc).
    apply IH; [by apply last_kept_step|by apply deduplicate_order].
Qed.

(** X18. [deduplicateEvents] only drops events: what it returns is the
    batch with some events left out, in the order of the batch; and for
    every path, the first event of the batch about that path is kept. *)
Theorem deduplicateEvents_keeps_order_and_first_event events :
  sublist (deduplicateEvents events) events ∧
  ∀ targetPath,
    head (on_path targetPath (deduplicateEvents events)) = head (on_path targetPath events).
Proof.
  unfold deduplicateEvents. case_decide; [done|].
  apply (deduplicate_order_foldl events (∅, []) []); [apply last_kept_empty|done].
Qed.

Lemma deduplicate_neighbours acc event :
  last_kept acc → no_redundant_neighbours (snd acc) →
  no_redundant_neighbours (snd (deduplicate acc event)).
Proof.
  intros Hinv Hgood.
  destruct (deduplicate_cases acc event) as [[-> _]|[-> Hkept]]; [done|].
  intros p l1 e1 e2 l2. cbn [snd]. rewrite on_path_snoc.
  case_decide as Hp; [|rewrite app_nil_r; apply Hgood].
  subst p. destruct l2 as [|x l2 _] using rev_ind.
  - change (l1 ++ [e1; e2]) with (l1 ++ [e1] ++ [e2]). rewrite app_assoc.
    intros [Hl ->]%app_inj_tail. apply Hkept.
    rewrite Hinv, Hl, last_snoc. done.
  - rewrite !app_comm_cons, app_assoc. intros [Hl _]%app_inj_tail.
    by apply (Hgood _ _ _ _ _ Hl).
Qed.

Lemma deduplicate_neighbours_foldl events : ∀ acc,
  last_kept acc → no_redundant_neighbours (snd acc) →
  no_redundant_neighbours (snd (foldl deduplicate acc events)).
Proof.
  induction events as [|event events IH]; intros acc Hinv Hacc; [done|].
  apply IH; [by apply last_kept_step|by apply deduplicate_neighbours].
Qed.

(** X19. In what [deduplicateEvents] returns for a batch of two or more
    events, no event comes, among the events about its path, right after
    an event with the same name, and no [change] comes right after an
    [add] of its path. *)
Theorem deduplicateEvents_no_redundant_neighbours events targetPath l1 e1 e2 l2 :
  on_path targetPath (deduplicateEvents events) = l1 ++ e1 :: e2 :: l2 →
  ev_type e2 ≠ ev_type e1 ∧ ¬ (ev_type e2 = CHANGE ∧ ev_type e1 = ADD).
Proof.
  intros Hsplit.
  assert (Hgood : no_redundant_neighbours (deduplicateEvents events)).
  { unfold deduplicateEvents. case_decide as Hlen.
    - intros p k1 x1 x2 k2 Hk.
      assert (length (on_path p events) ≤ length events)%nat as Hle by apply length_filter.
      rewrite Hk, length_app in Hle. cbn in Hle. lia.
    - apply deduplicate_neighbours_foldl; [apply last_kept_empty|].
      intros p k1 x1 x2 k2 Hk. by destruct k1. }
  specialize (Hgood _ _ _ _ _ Hsplit). unfold redundant in Hgood. tauto.
Qed.

Lemma deduplicate_stable acc event :
  foldl deduplicate (∅, []) (snd acc) = acc →
  foldl deduplicate (∅, []) (snd (deduplicate acc event)) = deduplicate acc event.
Proof.
  intros Hacc. destruct (deduplicate_cases acc event) as [[-> _]|[Hstep _]]; [done|].
  rewrite Hstep at 1. cbn [snd]. rewrite foldl_app. cbn [foldl]. by rewrite Hacc.
Qed.

Lemma deduplicate_stable_foldl events : ∀ acc,
  foldl deduplicate (∅, []) (snd acc) = acc →
  let acc' := foldl deduplicate acc events in
  foldl deduplicate (∅, []) (snd acc') = acc'.
Proof.
  induction events as [|event events IH]; intros acc Hacc; [done|].
  apply IH. by apply deduplicate_stable.
Qed.

(** X20. [deduplicateEvents] is idempotent: applied to its own result it
    drops nothing more. *)
Theorem deduplicateEvents_idempotent events :
  deduplicateEvents (deduplicateEvents events) = deduplicateEvents events.
Proof.
  unfold deduplicateEvents at 2 3. case_decide as Hlen.
  - unfold deduplicateEvents. by rewrite decide_True.
  - unfold deduplicateEvents. case_decide; [done|].
    by rewrite (deduplicate_stable_foldl events (∅, [])).
Qed.

Lemma deduplicate_last acc event pre :
  last_kept acc →
  (∀ p e, last (on_path p pre) = Some e →
          ∃ e', last (on_path p (snd acc)) = Some e' ∧ redundant (ev_type e') (ev_type e)) →
  ∀ p e, last (on_path p (pre ++ [event])) = Some e →
         ∃ e', last (on_path p (snd (deduplicate acc event))) = Some e'
               ∧ redundant (ev_type e') (ev_type e).
Proof.
  intros Hinv Hlast p e. rewrite on_path_snoc.
  destruct (deduplicate_cases acc event) as [[-> (previous & Hprev & Hred)]|[-> _]].
  - case_decide as Hp; [|rewrite app_nil_r; apply Hlast].
    subst p. rewrite last_snoc. intros [= <-].
    rewrite Hinv in Hprev.
    destruct (last (on_path (ev_path event) (snd acc))) as [e'|]; [|done].
    injection Hprev as <-. eauto.
  - cbn [snd]. rewrite on_path_snoc.
    case_decide as Hp; [|rewrite !app_nil_r; apply Hlast].
    rewrite !last_snoc. intros [= <-]. eexists; split; [done|by left].
Qed.

Lemma deduplicate_last_foldl events : ∀ acc pre,
  last_kept acc →
  (∀ p e, last (on_path p pre) = Some e →
          ∃ e', last (on_path p (snd acc)) = Some e' ∧ redundant (ev_type e') (ev_type e)) →
  ∀ p e, last (on_path p (pre ++ events)) = Some e →
         ∃ e', last (on_path p (snd (foldl deduplicate acc events))) = Some e'
               ∧ redundant (ev_type e') (ev_type e).
Proof.
  induction events as [|event events IH]; intros acc pre Hinv Hacc; cbn [foldl].
  - by rewrite app_nil_r.
  - replace (pre ++ event :: events) with ((pre ++ [event]) ++ events)
      by (by rewrite <- app_assoc).
    apply IH; [by apply last_kept_step|by apply deduplicate_last].
Qed.

(** X21. [deduplicateEvents] keeps the final word on every path: the last
    event it returns about a path has the name of the last event of the
    batch about that path, unless that one is a [change] dropped after a
    kept [add], in which case the last event returned is that [add]. *)
Theorem deduplicateEvents_keeps_final_event events targetPath event :
  last (on_path targetPath events) = Some event →
  ∃ kept, last (on_path targetPath (deduplicateEvents events)) = Some kept ∧
          (ev_type kept = ev_type event ∨ (ev_type event = CHANGE ∧ ev_type kept = ADD)).
Proof.
  intros Hlast.
  assert (∃ kept, last (on_path targetPath (deduplicateEvents events)) = Some kept ∧
                  redundant (ev_type kept) (ev_type event)) as (kept & Hk & Hred).
  { unfold deduplicateEvents. case_decide.
    - eexists; split; [done|by left].
    - apply (deduplicate_last_foldl events (∅, []) []); [apply last_kept_empty| |done].
      intros p e. by cbn. }
  exists kept. split; [done|]. destruct Hred as [->|?]; auto.
Qed.

End DeduplicateEventsProperties.

Lemma deduplicateEvents_no_redundant_neighbours_witness :
  let add := {| ev_type := ADD; ev_path := "/a"; ev_next := None |} in
  let change := {| ev_type := CHANGE; ev_path := "/a"; ev_next := None |} in
  let unlink := {| ev_type := UNLINK; ev_path := "/a"; ev_next := None |} in
  FileSystemEventManager.deduplicateEvents [add; change; change; unlink; unlink]
  = [add; unlink] ∧
  UNLINK ≠ ADD ∧ ¬ (UNLINK = CHANGE ∧ ADD = ADD).
Proof.
  cbn zeta. split; [vm_compute; reflexivity|].
  apply (deduplicateEvents_no_redundant_neighbours
           [ {| ev_type := ADD; ev_path := "/a"; ev_next := None |};
             {| ev_type := CHANGE; ev_path := "/a"; ev_next := None |};
             {| ev_type := CHANGE; ev_path := "/a"; ev_next := None |};
             {| ev_type := UNLINK; ev_path := "/a"; ev_next := None |};
             {| ev_type := UNLINK; ev_path := "/a"; ev_next := None |} ]
           "/a" []
           {| ev_type := ADD; ev_path := "/a"; ev_next := None |}
           {| ev_type := UNLINK; ev_path := "/a"; ev_next := None |} []).
  vm_compute. reflexivity.
Defined.

Lemma deduplicateEvents_keeps_final_event_witness :
  let add := {| ev_type := ADD; ev_path := "/a"; ev_next := None |} in
  let change := {| ev_type := CHANGE; ev_path := "/a"; ev_next := None |} in
  let other := {| ev_type := UNLINK; ev_path := "/b"; ev_next := None |} in
  ∃ kept,
    last (FileSystemEventManager.on_path "/a"
            (FileSystemEventManager.deduplicateEvents [add; other; change])) = Some kept ∧
    (ev_type kept = CHANGE ∨ (CHANGE = CHANGE ∧ ev_type kept = ADD)).
Proof.
  cbn zeta.
  apply (deduplicateEvents_keeps_final_event
           [ {| ev_type := ADD; ev_path := "/a"; ev_next := None |};
             {| ev_type := UNLINK; ev_path := "/b"; ev_next := None |};
             {| ev_type := CHANGE; ev_path := "/a"; ev_next := None |} ]
           "/a" {| ev_type := CHANGE; ev_path := "/a"; ev_next := None |}).
  vm_compute. reflexivity.
Defined.

(* ===================================================================== *)
(** * Properties of the table of watchers of [Watchr] *)
(* ===================================================================== *)

Section WatchrProperties.
Import Watchr.

Lemma record_get_head {A} (key : string) (value : A) r :
  record_get key ((key, value) :: r) = Some value.
Proof. unfold record_get. cbn. by rewrite bool_decide_eq_true_2. Qed.

Lemma record_delete_head {A} (key : string) (value : A) r :
  key ∉ (fst <$> r) → record_delete key ((key, value) :: r) = r.
Proof.
  intros Hnotin. unfold record_delete. rewrite filter_cons, decide_False by naive_solver.
  induction r as [|[k v] r IH]; [done|].
  cbn in Hnotin. apply not_elem_of_cons in Hnotin as [Hk Hnotin].
  rewrite filter_cons, decide_True by (cbn; congruence). by rewrite IH.
Qed.

Lemma record_set_head {A} (key : string) (value value' : A) r :
  key ∉ (fst <$> r) → record_set key value' ((key, value) :: r) = (key, value') :: r.
Proof.
  intros Hnotin. unfold record_set. rewrite record_get_head. cbn.
  rewrite bool_decide_eq_true_2 by done. f_equal.
  induction r as [|[k v] r IH]; [done|].
  cbn in Hnotin. apply not_elem_of_cons in Hnotin as [Hk Hnotin].
  cbn. rewrite bool_decide_eq_false_2 by congruence. by rewrite IH.
Qed.

(** Closing the first config of the first folder, with no root left. *)
Lemma watcherClose_head c cs key rest w :
  watchers w = (key, c :: cs) :: rest → folderPath c = key →
  key ∉ (fst <$> rest) → roots w = [] →
  watcherClose c w
  = {| closed := closed w; ready := ready w; aborted := aborted w; roots := roots w;
       watchers := (if cs is [] then rest else (key, cs) :: rest);
       watchersRestorable := watchersRestorable w;
       watchersRestoreTimeout := watchersRestoreTimeout w;
       _renameHandler := _renameHandler w; emissions := emissions w;
       closedWatchers := closedWatchers w ++ [wc_id c] |}.
Proof.
  intros Hw Hc Hkey Hroots. unfold watcherClose. cbn [watchers]. rewrite Hw, Hc.
  rewrite record_get_head. unfold indexOf. cbn [list_find].
  rewrite (decide_True (P := wc_id c = wc_id c)) by done. cbn [fmap option_fmap option_map fst splice1 delete list_delete].
  destruct cs as [|c' cs].
  - rewrite (decide_True (P := length _ = 0%nat)) by done.
    unfold set_watchers. cbn [watchers roots closed ready aborted watchersRestorable
      watchersRestoreTimeout _renameHandler emissions closedWatchers].
    rewrite record_delete_head by done. rewrite Hroots.
    by rewrite decide_False by apply not_elem_of_nil.
  - rewrite (decide_False (P := length _ = 0%nat)) by done.
    unfold set_watchers. cbn [watchers roots closed ready aborted watchersRestorable
      watchersRestoreTimeout _renameHandler emissions closedWatchers].
    rewrite record_set_head by done. rewrite Hroots.
    by rewrite decide_False by apply not_elem_of_nil.
Qed.

Lemma foldl_head {A B} (f : A → B → A) (a : A) (x : B) (l : list B) :
  foldl f a (x :: l) = foldl f (f a x) l.
Proof. reflexivity. Qed.

Lemma close_loop cs : ∀ c key rest w,
  watchers w = (key, c :: cs) :: rest → Forall (λ c, folderPath c = key) (c :: cs) →
  key ∉ (fst <$> rest) → roots w = [] →
  foldl (watchersClose_step None) w (c :: cs)
  = {| closed := closed w; ready := ready w; aborted := aborted w; roots := roots w;
       watchers := rest;
       watchersRestorable := watchersRestorable w;
       watchersRestoreTimeout := watchersRestoreTimeout w;
       _renameHandler := _renameHandler w; emissions := emissions w;
       closedWatchers := closedWatchers w ++ (wc_id <$> c :: cs) |}.
Proof.
  induction cs as [|c' cs IH]; intros c key rest w Hw Hall Hkey Hroots.
  - cbn [foldl]. change (watchersClose_step None w c) with (watcherClose c w).
    apply Forall_cons in Hall as [Hc _].
    by rewrite (watcherClose_head c [] key rest w).
  - rewrite foldl_head. change (watchersClose_step None w c) with (watcherClose c w).
    apply Forall_cons in Hall as [Hc Hall].
    rewrite (watcherClose_head c (c' :: cs) key rest w) by done.
    match goal with |- foldl _ ?w1 _ = _ =>
      rewrite (IH c' key rest w1 eq_refl Hall Hkey Hroots)
    end.
    cbn. by rewrite <- app_assoc.
Qed.

Lemma watchersClose_folder_head c cs key rest w :
  watchers w = (key, c :: cs) :: rest → Forall (λ c, folderPath c = key) (c :: cs) →
  key ∉ (fst <$> rest) → roots w = [] →
  watchersClose_folder key None w
  = {| closed := closed w; ready := ready w; aborted := aborted w; roots := roots w;
       watchers := rest;
       watchersRestorable := watchersRestorable w;
       watchersRestoreTimeout := watchersRestoreTimeout w;
       _renameHandler := _renameHandler w; emissions := emissions w;
       closedWatchers := closedWatchers w ++ (wc_id <$> c :: cs) |}.
Proof.
  intros Hw Hall Hkey Hroots. unfold watchersClose_folder.
  rewrite Hw, record_get_head. cbn [default]. unfold id.
  by apply (close_loop cs c key rest w).
Qed.

Lemma watchersClose_all ws : ∀ w,
  watchers w = ws → roots w = [] →
  NoDup (fst <$> ws) →
  Forall well_filed ws →
  foldl (λ w folderPath,
           w ← w;
           if decide (folderPath = "") then None
           else Some (watchersClose_folder folderPath None w))
        (Some w) (fst <$> ws)
  = Some {| closed := closed w; ready := ready w; aborted := aborted w; roots := roots w;
            watchers := [];
            watchersRestorable := watchersRestorable w;
            watchersRestoreTimeout := watchersRestoreTimeout w;
            _renameHandler := _renameHandler w; emissions := emissions w;
            closedWatchers := closedWatchers w ++ (wc_id <$> concat (snd <$> ws)) |}.
Proof.
  induction ws as [|[key configs] ws IH]; intros w Hw Hroots Hnd Hall.
  - cbn. rewrite app_nil_r. destruct w. cbn in *. by subst.
  - cbn [fmap list_fmap fst]. rewrite foldl_head. cbn [mbind option_bind].
    apply Forall_cons in Hall as [(Hkey & Hne & Hconfigs) Hall]. cbn [fst snd] in *.
    apply NoDup_cons in Hnd as [Hnotin Hnd].
    rewrite decide_False by (by intros ->).
    destruct configs as [|c cs]; [done|].
    rewrite (watchersClose_folder_head c cs key ws w) by done.
    match goal with |- foldl ?f (Some ?w1) _ = _ =>
      rewrite (IH w1 eq_refl Hroots Hnd Hall)
    end.
    cbn. by rewrite fmap_app, <- app_assoc.
Qed.

(** X22. On a table of watchers filed by folder, [close()] returns, and
    then the watcher is closed for good: [close()] was called on every
    registered watcher once, folder by folder; no watcher and no root is
    left; no watcher was kept for restoration; the [close] event was
    emitted exactly when the watcher was not closed before; [emitEvent]
    delivers nothing any more; and a further [close()] changes nothing. *)
Theorem close_is_final w :
  well_keyed w →
  ∃ w', close w = Some w' ∧
    closed w' = true ∧ watchers w' = [] ∧ roots w' = [] ∧
    closedWatchers w' = closedWatchers w ++ registered w ∧
    watchersRestorable w' = watchersRestorable w ∧
    watchersRestoreTimeout w' = watchersRestoreTimeout w ∧
    emissions w' = emissions w ++ (if closed w then [] else [EmitClose]) ∧
    (∀ event targetPath targetPathNext,
       emitEvent event targetPath targetPathNext w' = w') ∧
    close w' = Some w'.
Proof.
  intros [Hnd Hall]. unfold close at 1, watchersClose. cbn [truthy_path].
  cbn [watchers set_renameHandler].
  match goal with |- context [foldl _ (Some ?w1) _] =>
    rewrite (watchersClose_all (watchers w) w1 eq_refl eq_refl Hnd Hall)
  end.
  cbn [mbind option_bind isClosed closed set_renameHandler].
  destruct (closed w) eqn:Hclosed.
  - eexists. split; [done|]. cbn. rewrite app_nil_r. by repeat split.
  - eexists. split; [done|]. cbn. by repeat split.
Qed.

Lemma record_get_Some {A} (key : string) (value : A) r :
  record_get key r = Some value → (key, value) ∈ r.
Proof.
  unfold record_get. intros Hget.
  destruct (List.find _ r) as [[k v]|] eqn:Hfind; [|done].
  apply find_some in Hfind as [Hin Hk]. apply bool_decide_eq_true_1 in Hk.
  cbn in *. simplify_eq. by apply list_elem_of_In.
Qed.

Lemma record_get_None {A} (key : string) (r : list (string * A)) :
  record_get key r = None → key ∉ (fst <$> r).
Proof.
  unfold record_get. intros Hget Hin.
  destruct (List.find _ r) as [e|] eqn:Hfind; [done|].
  apply list_elem_of_fmap in Hin as (e & -> & Hin).
  apply list_elem_of_In in Hin.
  pose proof (find_none _ _ Hfind e Hin) as Hk. cbn in Hk.
  by rewrite bool_decide_eq_true_2 in Hk.
Qed.

Lemma record_set_keys {A} (key : string) (value : A) r :
  is_Some (record_get key r) → fst <$> record_set key value r = fst <$> r.
Proof.
  intros [v Hget]. unfold record_set. rewrite Hget.
  rewrite <- list_fmap_compose. apply list_fmap_ext. intros i e _. cbn.
  by case_bool_decide.
Qed.

Lemma record_set_Forall {A} (P : string * A → Prop) (key : string) (value : A) r :
  Forall P r → P (key, value) → Forall P (record_set key value r).
Proof.
  intros Hall Hnew. unfold record_set. destruct (record_get key r).
  - apply Forall_fmap. eapply Forall_impl; [exact Hall|]. intros e He. cbn.
    by case_bool_decide.
  - apply Forall_app. split; [done|]. by apply Forall_singleton.
Qed.

Lemma splice1_sublist index configs : splice1 index configs `sublist_of` configs.
Proof.
  destruct index as [i|]; cbn.
  - apply sublist_delete.
  - rewrite removelast_firstn_len. apply sublist_take.
Qed.

Lemma watchers_watcherClose c w :
  watchers (watcherClose c w)
  = match record_get (folderPath c) (watchers w) with
    | Some configs =>
        let configs := splice1 (indexOf c configs) configs in
        if decide (length configs = 0%nat)
        then record_delete (folderPath c) (watchers w)
        else record_set (folderPath c) configs (watchers w)
    | None => watchers w
    end.
Proof.
  unfold watcherClose. cbn [watchers].
  destruct (record_get (folderPath c) (watchers w)) as [configs|]; cbn zeta.
  - destruct (decide (length _ = 0%nat)); by case_decide.
  - by case_decide.
Qed.

Lemma well_keyed_addWatcherConfig config w :
  path_key (folderPath config) = true → well_keyed w → well_keyed (addWatcherConfig config w).
Proof.
  intros Hkey [Hnd Hall]. unfold well_keyed, addWatcherConfig. cbn [set_watchers watchers].
  destruct (record_get (folderPath config) (watchers w)) as [configs|] eqn:Hget.
  - split.
    + rewrite record_set_keys; [done|by rewrite Hget].
    + apply record_set_Forall; [done|]. cbn [default].
      apply record_get_Some in Hget.
      pose proof (proj1 (Forall_forall _ _) Hall _ Hget) as (_ & _ & Hconfigs).
      repeat split; cbn; [done|by destruct configs|].
      apply Forall_app. split; [done|]. by apply Forall_singleton.
  - split.
    + unfold record_set. rewrite Hget, fmap_app. cbn.
      apply NoDup_app. split_and!; [done| |apply NoDup_singleton].
      intros k Hk ->%list_elem_of_singleton. by apply record_get_None in Hget.
    + apply record_set_Forall; [done|]. repeat split; cbn; [done..|].
      by apply Forall_singleton.
Qed.

Lemma well_keyed_watcherClose c w : well_keyed w → well_keyed (watcherClose c w).
Proof.
  intros [Hnd Hall]. unfold well_keyed. rewrite watchers_watcherClose.
  destruct (record_get (folderPath c) (watchers w)) as [configs|] eqn:Hget; [|done].
  cbn zeta. case_decide as Hlen.
  - unfold record_delete. split.
    + eapply sublist_NoDup; [exact Hnd|]. apply fmap_sublist, sublist_filter.
    + apply Forall_forall. intros e He%list_elem_of_filter.
      destruct He as [_ He]. by apply (proj1 (Forall_forall _ _) Hall).
  - split.
    + rewrite record_set_keys; [done|by rewrite Hget].
    + apply record_set_Forall; [done|].
      apply record_get_Some in Hget.
      pose proof (proj1 (Forall_forall _ _) Hall _ Hget) as (Hkey & _ & Hconfigs).
      repeat split; cbn; [done| |].
      * intros Hnil. by rewrite Hnil in Hlen.
      * apply Forall_forall. intros c' Hc'.
        apply (proj1 (Forall_forall _ _) Hconfigs).
        eapply elem_of_sublist; [exact Hc'|apply splice1_sublist].
Qed.

Lemma well_keyed_ext w w' : watchers w' = watchers w → well_keyed w → well_keyed w'.
Proof. unfold well_keyed. by intros ->. Qed.

Lemma well_keyed_watchersClose_folder folderPath filePath w :
  well_keyed w → well_keyed (watchersClose_folder folderPath filePath w).
Proof.
  unfold watchersClose_folder.
  generalize (default [] (record_get folderPath (watchers w))). intros configs.
  revert w. induction configs as [|c configs IH]; intros w Hw; [done|].
  rewrite foldl_head. apply IH. unfold watchersClose_step.
  destruct (_ || _); [by apply well_keyed_watcherClose|done].
Qed.

Lemma well_keyed_watchersClose_keys filePath keys : ∀ w,
  Forall (λ key, path_key key = true) keys → well_keyed w →
  ∃ w', foldl (λ w folderPath,
                 w ← w;
                 if decide (folderPath = "") then None
                 else Some (watchersClose_folder folderPath filePath w))
              (Some w) keys = Some w'
        ∧ well_keyed w'.
Proof.
  induction keys as [|key keys IH]; intros w Hkeys Hw; [by exists w|].
  apply Forall_cons in Hkeys as [Hkey Hkeys].
  rewrite foldl_head. cbn [mbind option_bind].
  rewrite decide_False by (by intros ->).
  by apply IH, well_keyed_watchersClose_folder.
Qed.

Lemma well_keyed_watchersClose folderPath filePath w :
  well_keyed w → ∃ w', watchersClose folderPath filePath w = Some w' ∧ well_keyed w'.
Proof.
  intros Hw. unfold watchersClose. destruct (truthy_path folderPath) as [key|].
  - eexists. split; [done|]. by apply well_keyed_watchersClose_folder.
  - apply well_keyed_watchersClose_keys; [|done].
    destruct Hw as [_ Hall]. apply Forall_fmap.
    eapply Forall_impl; [exact Hall|]. by intros e [He _].
Qed.

Lemma well_keyed_close w : well_keyed w → ∃ w', close w = Some w' ∧ well_keyed w'.
Proof.
  intros Hw. unfold close.
  match goal with |- context [watchersClose None None ?w1] =>
    destruct (well_keyed_watchersClose None None w1) as (w' & -> & Hw');
      [by apply (well_keyed_ext w)|]
  end.
  cbn [mbind option_bind]. destruct (isClosed w'); eexists; (split; [done|]); [done|].
  by apply (well_keyed_ext w').
Qed.

Lemma watchers_emitEvent event targetPath targetPathNext w :
  watchers (emitEvent event targetPath targetPathNext w) = watchers w.
Proof. unfold emitEvent. by destruct (isClosed w). Qed.

Lemma absolute_path_key path : absolute path = true → path_key path = true.
Proof.
  destruct path as [|c path]; [done|]. cbn [absolute path_key].
  intros ->%Nat.eqb_eq. done.
Qed.

Lemma absolute_watcherClose c w :
  under_absolute_paths w → under_absolute_paths (watcherClose c w).
Proof.
  unfold under_absolute_paths. intros Hall. rewrite watchers_watcherClose.
  destruct (record_get (folderPath c) (watchers w)) as [configs|] eqn:Hget; [|done].
  cbn zeta. case_decide as Hlen.
  - unfold record_delete. apply Forall_forall. intros e He%list_elem_of_filter.
    destruct He as [_ He]. by apply (proj1 (Forall_forall _ _) Hall).
  - apply record_set_Forall; [done|]. apply record_get_Some in Hget.
    by apply (proj1 (Forall_forall _ _) Hall _ Hget).
Qed.

Lemma absolute_watchersClose_folder folderPath filePath w :
  under_absolute_paths w → under_absolute_paths (watchersClose_folder folderPath filePath w).
Proof.
  unfold watchersClose_folder.
  generalize (default [] (record_get folderPath (watchers w))). intros configs.
  revert w. induction configs as [|c configs IH]; intros w Hw; [done|].
  rewrite foldl_head. apply IH. unfold watchersClose_step.
  destruct (_ || _); [by apply absolute_watcherClose|done].
Qed.

Lemma absolute_watchersClose_keys filePath keys : ∀ (start : option t) w',
  foldl (λ w folderPath,
           w ← w;
           if decide (folderPath = "") then None
           else Some (watchersClose_folder folderPath filePath w))
        start keys = Some w' →
  (∀ w, start = Some w → under_absolute_paths w) → under_absolute_paths w'.
Proof.
  induction keys as [|key keys IH]; intros start w'.
  { cbn [foldl]. intros Hfold Hw. by apply Hw. }
  rewrite foldl_head. intros Hfold Hstart. eapply IH; [exact Hfold|].
  intros w1. destruct start as [w|]; cbn [mbind option_bind]; [|done].
  case_decide; [done|]. intros [= <-]. by apply absolute_watchersClose_folder, Hstart.
Qed.

Lemma absolute_watchersClose folderPath filePath w w' :
  watchersClose folderPath filePath w = Some w' →
  under_absolute_paths w → under_absolute_paths w'.
Proof.
  unfold watchersClose. destruct (truthy_path folderPath) as [key|].
  - intros [= <-]. apply absolute_watchersClose_folder.
  - intros Hfold Hw. eapply absolute_watchersClose_keys; [exact Hfold|].
    by intros ? [= <-].
Qed.

Lemma absolute_ext w w' :
  watchers w' = watchers w → under_absolute_paths w → under_absolute_paths w'.
Proof. unfold under_absolute_paths. by intros ->. Qed.

Lemma watchers_renameWatchr f w : watchers (renameWatchr f w) = watchers w.
Proof.
  unfold renameWatchr. cbn zeta.
  match goal with |- context [foldl _ ?w0 ?es] =>
    change (watchers w) with (watchers w0); generalize w0; generalize es
  end.
  intros es. induction es as [|e es IHes]; intros w0; [done|].
  cbn [foldl]. by rewrite IHes, watchers_emitEvent.
Qed.

Lemma absolute_call c w w' :
  match c with
  | AddWatcherConfig config => absolute (folderPath config) = true
  | _ => True
  end →
  call w c = Some w' → under_absolute_paths w → under_absolute_paths w'.
Proof.
  destruct c as [config|folderPath filePath| | |event targetPath targetPathNext|f];
    cbn [call]; intros Hc.
  - intros [= <-] Hw. unfold under_absolute_paths, addWatcherConfig.
    cbn [set_watchers watchers]. by apply record_set_Forall.
  - apply absolute_watchersClose.
  - unfold close.
    match goal with |- context [watchersClose None None ?w1] =>
      destruct (watchersClose None None w1) as [w2|] eqn:Hclose; [|done];
      pose proof (absolute_watchersClose None None w1 w2 Hclose) as Hkeep
    end.
    cbn [mbind option_bind]. destruct (isClosed w2); intros [= <-] Hw.
    + apply Hkeep. by apply (absolute_ext w).
    + apply (absolute_ext w2); [done|]. apply Hkeep. by apply (absolute_ext w).
  - intros [= <-]. apply absolute_ext. unfold setReady. by destruct (_ || _).
  - intros [= <-]. apply absolute_ext, watchers_emitEvent.
  - intros [= <-]. apply absolute_ext, watchers_renameWatchr.
Qed.

(** X23. Every sequence of [addWatcherConfig], [watchersClose], [close],
    [setReady] and [emitEvent] calls and of operations of the rename
    handler returns, as long as folders are named by absolute paths (the
    keys of the table at the start, the [folderPath] of the configs added
    and a truthy [folderPath] given to [watchersClose]: what
    [path.resolve] returns, and no name of a member that the plain object
    [watchers] inherits), and keeps the table of watchers filed by folder
    under absolute paths: every config is under the key of its
    [folderPath], and a folder whose last watcher was closed is deleted
    from the table. In particular the recursion of [watchersClose] over
    the keys always ends. *)
Theorem table_of_watchers_stays_well_keyed cs : ∀ w,
  well_keyed w → under_absolute_paths w → on_absolute_paths cs →
  ∃ w', calls cs w = Some w' ∧ well_keyed w' ∧ under_absolute_paths w'.
Proof.
  unfold calls. induction cs as [|c cs IH]; intros w Hw Habs Hcs; [by exists w|].
  apply Forall_cons in Hcs as [Hc Hcs]. rewrite foldl_head. cbn [mbind option_bind].
  assert (∃ w1, call w c = Some w1 ∧ well_keyed w1) as (w1 & Hcall & Hw1).
  { destruct c as [config|folderPath filePath| | |event targetPath targetPathNext|f];
      cbn [call].
    - eexists. split; [done|].
      by apply well_keyed_addWatcherConfig; [apply absolute_path_key|].
    - by apply well_keyed_watchersClose.
    - by apply well_keyed_close.
    - eexists. split; [done|]. apply (well_keyed_ext w); [|done].
      unfold setReady. by destruct (_ || _).
    - eexists. split; [done|]. apply (well_keyed_ext w); [|done].
      apply watchers_emitEvent.
    - eexists. split; [done|]. apply (well_keyed_ext w); [|done].
      apply watchers_renameWatchr. }
  rewrite Hcall. apply IH; [done| |done].
  eapply absolute_call; [|exact Hcall|exact Habs]. by destruct c.
Qed.

End WatchrProperties.


Lemma close_is_final_witness :
  let c1 := {| Watchr.folderPath := "/a"; Watchr.filePath := None; Watchr.wc_id := 1 |} in
  let c2 := {| Watchr.folderPath := "/a"; Watchr.filePath := Some "/a/f"; Watchr.wc_id := 2 |} in
  let c3 := {| Watchr.folderPath := "/b"; Watchr.filePath := None; Watchr.wc_id := 3 |} in
  let w := Watchr.addWatcherConfig c3 (Watchr.addWatcherConfig c2 (Watchr.addWatcherConfig c1 Watchr.new)) in
  Watchr.well_keyed w ∧
  ∃ w', Watchr.close w = Some w' ∧ Watchr.closedWatchers w' = [1; 2; 3]%nat
        ∧ Watchr.emissions w' = [Watchr.EmitClose].
Proof.
  intros c1 c2 c3 w.
  assert (Watchr.well_keyed w) as Hw.
  { split; [refine (bool_decide_unpack _ _); vm_compute; exact I|].
    vm_compute. repeat constructor; done. }
  split; [exact Hw|].
  destruct (close_is_final w Hw) as (w' & Hclose & _ & _ & _ & Hclosed & _ & _ & Hemit & _).
  exists w'. split; [exact Hclose|]. split; [exact Hclosed|exact Hemit].
Defined.

Lemma table_of_watchers_stays_well_keyed_witness :
  let c1 := {| Watchr.folderPath := "/a"; Watchr.filePath := None; Watchr.wc_id := 1 |} in
  let c2 := {| Watchr.folderPath := "/a"; Watchr.filePath := Some "/a/f"; Watchr.wc_id := 2 |} in
  let cs := [Watchr.AddWatcherConfig c1; Watchr.AddWatcherConfig c2;
             Watchr.WatchersClose (Some "/a") (Some "/a/f"); Watchr.Close] in
  ∃ w', Watchr.calls cs Watchr.new = Some w' ∧ Watchr.well_keyed w'
        ∧ Watchr.under_absolute_paths w'.
Proof.
  intros c1 c2 cs.
  apply (table_of_watchers_stays_well_keyed cs Watchr.new).
  - split; [apply NoDup_nil_2|apply Forall_nil_2].
  - apply Forall_nil_2.
  - repeat constructor. intros path [= <-]. reflexivity.
Defined.

Section WatchersCloseFile.
Import Watchr.

Lemma record_get_cons {A} (key k : string) (x : A) r :
  record_get key ((k, x) :: r) = if decide (k = key) then Some x else record_get key r.
Proof.
  unfold record_get. cbn. case_bool_decide; by case_decide.
Qed.

Lemma record_get_replace {A} (key key' : string) (value : A) r :
  record_get key' ((λ e, if bool_decide (fst e = key) then (key, value) else e) <$> r)
  = if decide (key' = key) then (λ _, value) <$> record_get key r else record_get key' r.
Proof.
  induction r as [|[k x] r IH]; [by case_decide|].
  cbn [fmap list_fmap fst]. case_bool_decide as Hk.
  - subst k. rewrite !record_get_cons, IH.
    destruct (decide (key' = key)) as [->|Hne].
    + by rewrite !decide_True.
    + by rewrite !decide_False by done.
  - rewrite !record_get_cons, IH.
    destruct (decide (key' = key)) as [->|Hne].
    + by rewrite !decide_False by done.
    + done.
Qed.

Lemma record_get_snoc {A} (key k : string) (x : A) r :
  record_get key (r ++ [(k, x)])
  = match record_get key r with
    | Some v => Some v
    | None => if decide (k = key) then Some x else None
    end.
Proof.
  induction r as [|[k' x'] r IH]; [cbn [app]; by rewrite record_get_cons|].
  cbn [app]. rewrite !record_get_cons, IH. by destruct (decide (k' = key)).
Qed.

Lemma record_get_set {A} (key key' : string) (value : A) r :
  record_get key' (record_set key value r)
  = if decide (key' = key) then Some value else record_get key' r.
Proof.
  unfold record_set. destruct (record_get key r) as [v|] eqn:Hget.
  - rewrite record_get_replace, Hget. by case_decide.
  - rewrite record_get_snoc. destruct (decide (key' = key)) as [->|Hne].
    + by rewrite Hget, decide_True.
    + rewrite decide_False by done. by destruct (record_get key' r).
Qed.

Lemma record_get_delete {A} (key key' : string) (r : list (string * A)) :
  record_get key' (record_delete key r)
  = if decide (key' = key) then None else record_get key' r.
Proof.
  unfold record_delete. induction r as [|[k x] r IH]; [by case_decide|].
  rewrite filter_cons. cbn [fst]. destruct (decide (k ≠ key)) as [Hk|Hk].
  - rewrite !record_get_cons, IH. destruct (decide (key' = key)) as [->|Hne]; [|done].
    by rewrite decide_False.
  - apply dec_stable in Hk. subst k. rewrite IH, record_get_cons.
    destruct (decide (key' = key)) as [->|Hne]; [done|]. by rewrite decide_False.
Qed.

Lemma filed_nonempty configs : configs ≠ [] → filed configs = Some configs.
Proof. by destruct configs. Qed.

Lemma indexOf_middle c l1 l2 :
  wc_id c ∉ (wc_id <$> l1) → indexOf c (l1 ++ c :: l2) = Some (length l1).
Proof.
  intros Hnotin. unfold indexOf.
  destruct (list_find _ _) as [[i c']|] eqn:Hfind.
  - apply list_find_Some in Hfind as (Hi & Hc' & Hbefore). cbn. f_equal.
    destruct (decide (i < length l1)%nat) as [Hlt|Hge].
    + rewrite lookup_app_l in Hi by done. exfalso. apply Hnotin.
      rewrite <- Hc'. apply list_elem_of_fmap. exists c'. split; [done|].
      by eapply list_elem_of_lookup_2.
    + destruct (decide (i = length l1)) as [->|Hne]; [done|].
      exfalso. apply (Hbefore (length l1) c); [|lia|done].
      by rewrite list_lookup_middle.
  - exfalso. eapply list_find_None in Hfind.
    rewrite Forall_app, Forall_cons in Hfind. by destruct Hfind as (_ & Hc & _).
Qed.

Lemma watcherClose_roots c w :
  roots (watcherClose c w) = roots w ∧
  let rootPath := default (folderPath c) (truthy_path (filePath c)) in
  if decide (rootPath ∈ roots w) then
    watchersRestorable (watcherClose c w) = record_set rootPath c (watchersRestorable w) ∧
    watchersRestoreTimeout (watcherClose c w) = true
  else
    watchersRestorable (watcherClose c w) = watchersRestorable w ∧
    watchersRestoreTimeout (watcherClose c w) = watchersRestoreTimeout w.
Proof.
  unfold watcherClose. cbn zeta.
  match goal with |- context [decide (?p ∈ roots ?w1)] =>
    replace (roots w1) with (roots w) by (by repeat case_match);
    assert (watchersRestorable w1 = watchersRestorable w) as Hr by (by repeat case_match);
    assert (watchersRestoreTimeout w1 = watchersRestoreTimeout w) as Ht
      by (by repeat case_match);
    assert (roots w1 = roots w) as Hroots by (by repeat case_match);
    destruct (decide (p ∈ roots w))
  end; cbn [roots watchersRestorable watchersRestoreTimeout]; by rewrite ?Hr.
Qed.

Lemma closing_step folder file w processed c todo w' :
  file ≠ "" →
  NoDup (wc_id <$> processed ++ c :: todo) → folderPath c = folder →
  closing folder file w processed (c :: todo) w' →
  closing folder file w (processed ++ [c]) todo (watchersClose_step (Some file) w' c).
Proof.
  intros Hfile Hnd Hc (Hget & Hother & Hclosed & Hcl & Hem & Hroots & Hroot & Hnoroot).
  pose proof (watcherClose_roots c w') as [Hroots' Hrestorable].
  unfold watchersClose_step. cbn [truthy_path]. rewrite decide_False by done.
  rewrite (bool_decide_eq_false_2 (Some file = None)) by done. cbn [orb].
  unfold closing, watchers_beside, watchers_of in *.
  rewrite !filter_app, !filter_cons, !filter_nil.
  case_bool_decide as Hmatch.
  - rewrite (decide_True (P := filePath c = Some file)) by done.
    rewrite (decide_False (P := filePath c ≠ Some file)) by (by intros ?).
    rewrite app_nil_r.
    assert (Hidx : wc_id c ∉ (wc_id <$> filter (λ c, filePath c ≠ Some file) processed)).
    { intros Hin. rewrite fmap_app, fmap_cons in Hnd.
      apply NoDup_app in Hnd as (_ & Hnd & _). apply (Hnd (wc_id c)).
      - apply list_elem_of_fmap in Hin as (c' & Hid & Hin).
        apply list_elem_of_filter in Hin as [_ Hin].
        apply list_elem_of_fmap. by exists c'.
      - apply list_elem_of_here. }
    set (kept := filter (λ c, filePath c ≠ Some file) processed) in *.
    assert (Hw : watchers (watcherClose c w')
                 = if decide (length (kept ++ todo) = 0%nat)
                   then record_delete folder (watchers w')
                   else record_set folder (kept ++ todo) (watchers w')).
    { rewrite watchers_watcherClose, Hc, Hget.
      rewrite filed_nonempty by (by destruct kept).
      cbn zeta. rewrite indexOf_middle by done. cbn [splice1].
      by rewrite delete_middle. }
    split_and!.
    + rewrite Hw. case_decide as Hlen.
      * rewrite record_get_delete, decide_True by done.
        by destruct (kept ++ todo).
      * rewrite record_get_set, decide_True by done.
        by destruct (kept ++ todo).
    + intros other Hne. rewrite Hw. case_decide.
      * rewrite record_get_delete, decide_False by done. by apply Hother.
      * rewrite record_get_set, decide_False by done. by apply Hother.
    + rewrite fmap_app, app_assoc, <- Hclosed. cbn.
      unfold watcherClose. cbn zeta. by repeat case_match.
    + rewrite <- Hcl. unfold watcherClose. cbn zeta. by repeat case_match.
    + rewrite <- Hem. unfold watcherClose. cbn zeta. by repeat case_match.
    + by rewrite Hroots'.
    + intros Hin c' Hlast. rewrite last_snoc in Hlast. injection Hlast as <-.
      cbn zeta in Hrestorable. rewrite Hmatch in Hrestorable. cbn [truthy_path] in Hrestorable.
      rewrite (decide_False (P := file = "")) in Hrestorable by done.
      cbn [default] in Hrestorable. rewrite Hroots, decide_True in Hrestorable by done.
      destruct Hrestorable as [-> ->]. by rewrite record_get_set, decide_True.
    + intros Hnotin. cbn zeta in Hrestorable. rewrite Hmatch in Hrestorable.
      cbn [truthy_path] in Hrestorable.
      rewrite (decide_False (P := file = "")) in Hrestorable by done.
      cbn [default] in Hrestorable. rewrite Hroots, decide_False in Hrestorable by done.
      destruct Hrestorable as [-> ->]. by apply Hnoroot.
  - rewrite (decide_False (P := filePath c = Some file)) by done.
    rewrite (decide_True (P := filePath c ≠ Some file)) by done.
    rewrite app_nil_r, <- app_assoc. done.
Qed.

Lemma closing_loop folder file w todo : ∀ processed w',
  file ≠ "" →
  NoDup (wc_id <$> processed ++ todo) → Forall (λ c, folderPath c = folder) todo →
  closing folder file w processed todo w' →
  closing folder file w (processed ++ todo) [] (foldl (watchersClose_step (Some file)) w' todo).
Proof.
  induction todo as [|c todo IH]; intros processed w' Hfile Hnd Hall Hinv.
  - by rewrite app_nil_r.
  - apply Forall_cons in Hall as [Hc Hall]. cbn [foldl].
    replace (processed ++ c :: todo) with ((processed ++ [c]) ++ todo)
      by (by rewrite <- app_assoc).
    apply IH; [done| |done|].
    + by rewrite <- app_assoc.
    + by apply closing_step.
Qed.

(** X25. [watchersClose(folder, file)], as [onTargetEvents] calls it for
    a removed file: [close()] is called on the watchers of that file
    filed under the folder, in their order, and on no other; the other
    watchers of the folder stay filed, and the entry of the folder is
    deleted when none is left; the other folders keep their watchers.
    When the file is a root, the last watcher closed is kept under
    [watchersRestorable[file]] and the restore is scheduled; when it is
    not, nothing is kept or scheduled. *)
Theorem removed_file_loses_its_watchers folder file configs w :
  folder ≠ "" → file ≠ "" →
  record_get folder (watchers w) = Some configs → configs ≠ [] →
  Forall (λ c, folderPath c = folder) configs → NoDup (wc_id <$> configs) →
  ∃ w', watchersClose (Some folder) (Some file) w = Some w' ∧
    closedWatchers w' = closedWatchers w ++ (wc_id <$> watchers_of file configs) ∧
    record_get folder (watchers w') = filed (watchers_beside file configs) ∧
    (∀ other, other ≠ folder →
       record_get other (watchers w') = record_get other (watchers w)) ∧
    (file ∈ roots w → ∀ c, last (watchers_of file configs) = Some c →
       record_get file (watchersRestorable w') = Some c ∧
       watchersRestoreTimeout w' = true) ∧
    (file ∉ roots w →
       watchersRestorable w' = watchersRestorable w ∧
       watchersRestoreTimeout w' = watchersRestoreTimeout w).
Proof.
  intros Hfolder Hfile Hget Hne Hall Hnd.
  unfold watchersClose. cbn [truthy_path]. rewrite decide_False by done.
  eexists. split; [done|].
  unfold watchersClose_folder. rewrite Hget. cbn [default].
  destruct (closing_loop folder file w configs [] w Hfile Hnd Hall)
    as (Hget' & Hother & Hclosed & Hcl & Hem & Hroots & Hroot & Hnoroot).
  { split_and!; try done.
    - cbn. rewrite Hget. by destruct configs.
    - cbn. by rewrite app_nil_r. }
  cbn [app] in *. rewrite app_nil_r in Hget'. done.
Qed.

End WatchersCloseFile.

Lemma removed_file_loses_its_watchers_witness :
  let c1 := {| Watchr.folderPath := "/d"; Watchr.filePath := None; Watchr.wc_id := 1 |} in
  let c2 := {| Watchr.folderPath := "/d"; Watchr.filePath := Some "/d/f"; Watchr.wc_id := 2 |} in
  let c3 := {| Watchr.folderPath := "/d"; Watchr.filePath := Some "/d/g"; Watchr.wc_id := 3 |} in
  let w := Watchr.addWatcherConfig c3
             (Watchr.addWatcherConfig c2 (Watchr.addWatcherConfig c1 Watchr.new)) in
  ∃ w', Watchr.watchersClose (Some "/d") (Some "/d/f") w = Some w' ∧
        Watchr.closedWatchers w' = [2%nat] ∧
        Watchr.record_get "/d" (Watchr.watchers w') = Some [c1; c3].
Proof.
  intros c1 c2 c3 w.
  destruct (removed_file_loses_its_watchers "/d" "/d/f" [c1; c2; c3] w)
    as (w' & Hclose & Hclosed & Hget & _).
  - discriminate.
  - discriminate.
  - vm_compute. reflexivity.
  - discriminate.
  - repeat constructor.
  - refine (bool_decide_unpack _ _). vm_compute. exact I.
  - exists w'. split; [exact Hclose|]. split; [exact Hclosed|exact Hget].
Defined.

(* ===================================================================== *)
(** * From a batch of events to the listeners *)
(* ===================================================================== *)

Section DeliveryProperties.
Import Watchr.
Import FileRenameHandler(idle, recorded, lockEvent_of, fileSystemStateManager, emitted, at_time, getLockTargetEvent).
Variable normalize dirname : string → string.







Lemma same_delivery_trans w1 w2 w3 :
  same_delivery w1 w2 → same_delivery w2 w3 → same_delivery w1 w3.
Proof. unfold same_delivery. intros (-> & -> & -> & ->) (-> & -> & -> & ->). done. Qed.

Lemma watcherClose_same_delivery c w : same_delivery w (watcherClose c w).
Proof.
  unfold watcherClose, same_delivery, set_watchers. cbn zeta.
  repeat case_match; done.
Qed.

Lemma watchersClose_folder_same_delivery folderPath filePath w :
  same_delivery w (watchersClose_folder folderPath filePath w).
Proof.
  unfold watchersClose_folder.
  generalize (default [] (record_get folderPath (watchers w))). intros configs.
  revert w. induction configs as [|c configs IH]; intros w; [done|].
  cbn [foldl]. eapply same_delivery_trans; [|apply IH].
  unfold watchersClose_step. destruct (_ || _); [apply watcherClose_same_delivery|done].
Qed.

Lemma watchersClose_same_delivery folderPath filePath w w' :
  watchersClose folderPath filePath w = Some w' → same_delivery w w'.
Proof.
  unfold watchersClose. destruct (truthy_path folderPath) as [key|].
  - intros [= <-]. apply watchersClose_folder_same_delivery.
  - generalize (fst <$> watchers w). intros keys. revert w.
    induction keys as [|key keys IH]; intros w; [by intros [= <-]|].
    cbn [foldl mbind option_bind]. destruct (decide (key = "")).
    + intros Hnone. exfalso. clear -Hnone.
      induction keys as [|key' keys IH]; [done|]. by apply IH.
    + intros Hfold. eapply same_delivery_trans; [|by apply IH].
      apply watchersClose_folder_same_delivery.
Qed.





End DeliveryProperties.


(* ===================================================================== *)
(** * The order of the emissions of a watcher *)
(* ===================================================================== *)

Section EmissionProtocol.
Import Watchr.

Lemma no_close_split es pre post :
  List.filter is_close es = [] → es ≠ pre ++ EmitClose :: post.
Proof.
  intros Hnone ->. rewrite List.filter_app in Hnone. cbn in Hnone.
  by apply app_eq_nil in Hnone as [_ ?].
Qed.

Lemma protocol_snoc es e :
  protocol es → List.filter is_close es = [] →
  is_close e = false → (is_ready e = true → List.filter is_ready es = []) →
  protocol (es ++ [e]).
Proof.
  intros (Hready & Hclose & Hlast) Hnone He Hr. split_and!.
  - rewrite List.filter_app, length_app. cbn.
    destruct (is_ready e) eqn:Hre; cbn; [rewrite Hr by done; cbn|]; lia.
  - rewrite List.filter_app, length_app. cbn. rewrite He. cbn. lia.
  - intros pre post Heq. exfalso.
    assert (Hnone' : List.filter is_close (es ++ [e]) = [])
      by (rewrite List.filter_app, Hnone; cbn; by rewrite He).
    by eapply no_close_split.
Qed.

Lemma protocol_close es :
  protocol es → List.filter is_close es = [] → protocol (es ++ [EmitClose]).
Proof.
  intros (Hready & Hclose & Hlast) Hnone. split_and!.
  - rewrite List.filter_app, length_app. cbn. lia.
  - rewrite List.filter_app, length_app, Hnone. cbn. lia.
  - intros pre post Heq. destruct post as [|e post _] using rev_ind; [done|]. exfalso.
    rewrite app_comm_cons, app_assoc in Heq. apply app_inj_tail in Heq as [Heq _].
    by eapply no_close_split.
Qed.

Lemma flags_agree_same w w' :
  emissions w' = emissions w → closed w' = closed w → ready w' = ready w →
  flags_agree w → flags_agree w'.
Proof. unfold flags_agree. by intros -> -> ->. Qed.

Lemma flags_agree_emit e w :
  closed w = false → is_close e = false → is_ready e = false →
  flags_agree w → flags_agree (emit e w).
Proof.
  intros Hopen He Hr (Hc & Hcl & Hrd & Hp). unfold flags_agree. cbn.
  split_and!.
  - intros _. rewrite List.filter_app, Hc by done. cbn. by rewrite He.
  - intros Hclosed. congruence.
  - intros Hready. rewrite List.filter_app, Hrd by done. cbn. by rewrite Hr.
  - apply protocol_snoc; [done|by apply Hc|done|]. by rewrite Hr.
Qed.

Lemma flags_agree_emitEvent event targetPath targetPathNext w :
  flags_agree w → flags_agree (emitEvent event targetPath targetPathNext w).
Proof.
  intros Hw. unfold emitEvent, isClosed. destruct (closed w) eqn:Hclosed; [done|].
  apply flags_agree_emit; [done..|]. by apply flags_agree_emit.
Qed.

Lemma flags_agree_setReady w : flags_agree w → flags_agree (setReady w).
Proof.
  intros Hw. unfold setReady, isClosed, isReady.
  destruct (closed w) eqn:Hclosed; [done|]. destruct (ready w) eqn:Hready; [done|].
  destruct Hw as (Hc & Hcl & Hrd & Hp). unfold flags_agree. cbn. split_and!.
  - intros _. rewrite List.filter_app, Hc by done. done.
  - intros ?. congruence.
  - done.
  - apply protocol_snoc; [done|by apply Hc|done|]. intros _. by apply Hrd.
Qed.

Lemma flags_agree_renameWatchr f w : flags_agree w → flags_agree (renameWatchr f w).
Proof.
  intros Hw. unfold renameWatchr. cbn zeta.
  match goal with |- context [foldl _ ?w0 ?es] =>
    assert (Hw0 : flags_agree w0) by (by apply (flags_agree_same w));
    generalize dependent w0; generalize es
  end.
  intros es. induction es as [|e es IH]; intros w0 Hw0; [done|].
  cbn [foldl]. by apply IH, flags_agree_emitEvent.
Qed.

Lemma flags_agree_close w w' : flags_agree w → close w = Some w' → flags_agree w'.
Proof.
  intros Hw. unfold close.
  destruct (watchersClose None None _) as [w1|] eqn:Hclose; [|done].
  apply watchersClose_same_delivery in Hclose as (Hc & _ & He & Hr).
  cbn [closed emissions ready set_renameHandler] in Hc, He, Hr.
  assert (Hw1 : flags_agree w1) by (by apply (flags_agree_same w)).
  cbn [mbind option_bind]. unfold isClosed.
  destruct (closed w1) eqn:Hclosed; intros [= <-]; [done|].
  destruct Hw1 as (Hnone & Hcl & Hrd & Hp). unfold flags_agree. cbn. split_and!.
  - done.
  - intros _. by eexists.
  - intros Hready. rewrite List.filter_app, Hrd by done. done.
  - apply protocol_close; [done|by apply Hnone].
Qed.

Lemma flags_agree_call c w w' : flags_agree w → call w c = Some w' → flags_agree w'.
Proof.
  intros Hw. destruct c as [config|folderPath filePath| | |event targetPath targetPathNext|f];
    cbn [call].
  - intros [= <-]. by apply (flags_agree_same w).
  - intros (Hc & _ & He & Hr)%watchersClose_same_delivery. by apply (flags_agree_same w).
  - by apply flags_agree_close.
  - intros [= <-]. by apply flags_agree_setReady.
  - intros [= <-]. by apply flags_agree_emitEvent.
  - intros [= <-]. by apply flags_agree_renameWatchr.
Qed.

(** X28. Whatever the event managers, the rename handler, [watch] and
    the user call on a new watcher, as long as no listener calls the
    watcher while it is notified ([emit] runs the listeners synchronously;
    the calls of the sequence are made one after the other), [ready] is
    emitted at most once, [close] is emitted at most once, and nothing is
    emitted after [close]: once the watcher is closed the last emission is
    [close], and before it is closed [close] has not been emitted. *)
Theorem nothing_is_emitted_after_close cs w :
  calls cs new = Some w →
  protocol (emissions w) ∧
  (closed w = true → last (emissions w) = Some EmitClose) ∧
  (closed w = false → EmitClose ∉ emissions w).
Proof.
  intros Hcalls.
  assert (Hw : flags_agree w).
  { revert Hcalls. unfold calls.
    assert (Hnew : flags_agree new).
    { unfold flags_agree, protocol. cbn. split_and!; try done; try lia.
      intros pre post Heq. by destruct pre. }
    revert Hnew. generalize new. induction cs as [|c cs IH]; intros w0 Hw0.
    - by intros [= <-].
    - cbn [foldl mbind option_bind]. destruct (call w0 c) as [w1|] eqn:Hcall.
      + apply IH. by eapply flags_agree_call.
      + intros Hnone. exfalso. clear -Hnone. induction cs as [|c' cs IH]; [done|].
        by apply IH. }
  destruct Hw as (Hnone & Hcl & _ & Hp). split_and!; [done| |].
  - intros Hclosed. destruct (Hcl Hclosed) as [pre ->]. apply last_snoc.
  - intros Hopen Hin. apply list_elem_of_split in Hin as (pre & post & Heq).
    by eapply no_close_split; [apply Hnone|].
Qed.

(** [emitEvent] is [emitEvent_to] for listeners that do nothing to the
    watcher. *)
Lemma emitEvent_to_passive event targetPath targetPathNext w :
  emitEvent_to Some event targetPath targetPathNext w
  = Some (emitEvent event targetPath targetPathNext w).
Proof. unfold emitEvent_to, emitEvent. by destruct (isClosed w). Qed.

(** What the assumption on the listeners is for: a listener of [all] that
    closes the watcher when it is notified makes [close] come between the
    two emissions of [emitEvent], and the event is emitted after it. *)
Example listener_that_closes_is_notified_after_close :
  ∃ w, emitEvent_to close ADD "/a" None new = Some w ∧
       emissions w = [EmitAll ADD None "/a" None; EmitClose; EmitEvent ADD None "/a" None] ∧
       ¬ protocol (emissions w).
Proof.
  eexists. split; [vm_compute; reflexivity|]. split; [reflexivity|].
  intros (_ & _ & Hlast).
  by specialize (Hlast [EmitAll ADD None "/a" None] [EmitEvent ADD None "/a" None] eq_refl).
Qed.

End EmissionProtocol.

Lemma nothing_is_emitted_after_close_witness :
  let cs := [Watchr.SetReady; Watchr.CallEmitEvent ADD "/a" None; Watchr.Close;
             Watchr.CallEmitEvent CHANGE "/a" None; Watchr.SetReady; Watchr.Close] in
  ∃ w, Watchr.calls cs Watchr.new = Some w
       ∧ Watchr.emissions w
         = [Watchr.EmitReady; Watchr.EmitAll ADD None "/a" None;
            Watchr.EmitEvent ADD None "/a" None; Watchr.EmitClose]
       ∧ Watchr.protocol (Watchr.emissions w).
Proof.
  intros cs.
  destruct (Watchr.calls cs Watchr.new) as [w|] eqn:Hcalls;
    [|vm_compute in Hcalls; discriminate].
  exists w. split; [reflexivity|]. split.
  - vm_compute in Hcalls. injection Hcalls as <-. reflexivity.
  - exact (proj1 (nothing_is_emitted_after_close cs w Hcalls)).
Defined.

(* ===================================================================== *)
(** * Properties of [FileSystem.readDirectory] *)
(* ===================================================================== *)

Section ReadDirectoryProperties.
Import FileSystem.
Variable normalize : string → string.
Variable ignore : string → bool.

Lemma Dirent_ind (P : Dirent → Prop) :
  (∀ name, P (DirentFile name)) →
  (∀ name entries, (∀ es, entries = Some es → Forall P es) →
                   P (DirentDirectory name entries)) →
  (∀ name, P (DirentOther name)) →
  ∀ directoryEntry, P directoryEntry.
Proof.
  intros Hfile Hdirectory Hother. fix IH 1.
  intros [n|n entries|n]; [apply Hfile| |apply Hother].
  apply Hdirectory. destruct entries as [es|]; [|done]. intros es' [= <-].
  induction es as [|e es IHes]; constructor; [apply IH|apply IHes].
Qed.

Lemma foldl_None {A B} (f : A → B → option A) l :
  foldl (λ a b, a ≫= λ a, f a b) None l = None.
Proof. by induction l. Qed.

(** A loop over entries, step by step. *)
Lemma foldl_Some_inv {A B} (f : A → B → option A) (P : A → Prop) l : ∀ a a',
  Forall (λ b, ∀ a a', P a → f a b = Some a' → P a') l →
  P a → foldl (λ a b, a ≫= λ a, f a b) (Some a) l = Some a' → P a'.
Proof.
  induction l as [|b l IH]; intros a a' Hall Ha; [by intros [= <-]|].
  apply Forall_cons in Hall as [Hb Hall]. cbn [foldl mbind option_bind].
  destruct (f a b) as [a1|] eqn:Hf; [|by rewrite foldl_None].
  apply IH; [done|]. by eapply Hb.
Qed.

Lemma populateEntry_directory signal rootPath s n entries :
  populateEntry ignore signal rootPath s (DirentDirectory n entries)
  = let subPath := subPathPrefix rootPath +:+ n in
    if ignore subPath || bool_decide (subPath ∈ visited s) then Some s
    else populateResultFromPath ignore signal subPath entries
           (set_fileSystemEntries
              (FileSystemEntries.addDirectory subPath (fileSystemEntries (visit subPath s)))
              (visit subPath s)).
Proof. reflexivity. Qed.

Lemma under_subPath rootPath parent n :
  under rootPath parent →
  startsWith (subPathPrefix parent +:+ n) (subPathPrefix rootPath) = true.
Proof.
  intros [->|Hparent]; apply startsWith_spec.
  - by exists n.
  - apply startsWith_spec in Hparent as [rest ->].
    exists (rest +:+ (if decide (subPathPrefix rootPath +:+ rest = sep) then "" else sep) +:+ n).
    unfold subPathPrefix at 1. by rewrite !string_app_assoc.
Qed.

Lemma scanning_add rootPath path s e' :
  scanning ignore rootPath s →
  ignore path = false → path ∉ visited s →
  startsWith path (subPathPrefix rootPath) = true →
  (e' = FileSystemEntries.addDirectory path (fileSystemEntries s)
   ∨ e' = FileSystemEntries.addFile path (fileSystemEntries s)) →
  ∀ k, scanning ignore rootPath
         {| visited := set_add path (visited s); fileSystemEntries := e'; reads := k |}.
Proof.
  intros (Hroot & Hdirs & Hfiles & Hdisjoint & Hlisted) Hignore Hnew Hunder He' k.
  assert (Hfresh : path ∉ listed s) by (intros Hin; by apply Hlisted in Hin as [? _]).
  unfold listed in Hfresh. apply not_elem_of_app in Hfresh as [Hfd Hff].
  unfold scanning, listed. cbn [visited fileSystemEntries].
  assert (Hpath : path ≠ rootPath) by (by intros ->).
  destruct He' as [-> | ->]; cbn.
  - split_and!.
    + apply set_add_elem. by right.
    + apply NoDup_app. split_and!; [done| |apply NoDup_singleton].
      intros p Hp ->%list_elem_of_singleton. done.
    + done.
    + intros p [Hp| ->%list_elem_of_singleton]%elem_of_app; [by apply Hdisjoint|done].
    + intros p Hp. rewrite set_add_elem.
      rewrite <- app_assoc in Hp. apply elem_of_app in Hp as [Hp|Hp].
      * destruct (Hlisted p) as (? & ? & ? & ?); [apply elem_of_app; by left|]. eauto.
      * apply elem_of_cons in Hp as [->|Hp]; [eauto|].
        destruct (Hlisted p) as (? & ? & ? & ?); [apply elem_of_app; by right|]. eauto.
  - split_and!.
    + apply set_add_elem. by right.
    + done.
    + apply NoDup_app. split_and!; [done| |apply NoDup_singleton].
      intros p Hp ->%list_elem_of_singleton. done.
    + intros p Hp [Hf| ->%list_elem_of_singleton]%elem_of_app; [by eapply Hdisjoint|done].
    + intros p Hp. rewrite set_add_elem.
      rewrite app_assoc in Hp. apply elem_of_app in Hp as [Hp|Hp].
      * destruct (Hlisted p) as (? & ? & ? & ?); [done|]. eauto.
      * apply list_elem_of_singleton in Hp as ->. eauto.
Qed.

Lemma scanning_reads rootPath s k :
  scanning ignore rootPath s →
  scanning ignore rootPath
    {| visited := visited s; fileSystemEntries := fileSystemEntries s; reads := k |}.
Proof. done. Qed.

Lemma populateEntry_scanning signal rootPath directoryEntry : ∀ parent s s',
  under rootPath parent → scanning ignore rootPath s →
  populateEntry ignore signal parent s directoryEntry = Some s' →
  scanning ignore rootPath s'.
Proof.
  induction directoryEntry as [n|n entries IH|n] using Dirent_ind;
    intros parent s s' Hparent Hs.
  - cbn. destruct (ignore _) eqn:Hignore; [by intros [= <-]|].
    case_bool_decide as Hvisited; cbn [orb]; [by intros [= <-]|]. intros [= <-].
    apply (scanning_add rootPath _ s); auto using under_subPath.
  - rewrite populateEntry_directory. cbn zeta.
    destruct (ignore _) eqn:Hignore; [by intros [= <-]|].
    case_bool_decide as Hvisited; cbn [orb]; [by intros [= <-]|].
    unfold populateResultFromPath, aborted.
    cbn [visited fileSystemEntries reads visit set_fileSystemEntries].
    match goal with |- context [Some ?s1] =>
      assert (Hs1 : scanning ignore rootPath s1)
        by (apply (scanning_add rootPath _ s); auto using under_subPath)
    end.
    match goal with |- (if ?b then _ else _) = _ → _ => destruct b end;
      [by intros [= <-]|].
    destruct entries as [es|]; [|done]. cbn [mbind option_bind].
    apply (foldl_Some_inv _ (scanning ignore rootPath)); [|done].
    eapply Forall_impl; [by apply IH|]. intros e He a a' Ha. apply He; [|done].
    right. by apply under_subPath.
  - cbn. destruct (ignore _) eqn:Hignore; [by intros [= <-]|].
    case_bool_decide as Hvisited; cbn [orb]; [by intros [= <-]|]. intros [= <-].
    destruct Hs as (Hroot & Hdirs & Hfiles & Hdisjoint & Hlisted).
    split_and!; try done.
    + apply set_add_elem. by right.
    + intros p Hp. destruct (Hlisted p Hp) as (? & ? & ? & ?).
      split_and!; try done. apply set_add_elem. by right.
Qed.

Lemma scanning_start rootPath k :
  scanning ignore rootPath
    {| visited := set_add rootPath []; fileSystemEntries := FileSystemEntries.new;
       reads := k |}.
Proof.
  unfold scanning, listed. cbn. split_and!; try apply NoDup_nil_2.
  - apply list_elem_of_here.
  - by intros p Hp%elem_of_nil.
  - by intros p Hp%elem_of_nil.
Qed.

(** X26. What [readDirectory] returns, with or without a signal: no path
    is listed twice, in [directories] and [files] together; no listed
    path is ignored; every listed path starts with the normalized root
    and the separator (the root alone when it is the separator), and the
    root itself is not listed. *)
Theorem readDirectory_lists_unignored_paths_once signal rootPath entries r :
  readDirectory normalize ignore signal rootPath entries = Some r →
  NoDup (FileSystemEntries.directories r ++ FileSystemEntries.files r) ∧
  ∀ path, path ∈ FileSystemEntries.directories r ++ FileSystemEntries.files r →
    ignore path = false ∧ path ≠ normalize rootPath ∧
    startsWith path (subPathPrefix (normalize rootPath)) = true.
Proof.
  unfold readDirectory. cbn zeta.
  destruct (populateResultFromPath _ _ _ _ _) as [s|] eqn:Hpopulate; [|done].
  cbn [mbind option_bind]. unfold aborted.
  match goal with |- Some (if ?b then _ else _) = _ → _ => destruct b end.
  { intros [= <-]. split; [apply NoDup_nil_2|]. by intros p Hp%elem_of_nil. }
  cbn [fileSystemEntries]. intros [= <-].
  assert (Hs : scanning ignore (normalize rootPath) s).
  { revert Hpopulate. unfold populateResultFromPath, aborted.
    cbn [visited fileSystemEntries reads visit].
    match goal with |- (if ?b then _ else _) = _ → _ => destruct b end.
    - intros [= <-]. apply scanning_start.
    - destruct entries as [es|]; [|done]. cbn [mbind option_bind].
      apply (foldl_Some_inv _ (scanning ignore (normalize rootPath))).
      + apply Forall_forall. intros e _ a a' Ha.
        apply populateEntry_scanning; [by left|done].
      + apply scanning_start. }
  destruct Hs as (Hroot & Hdirs & Hfiles & Hdisjoint & Hlisted). split.
  - apply NoDup_app. split_and!; [done|by apply Hdisjoint|done].
  - intros p Hp. destruct (Hlisted p Hp) as (? & ? & ? & ?). done.
Qed.

Lemma populateEntry_reads signal directoryEntry : ∀ parent s s',
  populateEntry ignore signal parent s directoryEntry = Some s' →
  (reads s ≤ reads s')%nat.
Proof.
  induction directoryEntry as [n|n entries IH|n] using Dirent_ind; intros parent s s'.
  - cbn. destruct (_ || _); by intros [= <-].
  - rewrite populateEntry_directory. cbn zeta.
    destruct (_ || _); [by intros [= <-]|].
    unfold populateResultFromPath, aborted.
    cbn [visited fileSystemEntries reads visit set_fileSystemEntries].
    match goal with |- (if ?b then _ else _) = _ → _ => destruct b end;
      [intros [= <-]; cbn; lia|].
    destruct entries as [es|]; [|done]. cbn [mbind option_bind]. intros Hfold.
    enough (S (reads s) ≤ reads s')%nat by lia. revert Hfold.
    apply (foldl_Some_inv _ (λ a, S (reads s) ≤ reads a)%nat); [|done].
    eapply Forall_impl; [by apply IH|]. intros e He a a' Ha Hstep.
    apply He in Hstep. lia.
  - cbn. destruct (_ || _); by intros [= <-].
Qed.

(** A loop over entries during which the signal was not aborted runs as
    without a signal. *)
Lemma populateEntries_not_aborted n parent es : ∀ s s',
  Forall (λ e, ∀ parent s s',
            populateEntry ignore (Some n) parent s e = Some s' → (reads s' ≤ n)%nat →
            populateEntry ignore None parent s e = Some s') es →
  foldl (λ s e, s ≫= λ s, populateEntry ignore (Some n) parent s e) (Some s) es = Some s' →
  (reads s' ≤ n)%nat →
  foldl (λ s e, s ≫= λ s, populateEntry ignore None parent s e) (Some s) es = Some s'.
Proof.
  induction es as [|e es IH]; intros s s' Hall; [done|].
  apply Forall_cons in Hall as [He Hall]. cbn [foldl mbind option_bind].
  destruct (populateEntry ignore (Some n) parent s e) as [s1|] eqn:Hstep;
    [|by rewrite foldl_None].
  intros Hfold Hreads.
  assert (reads s1 ≤ reads s')%nat.
  { revert Hfold. apply (foldl_Some_inv _ (λ a, reads s1 ≤ reads a)%nat); [|done].
    apply Forall_forall. intros e' _ a a' Ha Hstep'.
    apply populateEntry_reads in Hstep'. lia. }
  rewrite (He parent s s1 Hstep) by lia. by apply IH.
Qed.

Lemma populateEntry_not_aborted n directoryEntry : ∀ parent s s',
  populateEntry ignore (Some n) parent s directoryEntry = Some s' → (reads s' ≤ n)%nat →
  populateEntry ignore None parent s directoryEntry = Some s'.
Proof.
  induction directoryEntry as [name|name entries IH|name] using Dirent_ind;
    intros parent s s'; [done| |done].
  rewrite !populateEntry_directory. cbn zeta.
  destruct (_ || _); [done|].
  unfold populateResultFromPath, aborted.
  cbn [visited fileSystemEntries reads visit set_fileSystemEntries].
  case_bool_decide as Hread.
  - intros [= <-]. cbn. lia.
  - destruct entries as [es|]; [|done]. cbn [mbind option_bind].
    apply populateEntries_not_aborted. by apply IH.
Qed.

Lemma populateEntry_readable signal directoryEntry : ∀ parent s,
  readable directoryEntry = true →
  is_Some (populateEntry ignore signal parent s directoryEntry).
Proof.
  induction directoryEntry as [name|name entries IH|name] using Dirent_ind;
    intros parent s Hreadable.
  - cbn. by destruct (_ || _).
  - rewrite populateEntry_directory. cbn zeta. destruct (_ || _); [done|].
    unfold populateResultFromPath, aborted.
    match goal with |- is_Some (if ?b then _ else _) => destruct b end; [done|].
    destruct entries as [es|]; [|done]. cbn [mbind option_bind readable] in *.
    specialize (IH es eq_refl).
    match goal with |- is_Some (foldl _ (Some ?s1) _) => generalize s1 end.
    induction es as [|e es IHes]; intros s1; [done|].
    apply Forall_cons in IH as [He IH]. cbn [forallb] in Hreadable.
    apply andb_prop in Hreadable as [Hr Hrs].
    cbn [foldl mbind option_bind].
    destruct (He (subPathPrefix parent +:+ name) s1 Hr) as [s2 ->]. by apply IHes.
  - cbn. by destruct (_ || _).
Qed.

(** X27. The outcomes of [readDirectory]. With a signal that is aborted
    from the start it returns the empty listing, without a [readdir]
    call. With a signal that is aborted at any later time it returns
    either the empty listing or exactly what it returns without a signal,
    never a part of it. And it is rejected only when a [readdir] call is:
    when every directory can be read, it returns. *)
Theorem readDirectory_outcomes rootPath entries :
  readDirectory normalize ignore (Some 0%nat) rootPath entries = Some FileSystemEntries.new
  ∧ (∀ n r,
       readDirectory normalize ignore (Some n) rootPath entries = Some r →
       r = FileSystemEntries.new
       ∨ readDirectory normalize ignore None rootPath entries = Some r)
  ∧ (∀ signal es,
       entries = Some es → forallb readable es = true →
       is_Some (readDirectory normalize ignore signal rootPath entries)).
Proof.
  split; [done|]. split; last first.
  { intros signal es -> Hreadable. unfold readDirectory. cbn zeta.
    enough (is_Some (populateResultFromPath ignore signal (normalize rootPath) (Some es)
                       (visit (normalize rootPath)
                          {| visited := []; fileSystemEntries := FileSystemEntries.new;
                             reads := 0 |}))) as [s ->] by done.
    unfold populateResultFromPath, aborted.
    match goal with |- is_Some (if ?b then _ else _) => destruct b end; [done|].
    cbn [mbind option_bind].
    match goal with |- is_Some (foldl _ (Some ?s1) _) => generalize s1 end.
    induction es as [|e es IHes]; intros s1; [done|].
    cbn [forallb] in Hreadable. apply andb_prop in Hreadable as [Hr Hrs].
    cbn [foldl mbind option_bind].
    destruct (populateEntry_readable signal e (normalize rootPath) s1 Hr) as [s2 ->].
    by apply IHes. }
  intros n r. unfold readDirectory. cbn zeta.
  destruct (populateResultFromPath ignore (Some n) _ _ _) as [s|] eqn:Hpopulate; [|done].
  cbn [mbind option_bind]. unfold aborted at 1. case_bool_decide as Hread.
  { intros [= <-]. by left. }
  cbn [fileSystemEntries]. intros [= <-]. right.
  revert Hpopulate. unfold populateResultFromPath, aborted.
  cbn [visited fileSystemEntries reads visit].
  case_bool_decide as Hread0; [intros [= <-]; cbn in Hread; lia|].
  destruct entries as [es|]; [|done]. cbn [mbind option_bind]. intros Hfold.
  rewrite (populateEntries_not_aborted n _ es _ s); [done| |done|lia].
  apply Forall_forall. intros e _. apply populateEntry_not_aborted.
Qed.

End ReadDirectoryProperties.

Lemma readDirectory_lists_unignored_paths_once_witness :
  let tree := [FileSystem.DirentFile "a";
               FileSystem.DirentDirectory "d"
                 (Some [FileSystem.DirentFile "b"; FileSystem.DirentFile "skip"]);
               FileSystem.DirentFile "a"] in
  let r := {| FileSystemEntries._directories := ["/r/d"];
              FileSystemEntries._files := ["/r/a"; "/r/d/b"] |} in
  FileSystem.readDirectory id (λ path, bool_decide (path = "/r/d/skip")) None "/r" (Some tree)
  = Some r
  ∧ NoDup (FileSystemEntries.directories r ++ FileSystemEntries.files r).
Proof.
  intros tree r.
  assert (FileSystem.readDirectory id (λ path, bool_decide (path = "/r/d/skip")) None "/r"
            (Some tree) = Some r) as Hr by (vm_compute; reflexivity).
  split; [exact Hr|].
  exact (proj1 (readDirectory_lists_unignored_paths_once id _ None "/r" (Some tree) r Hr)).
Defined.
